(* ===== verification/_CoqProject ===== *)
-Q . S2P
Prelude.v
Prog.v
Externals.v
RustStr.v
Status.v
Error.v
Model.v
Float64.v
Backoff.v
UnitTests.v
Row.v
Sql.v
Statements.v
Store.v
PgStore.v
Lifecycle.v
Invariant.v
Integrity.v
StoreProps.v
Faults.v
Submission.v
Reaper.v
Concurrency.v
Leases.v
Liveness.v
Schema.v
Races.v
Transitions.v
StoreLaws.v
PgLaws.v
Telemetry.v
QueueService.v
Maintenance.v
Handlers.v
WorkerConfig.v
Worker.v
EndToEnd.v
Runtime.v
Api.v
Clients.v
Router.v
Http.v
Binaries.v
Sse.v
Streams.v
IntegrationTests.v
Witnesses.v
