(* ===== verification/Prelude.v ===== *)
(** * A verification library for the distributed job queue

    The program is a job queue over PostgreSQL: an API server accepts jobs,
    worker processes lease and execute them, and a reaper recovers the jobs of
    workers that died.  All of them talk to one database, through one trait.
    This library models the Rust crates under [src/crates] and the schema of
    [crates/storage/migrations/0001_init.sql], and proves what makes the queue
    correct.

    ** The parts and how they interact

    [api] handlers, the [worker] run loop and the [queue::maintenance] loop call
    [queue::QueueService], which validates requests, records metrics and calls
    the [Store] trait; [storage::PgStore] implements the trait with SQL
    statements and transactions.  Any number of clients run at once, and only a
    statement or a transaction is atomic.

    The model follows these seams.  A computation is a tree of requests to an
    effect signature ([Prog.prog]): the service, the worker and the API are
    programs over the trait ([Store.StoreE], wrapped with the clock and the
    metrics in [QueueService.SvcE]), so their theorems hold against every
    backend; [PgStore] is a program over the statements it sends
    ([Statements.DbReq]), and [Statements.exec] executes a statement on the
    tables ([Sql.Db]).  Concurrency is the interleaving of such programs, one
    request at a time ([Concurrency.sys_step]).

    ** The files

    Shared:
    - [Prelude]: results, machine integers, record updates, sorting by a key;
    - [Prog]: programs over an effect signature, their runs and invariants;
    - [Externals]: what comes from serde_json, uuid, chrono and sqlx, as a class
      of parameters, with a concrete instance for the witnesses;
    - [RustStr], [Float64]: the parts of [str], [f64] and [Duration] in use.

    [djq-core] ([crates/core/src]):
    - [Status] (status.rs), [Error] (error.rs), [Model] (model.rs),
      [Backoff] (backoff.rs), [Store] (store.rs).

    [djq-storage] ([crates/storage/src], the migration):
    - [Row] (row.rs); [Sql]: the tables, the environment of a statement,
      transactions and connection faults; [Statements]: each SQL text of lib.rs
      as a function, with the three transactions; [PgStore]: the methods.

    About the store:
    - [Lifecycle]: the abstract specification, an automaton on one job row, and
      the refinement theorem: no request in any environment does anything to a
      row but a step of the automaton;
    - [Invariant]: well-formed rows, and which event makes which change of
      status;
    - [Integrity]: the attempt history, the invariant [db_ok] of the tables;
    - [StoreProps], [Submission], [Reaper]: the functional behaviour of each
      method, on every branch, when no one interferes;
    - [Faults]: which database errors each request can be answered with;
    - [Concurrency]: what survives any interleaving and any fault: integrity,
      fencing of leases, the attempt budget, exactly-once leasing when nothing
      fails, finality, idempotency;
    - [Leases]: what a lease gives its holder: a report before the lease ends is
      accepted, whatever the others do;
    - [Liveness]: infinite executions, and the fairness under which the queue
      drains;
    - [Schema]: the migration as data, what it demands of the contents of the
      tables, and that they always satisfy it;
    - [Races]: two interleavings and what they leave behind;
    - [Transitions]: the sixteen status changes the store makes, each with the
      operation that makes it, against the transition table;
    - [StoreLaws]: what the trait promises its callers, as a class of backends
      with laws on their answers; [PgLaws]: [PgStore] in the midst of other
      clients is an instance.

    The clients:
    - [Telemetry] (crates/telemetry/src/lib.rs): the collectors and the
      operations on them;
    - [QueueService], [Maintenance] (crates/queue/src): the service and its
      sweeps;
    - [Handlers] (crates/worker/src/lib.rs, handlers.rs), [WorkerConfig]
      (config.rs), [Worker] (execute_job and the heartbeat of runtime.rs),
      [Runtime] (the run loop of runtime.rs as a state machine);
    - [EndToEnd]: the worker on [PgStore], turn by turn, until a job is done;
    - [Api] (crates/api/src/error.rs, routes.rs, config.rs), [Sse] (sse.rs),
      [Router] (lib.rs: the table of routes, the arguments, the layers),
      [Clients]: the handlers and the worker on any lawful store, and the
      requests they make, [Http]: the same through the router, [Streams]: the
      event stream of a job, opened through the router and read later;
    - [Binaries]: the two main.rs and the startup of [PgStore].

    The tests of [djq-core] are evaluated in [UnitTests], those of
    [integration-tests] in [IntegrationTests]: they are programs too, and pass
    on the model from an empty database.
    [Witnesses] applies the theorems that have hypotheses to a small database.

    ** The modelling choices

    Integers are [Z], with the wrap-around of each [as] cast written out and
    their ranges in the invariants; PostgreSQL's INTEGER and TIMESTAMPTZ
    overflows are errors of the statement.  Timestamps are microseconds, the
    resolution of TIMESTAMPTZ ([chrono] has nanoseconds, which the database
    drops).  [f64] is the standard library's specification of binary64.

    A statement is a function of its environment ([Sql.Env]) and the tables.
    The environment has what the program does not decide: the value of now(),
    the rows locked by others (skipped by SKIP LOCKED), the physical order of
    the rows (which breaks the ties of an ORDER BY), the collation, the next
    random id, and a connection fault, before or after the statement took
    effect.  The theorems about concurrency quantify over all of it; those
    about a method run alone assume [StoreProps.quiet], no connection fault.
    A statement that blocks on a row lock is one that runs later.  A sequence
    is modelled as rolled back with its transaction; only the uniqueness of
    the numbers it gives is used.

    A panic of a task is a leaf of its program.  The metrics are effects,
    recorded in order.

    ** The theorems

    Safety of the shared tables: integrity under every interleaving, the
    refinement of the lifecycle, lease fencing (no one but the holder, a
    cancellation or the reaper after expiry ends a lease; a report in time is
    accepted), the attempt budget, a job handed out once when nothing fails,
    finality of finished jobs, idempotent submission over time, absence of
    panics, the status changes there are, and every constraint of the
    migration; the INSERT of a job is accepted exactly when the constraints
    hold, and each request has a short list of errors the database can answer
    it with.  Liveness of the whole
    system: once nothing new comes in, and as long as workers poll and the
    reaper sweeps, every job reaches an end and stays there.

    Functional behaviour of every operation, errors included: leasing (order
    and progress), completion, failure, renewal, cancellation, retry, purge,
    submission with its insertion race, counting and paging, the reaper in
    batches and past locked rows, the workers' registry.  The backoff: the
    floating-point delay of a policy is exactly [min(base * 2^min(n-1, 32), max)],
    which is the documented [min(base * 2^(n-1), max)] unless the cap is above
    [base * 2^32], and on the rows there are the worker and the reaper, one in
    Rust and the other in SQL, compute the same.  Validation of submissions,
    against requirements stated on their own.  The service's metrics, the worker's execution of a job,
    bounded concurrency and the graceful shutdown from the moment it is asked
    for, the sweeps, the HTTP statuses, the event stream to its closing event.

    The composition: [PgStore] refines the contract of the trait; from the
    contract alone, a job that was submitted over HTTP is found again, a second
    POST under its idempotency key answers with the same job, an accepted
    result or cancellation stays, and a result is streamed to who asks for it;
    a worker alone with a job, taking turns, brings it to an end; every request of every client is well formed for
    the callee.  The route table is exact, every answer carries its
    correlation id, and both processes come up in order.

    ** Fuel

    [Sse.poll_loop] is the only recursion with fuel: [next_event] gives it one
    more than the polls that are left of [MAX_POLLS], and [sse_stream_spec]
    shows that it never runs out.  The loops that end by an external event
    (maintenance, heartbeat, the run loop) are functions of the sequence of
    events, over all sequences.  Liveness is about infinite executions, given
    as functions of the instant: the work left in the table
    ([Liveness.row_work]) bounds the grants and endings still to come.

    ** What is not modelled

    Code of the frameworks: [axum]'s routing and extraction, the layers of
    [tower_http], [serde]'s (de)serialization, [prometheus]'s registry and text
    encoder, [tracing]'s output, [tokio]'s scheduler, [sqlx]'s pool and
    migration runner.  Where a definition needs one of them it is a parameter
    ([Router.Axum], [Externals], the answers of [Binaries.MainE]), and its
    documented behaviour is a law.  The order and the direction of the indexes
    of the schema (they change no answer), and the Windows variant of
    [wait_for_signal].  PostgreSQL's refusal of a text that contains a NUL
    character: the model stores it.  The numeric ranges of the columns are
    those of the Rust types the rows are read into.  *)

From stdpp Require Export base tactics numbers strings list gmap sorting.
From stdpp Require Import options.
#[export] Set Default Proof Using "Type".
#[export] Set Default Goal Selector "!".

Global Open Scope Z_scope.

(** ** Results: [std::result::Result] *)

Inductive result (E A : Type) : Type :=
| Ok (a : A)
| Err (e : E).
Arguments Ok {E A} a.
Arguments Err {E A} e.

(** [Result::map_err] *)
Definition map_err {E F A} (f : E → F) (r : result E A) : result F A :=
  match r with Ok a => Ok a | Err e => Err (f e) end.

(** [Option::ok_or] *)
Definition ok_or {E A} (e : E) (o : option A) : result E A :=
  match o with Some a => Ok a | None => Err e end.

(** The [?] operator inside a pure function. *)
Definition res_bind {E A B} (r : result E A) (k : A → result E B) : result E B :=
  match r with Ok a => k a | Err e => Err e end.

(** [iter.map(f).collect::<Result<Vec<_>>>()]: the first error wins. *)
Fixpoint collect_results {E A B} (f : A → result E B) (l : list A) : result E (list B) :=
  match l with
  | [] => Ok []
  | a :: l' => res_bind (f a) (λ b, res_bind (collect_results f l') (λ bs, Ok (b :: bs)))
  end.

Lemma collect_results_Ok {E A B} (f : A → result E B) (g : A → B) l :
  (∀ a, a ∈ l → f a = Ok (g a)) → collect_results f l = Ok (g <$> l).
Proof.
  induction l as [|a l IH]; intros H; [done|].
  simpl. rewrite H by set_solver. simpl. rewrite IH by set_solver. done.
Qed.

(** ** Machine integers *)

(** Rust's fixed-width integers are kept as [Z] with their range, and each
    [as] cast wraps the way the reference says it does. *)
Definition i32_min : Z := - 2 ^ 31.
Definition i32_max : Z := 2 ^ 31 - 1.
Definition i64_min : Z := - 2 ^ 63.
Definition i64_max : Z := 2 ^ 63 - 1.
Definition u32_max : Z := 2 ^ 32 - 1.
Definition u64_max : Z := 2 ^ 64 - 1.

Definition is_i32 (z : Z) : Prop := i32_min ≤ z ≤ i32_max.
Definition is_i64 (z : Z) : Prop := i64_min ≤ z ≤ i64_max.

(** [z as u32], [z as u64] and [z as usize] (on a 64-bit target). *)
Definition as_u32 (z : Z) : Z := z mod 2 ^ 32.
Definition as_u64 (z : Z) : Z := z mod 2 ^ 64.
(** [z as i32]: keep the low 32 bits, read as two's complement. *)
Definition as_i32 (z : Z) : Z := (z + 2 ^ 31) mod 2 ^ 32 - 2 ^ 31.

Lemma as_u32_small z : 0 ≤ z ≤ u32_max → as_u32 z = z.
Proof. unfold as_u32, u32_max. intros. apply Z.mod_small. lia. Qed.

Lemma as_u64_small z : 0 ≤ z ≤ u64_max → as_u64 z = z.
Proof. unfold as_u64, u64_max. intros. apply Z.mod_small. lia. Qed.

Lemma as_i32_small z : is_i32 z → as_i32 z = z.
Proof. unfold as_i32, is_i32, i32_min, i32_max. intros. rewrite Z.mod_small; lia. Qed.

(** [z.clamp(lo, hi)] for [lo <= hi]. *)
Definition clamp (lo hi z : Z) : Z := Z.min hi (Z.max lo z).

Lemma clamp_bounds lo hi z : lo ≤ hi → lo ≤ clamp lo hi z ≤ hi.
Proof. unfold clamp. lia. Qed.

Lemma clamp_id lo hi z : lo ≤ z ≤ hi → clamp lo hi z = z.
Proof. unfold clamp. lia. Qed.

(** ** Record update

    [r <| f := v |>] replaces one field of a record and [r <| f ::= g |>]
    maps one.  A record joins by declaring its eta-expansion; the setters are
    then found by instance search and reduce under [cbn]. *)

Class Eta (R : Type) := eta_expand : R → R.
Class Setter {R E : Type} (getter : R → E) := set : (E → E) → R → R.
Arguments set {R E} getter {_} f r.

Ltac solve_setter R E getter :=
  exact (fun (upd : E → E) (r : R) =>
    ltac:(let inst := constr:(_ : Eta R) in
          let inst := lazymatch inst with ?h => h end in
          let b := eval cbv beta delta [eta_expand] in (@eta_expand R inst r) in
          let b := eval red in b in
          match b with
          | context C [getter r] => let b' := context C [upd (getter r)] in exact b'
          end)).

#[export] Hint Extern 0 (@Setter ?R ?E ?getter) =>
  solve_setter R E getter : typeclass_instances.

Notation "r <| f := v |>" := (set f (λ _, v) r)
  (at level 1, left associativity, f at level 9, v at level 200,
   format "r  <| f  :=  v |>").
Notation "r <| f ::= g |>" := (set f g r)
  (at level 1, left associativity, f at level 9, g at level 200,
   format "r  <| f  ::=  g |>").

(** ** Sorting by keys

    The order of an ORDER BY: a row's key is the list of its sort columns, a
    DESC column negated, and keys compare lexicographically. *)

Fixpoint lex_leb (k1 k2 : list Z) : bool :=
  match k1, k2 with
  | [], _ => true
  | _ :: _, [] => false
  | a :: k1', b :: k2' => (a <? b) || ((a =? b) && lex_leb k1' k2')
  end.

Definition lex_le (k1 k2 : list Z) : Prop := lex_leb k1 k2 = true.

#[export] Instance lex_le_dec k1 k2 : Decision (lex_le k1 k2) :=
  decide (lex_leb k1 k2 = true).

#[export] Instance lex_le_refl : Reflexive lex_le.
Proof.
  intros k. unfold lex_le. induction k as [|a k IH]; [done|].
  cbn. rewrite Z.eqb_refl, IH. apply orb_true_r.
Qed.

Lemma lex_le_cons a k1 b k2 :
  lex_le (a :: k1) (b :: k2) ↔ a < b ∨ (a = b ∧ lex_le k1 k2).
Proof.
  unfold lex_le. cbn. rewrite orb_true_iff, andb_true_iff, Z.ltb_lt, Z.eqb_eq. done.
Qed.

#[export] Instance lex_le_trans : Transitive lex_le.
Proof.
  intros k1. induction k1 as [|a k1 IH]; intros [|b k2] [|c k3]; try done.
  rewrite !lex_le_cons. intros [|[-> ?]] [|[-> ?]]; [left; lia|left; lia|left; lia|].
  right. eauto.
Qed.

#[export] Instance lex_le_total : Total lex_le.
Proof.
  intros k1. induction k1 as [|a k1 IH]; intros [|b k2]; [by left|by left|by right|].
  rewrite !lex_le_cons. destruct (IH k2), (Z.lt_total a b) as [|[|]]; auto with lia.
Qed.

Lemma StronglySorted_weaken {A} (R S : relation A) l :
  (∀ x y, R x y → S x y) → StronglySorted R l → StronglySorted S l.
Proof. intros HRS. induction 1; constructor; [done|]. eapply Forall_impl; eauto. Qed.

Lemma StronglySorted_filter {A} (R : relation A) (P : A → Prop) `{∀ x, Decision (P x)} l :
  StronglySorted R l → StronglySorted R (filter P l).
Proof.
  induction 1 as [|x l _ IH Hall]; [constructor|]. rewrite filter_cons. case_decide; [|done].
  constructor; [done|]. rewrite Forall_forall in Hall |- *.
  intros y [_ Hy]%list_elem_of_filter. auto.
Qed.

Definition order_by {R} (key : R → list Z) (l : list R) : list R :=
  merge_sort (λ a b, lex_le (key a) (key b)) l.

Section order_by.
Context {R : Type} (key : R → list Z).
Let le (a b : R) : Prop := lex_le (key a) (key b).
#[local] Instance le_trans : Transitive le.
Proof. intros a b c. apply lex_le_trans. Qed.
#[local] Instance le_total : Total le.
Proof. intros a b. apply lex_le_total. Qed.

Lemma order_by_perm l : order_by key l ≡ₚ l.
Proof. apply merge_sort_Permutation. Qed.

Lemma order_by_sorted l : StronglySorted le (order_by key l).
Proof. apply (StronglySorted_merge_sort le). Qed.

Lemma elem_of_order_by x l : x ∈ order_by key l ↔ x ∈ l.
Proof. by rewrite order_by_perm. Qed.

(** What remains of a sorted list after a filter starts with its least
    element. *)
Lemma order_by_filter_head (P : R → Prop) `{∀ x, Decision (P x)} l r rest :
  filter P (order_by key l) = r :: rest →
  r ∈ l ∧ P r ∧ ∀ x, x ∈ l → P x → lex_le (key r) (key x).
Proof.
  intros Hf.
  assert (r ∈ filter P (order_by key l)) as Hr by (rewrite Hf; set_solver).
  rewrite list_elem_of_filter, elem_of_order_by in Hr.
  split_and!; [naive_solver..|]. intros x Hx HP.
  assert (x ∈ filter P (order_by key l)) as Hin
    by (rewrite list_elem_of_filter, elem_of_order_by; done).
  rewrite Hf in Hin. apply elem_of_cons in Hin as [->|Hin]; [apply lex_le_refl|].
  pose proof (order_by_sorted l) as Hs. revert Hf Hs.
  generalize (order_by key l). clear -Hin. intros k. induction k as [|y k IH]; [done|].
  rewrite filter_cons. case_decide.
  - intros [= -> <-] [_ Hall]%StronglySorted_inv.
    rewrite list_elem_of_filter in Hin. rewrite Forall_forall in Hall. naive_solver.
  - intros Hf [Hs _]%StronglySorted_inv. eauto.
Qed.

Lemma order_by_filter_nil (P : R → Prop) `{∀ x, Decision (P x)} l :
  filter P (order_by key l) = [] ↔ ∀ x, x ∈ l → ¬ P x.
Proof.
  split.
  - intros Hf x Hx HP.
    assert (x ∈ filter P (order_by key l)) as Hin
      by (rewrite list_elem_of_filter, elem_of_order_by; done).
    rewrite Hf in Hin. by apply elem_of_nil in Hin.
  - intros Hn. apply elem_of_nil_inv. intros x.
    rewrite list_elem_of_filter, elem_of_order_by. naive_solver.
Qed.
End order_by.

(** ** Tactics *)

(** Case analysis on the boolean test of some [if] of the goal, outermost
    first. *)
Ltac case_test :=
  match goal with
  | |- context [if ?b then _ else _] =>
      lazymatch type of b with bool => destruct b eqn:? end
  end.

(** The same, in a hypothesis. *)
Ltac case_test_in H :=
  match type of H with
  | context [if ?b then _ else _] =>
      lazymatch type of b with bool => destruct b eqn:? end
  end.
