(* ===== verification/Prog.v ===== *)
(** * Effectful programs

    The async Rust code is written against objects whose behaviour is not its
    own: a database connection, an [Arc<dyn Store>], a clock, a handler.  A
    computation is therefore a tree of requests to an effect signature [E],
    with the panic of a Rust task as a third kind of leaf.  A handler turns
    the tree into a state transformer ([run]) or into a program over a lower
    signature ([interp]). *)

From S2P Require Import Prelude.
From stdpp Require Import options.

Inductive prog (E : Type → Type) (A : Type) : Type :=
| Ret (a : A)
| Vis {X : Type} (e : E X) (k : X → prog E A)
| Panic.
Arguments Ret {E A} a.
Arguments Vis {E A X} e k.
Arguments Panic {E A}.

Definition trigger {E : Type → Type} {X} (e : E X) : prog E X := Vis e Ret.

Fixpoint prog_bind {E A B} (k : A → prog E B) (p : prog E A) : prog E B :=
  match p with
  | Ret a => k a
  | Vis e k' => Vis e (λ x, prog_bind k (k' x))
  | Panic => Panic
  end.

#[export] Instance prog_mret E : MRet (prog E) := @Ret E.
#[export] Instance prog_mbind E : MBind (prog E) := λ A B, @prog_bind E A B.

(** [let x = m?;] in a function that returns a [Result]. *)
Definition bind_ok {E Er A B} (k : A → prog E (result Er B)) (p : prog E (result Er A))
  : prog E (result Er B) :=
  prog_bind (λ r, match r with Ok a => k a | Err e => Ret (Err e) end) p.

Notation "x ←? m ; k" := (bind_ok (λ x, k) m)
  (at level 20, m at level 100, k at level 200, right associativity).
Notation "m ;? k" := (bind_ok (λ _, k) m)
  (at level 100, k at level 200, right associativity).

(** [p.map_err(f)] on the result of an awaited call. *)
Definition map_err_p {E Er Fr A} (f : Er → Fr) (p : prog E (result Er A))
  : prog E (result Fr A) :=
  prog_bind (λ r, Ret (map_err f r)) p.

(** ** Running a program

    [run h p s]: the requests of [p] are answered by [h] from left to right.
    [None] is a panic; the state is the one the panic left. *)
Section run.
Context {E : Type → Type} {S : Type}.
Variable h : ∀ X, E X → S → X * S.

Fixpoint run {A} (p : prog E A) (s : S) : option A * S :=
  match p with
  | Ret a => (Some a, s)
  | Vis e k => let '(x, s') := h _ e s in run (k x) s'
  | Panic => (None, s)
  end.

Lemma run_bind {A B} (p : prog E A) (k : A → prog E B) s :
  run (p ≫= k) s =
    match run p s with
    | (Some a, s') => run (k a) s'
    | (None, s') => (None, s')
    end.
Proof.
  revert s. induction p as [a|X e k' IH|]; intros s; [done| |done].
  cbn. destruct (h _ e s) as [x s']. apply IH.
Qed.

Lemma run_bind_ok {Er A B} (p : prog E (result Er A)) (k : A → prog E (result Er B)) s :
  run (bind_ok k p) s =
    match run p s with
    | (Some (Ok a), s') => run (k a) s'
    | (Some (Err e), s') => (Some (Err e), s')
    | (None, s') => (None, s')
    end.
Proof.
  unfold bind_ok. change (prog_bind ?f p) with (p ≫= f). rewrite run_bind.
  destruct (run p s) as [[[a|e]|] s']; done.
Qed.

Lemma run_trigger {X} (e : E X) s :
  run (trigger e) s = let '(x, s') := h _ e s in (Some x, s').
Proof. done. Qed.
End run.

(** ** Interpreting one signature in another *)
Section interp.
Context {E F : Type → Type}.
Variable f : ∀ X, E X → prog F X.

Fixpoint interp {A} (p : prog E A) : prog F A :=
  match p with
  | Ret a => Ret a
  | Vis e k => prog_bind (λ x, interp (k x)) (f _ e)
  | Panic => Panic
  end.
End interp.

(** Every request [p] can ever make satisfies [P]. *)
Fixpoint all_reqs {E A} (P : ∀ X, E X → Prop) (p : prog E A) : Prop :=
  match p with
  | Ret _ | Panic => True
  | Vis e k => P _ e ∧ ∀ x, all_reqs P (k x)
  end.

Section all_reqs.
Context {E : Type → Type} (P : ∀ X, E X → Prop).

Lemma all_reqs_bind {A B} (p : prog E A) (k : A → prog E B) :
  all_reqs P p → (∀ a, all_reqs P (k a)) → all_reqs P (prog_bind k p).
Proof. induction p; cbn; naive_solver. Qed.

Lemma all_reqs_bind_ok {Er A B} (p : prog E (result Er A)) (k : A → prog E (result Er B)) :
  all_reqs P p → (∀ a, all_reqs P (k a)) → all_reqs P (bind_ok k p).
Proof. intros Hp Hk. apply all_reqs_bind; [done|]. intros []; cbn; auto. Qed.

Lemma all_reqs_map_err {Er Fr A} (g : Er → Fr) (p : prog E (result Er A)) :
  all_reqs P p → all_reqs P (map_err_p g p).
Proof. intros Hp. apply all_reqs_bind; [done|]. done. Qed.

Lemma all_reqs_trigger {X} (e : E X) : P X e → all_reqs P (trigger e).
Proof. done. Qed.
End all_reqs.

Lemma all_reqs_interp {E F : Type → Type} (f : ∀ X, E X → prog F X)
    (P : ∀ X, E X → Prop) (Q : ∀ X, F X → Prop) {A} (p : prog E A) :
  (∀ X (e : E X), P X e → all_reqs Q (f X e)) → all_reqs P p → all_reqs Q (interp f p).
Proof.
  intros Hf. induction p as [a|X e k IH|]; intros Hp; [done| |done].
  cbn in *. destruct Hp as [He Hk]. apply all_reqs_bind; auto.
Qed.

(** A property of the state that every answered request keeps is kept by the
    whole run. *)
Lemma run_invariant {E : Type → Type} {S A} (h : ∀ X, E X → S → X * S)
    (P : ∀ X, E X → Prop) (I : S → Prop) :
  (∀ X (e : E X) s, P X e → I s → I (h X e s).2) →
  ∀ (p : prog E A) s, all_reqs P p → I s → I (run h p s).2.
Proof.
  intros Hh p. induction p as [a|X e k IH|]; intros s Hp Hs; [done| |done].
  cbn in *. destruct Hp as [He Hk].
  specialize (Hh X e s He Hs). destruct (h X e s) as [x s']. cbn in Hh. auto.
Qed.

(** ** Postconditions

    [ends_in h p s Q]: if the run of [p] from [s] ends without a panic, then
    with an answer and a state that satisfy [Q]. *)
Definition ends_in {E : Type → Type} {S A} (h : ∀ X, E X → S → X * S) (p : prog E A) (s : S)
    (Q : A → S → Prop) : Prop :=
  ∀ a s', run h p s = (Some a, s') → Q a s'.

Section ends_in.
Context {E : Type → Type} {S : Type} (h : ∀ X, E X → S → X * S).

Lemma ends_in_ret {A} (a : A) s (Q : A → S → Prop) : Q a s → ends_in h (Ret a) s Q.
Proof. intros HQ a' s' Hrun. cbn in Hrun. by simplify_eq. Qed.

Lemma ends_in_weaken {A} (p : prog E A) s (Q Q' : A → S → Prop) :
  ends_in h p s Q → (∀ a s', Q a s' → Q' a s') → ends_in h p s Q'.
Proof. intros Hp HQ a s' Hrun. by apply HQ, Hp. Qed.

Lemma ends_in_bind {A B} (p : prog E A) (k : A → prog E B) s (R : A → S → Prop)
    (Q : B → S → Prop) :
  ends_in h p s R → (∀ a s', R a s' → ends_in h (k a) s' Q) → ends_in h (p ≫= k) s Q.
Proof.
  intros Hp Hk b s'. rewrite run_bind. destruct (run h p s) as [[a|] s1] eqn:Hr; [|done].
  apply Hk. by apply Hp.
Qed.

(** The rule of [?]: an error leaves with itself. *)
Lemma ends_in_bind_ok {Er A B} (p : prog E (result Er A)) (k : A → prog E (result Er B)) s
    (R : A → S → Prop) (Q : result Er B → S → Prop) :
  ends_in h p s (λ r s', match r with Ok a => R a s' | Err e => Q (Err e) s' end) →
  (∀ a s', R a s' → ends_in h (k a) s' Q) → ends_in h (bind_ok k p) s Q.
Proof.
  intros Hp Hk. apply (ends_in_bind p _ _ _ _ Hp).
  intros [a|e] s' HR; [by apply Hk|by apply ends_in_ret].
Qed.
End ends_in.

(** No run of the program panics, whatever the answers. *)
Fixpoint never_panics {E A} (p : prog E A) : Prop :=
  match p with
  | Ret _ => True
  | Vis e k => ∀ x, never_panics (k x)
  | Panic => False
  end.

Section never_panics.
Context {E : Type → Type}.

Lemma never_panics_bind {A B} (p : prog E A) (k : A → prog E B) :
  never_panics p → (∀ a, never_panics (k a)) → never_panics (prog_bind k p).
Proof. induction p; cbn; naive_solver. Qed.

Lemma never_panics_bind_ok {Er A B} (p : prog E (result Er A)) (k : A → prog E (result Er B)) :
  never_panics p → (∀ a, never_panics (k a)) → never_panics (bind_ok k p).
Proof. intros Hp Hk. apply never_panics_bind; [done|]. intros []; cbn; auto. Qed.

Lemma never_panics_map_err {Er Fr A} (g : Er → Fr) (p : prog E (result Er A)) :
  never_panics p → never_panics (map_err_p g p).
Proof. intros Hp. by apply never_panics_bind. Qed.

Lemma never_panics_run {S A} (h : ∀ X, E X → S → X * S) (p : prog E A) s :
  never_panics p → (run h p s).1 ≠ None.
Proof.
  revert s. induction p as [a|X e k IH|]; intros s Hp; [done| |done].
  cbn in *. destruct (h X e s) as [x s']. by apply IH.
Qed.
End never_panics.

Create HintDb prog discriminated.
Create Rewrite HintDb prog.
#[export] Hint Rewrite @run_bind @run_bind_ok @run_trigger : prog.
#[export] Hint Resolve all_reqs_bind_ok all_reqs_map_err all_reqs_trigger : prog.
