(* ===== verification/Externals.v ===== *)
(** * What the program takes from its dependencies

    [serde_json], [uuid], [chrono] and the text of database errors are code
    outside the repository: the development is parametric in them.  The class
    lists the operations the source calls; [ChronoLaws] is the documented
    behaviour some theorems rely on.  [demo_externals] is a concrete instance,
    with which the witnesses compute. *)

From Stdlib Require Export SpecFloat.
From Stdlib Require Import Ascii DecimalString DecimalN.
From S2P Require Import Prelude.
From stdpp Require Import options.

(** A UUID is only ever compared, used as a key and displayed. *)
Abbreviation Uuid := N (only parsing).
(** [DateTime<Utc>] and [TIMESTAMPTZ], in microseconds since the epoch. *)
Abbreviation Timestamp := Z (only parsing).
(** [f64]: the standard library's specification of IEEE-754 binary64. *)
Abbreviation f64 := spec_float (only parsing).

Class Externals := {
  (** [serde_json::Value] *)
  Json : Type;
  json_object : list (string * Json) → Json;
  json_of_f64 : f64 → Json;
  json_of_int : Z → Json;
  json_get : Json → string → option Json;
  json_as_array : Json → option (list Json);
  json_as_str : Json → option string;
  json_as_i64 : Json → option Z;
  json_as_u64 : Json → option Z;
  json_as_f64 : Json → option f64;
  json_to_string : Json → string;
  (** [uuid::Uuid]'s [Display] *)
  uuid_to_string : N → string;
  (** [t + Duration::seconds(d)] of [chrono]; [None] is its panic when the
      duration or the sum is out of range. *)
  chrono_add_secs : Z → Z → option Z;
  (** [t - Duration::seconds(d)] *)
  chrono_sub_secs : Z → Z → option Z;
  (** [Display] of the [sqlx::Error] carrying a database error code *)
  pg_error_text : string → string;
}.

(** One second, in the unit of timestamps. *)
Definition second : Z := 1000000.

(** Documented: when the operators return, the sum is exact. *)
Class ChronoLaws (X : Externals) : Prop := {
  chrono_add_exact t d t' : chrono_add_secs t d = Some t' → t' = t + d * second;
  chrono_sub_exact t d t' : chrono_sub_secs t d = Some t' → t' = t - d * second;
}.

(** ** A concrete instance *)

#[warnings="-register-all"]
Inductive demo_json : Type :=
| DNull
| DInt (z : Z)
| DFloat (f : f64)
| DStr (s : string)
| DArr (l : list demo_json)
| DObj (l : list (string * demo_json)).

Fixpoint demo_assoc (k : string) (l : list (string * demo_json)) : option demo_json :=
  match l with
  | [] => None
  | (k', v) :: l' => if String.eqb k k' then Some v else demo_assoc k l'
  end.

(** [chrono]'s documented ranges: [TimeDelta::seconds] panics beyond
    [i64::MAX / 1000], and a [DateTime] reaches to the end of year 262142. *)
Definition demo_dt_max : Z := 8210266876799 * second.
Definition demo_dt_min : Z := - 8334601228800 * second.

Definition demo_shift (t d : Z) : option Z :=
  if (Z.abs d <=? i64_max / 1000) && (demo_dt_min <=? t + d * second)
     && (t + d * second <=? demo_dt_max)
  then Some (t + d * second) else None.

(** The number of an id, in decimal. *)
Definition demo_uuid_text (id : N) : string :=
  String "u"%char (NilEmpty.string_of_uint (N.to_uint id)).

Definition demo_externals : Externals := {|
  Json := demo_json;
  json_object := DObj;
  json_of_f64 := DFloat;
  json_of_int := DInt;
  json_get := λ j k, match j with DObj l => demo_assoc k l | _ => None end;
  json_as_array := λ j, match j with DArr l => Some l | _ => None end;
  json_as_str := λ j, match j with DStr s => Some s | _ => None end;
  json_as_i64 := λ j, match j with DInt z => Some z | _ => None end;
  json_as_u64 := λ j, match j with DInt z => if 0 <=? z then Some z else None | _ => None end;
  json_as_f64 := λ j, match j with DFloat f => Some f | _ => None end;
  json_to_string := λ _, "<json>"%string;
  uuid_to_string := demo_uuid_text;
  chrono_add_secs := demo_shift;
  chrono_sub_secs := λ t d, demo_shift t (- d);
  pg_error_text := λ c, c;
|}.

Lemma demo_chrono_laws : ChronoLaws demo_externals.
Proof.
  split; intros t d t'; cbn; unfold demo_shift; case_match; intros; simplify_eq; lia.
Qed.
