(* ===== verification/RustStr.v ===== *)
(** * The parts of Rust's [str] the source uses

    A [String] is its UTF-8 bytes, as a Rocq [string] of 8-bit characters:
    [len] counts bytes, and [trim] removes the characters with the Unicode
    property White_Space, some of which take two or three bytes. *)

From S2P Require Import Prelude.
From Stdlib Require Import Ascii.
From stdpp Require Import options.

(** [s.len()]: the length in bytes. *)
Definition str_len (s : string) : Z := Z.of_nat (String.length s).

(** [s.is_empty()] *)
Definition str_is_empty (s : string) : bool :=
  match s with EmptyString => true | _ => false end.

Definition byte_of (c : ascii) : Z := Z.of_nat (nat_of_ascii c).

(** White_Space in one byte: U+0009 to U+000D and U+0020. *)
Definition ws1 (a : Z) : bool := ((9 <=? a) && (a <=? 13)) || (a =? 32).
(** ... in two: U+0085 and U+00A0. *)
Definition ws2 (a b : Z) : bool := (a =? 194) && ((b =? 133) || (b =? 160)).
(** ... in three: U+1680, U+2000 to U+200A, U+2028, U+2029, U+202F, U+205F and
    U+3000. *)
Definition ws3 (a b c : Z) : bool :=
  ((a =? 225) && (b =? 154) && (c =? 128))
  || ((a =? 226) && (b =? 128)
      && (((128 <=? c) && (c <=? 138)) || (c =? 168) || (c =? 169) || (c =? 175)))
  || ((a =? 226) && (b =? 129) && (c =? 159))
  || ((a =? 227) && (b =? 128) && (c =? 128)).

Fixpoint bytes_of (s : string) : list Z :=
  match s with EmptyString => [] | String c s' => byte_of c :: bytes_of s' end.

(** The number of leading bytes [trim_start] removes. *)
Fixpoint leading_ws (l : list Z) : nat :=
  match l with
  | [] => 0
  | a :: l1 =>
      if ws1 a then S (leading_ws l1)
      else match l1 with
           | [] => 0
           | b :: l2 =>
               if ws2 a b then S (S (leading_ws l2))
               else match l2 with
                    | [] => 0
                    | c :: l3 => if ws3 a b c then S (S (S (leading_ws l3))) else 0
                    end
           end
  end%nat.

(** The number of trailing bytes [trim_end] removes, over the reversed bytes. *)
Fixpoint trailing_ws (l : list Z) : nat :=
  match l with
  | [] => 0
  | a :: l1 =>
      if ws1 a then S (trailing_ws l1)
      else match l1 with
           | [] => 0
           | b :: l2 =>
               if ws2 b a then S (S (trailing_ws l2))
               else match l2 with
                    | [] => 0
                    | c :: l3 => if ws3 c b a then S (S (S (trailing_ws l3))) else 0
                    end
           end
  end%nat.

Definition trim_start (s : string) : string :=
  let n := leading_ws (bytes_of s) in String.substring n (String.length s - n) s.

Definition trim_end (s : string) : string :=
  String.substring 0 (String.length s - trailing_ws (rev (bytes_of s))) s.

(** [s.trim()] *)
Definition str_trim (s : string) : string := trim_end (trim_start s).

(** [s.split(',')]: at least one piece, pieces may be empty. *)
Fixpoint str_split (sep : ascii) (s : string) : list string :=
  match s with
  | EmptyString => [""%string]
  | String c s' =>
      if Ascii.eqb c sep then ""%string :: str_split sep s'
      else match str_split sep s' with
           | [] => [String c ""]
           | p :: ps => String c p :: ps
           end
  end.

(** [std::str::from_utf8(bytes).is_ok()]: the well-formed byte sequences. *)
Definition utf8_cont (b : Z) : bool := (128 <=? b) && (b <=? 191).

Fixpoint utf8_valid (l : list Z) : bool :=
  match l with
  | [] => true
  | a :: l1 =>
      if a <=? 127 then utf8_valid l1
      else match l1 with
      | [] => false
      | b :: l2 =>
          if (194 <=? a) && (a <=? 223) then utf8_cont b && utf8_valid l2
          else match l2 with
          | [] => false
          | c :: l3 =>
              if (224 <=? a) && (a <=? 239) then
                (if a =? 224 then (160 <=? b) && (b <=? 191)
                 else if a =? 237 then (128 <=? b) && (b <=? 159)
                 else utf8_cont b)
                && utf8_cont c && utf8_valid l3
              else match l3 with
              | [] => false
              | d :: l4 =>
                  (240 <=? a) && (a <=? 244)
                  && (if a =? 240 then (144 <=? b) && (b <=? 191)
                      else if a =? 244 then (128 <=? b) && (b <=? 143)
                      else utf8_cont b)
                  && utf8_cont c && utf8_cont d && utf8_valid l4
              end
          end
      end
  end.

(** [String::from_utf8(bytes).unwrap_or_default()] *)
Definition from_utf8_or_default (s : string) : string :=
  if utf8_valid (bytes_of s) then s else ""%string.

(** [s.parse::<i64>()]: an optional sign, then one or more decimal digits, in
    range. *)
Definition digit_of (c : ascii) : option Z :=
  let b := byte_of c in if (48 <=? b) && (b <=? 57) then Some (b - 48) else None.

Fixpoint parse_digits (acc : Z) (s : string) : option Z :=
  match s with
  | EmptyString => Some acc
  | String c s' =>
      match digit_of c with Some d => parse_digits (10 * acc + d) s' | None => None end
  end.

Definition parse_nonempty (s : string) : option Z :=
  if str_is_empty s then None else parse_digits 0 s.

Definition in_range (lo hi : Z) (o : option Z) : option Z :=
  match o with
  | Some z => if (lo <=? z) && (z <=? hi) then Some z else None
  | None => None
  end.

Definition parse_i64 (s : string) : option Z :=
  match s with
  | String "-" s' => in_range i64_min i64_max (Z.opp <$> parse_nonempty s')
  | String "+" s' => in_range i64_min i64_max (parse_nonempty s')
  | _ => in_range i64_min i64_max (parse_nonempty s)
  end.

(** [s.parse::<u32>()] and [s.parse::<usize>()]: no minus sign. *)
Definition parse_unsigned (hi : Z) (s : string) : option Z :=
  match s with
  | String "+" s' => in_range 0 hi (parse_nonempty s')
  | _ => in_range 0 hi (parse_nonempty s)
  end.

Lemma in_range_Some lo hi o z : in_range lo hi o = Some z → lo ≤ z ≤ hi.
Proof. unfold in_range. destruct o; [case_match|]; intros; simplify_eq; lia. Qed.

Lemma parse_i64_range s z : parse_i64 s = Some z → is_i64 z.
Proof.
  unfold parse_i64, is_i64.
  repeat case_match; apply in_range_Some.
Qed.

Lemma parse_unsigned_range hi s z : parse_unsigned hi s = Some z → 0 ≤ z ≤ hi.
Proof. unfold parse_unsigned. repeat case_match; apply in_range_Some. Qed.

Lemma str_len_nonneg s : 0 ≤ str_len s.
Proof. unfold str_len. lia. Qed.

Lemma str_is_empty_true s : str_is_empty s = true ↔ s = ""%string.
Proof. destruct s; naive_solver. Qed.

Example trim_ascii : str_trim "  a b	" = "a b"%string.
Proof. reflexivity. Qed.
Example trim_all_blank : str_trim "   " = ""%string.
Proof. reflexivity. Qed.
Example split_commas : str_split "," "a,,b" = ["a"; ""; "b"]%string.
Proof. reflexivity. Qed.
Example parse_negative : parse_i64 "-42" = Some (-42).
Proof. reflexivity. Qed.
Example parse_too_big : parse_i64 "9223372036854775808" = None.
Proof. vm_compute. reflexivity. Qed.

(** ** Pieces *)

Fixpoint str_join (sep : ascii) (l : list string) : string :=
  match l with
  | [] => ""%string
  | [p] => p
  | p :: ps => (p ++ String sep (str_join sep ps))%string
  end.

Lemma str_split_nonempty sep s : str_split sep s ≠ [].
Proof. destruct s as [|c s]; [done|]. cbn. destruct (Ascii.eqb c sep); [done|]. by case_match. Qed.

Lemma str_join_split sep s : str_join sep (str_split sep s) = s.
Proof.
  induction s as [|c s IH]; [done|]. cbn [str_split].
  pose proof (str_split_nonempty sep s) as Hne.
  destruct (Ascii.eqb_spec c sep) as [->|].
  - destruct (str_split sep s) as [|p ps]; [done|].
    change (String sep (str_join sep (p :: ps)) = String sep s). by rewrite IH.
  - destruct (str_split sep s) as [|p [|q ps]]; [done|..].
    + change (String c p = String c s). by f_equal.
    + change (String c (str_join sep (p :: q :: ps)) = String c s). by rewrite IH.
Qed.

(** A piece is not split any more. *)
Lemma str_split_pieces sep s : Forall (λ p, str_split sep p = [p]) (str_split sep s).
Proof.
  induction s as [|c s IH]; [by constructor|]. cbn. destruct (Ascii.eqb c sep) eqn:Hc;
    [by constructor|].
  destruct (str_split sep s) as [|p ps]; [constructor; [|done]|].
  - cbn. by rewrite Hc.
  - apply Forall_cons in IH as [Hp Hps]. constructor; [|done]. cbn. by rewrite Hc, Hp.
Qed.

Lemma str_split_app sep a b :
  str_split sep a = [a] → str_split sep (a +:+ String sep b) = a :: str_split sep b.
Proof.
  induction a as [|c a IH]; intros Ha.
  { change ((if Ascii.eqb sep sep then ""%string :: str_split sep b
      else match str_split sep b with [] => [String sep ""] | p :: ps => String sep p :: ps end)
      = ""%string :: str_split sep b). by rewrite Ascii.eqb_refl. }
  change (String c a +:+ String sep b) with (String c (a +:+ String sep b)).
  cbn [str_split] in *. pose proof (str_split_nonempty sep a).
  destruct (Ascii.eqb c sep); [by simplify_eq|].
  destruct (str_split sep a) as [|p ps] eqn:Hs; [done|]. simplify_eq. by rewrite IH.
Qed.

(** ** Blank strings *)

(** The bytes of white space characters, one after the other. *)
Inductive blank : list Z → Prop :=
| blank_nil : blank []
| blank_1 a l : ws1 a = true → blank l → blank (a :: l)
| blank_2 a b l : ws2 a b = true → blank l → blank (a :: b :: l)
| blank_3 a b c l : ws3 a b c = true → blank l → blank (a :: b :: c :: l).

Lemma blank_app l1 l2 : blank l1 → blank l2 → blank (l1 ++ l2).
Proof. induction 1; intros; cbn; [done|apply blank_1|apply blank_2|apply blank_3]; auto. Qed.

(** The first byte tells how many the character has. *)
Lemma ws2_lead a b : ws2 a b = true → ws1 a = false.
Proof. unfold ws1, ws2. lia. Qed.

Lemma ws3_lead a b c b' : ws3 a b c = true → ws1 a = false ∧ ws2 a b' = false.
Proof. unfold ws1, ws2, ws3. lia. Qed.

Lemma blank_leading l : blank l → leading_ws l = length l.
Proof.
  induction 1 as [|a l Ha _ IH|a b l Hab _ IH|a b c l Habc _ IH]; cbn [leading_ws length]; [done|..].
  - by rewrite Ha, IH.
  - by rewrite (ws2_lead _ _ Hab), Hab, IH.
  - destruct (ws3_lead _ _ _ b Habc) as [-> ->]. by rewrite Habc, IH.
Qed.

(** What is trimmed is blank, and the rest does not start with white space. *)
Lemma leading_ws_spec l :
  blank (take (leading_ws l) l) ∧ leading_ws (drop (leading_ws l) l) = 0%nat.
Proof.
  induction l as [l IH] using (induction_ltof1 _ length). unfold ltof in IH.
  destruct l as [|a l1]; [by split; [constructor|]|]. cbn [leading_ws].
  destruct (ws1 a) eqn:H1.
  { cbn. destruct (IH l1); [cbn; lia|]. split; [by apply blank_1|done]. }
  destruct l1 as [|b l2]; [split; [constructor|cbn; by rewrite H1]|]. destruct (ws2 a b) eqn:H2.
  { cbn. destruct (IH l2); [cbn; lia|]. split; [by apply blank_2|done]. }
  destruct l2 as [|c l3]; [split; [constructor|cbn; by rewrite H1, H2]|].
  destruct (ws3 a b c) eqn:H3; [|split; [constructor|cbn; by rewrite H1, H2, H3]].
  cbn. destruct (IH l3); [cbn; lia|]. split; [by apply blank_3|done].
Qed.

Lemma trailing_ws_blank l : blank (rev (take (trailing_ws l) l)).
Proof.
  induction l as [l IH] using (induction_ltof1 _ length). unfold ltof in IH.
  destruct l as [|a l1]; [constructor|]. cbn [trailing_ws].
  destruct (ws1 a) eqn:H1.
  { cbn. apply blank_app; [apply IH; cbn; lia|]. apply blank_1; [done|constructor]. }
  destruct l1 as [|b l2]; [constructor|]. destruct (ws2 b a) eqn:H2.
  { cbn. rewrite <- app_assoc. apply blank_app; [apply IH; cbn; lia|].
    apply blank_2; [done|constructor]. }
  destruct l2 as [|c l3]; [constructor|]. destruct (ws3 c b a) eqn:H3; [|constructor].
  cbn. rewrite <- !app_assoc. apply blank_app; [apply IH; cbn; lia|].
  apply blank_3; [done|constructor].
Qed.

Lemma length_bytes_of s : length (bytes_of s) = String.length s.
Proof. induction s; cbn; auto. Qed.

Lemma substring_all s : String.substring 0 (String.length s) s = s.
Proof. induction s; cbn; congruence. Qed.

Lemma bytes_of_substring n s :
  bytes_of (String.substring n (String.length s - n) s) = drop n (bytes_of s).
Proof.
  revert s. induction n as [|n IH]; intros [|c s]; cbn; [done| |done|apply IH].
  by rewrite substring_all.
Qed.

Lemma substring_0_empty k s : String.substring 0 k s = ""%string → k = 0%nat ∨ s = ""%string.
Proof. destruct k, s; cbn; auto; done. Qed.

(** Only a blank string is trimmed to nothing. *)
Lemma str_trim_empty s : str_trim s = ""%string ↔ blank (bytes_of s).
Proof.
  destruct (leading_ws_spec (bytes_of s)) as [Hlead Hrest]. unfold str_trim, trim_start.
  set (n := leading_ws (bytes_of s)) in *. set (t := String.substring _ _ s).
  assert (bytes_of t = drop n (bytes_of s)) as Ht by apply bytes_of_substring. split.
  - intros He. unfold trim_end in He.
    assert (blank (bytes_of t)) as Hbt.
    { apply substring_0_empty in He as [He| ->]; [|constructor].
      pose proof (trailing_ws_blank (rev (bytes_of t))) as Hb.
      rewrite firstn_all2, rev_involutive in Hb; [done|]. rewrite length_rev, length_bytes_of. lia. }
    rewrite <- (take_drop n (bytes_of s)). apply blank_app; [done|]. by rewrite <- Ht.
  - intros Hb. pose proof (blank_leading _ Hb) as Hall. fold n in Hall.
    assert (bytes_of t = []) as Hnil by (rewrite Ht; apply drop_ge; lia).
    destruct t; [done|done].
Qed.
