(* ===== verification/Status.v ===== *)
(** * [djq-core::status]: the job lifecycle

    [JobStatus], its string form, its predicates and the transition table, as
    in [crates/core/src/status.rs]. *)

From S2P Require Import Prelude.
From stdpp Require Import options.

Inductive JobStatus :=
| Queued | Scheduled | Processing | Completed | Failed | Retrying | Cancelled | DeadLettered.

#[export] Instance JobStatus_eq_dec : EqDecision JobStatus.
Proof. solve_decision. Defined.

Definition all_statuses : list JobStatus :=
  [Queued; Scheduled; Processing; Completed; Failed; Retrying; Cancelled; DeadLettered].

Definition as_str (s : JobStatus) : string :=
  match s with
  | Queued => "queued"
  | Scheduled => "scheduled"
  | Processing => "processing"
  | Completed => "completed"
  | Failed => "failed"
  | Retrying => "retrying"
  | Cancelled => "cancelled"
  | DeadLettered => "dead_lettered"
  end.

(** [impl Display for JobStatus] *)
Definition status_to_string (s : JobStatus) : string := as_str s.

Definition is_terminal (s : JobStatus) : bool :=
  match s with Completed | Cancelled | DeadLettered => true | _ => false end.

Definition is_leaseable (s : JobStatus) : bool :=
  match s with Queued | Scheduled | Retrying => true | _ => false end.

Definition is_cancellable (s : JobStatus) : bool :=
  match s with Queued | Scheduled | Retrying | Processing => true | _ => false end.

Definition can_transition_to (self next : JobStatus) : bool :=
  match self, next with
  | Queued, Processing
  | Queued, Scheduled
  | Queued, Cancelled
  | Scheduled, Queued
  | Scheduled, Processing
  | Scheduled, Cancelled
  | Processing, Completed
  | Processing, Failed
  | Processing, Retrying
  | Processing, Queued (* lease expiry → re-queue *)
  | Processing, Cancelled
  | Retrying, Processing
  | Retrying, Queued
  | Retrying, Cancelled
  | Retrying, DeadLettered
  | Failed, DeadLettered
  | Failed, Retrying => true
  | _, _ => false
  end.

Inductive ParseStatusError := mkParseStatusError (input : string).

(** [#[error("unknown job status: {0}")]] *)
Definition parse_status_error_to_string (e : ParseStatusError) : string :=
  match e with mkParseStatusError s => ("unknown job status: " ++ s)%string end.

Definition from_str (s : string) : result ParseStatusError JobStatus :=
  if String.eqb s "queued" then Ok Queued
  else if String.eqb s "scheduled" then Ok Scheduled
  else if String.eqb s "processing" then Ok Processing
  else if String.eqb s "completed" then Ok Completed
  else if String.eqb s "failed" then Ok Failed
  else if String.eqb s "retrying" then Ok Retrying
  else if String.eqb s "cancelled" then Ok Cancelled
  else if String.eqb s "dead_lettered" then Ok DeadLettered
  else Err (mkParseStatusError s).

(** ** The string form *)

Lemma from_as_str s : from_str (as_str s) = Ok s.
Proof. destruct s; reflexivity. Qed.

Lemma from_str_Ok t s : from_str t = Ok s → t = as_str s.
Proof.
  unfold from_str.
  repeat match goal with
         | |- context [String.eqb t ?u] => destruct (String.eqb_spec t u)
         end; intros; simplify_eq; done.
Qed.

#[export] Instance as_str_inj : Inj (=) (=) as_str.
Proof.
  intros s1 s2 H. assert (Ok (E:=ParseStatusError) s1 = Ok s2) as Heq; [|by simplify_eq].
  by rewrite <- !from_as_str, H.
Qed.

(** C40: [as_str] and [from_str] are inverse to each other, in both
    directions: every status is read back from its string form, nothing else
    parses, and a string that does not parse is returned in the error. *)
Theorem status_string_roundtrip :
  (∀ s, from_str (as_str s) = Ok s) ∧
  (∀ t s, from_str t = Ok s ↔ t = as_str s) ∧
  (∀ t e, from_str t = Err e ↔ e = mkParseStatusError t ∧ ∀ s, t ≠ as_str s).
Proof.
  split; [exact from_as_str|]. split.
  - intros t s. split; [apply from_str_Ok|]. intros ->. apply from_as_str.
  - intros t e. split.
    + intros He. split.
      * revert He. unfold from_str. repeat case_match; intros; by simplify_eq.
      * intros s ->. by rewrite from_as_str in He.
    + intros [-> Hne]. destruct (from_str t) as [s|e'] eqn:E.
      * by apply from_str_Ok, Hne in E.
      * revert E. unfold from_str. repeat case_match; intros; by simplify_eq.
Qed.

(** ** The transition table *)

(** The predicates of a status are what the transition table makes of
    them: a status is terminal exactly when the table has no edge out of it,
    leaseable exactly when the edge to [Processing] exists, cancellable
    exactly when the edge to [Cancelled] does; and no edge is a self-loop. *)
Theorem status_predicates_match_table s :
  (is_terminal s = true ↔ ∀ n, can_transition_to s n = false) ∧
  is_leaseable s = can_transition_to s Processing ∧
  is_cancellable s = can_transition_to s Cancelled ∧
  can_transition_to s s = false.
Proof.
  split_and!; [|by destruct s..].
  split; [by destruct s, n|].
  intros H. destruct s; try done;
    (specialize (H Cancelled); discriminate H) || (specialize (H DeadLettered); discriminate H).
Qed.
