(* ===== verification/Error.v ===== *)
(** * [djq-core::error]: the domain errors

    [QueueError], its category and its [Display], as in
    [crates/core/src/error.rs]. *)

From S2P Require Import Prelude Externals Status.
From stdpp Require Import options.

Inductive QueueError :=
| JobNotFound (id : Uuid)
| QueueNotFound (name : string)
| DuplicateIdempotencyKey (queue : string) (existing_job_id : Uuid)
| IllegalTransition (from to : JobStatus)
| InvalidOperation (op : string) (status : JobStatus)
| Validation (msg : string)
| Storage (msg : string)
(** a [serde_json::Error], by its [Display] *)
| Serialization (msg : string).

Inductive ErrorCategory := BadRequest | NotFound | Conflict | Internal.

#[export] Instance ErrorCategory_eq_dec : EqDecision ErrorCategory.
Proof. solve_decision. Defined.

Definition category (e : QueueError) : ErrorCategory :=
  match e with
  | JobNotFound _ | QueueNotFound _ => NotFound
  | DuplicateIdempotencyKey _ _ => Conflict
  | IllegalTransition _ _ | InvalidOperation _ _ => Conflict
  | Validation _ | Serialization _ => BadRequest
  | Storage _ => Internal
  end.

(** [pub type Result<T> = std::result::Result<T, QueueError>] *)
Abbreviation Result := (result QueueError).

(** [impl Display for QueueError], from the [#[error(...)]] attributes. *)
Definition queue_error_to_string `{Externals} (e : QueueError) : string :=
  match e with
  | JobNotFound id => "job not found: " ++ uuid_to_string id
  | QueueNotFound name => "queue not found: " ++ name
  | DuplicateIdempotencyKey queue _ => "duplicate idempotency key for queue " ++ queue
  | IllegalTransition from to =>
      "illegal state transition from " ++ status_to_string from ++ " to " ++ status_to_string to
  | InvalidOperation op status =>
      "operation '" ++ op ++ "' not permitted while job is " ++ status_to_string status
  | Validation msg => "validation error: " ++ msg
  | Storage msg => "storage error: " ++ msg
  | Serialization msg => "serialization error: " ++ msg
  end%string.
