(* ===== verification/Model.v ===== *)
(** * [djq-core::model]: jobs, queues, workers, attempts

    The data of [crates/core/src/model.rs] and the validation of a submission,
    [NewJob::normalized]. *)

From S2P Require Import Prelude Externals RustStr Status Error.
From stdpp Require Import options.

Section model.
Context `{X : Externals}.

Record Queue := mkQueue {
  queue_name : string;
  queue_paused : bool;
  queue_max_concurrency : option Z;
  queue_created_at : Timestamp;
}.

Record Job := mkJob {
  job_id : Uuid;
  job_queue : string;
  job_job_type : string;
  job_payload : Json;
  job_status : JobStatus;
  job_priority : Z;
  job_idempotency_key : option string;
  job_max_attempts : Z;
  job_attempts : Z;
  job_run_at : Timestamp;
  job_timeout_secs : Z;
  job_backoff_base_secs : Z;
  job_backoff_max_secs : Z;
  job_dead_letter : bool;
  job_locked_by : option Uuid;
  job_locked_at : option Timestamp;
  job_lease_expires_at : option Timestamp;
  job_last_error : option string;
  job_result : option Json;
  job_metadata : Json;
  job_correlation_id : option string;
  job_created_at : Timestamp;
  job_updated_at : Timestamp;
  job_completed_at : option Timestamp;
}.

Record NewJob := mkNewJob {
  new_queue : string;
  new_job_type : string;
  new_payload : Json;
  new_priority : Z;
  new_idempotency_key : option string;
  new_max_attempts : option Z;
  new_delay_secs : option Z;
  new_run_at : option Timestamp;
  new_timeout_secs : option Z;
  new_backoff_base_secs : option Z;
  new_backoff_max_secs : option Z;
  new_dead_letter : option bool;
  new_metadata : Json;
  new_correlation_id : option string;
}.

#[export] Instance eta_NewJob : Eta NewJob := λ n, mkNewJob
  (new_queue n) (new_job_type n) (new_payload n) (new_priority n) (new_idempotency_key n)
  (new_max_attempts n) (new_delay_secs n) (new_run_at n) (new_timeout_secs n)
  (new_backoff_base_secs n) (new_backoff_max_secs n) (new_dead_letter n) (new_metadata n)
  (new_correlation_id n).

Definition default_payload : Json := json_object [].
Definition default_metadata : Json := json_object [].

Record NormalizedJob := mkNormalizedJob {
  nj_queue : string;
  nj_job_type : string;
  nj_payload : Json;
  nj_priority : Z;
  nj_idempotency_key : option string;
  nj_max_attempts : Z;
  nj_run_at : Timestamp;
  nj_status : JobStatus;
  nj_timeout_secs : Z;
  nj_backoff_base_secs : Z;
  nj_backoff_max_secs : Z;
  nj_dead_letter : bool;
  nj_metadata : Json;
  nj_correlation_id : option string;
}.

(** [match (self.run_at, self.delay_secs)]; the addition is [chrono]'s, and
    [None] is its panic. *)
Definition resolve_run_at (self : NewJob) (now : Timestamp) : option Timestamp :=
  match new_run_at self, new_delay_secs self with
  | Some t, _ => Some t
  | None, Some d => if 0 <? d then chrono_add_secs now d else Some now
  | None, None => Some now
  end.

(** [NewJob::normalized].  [None] is a panic. *)
Definition normalized (self : NewJob) (now : Timestamp) : option (Result NormalizedJob) :=
  if str_is_empty (str_trim (new_queue self)) then
    Some (Err (Validation "queue must not be empty"))
  else if str_is_empty (str_trim (new_job_type self)) then
    Some (Err (Validation "job_type must not be empty"))
  else if 128 <? str_len (new_queue self) then
    Some (Err (Validation "queue name too long (max 128)"))
  else if match new_idempotency_key self with
          | Some key => 255 <? str_len key
          | None => false
          end then
    Some (Err (Validation "idempotency_key too long (max 255)"))
  else
    let max_attempts := default 5 (new_max_attempts self) in
    if negb ((1 <=? max_attempts) && (max_attempts <=? 100)) then
      Some (Err (Validation "max_attempts must be between 1 and 100"))
    else
      let timeout_secs := default 300 (new_timeout_secs self) in
      if negb ((1 <=? timeout_secs) && (timeout_secs <=? 86400)) then
        Some (Err (Validation "timeout_secs must be between 1 and 86400"))
      else
        let backoff_base_secs := Z.max (default 2 (new_backoff_base_secs self)) 1 in
        let backoff_max_secs :=
          Z.max (default 300 (new_backoff_max_secs self)) backoff_base_secs in
        match resolve_run_at self now with
        | None => None
        | Some run_at =>
            let status := if now <? run_at then Scheduled else Queued in
            Some (Ok {|
              nj_queue := new_queue self;
              nj_job_type := new_job_type self;
              nj_payload := new_payload self;
              nj_priority := new_priority self;
              nj_idempotency_key := new_idempotency_key self;
              nj_max_attempts := max_attempts;
              nj_run_at := run_at;
              nj_status := status;
              nj_timeout_secs := timeout_secs;
              nj_backoff_base_secs := backoff_base_secs;
              nj_backoff_max_secs := backoff_max_secs;
              nj_dead_letter := default true (new_dead_letter self);
              nj_metadata := new_metadata self;
              nj_correlation_id := new_correlation_id self;
            |})
        end.

Record JobAttempt := mkJobAttempt {
  att_id : Z;
  att_job_id : Uuid;
  att_attempt : Z;
  att_worker_id : option Uuid;
  att_started_at : Timestamp;
  att_finished_at : option Timestamp;
  att_status : string;
  att_error : option string;
}.

Record Worker := mkWorker {
  worker_id : Uuid;
  worker_hostname : string;
  worker_queues : list string;
  worker_concurrency : Z;
  worker_registered_at : Timestamp;
  worker_last_heartbeat : Timestamp;
}.

Record DeadLetterJob := mkDeadLetterJob {
  dl_id : Uuid;
  dl_queue : string;
  dl_job_type : string;
  dl_payload : Json;
  dl_attempts : Z;
  dl_last_error : option string;
  dl_dead_lettered_at : Timestamp;
  dl_original_created_at : option Timestamp;
}.

Record QueueStats := mkQueueStats {
  qs_queue : string;
  qs_paused : bool;
  qs_queued : Z;
  qs_scheduled : Z;
  qs_processing : Z;
  qs_completed : Z;
  qs_failed : Z;
  qs_retrying : Z;
  qs_cancelled : Z;
  qs_dead_lettered : Z;
}.

#[export] Instance eta_QueueStats : Eta QueueStats := λ s, mkQueueStats
  (qs_queue s) (qs_paused s) (qs_queued s) (qs_scheduled s) (qs_processing s)
  (qs_completed s) (qs_failed s) (qs_retrying s) (qs_cancelled s) (qs_dead_lettered s).

Record JobFilter := mkJobFilter {
  jf_queue : option string;
  jf_status : option JobStatus;
  jf_job_type : option string;
  jf_limit : option Z;
  jf_offset : option Z;
}.

(** [JobFilter::bounded] *)
Definition bounded (self : JobFilter) : Z * Z :=
  let limit := clamp 1 200 (default 50 (jf_limit self)) in
  let offset := Z.max (default 0 (jf_offset self)) 0 in
  (limit, offset).

Inductive ExecutionOutcome :=
| Success (result : option Json)
| Failure (msg : string)
| Timeout.

(** ** What a normalized job satisfies *)

Definition normal (n : NormalizedJob) : Prop :=
  str_trim (nj_queue n) ≠ ""%string ∧ str_trim (nj_job_type n) ≠ ""%string ∧
  str_len (nj_queue n) ≤ 128 ∧
  (∀ k, nj_idempotency_key n = Some k → str_len k ≤ 255) ∧
  1 ≤ nj_max_attempts n ≤ 100 ∧
  1 ≤ nj_timeout_secs n ≤ 86400 ∧
  1 ≤ nj_backoff_base_secs n ≤ nj_backoff_max_secs n ∧
  (nj_status n = Queued ∨ nj_status n = Scheduled).

(** The 32-bit ranges of the optional fields of a request. *)
Definition new_in_range (n : NewJob) : Prop :=
  is_i32 (new_priority n) ∧
  (∀ z, new_backoff_base_secs n = Some z → is_i32 z) ∧
  (∀ z, new_backoff_max_secs n = Some z → is_i32 z).


(** ** [normalized], branch by branch *)

(** The rules in the order they are checked, each with the condition under
    which it rejects. *)
Definition validation_rules (n : NewJob) : list (bool * string) :=
  [ (str_is_empty (str_trim (new_queue n)), "queue must not be empty"%string);
    (str_is_empty (str_trim (new_job_type n)), "job_type must not be empty"%string);
    (128 <? str_len (new_queue n), "queue name too long (max 128)"%string);
    (match new_idempotency_key n with Some key => 255 <? str_len key | None => false end,
     "idempotency_key too long (max 255)"%string);
    (negb ((1 <=? default 5 (new_max_attempts n)) && (default 5 (new_max_attempts n) <=? 100)),
     "max_attempts must be between 1 and 100"%string);
    (negb ((1 <=? default 300 (new_timeout_secs n))
           && (default 300 (new_timeout_secs n) <=? 86400)),
     "timeout_secs must be between 1 and 86400"%string)
  ].

Fixpoint first_violation (rules : list (bool * string)) : option string :=
  match rules with
  | [] => None
  | (true, msg) :: _ => Some msg
  | (false, _) :: rest => first_violation rest
  end.

(** What an accepted request becomes. *)
Definition normal_form (n : NewJob) (now run_at : Timestamp) : NormalizedJob :=
  let base := Z.max 1 (default 2 (new_backoff_base_secs n)) in
  {| nj_queue := new_queue n;
     nj_job_type := new_job_type n;
     nj_payload := new_payload n;
     nj_priority := new_priority n;
     nj_idempotency_key := new_idempotency_key n;
     nj_max_attempts := default 5 (new_max_attempts n);
     nj_run_at := run_at;
     nj_status := if decide (now < run_at) then Scheduled else Queued;
     nj_timeout_secs := default 300 (new_timeout_secs n);
     nj_backoff_base_secs := base;
     nj_backoff_max_secs := Z.max base (default 300 (new_backoff_max_secs n));
     nj_dead_letter := default true (new_dead_letter n);
     nj_metadata := new_metadata n;
     nj_correlation_id := new_correlation_id n |}.

Lemma normalized_unfold n now :
  normalized n now =
    match first_violation (validation_rules n) with
    | Some msg => Some (Err (Validation msg))
    | None => (λ t, Ok (normal_form n now t)) <$> resolve_run_at n now
    end.
Proof.
  unfold normalized, validation_rules, normal_form. cbn [first_violation].
  do 6 (case_test; [done|]).
  destruct (resolve_run_at n now) as [t|]; [|done]. cbn.
  rewrite (Z.max_comm (default 2 _) 1), (Z.max_comm (default 300 _) _).
  destruct (Z.ltb_spec now t), (decide (now < t)); done || lia.
Qed.

Lemma normal_form_normal n now t :
  first_violation (validation_rules n) = None → normal (normal_form n now t).
Proof.
  unfold validation_rules, normal. cbn [first_violation].
  do 6 (case_test; [done|]). intros _. cbn -[str_trim].
  split_and!; try lia.
  - intros He. rewrite He in *. done.
  - intros He. rewrite He in *. done.
  - intros k Hk. rewrite Hk in *. lia.
  - case_decide; auto.
Qed.

(** What is asked of a request, and what a request that does not satisfy it is
    told, in the order in which the source looks.  A field that was left out
    breaks nothing. *)
Definition requirements (n : NewJob) : list (Prop * string) :=
  [ (¬ blank (bytes_of (new_queue n)), "queue must not be empty"%string);
    (¬ blank (bytes_of (new_job_type n)), "job_type must not be empty"%string);
    (str_len (new_queue n) ≤ 128, "queue name too long (max 128)"%string);
    (∀ key, new_idempotency_key n = Some key → str_len key ≤ 255,
     "idempotency_key too long (max 255)"%string);
    (∀ m, new_max_attempts n = Some m → 1 ≤ m ≤ 100,
     "max_attempts must be between 1 and 100"%string);
    (∀ t, new_timeout_secs n = Some t → 1 ≤ t ≤ 86400,
     "timeout_secs must be between 1 and 86400"%string) ].

Fixpoint all_met (reqs : list (Prop * string)) : Prop :=
  match reqs with [] => True | (P, _) :: rest => P ∧ all_met rest end.

(** The message of the first requirement that is not met. *)
Fixpoint first_unmet (reqs : list (Prop * string)) (msg : string) : Prop :=
  match reqs with
  | [] => False
  | (P, m) :: rest => (¬ P ∧ msg = m) ∨ (P ∧ first_unmet rest msg)
  end.

(** A test of the source decides each requirement. *)
Lemma requirements_tested n :
  Forall2 (λ rule req, rule.2 = req.2 ∧ (rule.1 = false ↔ req.1))
    (validation_rules n) (requirements n).
Proof.
  assert (∀ s, str_is_empty (str_trim s) = false ↔ ¬ blank (bytes_of s)) as Hblank.
  { intros s. rewrite <- str_trim_empty. by destruct (str_trim s). }
  unfold validation_rules, requirements.
  repeat (apply Forall2_cons; split; [split; [done|]|]); cbn; try apply Forall2_nil_2;
    [apply Hblank|apply Hblank|lia|..].
  - destruct (new_idempotency_key n) as [k|]; [|naive_solver].
    rewrite Z.ltb_ge. split; [by intros ? ? [= <-]|by auto].
  - destruct (new_max_attempts n) as [m|]; cbn; [|naive_solver].
    split; [intros ? ? [= <-]; lia|intros H; specialize (H _ eq_refl); lia].
  - destruct (new_timeout_secs n) as [t|]; cbn; [|naive_solver].
    split; [intros ? ? [= <-]; lia|intros H; specialize (H _ eq_refl); lia].
Qed.

Lemma first_violation_unmet rules reqs msg :
  Forall2 (λ rule req, rule.2 = req.2 ∧ (rule.1 = false ↔ req.1)) rules reqs →
  (first_violation rules = Some msg ↔ first_unmet reqs msg) ∧
  (first_violation rules = None ↔ all_met reqs).
Proof.
  induction 1 as [|[[] m] [P m'] rules reqs [Hm HP] _ [IH1 IH2]]; cbn in *; [done|subst..].
  - assert (¬ P) by (rewrite <- HP; done). naive_solver.
  - assert P by (by apply HP). naive_solver.
Qed.

(** When a request asks to start: at the instant it names, else after the delay
    it names, else at once. *)
Inductive starts_at (n : NewJob) (now : Timestamp) : Timestamp → Prop :=
| at_instant t : new_run_at n = Some t → starts_at n now t
| after_delay d :
    new_run_at n = None → new_delay_secs n = Some d → 0 < d → starts_at n now (now + d * second)
| at_once :
    new_run_at n = None → (∀ d, new_delay_secs n = Some d → d ≤ 0) → starts_at n now now.

(** The delay [chrono] cannot add to [now]. *)
Definition delay_overflows (n : NewJob) (now : Timestamp) : Prop :=
  new_run_at n = None ∧
  ∃ d, new_delay_secs n = Some d ∧ 0 < d ∧ chrono_add_secs now d = None.

Lemma resolve_run_at_None n now : resolve_run_at n now = None ↔ delay_overflows n now.
Proof.
  unfold resolve_run_at, delay_overflows.
  destruct (new_run_at n), (new_delay_secs n) as [d|]; try naive_solver.
  destruct (Z.ltb_spec 0 d); naive_solver lia.
Qed.

Lemma resolve_run_at_Some `{!ChronoLaws X} n now t :
  resolve_run_at n now = Some t → starts_at n now t.
Proof.
  unfold resolve_run_at. destruct (new_run_at n) as [t'|] eqn:Hr.
  { intros [= ->]. by apply at_instant. }
  destruct (new_delay_secs n) as [d|] eqn:Hd.
  - destruct (Z.ltb_spec 0 d).
    + intros ->%chrono_add_exact. by apply after_delay.
    + intros [= <-]. apply at_once; [done|]. intros d' Hd'. by simplify_eq.
  - intros [= <-]. apply at_once; [done|]. intros d' Hd'. by simplify_eq.
Qed.

(** C32: [normalized] has three answers.  It rejects a request that does not
    meet the requirements, with the message of the first it does not meet; it
    panics on a request that meets them all and whose delay [chrono] cannot
    add to the clock; and it accepts every other.  The job it then returns
    starts when the request asks, is [Scheduled] if that is in the future and
    [Queued] otherwise, has 5 attempts, 300 seconds, a backoff from 2 to 300
    seconds and a place in the dead-letter table where the request does not
    say, a backoff of at least a second and never above its cap, and whatever
    else the request says. *)
Theorem normalized_spec `{!ChronoLaws X} n now :
  (∀ e, normalized n now = Some (Err e) ↔
     ∃ msg, first_unmet (requirements n) msg ∧ e = Validation msg) ∧
  (normalized n now = None ↔ all_met (requirements n) ∧ delay_overflows n now) ∧
  (all_met (requirements n) → ¬ delay_overflows n now →
   ∃ nj, normalized n now = Some (Ok nj) ∧ starts_at n now (nj_run_at nj) ∧
     (now < nj_run_at nj → nj_status nj = Scheduled) ∧
     (nj_run_at nj ≤ now → nj_status nj = Queued) ∧
     nj_max_attempts nj = default 5 (new_max_attempts n) ∧
     nj_timeout_secs nj = default 300 (new_timeout_secs n) ∧
     nj_backoff_base_secs nj = Z.max 1 (default 2 (new_backoff_base_secs n)) ∧
     nj_backoff_max_secs nj =
       Z.max (nj_backoff_base_secs nj) (default 300 (new_backoff_max_secs n)) ∧
     nj_dead_letter nj = default true (new_dead_letter n) ∧
     nj_queue nj = new_queue n ∧ nj_job_type nj = new_job_type n ∧
     nj_payload nj = new_payload n ∧ nj_priority nj = new_priority n ∧
     nj_idempotency_key nj = new_idempotency_key n ∧
     nj_metadata nj = new_metadata n ∧ nj_correlation_id nj = new_correlation_id n).
Proof.
  rewrite <- resolve_run_at_None.
  pose proof (λ msg, first_violation_unmet _ _ msg (requirements_tested n)) as Hreq.
  rewrite <- (proj2 (Hreq ""%string)). rewrite normalized_unfold.
  split; [|split].
  - intros e. setoid_rewrite <- (λ msg, proj1 (Hreq msg)).
    destruct (first_violation _) as [m|], (resolve_run_at n now); naive_solver.
  - destruct (first_violation _) as [m|], (resolve_run_at n now); naive_solver.
  - intros -> Hr. destruct (resolve_run_at n now) as [t|] eqn:Ht; [|done].
    exists (normal_form n now t). split; [done|]. split; [by apply resolve_run_at_Some|].
    cbn. split_and!; try done; intros; by (rewrite decide_True by done) || rewrite decide_False by lia.
Qed.

(** A normalized job is well formed whatever the request was: its numbers
    are within the documented bounds, its backoff base is positive and below
    its backoff cap, and it is [Scheduled] exactly when it starts in the
    future and [Queued] otherwise. *)
Theorem normalized_well_formed n now nj :
  normalized n now = Some (Ok nj) →
  normal nj ∧
  (nj_status nj = Scheduled ↔ now < nj_run_at nj) ∧
  (nj_status nj = Queued ↔ nj_run_at nj ≤ now) ∧
  (new_in_range n → is_i32 (nj_max_attempts nj) ∧ is_i32 (nj_timeout_secs nj) ∧
     is_i32 (nj_backoff_base_secs nj) ∧ is_i32 (nj_backoff_max_secs nj)).
Proof.
  rewrite normalized_unfold.
  destruct (first_violation _) as [m|] eqn:Hr; [done|].
  destruct (resolve_run_at n now) as [t|]; [|done]. intros [= <-].
  pose proof (normal_form_normal n now t Hr) as Hn.
  split; [done|]. destruct Hn as (_&_&_&_&Hma&Hto&Hbk&_).
  cbn in *. unfold is_i32, i32_min, i32_max in *.
  split; [case_decide; naive_solver|].
  split; [case_decide; split; (done || lia)|].
  intros (_&Hb&Hm). unfold is_i32, i32_min, i32_max in *.
  destruct (new_backoff_base_secs n) as [b|], (new_backoff_max_secs n) as [m|];
    cbn in *; try specialize (Hb _ eq_refl); try specialize (Hm _ eq_refl); lia.
Qed.

(** The start time: an explicit [run_at] wins over [delay_secs], a
    positive delay is added to [now], and the job starts at once otherwise.
    Nothing bounds the delay: a valid request whose delay [chrono] cannot add
    to [now] panics, and that is the only panic. *)
Theorem normalized_panics_iff n now :
  (normalized n now = None ↔
     first_violation (validation_rules n) = None ∧ new_run_at n = None ∧
     ∃ d, new_delay_secs n = Some d ∧ 0 < d ∧ chrono_add_secs now d = None) ∧
  (∀ t, new_run_at n = Some t → resolve_run_at n now = Some t) ∧
  (new_run_at n = None → default 0 (new_delay_secs n) ≤ 0 → resolve_run_at n now = Some now).
Proof.
  rewrite normalized_unfold. unfold resolve_run_at.
  split_and!; [|by intros t ->|].
  - destruct (first_violation _) as [m|]; [naive_solver|].
    destruct (new_run_at n) as [t|]; [naive_solver|].
    destruct (new_delay_secs n) as [d|]; [|naive_solver].
    destruct (Z.ltb_spec 0 d); [|naive_solver lia].
    destruct (chrono_add_secs now d) eqn:E; cbn; naive_solver.
  - intros ->. destruct (new_delay_secs n) as [d|]; cbn; [|done].
    intros. destruct (Z.ltb_spec 0 d); [lia|done].
Qed.

(** [JobFilter::bounded] always yields a page of 1 to 200 jobs and a
    non-negative offset, and changes nothing that was already in bounds. *)
Theorem bounded_pagination (f : JobFilter) :
  1 ≤ (bounded f).1 ≤ 200 ∧ 0 ≤ (bounded f).2 ∧
  (∀ l o, jf_limit f = Some l → jf_offset f = Some o → 1 ≤ l ≤ 200 → 0 ≤ o →
     bounded f = (l, o)).
Proof.
  unfold bounded, clamp. cbn. split_and!; try lia.
  intros l o -> ->. cbn. intros. f_equal; lia.
Qed.

End model.

(** ** Witnesses *)

Section witnesses.
#[local] Existing Instance demo_externals.

Definition demo_request : NewJob := {|
  new_queue := "emails"; new_job_type := "send"; new_payload := DNull; new_priority := 0;
  new_idempotency_key := None; new_max_attempts := None; new_delay_secs := None;
  new_run_at := None; new_timeout_secs := None; new_backoff_base_secs := Some 30;
  new_backoff_max_secs := Some 5; new_dead_letter := None; new_metadata := DNull;
  new_correlation_id := None |}.

Definition delayed_request : NewJob := demo_request <| new_delay_secs := Some 30 |>.

Lemma normalized_spec_witness :
  normalized (demo_request <| new_queue := " "%string |>) 0 =
    Some (Err (Validation "queue must not be empty")) ∧
  ∃ nj, normalized delayed_request 7 = Some (Ok nj) ∧ nj_run_at nj = 7 + 30 * second.
Proof.
  pose proof demo_chrono_laws. split.
  - apply (normalized_spec (demo_request <| new_queue := " "%string |>) 0).
    exists "queue must not be empty"%string. split; [|done]. left. split; [|done].
    intros Hb. apply Hb. by repeat constructor.
  - destruct (normalized_spec delayed_request 7) as (_ & _ & Hacc).
    destruct Hacc as (nj & Hnj & Hat & _).
    + assert (∀ c s, ws1 (byte_of c) = false → byte_of c <= 127 → ¬ blank (bytes_of (String c s)))
        as Hnb.
      { intros c s H1 Hc Hb. inversion Hb; unfold ws2, ws3 in *; [congruence|lia..]. }
      cbn [requirements all_met]. split_and!; [by apply Hnb|by apply Hnb|done|..|done]; by intros.
    + intros (_ & d & [= <-] & _ & Hd). by vm_compute in Hd.
    + exists nj. split; [done|]. inversion Hat as [t Ht|d Hr Hd|]; simplify_eq/=; [done|].
      match goal with H : ∀ d, Some 30 = Some d → d ≤ 0 |- _ => by specialize (H 30 eq_refl) end.
Defined.

Lemma normalized_well_formed_witness :
  nj_backoff_max_secs (normal_form demo_request 0 0) = 30 ∧
  normal (normal_form demo_request 0 0).
Proof.
  split; [reflexivity|].
  apply (normalized_well_formed demo_request 0).
  reflexivity.
Defined.

Example delay_panics :
  normalized (demo_request <| new_delay_secs := Some 10000000000000 |>) 0 = None.
Proof. reflexivity. Qed.
End witnesses.
