(* ===== verification/Float64.v ===== *)
(** * [f64] and [Duration]

    The arithmetic of Rust's [f64] is IEEE-754 binary64, as specified by the
    standard library's [SpecFloat]; [std::time::Duration] is whole seconds and
    nanoseconds, and its conversions from and to [f64] are those of [std]. *)

From S2P Require Import Prelude Externals.
From stdpp Require Import options.

Definition f64_mul : f64 → f64 → f64 := SFmul 53 1024.
Definition f64_add : f64 → f64 → f64 := SFadd 53 1024.
Definition f64_sub : f64 → f64 → f64 := SFsub 53 1024.
Definition f64_div : f64 → f64 → f64 := SFdiv 53 1024.
Definition f64_ltb : f64 → f64 → bool := SFltb.
Definition f64_leb : f64 → f64 → bool := SFleb.

(** [z as f64], and the integral literals. *)
Definition f64_of_Z (z : Z) : f64 := binary_normalize 53 1024 z 0 false.

(** [x.min(y)] and [x.max(y)]: a NaN operand loses. *)
Definition f64_min (x y : f64) : f64 :=
  match x, y with
  | S754_nan, _ => y
  | _, S754_nan => x
  | _, _ => if f64_ltb y x then y else x
  end.

Definition f64_max (x y : f64) : f64 :=
  match x, y with
  | S754_nan, _ => y
  | _, S754_nan => x
  | _, _ => if f64_ltb x y then y else x
  end.

(** [x.clamp(lo, hi)] *)
Definition f64_clamp (lo hi x : f64) : f64 :=
  let x := if f64_ltb x lo then lo else x in
  if f64_ltb hi x then hi else x.

(** [x.powi(n)]: the repeated squaring of the compiler's runtime. *)
Fixpoint powi_loop (a r : f64) (n : positive) : f64 :=
  match n with
  | xH => f64_mul r a
  | xO p => powi_loop (f64_mul a a) r p
  | xI p => powi_loop (f64_mul a a) (f64_mul r a) p
  end.

Definition f64_powi (a : f64) (n : Z) : f64 :=
  match n with
  | Z0 => f64_of_Z 1
  | Zpos p => powi_loop a (f64_of_Z 1) p
  | Zneg p => f64_div (f64_of_Z 1) (powi_loop a (f64_of_Z 1) p)
  end.

(** [m * 2^e] rounded up to an integer. *)
Definition ceil_pos (m : positive) (e : Z) : Z :=
  if 0 <=? e then Zpos m * 2 ^ e else - (- Zpos m / 2 ^ (- e)).

Definition floor_pos (m : positive) (e : Z) : Z :=
  if 0 <=? e then Zpos m * 2 ^ e else Zpos m / 2 ^ (- e).

(** [x.ceil() as i64]: the cast saturates, and NaN becomes 0. *)
Definition f64_ceil_as_i64 (x : f64) : Z :=
  match x with
  | S754_nan | S754_zero _ => 0
  | S754_infinity false => i64_max
  | S754_infinity true => i64_min
  | S754_finite false m e => Z.min i64_max (ceil_pos m e)
  | S754_finite true m e => Z.max i64_min (- floor_pos m e)
  end.

(** ** [std::time::Duration] *)

Record Duration := mkDuration { dur_secs : Z; dur_nanos : Z }.

Definition nanos_per_sec : Z := 1000000000.

Definition from_secs (secs : Z) : Duration := mkDuration secs 0.
Definition from_millis (ms : Z) : Duration :=
  mkDuration (ms / 1000) (ms mod 1000 * 1000000).

Definition as_secs_f64 (d : Duration) : f64 :=
  f64_add (f64_of_Z (dur_secs d)) (f64_div (f64_of_Z (dur_nanos d)) (f64_of_Z nanos_per_sec)).

(** [n / d] to the nearest integer, ties to even. *)
Definition div_nearest_even (n d : Z) : Z :=
  let q := n / d in
  let r := n mod d in
  if 2 * r <? d then q
  else if d <? 2 * r then q + 1
  else if Z.even q then q else q + 1.

(** [Duration::from_secs_f64]; [None] is its panic: a negative, NaN or too
    large argument. *)
Definition from_secs_f64 (x : f64) : option Duration :=
  match x with
  | S754_zero _ => Some (mkDuration 0 0)
  | S754_finite false m e =>
      let ns := if 0 <=? e then Zpos m * 2 ^ e * nanos_per_sec
                else div_nearest_even (Zpos m * nanos_per_sec) (2 ^ (- e)) in
      if ns / nanos_per_sec <=? u64_max
      then Some (mkDuration (ns / nanos_per_sec) (ns mod nanos_per_sec))
      else None
  | _ => None
  end.

(** ** Exact integers

    [holds_int x v]: the float [x] is exactly the positive integer [v], in its
    canonical form: a mantissa of 53 digits. *)
Definition holds_int (x : f64) (v : Z) : Prop :=
  ∃ m e, x = S754_finite false m e ∧ digits2_pos m = 53%positive ∧ -52 ≤ e ≤ 900 ∧
    Zpos m * 2 ^ (e + 52) = v * 2 ^ 52.

Lemma digits2_pos_bounds p :
  2 ^ (Zpos (digits2_pos p) - 1) ≤ Zpos p < 2 ^ Zpos (digits2_pos p).
Proof.
  induction p as [p IH|p IH|]; cbn [digits2_pos]; [| |done].
  all: rewrite Pos2Z.inj_succ, Z.pow_succ_r by lia.
  all: replace (Z.succ (Zpos (digits2_pos p)) - 1) with (Z.succ (Zpos (digits2_pos p) - 1)) by lia.
  all: rewrite Z.pow_succ_r by lia; lia.
Qed.

Lemma digits2_pos_unique p d :
  0 < d → 2 ^ (d - 1) ≤ Zpos p < 2 ^ d → Zpos (digits2_pos p) = d.
Proof.
  intros Hd Hp. pose proof (digits2_pos_bounds p) as Hq.
  set (d' := Zpos (digits2_pos p)) in *. assert (0 < d') by lia.
  destruct (Z.lt_trichotomy d' d) as [Hlt|[|Hlt]]; [|done|].
  - assert (2 ^ d' ≤ 2 ^ (d - 1)) by (apply Z.pow_le_mono_r; lia). lia.
  - assert (2 ^ d ≤ 2 ^ (d' - 1)) by (apply Z.pow_le_mono_r; lia). lia.
Qed.

Lemma mantissa_bounds m : digits2_pos m = 53%positive → 2 ^ 52 ≤ Zpos m < 2 ^ 53.
Proof. intros Hm. pose proof (digits2_pos_bounds m) as H. by rewrite Hm in H. Qed.

Lemma round_canonical m e :
  digits2_pos m = 53%positive → -1000 ≤ e ≤ 971 →
  binary_round_aux 53 1024 false (Zpos m) e loc_Exact = S754_finite false m e.
Proof.
  intros Hm He.
  assert (shr_fexp 53 1024 (Zpos m) e loc_Exact = (Build_shr_record (Zpos m) false false, e))
    as Hshr.
  { unfold shr_fexp, fexp, emin. cbn [Zdigits2 shr_record_of_loc]. rewrite Hm.
    replace (Z.max (53 + e - 53) (3 - 1024 - 53) - e) with 0 by lia. done. }
  unfold binary_round_aux. rewrite Hshr. cbn [shr_m loc_of_shr_record round_nearest_even].
  rewrite Hshr. cbn [shr_m]. destruct (Z.leb_spec e (1024 - 53)); [done|lia].
Qed.

Lemma iter_xO p n : Zpos (Pos.iter xO p n) = Zpos p * 2 ^ Zpos n.
Proof.
  induction n as [|n IH] using Pos.peano_ind; [cbn; lia|].
  rewrite Pos.iter_succ, Pos2Z.inj_succ, Z.pow_succ_r by lia. lia.
Qed.

Lemma holds_int_of_Z z : 0 < z < 2 ^ 53 → holds_int (f64_of_Z z) z.
Proof.
  intros Hz. destruct z as [|p|]; [lia| |lia]. unfold f64_of_Z, binary_normalize, binary_round.
  pose proof (digits2_pos_bounds p) as Hd.
  assert (Zpos (digits2_pos p) ≤ 53) as Hle.
  { destruct (Z.le_gt_cases (Zpos (digits2_pos p)) 53) as [|Hgt]; [done|].
    assert (2 ^ 53 ≤ 2 ^ (Zpos (digits2_pos p) - 1)) by (apply Z.pow_le_mono_r; lia). lia. }
  unfold shl_align, fexp, emin.
  replace (Z.max (Zpos (digits2_pos p) + 0 - 53) (3 - 1024 - 53) - 0)
    with (Zpos (digits2_pos p) - 53) by lia.
  replace (Z.max (Zpos (digits2_pos p) + 0 - 53) (3 - 1024 - 53))
    with (Zpos (digits2_pos p) - 53) by lia.
  destruct (Zpos (digits2_pos p) - 53) as [|q|q] eqn:Hq; [|lia|].
  - exists p, 0. assert (digits2_pos p = 53%positive) as Hp by lia.
    rewrite round_canonical by (done || lia). split_and!; done || lia.
  - set (m := Pos.iter xO p q). assert (Zpos m = Zpos p * 2 ^ Zpos q) as Hm by apply iter_xO.
    assert (digits2_pos m = 53%positive) as Hdm.
    { apply Pos2Z.inj, digits2_pos_unique; [lia|]. rewrite Hm.
      assert (2 ^ (53 - 1) = 2 ^ (Zpos (digits2_pos p) - 1) * 2 ^ Zpos q) as ->
        by (rewrite <- Z.pow_add_r by lia; f_equal; lia).
      assert (2 ^ 53 = 2 ^ Zpos (digits2_pos p) * 2 ^ Zpos q) as ->
        by (rewrite <- Z.pow_add_r by lia; f_equal; lia).
      assert (0 < 2 ^ Zpos q) by (apply Z.pow_pos_nonneg; lia). nia. }
    exists m, (Zneg q). rewrite round_canonical by (done || lia).
    split_and!; [done..|lia|lia|].
    rewrite Hm, <- Z.mul_assoc, <- Z.pow_add_r by lia. f_equal. f_equal. lia.
Qed.

Lemma mul_pow2 m e k :
  digits2_pos m = 53%positive → -1000 ≤ e + k ≤ 971 →
  f64_mul (S754_finite false m e) (S754_finite false 4503599627370496 (k - 52)) =
    S754_finite false m (e + k).
Proof.
  intros Hm He. unfold f64_mul, SFmul. cbn [xorb]. rewrite Pos.mul_comm.
  unfold binary_round_aux.
  assert (shr_fexp 53 1024 (Zpos (4503599627370496 * m)) (e + (k - 52)) loc_Exact =
            (Build_shr_record (Zpos m) false false, e + k)) as ->.
  { unfold shr_fexp, fexp, emin. cbn [Zdigits2 shr_record_of_loc].
    assert (Zpos (digits2_pos (4503599627370496 * m)) = 105) as ->.
    { change (4503599627370496 * m)%positive with (Pos.iter xO m 52). cbn. by rewrite Hm. }
    replace (Z.max (105 + (e + (k - 52)) - 53) (3 - 1024 - 53) - (e + (k - 52))) with 52 by lia.
    unfold shr. f_equal. lia. }
  cbn [shr_m loc_of_shr_record round_nearest_even].
  unfold shr_fexp, fexp, emin. cbn [Zdigits2 shr_record_of_loc]. rewrite Hm.
  replace (Z.max (53 + (e + k) - 53) (3 - 1024 - 53) - (e + k)) with 0 by lia.
  cbn [shr shr_m]. destruct (Z.leb_spec (e + k) (1024 - 53)); [done|lia].
Qed.

Lemma powi_2 k :
  0 ≤ k ≤ 32 → f64_powi (f64_of_Z 2) k = S754_finite false 4503599627370496 (k - 52).
Proof.
  intros Hk.
  assert (List.map (λ k, f64_powi (f64_of_Z 2) k) (seqZ 0 33) =
          List.map (λ k, S754_finite false 4503599627370496 (k - 52)) (seqZ 0 33)) as Hall
    by (vm_compute; reflexivity).
  rewrite List.map_ext_in_iff in Hall. apply Hall, list_elem_of_In, elem_of_seqZ. lia.
Qed.

Lemma holds_int_mul_pow2 x v k :
  holds_int x v → v < 2 ^ 53 → 0 ≤ k ≤ 32 →
  holds_int (f64_mul x (f64_powi (f64_of_Z 2) k)) (v * 2 ^ k).
Proof.
  intros (m & e & -> & Hm & He & Hv) Hlt Hk. rewrite powi_2 by done.
  pose proof (mantissa_bounds m Hm).
  assert (e ≤ 0) as He0.
  { destruct (Z.le_gt_cases e 0) as [|Hgt]; [done|]. exfalso.
    assert (2 ^ 53 ≤ 2 ^ (e + 52)) by (apply Z.pow_le_mono_r; lia). nia. }
  rewrite mul_pow2 by (done || lia). exists m, (e + k). split_and!; [done..|lia|lia|].
  replace (e + k + 52) with ((e + 52) + k) by lia.
  rewrite Z.pow_add_r, Z.mul_assoc, Hv by lia. lia.
Qed.

Lemma holds_int_ltb x y v w :
  holds_int x v → holds_int y w → f64_ltb x y = (v <? w).
Proof.
  intros (m & e & -> & Hm & He & Hv) (n & f & -> & Hn & Hf & Hw).
  pose proof (mantissa_bounds m Hm). pose proof (mantissa_bounds n Hn).
  assert (∀ m n e f, 2 ^ 52 ≤ Zpos m < 2 ^ 53 → 2 ^ 52 ≤ Zpos n → -52 ≤ e → e < f →
            Zpos m * 2 ^ (e + 52) < Zpos n * 2 ^ (f + 52)) as Hcmp.
  { clear. intros m n e f Hm Hn He Hlt.
    assert (2 ^ (e + 53) ≤ 2 ^ (f + 52)) by (apply Z.pow_le_mono_r; lia).
    replace (e + 53) with (Z.succ (e + 52)) in * by lia. rewrite Z.pow_succ_r in * by lia.
    assert (0 < 2 ^ (e + 52)) by (apply Z.pow_pos_nonneg; lia). nia. }
  unfold f64_ltb, SFltb, SFcompare.
  destruct (Z.compare_spec e f) as [->|Hlt|Hgt].
  - assert (0 < 2 ^ (f + 52)) by (apply Z.pow_pos_nonneg; lia).
    change (Pos.compare_cont Eq m n) with (m ?= n)%positive.
    destruct (Pos.compare_spec m n), (Z.ltb_spec v w); try done; subst; nia.
  - pose proof (Hcmp m n e f ltac:(lia) ltac:(lia) ltac:(lia) Hlt).
    destruct (Z.ltb_spec v w); [done|nia].
  - pose proof (Hcmp n m f e ltac:(lia) ltac:(lia) ltac:(lia) Hgt).
    destruct (Z.ltb_spec v w); [nia|done].
Qed.

Lemma holds_int_min x y v w :
  holds_int x v → holds_int y w → holds_int (f64_min x y) (Z.min v w).
Proof.
  intros Hx Hy. pose proof (holds_int_ltb y x w v Hy Hx) as Hlt.
  assert (f64_min x y = if f64_ltb y x then y else x) as ->.
  { destruct Hx as (?&?&->&_), Hy as (?&?&->&_). done. }
  rewrite Hlt. destruct (Z.ltb_spec w v);
    [rewrite Z.min_r by lia|rewrite Z.min_l by lia]; done.
Qed.

Lemma holds_int_max_0 x v : holds_int x v → f64_max x (f64_of_Z 0) = x.
Proof. by intros (m & e & -> & _). Qed.

(** The integer as a quotient, and as a product. *)
Lemma holds_int_value x v m e :
  x = S754_finite false m e → Zpos m * 2 ^ (e + 52) = v * 2 ^ 52 → -52 ≤ e →
  if 0 <=? e then Zpos m * 2 ^ e = v else Zpos m = v * 2 ^ (- e).
Proof.
  intros _ Hv He. destruct (Z.leb_spec 0 e).
  - rewrite Z.pow_add_r in Hv by lia. nia.
  - assert (2 ^ 52 = 2 ^ (- e) * 2 ^ (e + 52)) as Hp
      by (rewrite <- Z.pow_add_r by lia; f_equal; lia).
    rewrite Hp, Z.mul_assoc in Hv. apply Z.mul_cancel_r in Hv; [done|].
    apply Z.pow_nonzero; lia.
Qed.

Lemma holds_int_ceil x v : holds_int x v → v ≤ i64_max → f64_ceil_as_i64 x = v.
Proof.
  intros (m & e & -> & Hm & He & Hv) Hmax. pose proof (holds_int_value _ v m e eq_refl Hv) as H.
  cbn. unfold ceil_pos. destruct (0 <=? e) eqn:E; rewrite H by lia; [lia|].
  rewrite <- Z.mul_opp_l, Z.div_mul by (apply Z.pow_nonzero; lia). lia.
Qed.

Lemma holds_int_from_secs x v :
  holds_int x v → v ≤ u64_max → from_secs_f64 x = Some (from_secs v).
Proof.
  intros (m & e & -> & Hm & He & Hv) Hmax. pose proof (holds_int_value _ v m e eq_refl Hv) as H.
  unfold from_secs_f64, from_secs, nanos_per_sec.
  assert ((if 0 <=? e then Zpos m * 2 ^ e * 1000000000
           else div_nearest_even (Zpos m * 1000000000) (2 ^ (- e))) = v * 1000000000) as ->.
  { destruct (0 <=? e) eqn:E; rewrite H by lia; [done|].
    assert (0 < 2 ^ (- e)) by (apply Z.pow_pos_nonneg; lia).
    unfold div_nearest_even.
    replace (v * 2 ^ (- e) * 1000000000) with (v * 1000000000 * 2 ^ (- e)) by lia.
    rewrite Z.div_mul, Z.mod_mul by lia. destruct (Z.ltb_spec (2 * 0) (2 ^ (- e))); [done|lia]. }
  rewrite Z.div_mul, Z.mod_mul by lia. destruct (Z.leb_spec v u64_max); [done|lia].
Qed.

Lemma as_secs_f64_from_secs v : 0 < v < 2 ^ 53 → holds_int (as_secs_f64 (from_secs v)) v.
Proof.
  intros Hv. pose proof (holds_int_of_Z v Hv) as H. unfold as_secs_f64, from_secs. cbn [dur_secs dur_nanos].
  assert (f64_add (f64_of_Z v) (f64_div (f64_of_Z 0) (f64_of_Z nanos_per_sec)) = f64_of_Z v)
    as ->; [|done].
  destruct H as (m & e & -> & _).
  assert (f64_div (f64_of_Z 0) (f64_of_Z nanos_per_sec) = S754_zero false) as -> by by vm_compute.
  done.
Qed.
