(* ===== verification/Backoff.v ===== *)
(** * [djq-core::backoff]: retry delays

    [BackoffPolicy] of [crates/core/src/backoff.rs], over binary64. *)

From S2P Require Import Prelude Externals Float64.
From stdpp Require Import options.

Record BackoffPolicy := mkBackoffPolicy {
  bp_base : Duration;
  bp_factor : f64;
  bp_max : Duration;
  bp_jitter : f64;
}.

Definition backoff_default : BackoffPolicy := {|
  bp_base := from_secs 2;
  bp_factor := f64_of_Z 2;
  bp_max := from_secs 300;
  bp_jitter := f64_of_Z 0;
|}.

(** [BackoffPolicy::exponential] *)
Definition exponential (base_secs max_secs : Z) : BackoffPolicy := {|
  bp_base := from_secs (Z.max base_secs 1);
  bp_factor := f64_of_Z 2;
  bp_max := from_secs (Z.max max_secs (Z.max base_secs 1));
  bp_jitter := f64_of_Z 0;
|}.

(** [None] is the panic of [Duration::from_secs_f64]. *)
Definition delay_for_attempt (self : BackoffPolicy) (attempt : Z) : option Duration :=
  let attempt := Z.max attempt 1 in
  let exp := Z.min (attempt - 1) 32 in
  let raw := f64_mul (as_secs_f64 (bp_base self)) (f64_powi (bp_factor self) exp) in
  let capped := f64_min raw (as_secs_f64 (bp_max self)) in
  from_secs_f64 (f64_max capped (f64_of_Z 0)).

(** The seconds handed to [Duration::from_secs_f64] once jitter applies. *)
Definition jittered_secs (self : BackoffPolicy) (base : Duration) (rand_unit : f64) : f64 :=
  let span := f64_mul (as_secs_f64 base) (bp_jitter self) in
  let offset :=
    f64_mul
      (f64_sub (f64_mul (f64_clamp (f64_of_Z 0) (f64_of_Z 1) rand_unit) (f64_of_Z 2))
         (f64_of_Z 1))
      span in
  f64_min (f64_max (f64_add (as_secs_f64 base) offset) (f64_of_Z 0))
    (as_secs_f64 (bp_max self)).

Definition delay_with_jitter (self : BackoffPolicy) (attempt : Z) (rand_unit : f64)
  : option Duration :=
  match delay_for_attempt self attempt with
  | None => None
  | Some base =>
      if f64_leb (bp_jitter self) (f64_of_Z 0) then Some base
      else from_secs_f64 (jittered_secs self base rand_unit)
  end.

Example jitter_half :
  delay_with_jitter (mkBackoffPolicy (from_secs 10) (f64_of_Z 2) (from_secs 1000)
                       (f64_div (f64_of_Z 1) (f64_of_Z 2))) 1 (f64_of_Z 1)
  = Some (from_secs 15).
Proof. vm_compute. reflexivity. Qed.

(** ** The delay of an exponential policy is exact

    As long as the policy's bounds are below 2^53 seconds, every operation on
    the way is exact, and the delay is the integer one reads in the
    documentation, as long as the exponent stays below the code's cap of 32. *)

Definition exp_delay (base max attempt : Z) : Z :=
  Z.min (base * 2 ^ Z.min (Z.max attempt 1 - 1) 32) max.

Lemma delay_exponential base_secs max_secs attempt :
  let base := Z.max base_secs 1 in let max := Z.max max_secs base in
  max < 2 ^ 53 →
  delay_for_attempt (exponential base_secs max_secs) attempt =
    Some (from_secs (exp_delay base max attempt)).
Proof.
  intros base max Hmax. unfold delay_for_attempt, exponential. cbn [bp_base bp_factor bp_max].
  fold base max. set (k := Z.min (Z.max attempt 1 - 1) 32).
  pose proof (as_secs_f64_from_secs base ltac:(lia)) as Hb.
  pose proof (as_secs_f64_from_secs max ltac:(lia)) as Hm.
  pose proof (holds_int_mul_pow2 _ _ k Hb ltac:(lia) ltac:(lia)) as Hraw.
  pose proof (holds_int_min _ _ _ _ Hraw Hm) as Hcap.
  rewrite (holds_int_max_0 _ _ Hcap). apply holds_int_from_secs; [done|].
  unfold exp_delay, u64_max. lia.
Qed.

Lemma exp_delay_bounds base max attempt :
  1 ≤ base ≤ max → base ≤ exp_delay base max attempt ≤ max.
Proof.
  intros Hb. unfold exp_delay. set (k := Z.min _ 32).
  assert (1 ≤ 2 ^ k) by (apply (Z.pow_le_mono_r 2 0); lia). nia.
Qed.

(** The cap on the exponent shows when the delay is still below [max] there. *)
Lemma exp_delay_documented base max attempt :
  1 ≤ base ≤ max →
  exp_delay base max attempt = Z.min (base * 2 ^ (Z.max attempt 1 - 1)) max ↔
  attempt ≤ 33 ∨ max ≤ base * 2 ^ 32.
Proof.
  intros Hb. unfold exp_delay. destruct (Z.le_gt_cases attempt 33) as [Ha|Ha].
  { replace (Z.min (Z.max attempt 1 - 1) 32) with (Z.max attempt 1 - 1) by lia. tauto. }
  replace (Z.min (Z.max attempt 1 - 1) 32) with 32 by lia.
  assert (2 ^ 32 * 2 ≤ 2 ^ (Z.max attempt 1 - 1)) as Hp.
  { change (2 ^ 32 * 2) with (2 ^ 33). apply Z.pow_le_mono_r; lia. }
  assert (base * 2 ^ 32 * 2 ≤ base * 2 ^ (Z.max attempt 1 - 1)) by nia.
  assert (0 < base * 2 ^ 32) by lia. lia.
Qed.

(** C27: the delay an exponential policy gives, for every attempt number (0
    counts as 1) and every policy whose cap is below 2^53 seconds, is exactly
    [min (base * 2^min(attempt-1, 32)) max] seconds: binary64 rounds nowhere,
    and [Duration::from_secs_f64] does not panic.  It is the documented
    [min (base * 2^(attempt-1)) max] precisely when the attempt is at most 33 or
    the cap at most [base * 2^32]; else the code stays at [base * 2^32], short
    of the cap.  Whatever random unit is drawn, the policy has no jitter. *)
Theorem exponential_delay_exact base_secs max_secs attempt rand_unit :
  let base := Z.max base_secs 1 in let max := Z.max max_secs base in
  max < 2 ^ 53 →
  delay_for_attempt (exponential base_secs max_secs) attempt =
    Some (from_secs (Z.min (base * 2 ^ Z.min (Z.max attempt 1 - 1) 32) max)) ∧
  (delay_for_attempt (exponential base_secs max_secs) attempt =
     Some (from_secs (Z.min (base * 2 ^ (Z.max attempt 1 - 1)) max)) ↔
   attempt ≤ 33 ∨ max ≤ base * 2 ^ 32) ∧
  delay_with_jitter (exponential base_secs max_secs) attempt rand_unit =
    delay_for_attempt (exponential base_secs max_secs) attempt.
Proof.
  intros base max Hmax. pose proof (delay_exponential base_secs max_secs attempt Hmax) as Hd.
  split; [exact Hd|]. split.
  - rewrite Hd. rewrite <- (exp_delay_documented base max attempt) by lia.
    split; [by intros [= H]|]. intros H. do 2 f_equal. exact H.
  - unfold delay_with_jitter. by destruct (delay_for_attempt _ _).
Qed.

Lemma exponential_delay_exact_witness :
  delay_for_attempt (exponential 7 1000) 5 = Some (from_secs 112) ∧
  delay_for_attempt (exponential 1 (2 ^ 40)) 50 = Some (from_secs (2 ^ 32)).
Proof.
  split.
  - by destruct (exponential_delay_exact 7 1000 5 (S754_zero false) eq_refl) as [-> _].
  - by destruct (exponential_delay_exact 1 (2 ^ 40) 50 (S754_zero false) eq_refl) as [-> _].
Defined.

(** Retries back off.  Delays never decrease with the attempt number,
    stay between the base and the cap, double from one attempt to the next
    until they reach the cap, and stay there. *)
Theorem exponential_delay_monotone base_secs max_secs a a' :
  let base := Z.max base_secs 1 in let max := Z.max max_secs base in
  let delay n := match delay_for_attempt (exponential base_secs max_secs) n with
                 | Some d => dur_secs d | None => -1 end in
  max < 2 ^ 32 → 1 ≤ a ≤ a' →
  base ≤ delay a ≤ delay a' ∧ delay a' ≤ max ∧
  delay (a + 1) = Z.min (2 * delay a) max ∧
  (delay a = max → delay a' = max).
Proof.
  intros base max delay Hmax Ha.
  assert (∀ n, delay n = exp_delay base max n) as Hd.
  { intros n. unfold delay. by rewrite delay_exponential by (fold base max; lia). }
  rewrite !Hd. pose proof (exp_delay_bounds base max a ltac:(lia)).
  pose proof (exp_delay_bounds base max a' ltac:(lia)).
  assert (exp_delay base max a ≤ exp_delay base max a').
  { unfold exp_delay.
    assert (2 ^ Z.min (Z.max a 1 - 1) 32 ≤ 2 ^ Z.min (Z.max a' 1 - 1) 32)
      by (apply Z.pow_le_mono_r; lia). nia. }
  split_and!; try lia. unfold exp_delay. destruct (Z.le_gt_cases a 32).
  - replace (Z.min (Z.max (a + 1) 1 - 1) 32) with (Z.succ (Z.min (Z.max a 1 - 1) 32)) by lia.
    rewrite Z.pow_succ_r by lia. lia.
  - replace (Z.min (Z.max (a + 1) 1 - 1) 32) with 32 by lia.
    replace (Z.min (Z.max a 1 - 1) 32) with 32 by lia. lia.
Qed.

Lemma exponential_delay_monotone_witness :
  let delay n := match delay_for_attempt (exponential 2 300) n with
                 | Some d => dur_secs d | None => -1 end in
  delay 3 ≤ delay 1000.
Proof. apply (exponential_delay_monotone 2 300 3 1000); lia. Defined.
