(* ===== verification/UnitTests.v ===== *)
(** * The unit tests of the source

    The [#[test]] functions of [status.rs], [model.rs] and [backoff.rs] of
    [crates/core/src], translated as they are: each is the conjunction of its
    assertions, and each holds of the definitions of the development. *)

From S2P Require Import Prelude Externals RustStr Status Error Model Float64 Backoff.
From stdpp Require Import options.

(** [assert_eq!(a, b)] *)
Definition assert_eq {A} `{EqDecision A} (a b : A) : bool := bool_decide (a = b).

#[export] Instance Duration_eq_dec : EqDecision Duration.
Proof. solve_decision. Defined.

Module status_tests.

Definition roundtrips_through_string : bool :=
  forallb (λ s, match from_str (as_str s) with Ok s' => assert_eq s' s | Err _ => false end)
    [Queued; Scheduled; Processing; Completed; Failed; Retrying; Cancelled; DeadLettered].

Definition terminal_states_have_no_outgoing_edges : bool :=
  forallb (λ s, is_terminal s &&
      forallb (λ next, negb (can_transition_to s next)) [Queued; Processing; Completed; Retrying])
    [Completed; Cancelled; DeadLettered].

Definition happy_path_is_legal : bool :=
  can_transition_to Queued Processing && can_transition_to Processing Completed.

Definition retry_path_is_legal : bool :=
  can_transition_to Processing Retrying && can_transition_to Retrying Processing
  && can_transition_to Retrying DeadLettered.

Definition cannot_complete_a_queued_job_directly : bool :=
  negb (can_transition_to Queued Completed).

Definition lease_expiry_requeue_is_legal : bool := can_transition_to Processing Queued.

Example status_tests_pass :
  forallb id [roundtrips_through_string; terminal_states_have_no_outgoing_edges;
    happy_path_is_legal; retry_path_is_legal; cannot_complete_a_queued_job_directly;
    lease_expiry_requeue_is_legal] = true.
Proof. by vm_compute. Qed.

End status_tests.

Module model_tests.
Section tests.
Context `{X : Externals}.
(** [json!({"to": "a@b.c"})] and the empty object. *)
Context (payload metadata : Json).

Definition now : Timestamp := 1700000000 * second.

Definition base : NewJob := {|
  new_queue := "emails"; new_job_type := "send"; new_payload := payload; new_priority := 0;
  new_idempotency_key := None; new_max_attempts := None; new_delay_secs := None;
  new_run_at := None; new_timeout_secs := None; new_backoff_base_secs := None;
  new_backoff_max_secs := None; new_dead_letter := None; new_metadata := metadata;
  new_correlation_id := None |}.

(** [n.normalized(now()).unwrap()] satisfies [P]. *)
Definition unwrapped (n : NewJob) (P : NormalizedJob → bool) : bool :=
  match normalized n now with Some (Ok nj) => P nj | _ => false end.

(** [n.normalized(now()).is_err()] *)
Definition is_err (n : NewJob) : bool :=
  match normalized n now with Some (Err _) => true | _ => false end.

Definition applies_sensible_defaults : bool :=
  unwrapped base (λ n, assert_eq (nj_max_attempts n) 5 && assert_eq (nj_timeout_secs n) 300
    && assert_eq (nj_status n) Queued && assert_eq (nj_run_at n) now).

Definition delay_makes_it_scheduled : bool :=
  unwrapped (base <| new_delay_secs := Some 60 |>) (λ n,
    assert_eq (nj_status n) Scheduled && assert_eq (Some (nj_run_at n)) (chrono_add_secs now 60)).

Definition explicit_run_at_overrides_delay : bool :=
  match chrono_add_secs now 3600 with
  | None => false
  | Some target =>
      unwrapped (base <| new_run_at := Some target |> <| new_delay_secs := Some 10 |>) (λ n,
        assert_eq (nj_run_at n) target && assert_eq (nj_status n) Scheduled)
  end.

Definition rejects_empty_queue : bool := is_err (base <| new_queue := "  "%string |>).

Definition rejects_bad_max_attempts : bool := is_err (base <| new_max_attempts := Some 0 |>).

Definition backoff_max_is_floored_to_base : bool :=
  unwrapped (base <| new_backoff_base_secs := Some 30 |> <| new_backoff_max_secs := Some 5 |>)
    (λ n, assert_eq (nj_backoff_max_secs n) 30).

End tests.

Example model_tests_pass :
  let _ := demo_externals in
  forallb (λ test, test (DObj []) (DObj []))
    [applies_sensible_defaults; delay_makes_it_scheduled; explicit_run_at_overrides_delay;
     (λ p m, rejects_empty_queue p m); (λ p m, rejects_bad_max_attempts p m);
     backoff_max_is_floored_to_base] = true.
Proof. by vm_compute. Qed.

End model_tests.

Module backoff_tests.

Definition delay_is (p : BackoffPolicy) (attempt secs : Z) : bool :=
  assert_eq (delay_for_attempt p attempt) (Some (from_secs secs)).

Definition grows_exponentially : bool :=
  let p := exponential 2 1000 in
  delay_is p 1 2 && delay_is p 2 4 && delay_is p 3 8 && delay_is p 4 16.

Definition respects_the_ceiling : bool :=
  let p := exponential 2 10 in delay_is p 10 10.

Definition attempt_zero_is_treated_as_one : bool :=
  let p := exponential 3 1000 in delay_is p 0 3.

(** The literals 0.25, 0.5, 0.75, 0.9 and 0.999 in binary64. *)
Definition f_025 : f64 := S754_finite false 4503599627370496 (-54).
Definition f_05 : f64 := S754_finite false 4503599627370496 (-53).
Definition f_075 : f64 := S754_finite false 6755399441055744 (-53).
Definition f_09 : f64 := S754_finite false 8106479329266893 (-53).
Definition f_0999 : f64 := S754_finite false 8998192055486251 (-53).

Definition jitter_stays_within_bounds : bool :=
  let e := exponential 10 1000 in
  let p := mkBackoffPolicy (bp_base e) (bp_factor e) (bp_max e) f_05 in
  forallb (λ r,
      match delay_with_jitter p 1 r with
      | Some d => let d := as_secs_f64 d in f64_leb (f64_of_Z 5) d && f64_leb d (f64_of_Z 15)
      | None => false
      end)
    [S754_zero false; f_025; f_05; f_075; f_0999].

Definition zero_jitter_is_identity : bool :=
  let p := exponential 5 1000 in
  assert_eq (delay_with_jitter p 2 f_09) (delay_for_attempt p 2).

Definition does_not_overflow_for_large_attempts : bool :=
  let p := exponential 2 600 in delay_is p 1000 600.

Example backoff_tests_pass :
  forallb id [grows_exponentially; respects_the_ceiling; attempt_zero_is_treated_as_one;
    jitter_stays_within_bounds; zero_jitter_is_identity;
    does_not_overflow_for_large_attempts] = true.
Proof. by vm_compute. Qed.

End backoff_tests.
