(* ===== verification/Row.v ===== *)
(** * [djq-storage::row]: table rows and their conversion

    The row types of [crates/storage/src/row.rs]: the image of each table's
    columns, with the status column as text, and the conversions to the domain
    types. *)

From S2P Require Import Prelude Externals Status Error Model.
From stdpp Require Import options.

Section row.
Context `{X : Externals}.

Record JobRow := mkJobRow {
  jr_id : Uuid;
  jr_queue : string;
  jr_job_type : string;
  jr_payload : Json;
  jr_status : string;
  jr_priority : Z;
  jr_idempotency_key : option string;
  jr_max_attempts : Z;
  jr_attempts : Z;
  jr_run_at : Timestamp;
  jr_timeout_secs : Z;
  jr_backoff_base_secs : Z;
  jr_backoff_max_secs : Z;
  jr_dead_letter : bool;
  jr_locked_by : option Uuid;
  jr_locked_at : option Timestamp;
  jr_lease_expires_at : option Timestamp;
  jr_last_error : option string;
  jr_result : option Json;
  jr_metadata : Json;
  jr_correlation_id : option string;
  jr_created_at : Timestamp;
  jr_updated_at : Timestamp;
  jr_completed_at : option Timestamp;
}.

#[export] Instance eta_JobRow : Eta JobRow := λ r, mkJobRow
  (jr_id r) (jr_queue r) (jr_job_type r) (jr_payload r) (jr_status r) (jr_priority r)
  (jr_idempotency_key r) (jr_max_attempts r) (jr_attempts r) (jr_run_at r)
  (jr_timeout_secs r) (jr_backoff_base_secs r) (jr_backoff_max_secs r) (jr_dead_letter r)
  (jr_locked_by r) (jr_locked_at r) (jr_lease_expires_at r) (jr_last_error r)
  (jr_result r) (jr_metadata r) (jr_correlation_id r) (jr_created_at r) (jr_updated_at r)
  (jr_completed_at r).

(** The columns that SELECT and RETURNING name. *)
Definition JOB_COLUMNS : string :=
  "id, queue, job_type, payload, status, priority, idempotency_key, max_attempts, attempts, run_at, timeout_secs, backoff_base_secs, backoff_max_secs, dead_letter, locked_by, locked_at, lease_expires_at, last_error, result, metadata, correlation_id, created_at, updated_at, completed_at".

(** [JobRow::into_job]'s record literal, the status being parsed. *)
Definition job_of_row (self : JobRow) (status : JobStatus) : Job := {|
  job_id := jr_id self;
  job_queue := jr_queue self;
  job_job_type := jr_job_type self;
  job_payload := jr_payload self;
  job_status := status;
  job_priority := jr_priority self;
  job_idempotency_key := jr_idempotency_key self;
  job_max_attempts := jr_max_attempts self;
  job_attempts := jr_attempts self;
  job_run_at := jr_run_at self;
  job_timeout_secs := jr_timeout_secs self;
  job_backoff_base_secs := jr_backoff_base_secs self;
  job_backoff_max_secs := jr_backoff_max_secs self;
  job_dead_letter := jr_dead_letter self;
  job_locked_by := jr_locked_by self;
  job_locked_at := jr_locked_at self;
  job_lease_expires_at := jr_lease_expires_at self;
  job_last_error := jr_last_error self;
  job_result := jr_result self;
  job_metadata := jr_metadata self;
  job_correlation_id := jr_correlation_id self;
  job_created_at := jr_created_at self;
  job_updated_at := jr_updated_at self;
  job_completed_at := jr_completed_at self;
|}.

Definition into_job (self : JobRow) : Result Job :=
  res_bind
    (map_err (λ e, Storage ("invalid status in db: " ++ parse_status_error_to_string e))
       (from_str (jr_status self)))
    (λ status, Ok (job_of_row self status)).

Record QueueRow := mkQueueRow {
  qr_name : string;
  qr_paused : bool;
  qr_max_concurrency : option Z;
  qr_created_at : Timestamp;
}.

#[export] Instance eta_QueueRow : Eta QueueRow := λ r,
  mkQueueRow (qr_name r) (qr_paused r) (qr_max_concurrency r) (qr_created_at r).

Definition queue_of_row (r : QueueRow) : Queue :=
  mkQueue (qr_name r) (qr_paused r) (qr_max_concurrency r) (qr_created_at r).

Record AttemptRow := mkAttemptRow {
  ar_id : Z;
  ar_job_id : Uuid;
  ar_attempt : Z;
  ar_worker_id : option Uuid;
  ar_started_at : Timestamp;
  ar_finished_at : option Timestamp;
  ar_status : string;
  ar_error : option string;
}.

#[export] Instance eta_AttemptRow : Eta AttemptRow := λ r,
  mkAttemptRow (ar_id r) (ar_job_id r) (ar_attempt r) (ar_worker_id r) (ar_started_at r)
    (ar_finished_at r) (ar_status r) (ar_error r).

Definition attempt_of_row (r : AttemptRow) : JobAttempt :=
  mkJobAttempt (ar_id r) (ar_job_id r) (ar_attempt r) (ar_worker_id r) (ar_started_at r)
    (ar_finished_at r) (ar_status r) (ar_error r).

Record WorkerRow := mkWorkerRow {
  wr_id : Uuid;
  wr_hostname : string;
  wr_queues : list string;
  wr_concurrency : Z;
  wr_registered_at : Timestamp;
  wr_last_heartbeat : Timestamp;
}.

#[export] Instance eta_WorkerRow : Eta WorkerRow := λ r,
  mkWorkerRow (wr_id r) (wr_hostname r) (wr_queues r) (wr_concurrency r)
    (wr_registered_at r) (wr_last_heartbeat r).

Definition worker_of_row (r : WorkerRow) : Worker :=
  mkWorker (wr_id r) (wr_hostname r) (wr_queues r) (wr_concurrency r)
    (wr_registered_at r) (wr_last_heartbeat r).

Record DeadLetterRow := mkDeadLetterRow {
  dlr_id : Uuid;
  dlr_queue : string;
  dlr_job_type : string;
  dlr_payload : Json;
  dlr_attempts : Z;
  dlr_last_error : option string;
  dlr_dead_lettered_at : Timestamp;
  dlr_original_created_at : option Timestamp;
}.

Definition dead_letter_of_row (r : DeadLetterRow) : DeadLetterJob :=
  mkDeadLetterJob (dlr_id r) (dlr_queue r) (dlr_job_type r) (dlr_payload r) (dlr_attempts r)
    (dlr_last_error r) (dlr_dead_lettered_at r) (dlr_original_created_at r).

(** ** The status column *)

(** A row is read back as a job exactly when its status column is the string
    form of a status; otherwise the row is a storage error. *)
Lemma into_job_as_str r s : jr_status r = as_str s → into_job r = Ok (job_of_row r s).
Proof. intros H. unfold into_job. rewrite H, from_as_str. done. Qed.

Lemma into_job_Ok r j :
  into_job r = Ok j → ∃ s, jr_status r = as_str s ∧ j = job_of_row r s.
Proof.
  unfold into_job. destruct (from_str (jr_status r)) as [s|e] eqn:E; cbn; [|done].
  intros [= <-]. exists s. split; [by apply from_str_Ok|done].
Qed.

Lemma into_job_Err r e : into_job r = Err e → ∃ m, e = Storage m ∧ ∀ s, jr_status r ≠ as_str s.
Proof.
  unfold into_job. destruct (from_str (jr_status r)) as [s|e'] eqn:E; cbn; [done|].
  intros [= <-]. eexists. split; [done|]. intros s Hs. by rewrite Hs, from_as_str in E.
Qed.

End row.
