(* ===== verification/Sql.v ===== *)
(** * The database: schema, statements and transactions

    The tables of [crates/storage/migrations/0001_init.sql] with their keys
    and constraints, and the meaning of the SQL the store sends: a statement
    is a function of its environment and the tables.  What the database
    decides on its own is in the environment: the value of [now()], the rows
    other transactions hold locked, the physical position of each row (which
    resolves the ties of an ORDER BY), the rank of a text in the database's
    collation, the next random id, and whether the
    connection is lost before or after the statement takes effect. *)

From S2P Require Import Prelude Prog Externals Status Error Model Row.
From stdpp Require Import options.

Section sql.
Context `{X : Externals}.

(** ** Tables *)

Record Db := mkDb {
  db_queues : gmap string QueueRow;                 (* PRIMARY KEY (name) *)
  db_jobs : gmap Uuid JobRow;                       (* PRIMARY KEY (id) *)
  db_job_attempts : gmap Z AttemptRow;              (* BIGSERIAL PRIMARY KEY (id) *)
  db_attempts_seq : Z;                              (* its sequence *)
  db_workers : gmap Uuid WorkerRow;                 (* PRIMARY KEY (id) *)
  db_dead_letter_jobs : gmap Uuid DeadLetterRow;    (* PRIMARY KEY (id) *)
}.

#[export] Instance eta_Db : Eta Db := λ d, mkDb
  (db_queues d) (db_jobs d) (db_job_attempts d) (db_attempts_seq d) (db_workers d)
  (db_dead_letter_jobs d).

Definition empty_db : Db := mkDb ∅ ∅ ∅ 1 ∅ ∅.

(** ** The environment of one statement or transaction *)

(** A [sqlx::Error]: its database error code, if the database raised it, and
    its text. *)
Record sqlx_error := mkSqlxError { sql_code : option string; sql_text : string }.

Definition pg_error (code : string) : sqlx_error :=
  mkSqlxError (Some code) (pg_error_text code).

Inductive fault :=
| NoFault
| LostBefore (e : sqlx_error)   (* nothing was executed *)
| LostAfter (e : sqlx_error).   (* executed, and the answer lost *)

Record Env := mkEnv {
  env_now : Timestamp;
  env_locked : gset Uuid;
  env_pos : Uuid → Z;
  env_collate : string → Z;
  env_uuid : Uuid;
  env_fault : fault;
}.

Definition Sql (A : Type) : Type := Env → Db → result sqlx_error (A * Db).

(** ** Timestamps

    [now() + ($n::bigint * interval '1 second')] fails outside the range of
    TIMESTAMPTZ: 4713 BC to 294276 AD. *)
Definition pg_ts_min : Z := -210866803200000000.
Definition pg_ts_end : Z := 9224318016000000000.

Definition pg_ts_add_secs (t secs : Z) : result sqlx_error Timestamp :=
  let t' := t + secs * second in
  if (pg_ts_min <=? t') && (t' <? pg_ts_end) then Ok t' else Err (pg_error "22008").

(** [INTEGER] arithmetic fails on overflow. *)
Definition pg_int4 (z : Z) : result sqlx_error Z :=
  if (i32_min <=? z) && (z <=? i32_max) then Ok z else Err (pg_error "22003").

(** ** WHERE, ORDER BY, LIMIT *)

Definition rows_where {K R} `{Countable K} (P : R → bool) (m : gmap K R) : list R :=
  filter (λ r, P r = true) (map_to_list m).*2.

(** [UPDATE ... SET f WHERE P] *)
Definition update_where {K R} `{Countable K} (P : R → bool) (f : R → R) (m : gmap K R)
  : gmap K R :=
  (λ r, if P r then f r else r) <$> m.

(** [DELETE ... WHERE P] *)
Definition delete_where {K R} `{Countable K} (P : R → bool) (m : gmap K R) : gmap K R :=
  filter (λ kr, P kr.2 = false) m.

(** [LIMIT n]: a negative limit is an error. *)
Definition sql_limit {R} (n : Z) (l : list R) : result sqlx_error (list R) :=
  if n <? 0 then Err (pg_error "2201W") else Ok (take (Z.to_nat n) l).

(** [OFFSET n] *)
Definition sql_offset {R} (n : Z) (l : list R) : result sqlx_error (list R) :=
  if n <? 0 then Err (pg_error "2201X") else Ok (drop (Z.to_nat n) l).

(** [FOR UPDATE SKIP LOCKED] *)
Definition skip_locked (env : Env) (l : list JobRow) : list JobRow :=
  filter (λ r, jr_id r ∉ env_locked env) l.

Definition str_in (s : string) (l : list string) : bool := existsb (String.eqb s) l.

(** ** Statements against the database *)

Definition sql_ret {A} (a : A) : Sql A := λ _ db, Ok (a, db).
Definition sql_read {A} (f : Env → Db → result sqlx_error A) : Sql A :=
  λ env db, res_bind (f env db) (λ a, Ok (a, db)).

(** ** Transactions

    [inl] goes on with the tables as the transaction sees them, [inr] leaves
    with a result, the transaction rolled back (by [tx.rollback()] or by
    dropping it on the way out of a [?]). *)

Definition storage_err (e : sqlx_error) : QueueError := Storage (sql_text e).

Definition is_unique_violation (e : sqlx_error) : bool :=
  match sql_code e with Some c => String.eqb c "23505" | None => false end.

Definition Tx (R A : Type) : Type := Env → Db → (A * Db) + Result R.

Definition tx_ret {R A} (a : A) : Tx R A := λ _ db, inl (a, db).
Definition tx_bind {R A B} (k : A → Tx R B) (m : Tx R A) : Tx R B := λ env db,
  match m env db with inl (a, db') => k a env db' | inr r => inr r end.
#[export] Instance tx_mret R : MRet (Tx R) := @tx_ret R.
#[export] Instance tx_mbind R : MBind (Tx R) := λ A B, @tx_bind R A B.

(** [query.execute(&mut *tx).await.map_err(storage_err)?] *)
Definition tx_sql {R A} (s : Sql A) : Tx R A := λ env db,
  match s env db with Ok (a, db') => inl (a, db') | Err e => inr (Err (storage_err e)) end.
Definition tx_rollback {R A} (r : Result R) : Tx R A := λ _ _, inr r.
(** [r?] *)
Definition tx_lift {R A} (r : Result A) : Tx R A := λ _ db,
  match r with Ok a => inl (a, db) | Err e => inr (Err e) end.

Definition run_tx {R} (t : Tx R R) (env : Env) (db : Db) : Result R * Db :=
  match t env db with inl (r, db') => (Ok r, db') | inr r => (r, db) end.

(** ** Execution, with connection faults *)

Definition exec_stmt {A} (s : Sql A) (env : Env) (db : Db) : result sqlx_error A * Db :=
  match env_fault env with
  | LostBefore e => (Err e, db)
  | NoFault => match s env db with Ok (a, db') => (Ok a, db') | Err e => (Err e, db) end
  | LostAfter e => match s env db with Ok (_, db') => (Err e, db') | Err e' => (Err e', db) end
  end.

Definition exec_tx {R} (t : Tx R R) (env : Env) (db : Db) : Result R * Db :=
  match env_fault env with
  | LostBefore e => (Err (storage_err e), db)
  | NoFault => run_tx t env db
  | LostAfter e => (Err (storage_err e), (run_tx t env db).2)
  end.

(** The tables a statement can leave behind. *)
Lemma exec_stmt_db {A} (s : Sql A) env db :
  (exec_stmt s env db).2 = db ∨
  ∃ a, s env db = Ok (a, (exec_stmt s env db).2).
Proof.
  unfold exec_stmt. destruct (env_fault env); [|by left|];
    destruct (s env db) as [[a db']|e'] eqn:E; cbn; eauto.
Qed.

Lemma exec_tx_db {R} (t : Tx R R) env db :
  (exec_tx t env db).2 = db ∨
  ∃ r, t env db = inl (r, (exec_tx t env db).2).
Proof.
  unfold exec_tx, run_tx. destruct (env_fault env); [|by left|];
    destruct (t env db) as [[r db']|r] eqn:E; cbn; eauto.
Qed.

End sql.

Create HintDb sql discriminated.
#[export] Hint Unfold tx_ret tx_rollback tx_lift tx_sql sql_ret sql_read : sql.

(** ** Lemmas on WHERE, LIMIT and SKIP LOCKED *)

Section lemmas.
Context `{X : Externals}.

Lemma elem_of_rows_where {K R} `{Countable K} (P : R → bool) (m : gmap K R) r :
  r ∈ rows_where P m ↔ P r = true ∧ ∃ k, m !! k = Some r.
Proof.
  unfold rows_where. rewrite list_elem_of_filter, list_elem_of_fmap.
  split.
  - intros [HP [[k r'] [-> Hin]]]. rewrite elem_of_map_to_list in Hin. eauto.
  - intros [HP [k Hk]]. split; [done|]. exists (k, r). by rewrite elem_of_map_to_list.
Qed.

Lemma lookup_update_where {K R} `{Countable K} (P : R → bool) f (m : gmap K R) k :
  update_where P f m !! k = (λ r, if P r then f r else r) <$> m !! k.
Proof. unfold update_where. by rewrite lookup_fmap. Qed.

Lemma lookup_delete_where {K R} `{Countable K} (P : R → bool) (m : gmap K R) k r :
  delete_where P m !! k = Some r ↔ m !! k = Some r ∧ P r = false.
Proof. unfold delete_where. by rewrite map_lookup_filter_Some. Qed.

Lemma lookup_delete_where_None {K R} `{Countable K} (P : R → bool) (m : gmap K R) k :
  delete_where P m !! k = None ↔ m !! k = None ∨ ∃ r, m !! k = Some r ∧ P r = true.
Proof.
  unfold delete_where. rewrite map_lookup_filter_None. cbn. split.
  - intros [|H']; [by left|]. destruct (m !! k) as [r|] eqn:E; [|by left].
    right. exists r. split; [done|]. specialize (H' r eq_refl). by destruct (P r).
  - intros [|(r & -> & HP)]; [by left|]. right. intros ? [= <-]. congruence.
Qed.

Lemma sql_limit_Ok {R} n (l l' : list R) :
  sql_limit n l = Ok l' ↔ 0 ≤ n ∧ l' = take (Z.to_nat n) l.
Proof.
  unfold sql_limit. destruct (Z.ltb_spec n 0); split; try naive_solver lia.
Qed.

Lemma elem_of_skip_locked env r l : r ∈ skip_locked env l ↔ jr_id r ∉ env_locked env ∧ r ∈ l.
Proof. unfold skip_locked. by rewrite list_elem_of_filter. Qed.

Lemma str_in_true s l : str_in s l = true ↔ s ∈ l.
Proof.
  unfold str_in. rewrite existsb_exists. setoid_rewrite String.eqb_eq.
  setoid_rewrite <- list_elem_of_In. naive_solver.
Qed.

Lemma collect_results_elem {E A B} (f : A → result E B) l l' b :
  collect_results f l = Ok l' → b ∈ l' → ∃ a, a ∈ l ∧ f a = Ok b.
Proof.
  revert l'. induction l as [|a l IH]; intros l' Hc Hb; cbn in *.
  { simplify_eq. by apply elem_of_nil in Hb. }
  destruct (f a) as [b'|] eqn:Ha; cbn in *; [|done].
  destruct (collect_results f l) as [bs|]; cbn in *; [|done]. simplify_eq.
  apply elem_of_cons in Hb as [->|Hb]; [set_solver|].
  destruct (IH bs eq_refl Hb) as (a' & ? & ?). exists a'. set_solver.
Qed.

Lemma collect_results_elem_inv {E A B} (f : A → result E B) l l' a :
  collect_results f l = Ok l' → a ∈ l → ∃ b, b ∈ l' ∧ f a = Ok b.
Proof.
  revert l'. induction l as [|a' l IH]; intros l' Hc Ha; cbn in *.
  { by apply elem_of_nil in Ha. }
  destruct (f a') as [b'|] eqn:Ha'; cbn in *; [|done].
  destruct (collect_results f l) as [bs|]; cbn in *; [|done]. simplify_eq.
  apply elem_of_cons in Ha as [->|Ha]; [set_solver|].
  destruct (IH bs eq_refl Ha) as (b & ? & ?). exists b. set_solver.
Qed.

Lemma res_bind_Ok {E A B} (r : result E A) (k : A → result E B) b :
  res_bind r k = Ok b ↔ ∃ a, r = Ok a ∧ k a = Ok b.
Proof. destruct r; naive_solver. Qed.

Lemma pg_ts_add_secs_Ok t secs t' : pg_ts_add_secs t secs = Ok t' → t' = t + secs * second.
Proof. unfold pg_ts_add_secs. case_test; intros; by simplify_eq. Qed.

Lemma pg_int4_Ok z z' : pg_int4 z = Ok z' → z' = z.
Proof. unfold pg_int4. case_test; intros; by simplify_eq. Qed.

End lemmas.

(** Run a transaction's code down to its statements. *)
Ltac tx_unfold :=
  cbv [mbind tx_mbind tx_bind mret tx_mret tx_sql tx_lift tx_rollback tx_ret].
