(* ===== verification/Statements.v ===== *)
(** * [djq-storage]: the statements the store sends

    Each SQL text of [crates/storage/src/lib.rs] as a function on the tables,
    and the multi-statement transactions built from them, in the order of the
    file.  [DbReq] lists them: it is everything the store ever asks of the
    database, and [exec] is the answer. *)

From S2P Require Import Prelude Prog Externals Status Error Model Row Float64 Backoff Sql.
From stdpp Require Import options.

Section statements.
Context `{X : Externals}.

(** ** queues *)

(** INSERT INTO queues(name) VALUES ($1) ON CONFLICT (name) DO NOTHING *)
Definition sql_insert_queue (name : string) : Sql unit := λ env db,
  Ok (tt, match db_queues db !! name with
          | Some _ => db
          | None => db <| db_queues ::= <[name := mkQueueRow name false None (env_now env)]> |>
          end).

(** SELECT ... FROM queues WHERE name = $1 *)
Definition sql_select_queue (name : string) : Sql (option QueueRow) :=
  sql_read (λ _ db, Ok (db_queues db !! name)).

(** SELECT ... FROM queues ORDER BY name; the collation is the database's. *)
Definition sql_select_queues : Sql (list QueueRow) :=
  sql_read (λ env db,
    Ok (order_by (λ r, [env_collate env (qr_name r)]) (map_to_list (db_queues db)).*2)).

(** UPDATE queues SET paused = $2 WHERE name = $1 RETURNING ... *)
Definition sql_update_paused (name : string) (paused : bool) : Sql (option QueueRow) := λ _ db,
  match db_queues db !! name with
  | None => Ok (None, db)
  | Some r =>
      let r' := r <| qr_paused := paused |> in
      Ok (Some r', db <| db_queues ::= <[name := r']> |>)
  end.

(** SELECT status, COUNT( * ) FROM jobs WHERE queue = $1 GROUP BY status *)
Definition sql_count_by_status (name : string) : Sql (list (string * Z)) :=
  sql_read (λ _ db,
    let statuses := jr_status <$> rows_where (λ r, String.eqb (jr_queue r) name) (db_jobs db) in
    Ok ((λ s, (s, Z.of_nat (length (filter (λ s', s' = s) statuses))))
          <$> remove_dups statuses)).

(** ** submission and inspection *)

(** The WHERE of a lookup by [(queue, idempotency_key)]; a NULL key equals
    nothing. *)
Definition has_key (queue key : string) (r : JobRow) : bool :=
  String.eqb (jr_queue r) queue &&
  match jr_idempotency_key r with Some k => String.eqb k key | None => false end.

(** SELECT {JOB_COLUMNS} FROM jobs WHERE queue = $1 AND idempotency_key = $2 *)
Definition sql_select_job_by_key (queue key : string) : Sql (option JobRow) :=
  sql_read (λ _ db, Ok (head (rows_where (has_key queue key) (db_jobs db)))).

(** The row an INSERT of the submission's columns creates, the other columns
    taking their defaults. *)
Definition new_row (n : NormalizedJob) (id : Uuid) (now : Timestamp) : JobRow := {|
  jr_id := id;
  jr_queue := nj_queue n;
  jr_job_type := nj_job_type n;
  jr_payload := nj_payload n;
  jr_status := as_str (nj_status n);
  jr_priority := nj_priority n;
  jr_idempotency_key := nj_idempotency_key n;
  jr_max_attempts := nj_max_attempts n;
  jr_attempts := 0;
  jr_run_at := nj_run_at n;
  jr_timeout_secs := nj_timeout_secs n;
  jr_backoff_base_secs := nj_backoff_base_secs n;
  jr_backoff_max_secs := nj_backoff_max_secs n;
  jr_dead_letter := nj_dead_letter n;
  jr_locked_by := None;
  jr_locked_at := None;
  jr_lease_expires_at := None;
  jr_last_error := None;
  jr_result := None;
  jr_metadata := nj_metadata n;
  jr_correlation_id := nj_correlation_id n;
  jr_created_at := now;
  jr_updated_at := now;
  jr_completed_at := None;
|}.

(** The CHECK constraints of the jobs table. *)
Definition checks_ok (r : JobRow) : bool :=
  str_in (jr_status r) (as_str <$> all_statuses) &&
  (1 <=? jr_max_attempts r) && (1 <=? jr_timeout_secs r) &&
  (1 <=? jr_backoff_base_secs r) && (1 <=? jr_backoff_max_secs r).

(** A row with the same id, or with the same non-NULL [(queue, key)]. *)
Definition unique_conflict (r : JobRow) (db : Db) : bool :=
  match db_jobs db !! jr_id r with Some _ => true | None => false end ||
  match jr_idempotency_key r with
  | Some key => negb (bool_decide (rows_where (has_key (jr_queue r) key) (db_jobs db) = []))
  | None => false
  end.

(** INSERT INTO jobs (...) VALUES ($1,...,$14) RETURNING {JOB_COLUMNS} *)
Definition sql_insert_job (n : NormalizedJob) : Sql JobRow := λ env db,
  let r := new_row n (env_uuid env) (env_now env) in
  if negb (checks_ok r) then Err (pg_error "23514")
  else if unique_conflict r db then Err (pg_error "23505")
  else match db_queues db !! jr_queue r with
       | None => Err (pg_error "23503")
       | Some _ => Ok (r, db <| db_jobs ::= <[jr_id r := r]> |>)
       end.

(** SELECT {JOB_COLUMNS} FROM jobs WHERE id = $1 *)
Definition sql_select_job (id : Uuid) : Sql (option JobRow) :=
  sql_read (λ _ db, Ok (db_jobs db !! id)).

(** [$n::text IS NULL OR column = $n] *)
Definition opt_filter (o : option string) (column : string) : bool :=
  match o with None => true | Some s => String.eqb column s end.

(** SELECT ... FROM jobs WHERE ... ORDER BY created_at DESC LIMIT $4 OFFSET $5 *)
Definition sql_list_jobs (queue status job_type : option string) (limit offset : Z)
  : Sql (list JobRow) :=
  sql_read (λ env db,
    let rows := rows_where (λ r, opt_filter queue (jr_queue r) && opt_filter status (jr_status r)
                                 && opt_filter job_type (jr_job_type r)) (db_jobs db) in
    let sorted := order_by (λ r, [- jr_created_at r; env_pos env (jr_id r)]) rows in
    res_bind (sql_offset offset sorted) (sql_limit limit)).

(** SELECT ... FROM job_attempts WHERE job_id = $1 ORDER BY attempt DESC, id DESC *)
Definition sql_list_attempts (job_id : Uuid) : Sql (list AttemptRow) :=
  sql_read (λ _ db,
    Ok (order_by (λ r, [- ar_attempt r; - ar_id r])
          (rows_where (λ r, bool_decide (ar_job_id r = job_id)) (db_job_attempts db)))).

(** SELECT ... FROM dead_letter_jobs WHERE ... ORDER BY dead_lettered_at DESC LIMIT $2 *)
Definition sql_list_dead_letter (queue : option string) (limit : Z) : Sql (list DeadLetterRow) :=
  sql_read (λ env db,
    sql_limit limit
      (order_by (λ r, [- dlr_dead_lettered_at r; env_pos env (dlr_id r)])
         (rows_where (λ r, opt_filter queue (dlr_queue r)) (db_dead_letter_jobs db)))).

(** ** operator actions *)

(** UPDATE jobs SET f WHERE id = $1 AND P RETURNING {JOB_COLUMNS} *)
Definition update_job_returning (id : Uuid) (P : JobRow → bool) (f : JobRow → JobRow) (db : Db)
  : option JobRow * Db :=
  match db_jobs db !! id with
  | Some r => if P r then (Some (f r), db <| db_jobs ::= <[id := f r]> |>) else (None, db)
  | None => (None, db)
  end.

(** SET locked_by = NULL, locked_at = NULL, lease_expires_at = NULL *)
Definition unlock (r : JobRow) : JobRow :=
  r <| jr_locked_by := None |> <| jr_locked_at := None |> <| jr_lease_expires_at := None |>.

Definition set_cancelled (now : Timestamp) (r : JobRow) : JobRow :=
  unlock (r <| jr_status := "cancelled"%string |>) <| jr_updated_at := now |>.

(** UPDATE jobs SET status = 'cancelled', ... WHERE id = $1 AND status IN (...) *)
Definition sql_cancel (id : Uuid) : Sql (option JobRow) := λ env db,
  Ok (update_job_returning id
        (λ r, str_in (jr_status r) ["queued"; "scheduled"; "retrying"; "processing"]%string)
        (set_cancelled (env_now env)) db).

Definition set_requeued (now : Timestamp) (r : JobRow) : JobRow :=
  unlock (r <| jr_status := "queued"%string |> <| jr_run_at := now |> <| jr_attempts := 0 |>
            <| jr_last_error := None |>)
    <| jr_updated_at := now |>.

(** UPDATE jobs SET status = 'queued', run_at = now(), attempts = 0, ...
    WHERE id = $1 AND status IN ('failed','dead_lettered') *)
Definition sql_retry (id : Uuid) : Sql (option JobRow) := λ env db,
  Ok (update_job_returning id
        (λ r, str_in (jr_status r) ["failed"; "dead_lettered"]%string)
        (set_requeued (env_now env)) db).

(** DELETE FROM dead_letter_jobs WHERE id = $1 *)
Definition sql_delete_dead_letter (id : Uuid) : Sql unit := λ _ db,
  Ok (tt, db <| db_dead_letter_jobs ::= delete id |>).

Definition purgeable (older_than : Timestamp) (r : JobRow) : bool :=
  str_in (jr_status r) ["completed"; "cancelled"]%string && (jr_updated_at r <? older_than).

(** DELETE FROM jobs WHERE status IN ('completed','cancelled') AND updated_at < $1;
    the attempts of a deleted job go with it (ON DELETE CASCADE). *)
Definition sql_purge (older_than : Timestamp) : Sql Z := λ _ db,
  let gone := rows_where (purgeable older_than) (db_jobs db) in
  let jobs' := delete_where (purgeable older_than) (db_jobs db) in
  Ok (Z.of_nat (length gone),
      db <| db_jobs := jobs' |>
         <| db_job_attempts ::= delete_where (λ a, bool_decide (ar_job_id a ∈ (jr_id <$> gone))) |>).

(** ** the leasing protocol *)

(** The WHERE of the leasing query, with the join on the queue. *)
Definition eligible (qs : list string) (now : Timestamp) (db : Db) (r : JobRow) : bool :=
  match db_queues db !! jr_queue r with
  | Some q =>
      str_in (jr_queue r) qs && negb (qr_paused q) &&
      str_in (jr_status r) ["queued"; "scheduled"; "retrying"]%string && (jr_run_at r <=? now)
  | None => false
  end.

(** ORDER BY j.priority DESC, j.run_at ASC, j.created_at ASC *)
Definition lease_key (env : Env) (r : JobRow) : list Z :=
  [- jr_priority r; jr_run_at r; jr_created_at r; env_pos env (jr_id r)].

(** SELECT j.id ... ORDER BY ... FOR UPDATE OF j SKIP LOCKED LIMIT 1 *)
Definition lease_candidate (qs : list string) (env : Env) (db : Db) : option JobRow :=
  head (skip_locked env
          (order_by (lease_key env) (rows_where (eligible qs (env_now env) db) (db_jobs db)))).

Definition set_leased (worker_id : Uuid) (now expires attempts : Z) (r : JobRow) : JobRow :=
  r <| jr_status := "processing"%string |>
    <| jr_locked_by := Some worker_id |>
    <| jr_locked_at := Some now |>
    <| jr_lease_expires_at := Some expires |>
    <| jr_attempts := attempts |>
    <| jr_updated_at := now |>.

(** UPDATE jobs SET status = 'processing', ... WHERE id = (SELECT ...) RETURNING ... *)
Definition sql_lease (worker_id : Uuid) (qs : list string) (lease_secs : Z)
  : Sql (option JobRow) := λ env db,
  match lease_candidate qs env db with
  | None => Ok (None, db)
  | Some r =>
      res_bind (pg_ts_add_secs (env_now env) lease_secs) (λ expires,
      res_bind (pg_int4 (jr_attempts r + 1)) (λ attempts,
      let r' := set_leased worker_id (env_now env) expires attempts r in
      Ok (Some r', db <| db_jobs ::= <[jr_id r := r']> |>)))
  end.

(** INSERT INTO job_attempts (job_id, attempt, worker_id, started_at, status)
    VALUES ($1, $2, $3, now(), 'running') *)
Definition sql_insert_attempt (job_id : Uuid) (attempt : Z) (worker_id : Uuid) : Sql unit :=
  λ env db,
  match db_job_attempts db !! db_attempts_seq db, db_jobs db !! job_id with
  | Some _, _ => Err (pg_error "23505")
  | None, None => Err (pg_error "23503")
  | None, Some _ =>
      let a := mkAttemptRow (db_attempts_seq db) job_id attempt (Some worker_id) (env_now env)
                 None "running" None in
      Ok (tt, db <| db_job_attempts ::= <[db_attempts_seq db := a]> |>
                 <| db_attempts_seq := db_attempts_seq db + 1 |>)
  end.

(** [Store::lease_next]'s transaction. *)
Definition tx_lease (worker_id : Uuid) (qs : list string) (lease_secs : Z)
  : Tx (option Job) (option Job) :=
  row ← tx_sql (sql_lease worker_id qs lease_secs);
  match row with
  | None => tx_rollback (Ok None)
  | Some r =>
      job ← tx_lift (into_job r);
      _ ← tx_sql (sql_insert_attempt (job_id job) (job_attempts job) worker_id);
      tx_ret (Some job)
  end.

Definition holds_lease (worker_id : Uuid) (r : JobRow) : bool :=
  bool_decide (jr_locked_by r = Some worker_id) && String.eqb (jr_status r) "processing".

Definition set_completed (result : option Json) (now : Timestamp) (r : JobRow) : JobRow :=
  unlock (r <| jr_status := "completed"%string |> <| jr_result := result |>
            <| jr_completed_at := Some now |>)
    <| jr_last_error := None |> <| jr_updated_at := now |>.

(** UPDATE jobs SET status = 'completed', ...
    WHERE id = $1 AND locked_by = $2 AND status = 'processing' RETURNING ... *)
Definition sql_complete (id worker_id : Uuid) (result : option Json) : Sql (option JobRow) :=
  λ env db,
  Ok (update_job_returning id (holds_lease worker_id) (set_completed result (env_now env)) db).

Definition running_of (id : Uuid) (a : AttemptRow) : bool :=
  bool_decide (ar_job_id a = id) && String.eqb (ar_status a) "running".

Definition finish_attempt (status : string) (now : Timestamp) (a : AttemptRow) : AttemptRow :=
  a <| ar_status := status |> <| ar_finished_at := Some now |>.

(** UPDATE job_attempts SET status = 'succeeded', finished_at = now()
    WHERE job_id = $1 AND status = 'running' *)
Definition sql_succeed_attempts (id : Uuid) : Sql unit := λ env db,
  Ok (tt, db <| db_job_attempts ::=
                  update_where (running_of id) (finish_attempt "succeeded" (env_now env)) |>).

(** [Store::complete_job]'s transaction; [None] when no row matched. *)
Definition tx_complete (id worker_id : Uuid) (result : option Json)
  : Tx (option Job) (option Job) :=
  row ← tx_sql (sql_complete id worker_id result);
  match row with
  | None => tx_rollback (Ok None)
  | Some r =>
      job ← tx_lift (into_job r);
      _ ← tx_sql (sql_succeed_attempts id);
      tx_ret (Some job)
  end.

(** INSERT INTO dead_letter_jobs (...) VALUES ($1,...,$7) ON CONFLICT (id) DO NOTHING *)
Definition sql_insert_dead_letter (job : Job) (error : string) : Sql unit := λ env db,
  Ok (tt, match db_dead_letter_jobs db !! job_id job with
          | Some _ => db
          | None =>
              let d := mkDeadLetterRow (job_id job) (job_queue job) (job_job_type job)
                         (job_payload job) (job_attempts job) (Some error) (env_now env)
                         (Some (job_created_at job)) in
              db <| db_dead_letter_jobs ::= <[job_id job := d]> |>
          end).

Definition set_dead_lettered (error : option string) (now : Timestamp) (r : JobRow) : JobRow :=
  unlock (r <| jr_status := "dead_lettered"%string |> <| jr_last_error := error |>)
    <| jr_updated_at := now |>.

Definition set_failed (error : option string) (now : Timestamp) (r : JobRow) : JobRow :=
  unlock (r <| jr_status := "failed"%string |> <| jr_last_error := error |>)
    <| jr_updated_at := now |>.

Definition set_retrying (error : option string) (run_at now : Timestamp) (r : JobRow) : JobRow :=
  unlock (r <| jr_status := "retrying"%string |> <| jr_last_error := error |>
            <| jr_run_at := run_at |>)
    <| jr_updated_at := now |>.

(** UPDATE jobs SET f WHERE id = $1 *)
Definition sql_update_job (id : Uuid) (f : Timestamp → JobRow → JobRow) : Sql unit := λ env db,
  Ok (tt, (update_job_returning id (λ _, true) (f (env_now env)) db).2).

(** UPDATE jobs SET status = 'retrying', last_error = $2,
    run_at = now() + ($3::bigint * interval '1 second'), ... WHERE id = $1 *)
Definition sql_mark_retrying (id : Uuid) (error : string) (delay_secs : Z) : Sql unit :=
  λ env db,
  res_bind (pg_ts_add_secs (env_now env) delay_secs) (λ run_at,
  sql_update_job id (set_retrying (Some error) run_at) env db).

(** UPDATE job_attempts SET status = $2, finished_at = now(), error = $3
    WHERE job_id = $1 AND status = 'running' *)
Definition sql_fail_attempts (id : Uuid) (status error : string) : Sql unit := λ env db,
  Ok (tt, db <| db_job_attempts ::=
       update_where (running_of id)
         (λ a, finish_attempt status (env_now env) a <| ar_error := Some error |>) |>).

(** The seconds [Store::fail_job] waits before the next attempt; [None] is a
    panic of [Duration::from_secs_f64]. *)
Definition fail_delay_secs (current : Job) : option Z :=
  let policy := exponential (as_u64 (Z.max (job_backoff_base_secs current) 1))
                            (as_u64 (Z.max (job_backoff_max_secs current) 1)) in
  delay ← delay_for_attempt policy (as_u32 (job_attempts current));
  Some (f64_ceil_as_i64 (as_secs_f64 delay)).

(** What leaves [Store::fail_job]'s transaction: a panic of the backoff
    arithmetic drops the transaction too. *)
Inductive FailExit := FailCommitted | FailPanicked.

(** [Store::fail_job]'s transaction. *)
Definition tx_fail (id worker_id : Uuid) (error : string) (timed_out : bool)
  : Tx FailExit FailExit :=
  current ← tx_sql (sql_select_job id);
  match current with
  | None => tx_rollback (Err (JobNotFound id))
  | Some r =>
      current ← tx_lift (into_job r);
      if negb (bool_decide (job_status current = Processing))
         || negb (bool_decide (job_locked_by current = Some worker_id))
      then tx_rollback (Err (InvalidOperation "fail" (job_status current)))
      else
        let exhausted := job_max_attempts current <=? job_attempts current in
        let decide_next : Tx FailExit unit :=
          if exhausted then
            if job_dead_letter current then
              _ ← tx_sql (sql_insert_dead_letter current error);
              tx_sql (sql_update_job id (set_dead_lettered (Some error)))
            else tx_sql (sql_update_job id (set_failed (Some error)))
          else
            match fail_delay_secs current with
            | None => tx_rollback (Ok FailPanicked)
            | Some delay_secs => tx_sql (sql_mark_retrying id error delay_secs)
            end in
        _ ← decide_next;
        let attempt_status := (if timed_out then "timeout" else "failed")%string in
        _ ← tx_sql (sql_fail_attempts id attempt_status error);
        tx_ret FailCommitted
  end.

(** UPDATE jobs SET lease_expires_at = now() + ($3::bigint * interval '1 second'), ...
    WHERE id = $1 AND locked_by = $2 AND status = 'processing'; the rows affected *)
Definition sql_renew (id worker_id : Uuid) (lease_secs : Z) : Sql Z := λ env db,
  match db_jobs db !! id with
  | Some r =>
      if holds_lease worker_id r then
        res_bind (pg_ts_add_secs (env_now env) lease_secs) (λ expires,
        let r' := r <| jr_lease_expires_at := Some expires |>
                    <| jr_updated_at := env_now env |> in
        Ok (1, db <| db_jobs ::= <[id := r']> |>))
      else Ok (0, db)
  | None => Ok (0, db)
  end.

(** ** the reaper *)

(** status = 'processing' AND lease_expires_at < now(); a NULL expiry is not
    before anything. *)
Definition expired (now : Timestamp) (r : JobRow) : bool :=
  String.eqb (jr_status r) "processing" &&
  match jr_lease_expires_at r with Some t => t <? now | None => false end.

(** SELECT id FROM jobs WHERE P ORDER BY lease_expires_at LIMIT $1
    FOR UPDATE SKIP LOCKED *)
Definition reap_select (P : JobRow → bool) (limit : Z) (env : Env) (db : Db)
  : result sqlx_error (list JobRow) :=
  let key r := [default 0 (jr_lease_expires_at r); env_pos env (jr_id r)] in
  sql_limit limit (skip_locked env (order_by key (rows_where P (db_jobs db)))).

(** COALESCE(last_error, 'lease expired') *)
Definition lease_expired_error (r : JobRow) : option string :=
  match jr_last_error r with Some e => Some e | None => Some "lease expired"%string end.

(** LEAST(backoff_max_secs::float8,
          backoff_base_secs::float8 * power(2, GREATEST(attempts - 1, 0))) :
    the product of a 32-bit integer and a power of two is exact in float8,
    and fails when it overflows. *)
Definition reap_delay_secs (r : JobRow) : result sqlx_error Z :=
  let k := Z.max (jr_attempts r - 1) 0 in
  if (1024 <=? k) || (2 ^ 1024 <=? jr_backoff_base_secs r * 2 ^ k)
  then Err (pg_error "22003")
  else Ok (Z.min (jr_backoff_max_secs r) (jr_backoff_base_secs r * 2 ^ k)).

(** The updated row of the reaper's first statement. *)
Definition reap_retry_row (env : Env) (r : JobRow) : result sqlx_error JobRow :=
  res_bind (reap_delay_secs r) (λ delay,
  res_bind (pg_ts_add_secs (env_now env) delay) (λ run_at,
  Ok (set_retrying (lease_expired_error r) run_at (env_now env) r))).

(** UPDATE jobs SET ... WHERE id IN (the selected ids): all rows or none. *)
Definition replace_rows (rows : list JobRow) (m : gmap Uuid JobRow) : gmap Uuid JobRow :=
  foldr (λ r acc, <[jr_id r := r]> acc) m rows.

(** Statement 1 of [recover_expired_leases]. *)
Definition sql_reap_retry (limit : Z) : Sql (list Uuid) := λ env db,
  res_bind (reap_select (λ r, expired (env_now env) r && (jr_attempts r <? jr_max_attempts r))
              limit env db) (λ rows,
  res_bind (collect_results (reap_retry_row env) rows) (λ rows',
  Ok (jr_id <$> rows, db <| db_jobs ::= replace_rows rows' |>))).

(** The CTE's INSERT INTO dead_letter_jobs ... SELECT ... ON CONFLICT DO NOTHING. *)
Definition reap_dead_letter (now : Timestamp) (r : JobRow) (m : gmap Uuid DeadLetterRow)
  : gmap Uuid DeadLetterRow :=
  match m !! jr_id r with
  | Some _ => m
  | None =>
      <[jr_id r := mkDeadLetterRow (jr_id r) (jr_queue r) (jr_job_type r) (jr_payload r)
                     (jr_attempts r) (lease_expired_error r) now (Some (jr_created_at r))]> m
  end.

(** Statement 2: WITH expired AS (...), ins AS (...) UPDATE jobs ... *)
Definition sql_reap_dead (limit : Z) : Sql (list Uuid) := λ env db,
  res_bind (reap_select (λ r, expired (env_now env) r && (jr_max_attempts r <=? jr_attempts r)
                              && jr_dead_letter r) limit env db) (λ rows,
  let set r := set_dead_lettered (lease_expired_error r) (env_now env) r in
  Ok (jr_id <$> rows,
      db <| db_dead_letter_jobs ::= λ m, foldr (reap_dead_letter (env_now env)) m rows |>
         <| db_jobs ::= replace_rows (set <$> rows) |>)).

(** Statement 3. *)
Definition sql_reap_failed (limit : Z) : Sql (list Uuid) := λ env db,
  res_bind (reap_select (λ r, expired (env_now env) r && (jr_max_attempts r <=? jr_attempts r)
                              && negb (jr_dead_letter r)) limit env db) (λ rows,
  let set r := set_failed (lease_expired_error r) (env_now env) r in
  Ok (jr_id <$> rows, db <| db_jobs ::= replace_rows (set <$> rows) |>)).

(** UPDATE job_attempts SET status = 'timeout', finished_at = now(),
    error = COALESCE(error, 'lease expired')
    WHERE status = 'running' AND job_id = ANY($1) *)
Definition sql_close_attempts (ids : list Uuid) : Sql unit := λ env db,
  let P a := String.eqb (ar_status a) "running" && bool_decide (ar_job_id a ∈ ids) in
  let f a := finish_attempt "timeout" (env_now env) a
               <| ar_error ::= λ e, match e with Some _ => e | None => Some "lease expired"%string end |> in
  Ok (tt, db <| db_job_attempts ::= update_where P f |>).

(** ** worker registry *)

(** INSERT INTO workers (...) VALUES (..., now(), now())
    ON CONFLICT (id) DO UPDATE SET ... , last_heartbeat = now() *)
Definition sql_register_worker (w : Worker) : Sql unit := λ env db,
  let r := match db_workers db !! worker_id w with
           | Some r => r <| wr_hostname := worker_hostname w |> <| wr_queues := worker_queues w |>
                         <| wr_concurrency := worker_concurrency w |>
                         <| wr_last_heartbeat := env_now env |>
           | None => mkWorkerRow (worker_id w) (worker_hostname w) (worker_queues w)
                       (worker_concurrency w) (env_now env) (env_now env)
           end in
  Ok (tt, db <| db_workers ::= <[worker_id w := r]> |>).

(** UPDATE workers SET last_heartbeat = now() WHERE id = $1; the rows affected *)
Definition sql_heartbeat (id : Uuid) : Sql Z := λ env db,
  match db_workers db !! id with
  | Some r => Ok (1, db <| db_workers ::= <[id := r <| wr_last_heartbeat := env_now env |>]> |>)
  | None => Ok (0, db)
  end.

(** DELETE FROM workers WHERE id = $1 *)
Definition sql_deregister_worker (id : Uuid) : Sql unit := λ _ db,
  Ok (tt, db <| db_workers ::= delete id |>).

(** SELECT ... FROM workers WHERE last_heartbeat > now() - ($1::bigint * interval '1 second')
    ORDER BY registered_at *)
Definition sql_active_workers (within_secs : Z) : Sql (list WorkerRow) :=
  sql_read (λ env db,
    res_bind (pg_ts_add_secs (env_now env) (- within_secs)) (λ since,
    Ok (order_by (λ r, [wr_registered_at r; env_pos env (wr_id r)])
          (rows_where (λ r, since <? wr_last_heartbeat r) (db_workers db))))).

(** DELETE FROM workers WHERE last_heartbeat < now() - ($1::bigint * interval '1 second') *)
Definition sql_prune_workers (older_secs : Z) : Sql Z := λ env db,
  res_bind (pg_ts_add_secs (env_now env) (- older_secs)) (λ before,
  let P r := wr_last_heartbeat r <? before in
  Ok (Z.of_nat (length (rows_where P (db_workers db))),
      db <| db_workers ::= delete_where P |>)).

(** ** Everything the store asks of the database *)

Inductive DbReq : Type → Type :=
| QInsertQueue (name : string) : DbReq (result sqlx_error unit)
| QSelectQueue (name : string) : DbReq (result sqlx_error (option QueueRow))
| QSelectQueues : DbReq (result sqlx_error (list QueueRow))
| QUpdatePaused (name : string) (paused : bool) : DbReq (result sqlx_error (option QueueRow))
| QCountByStatus (name : string) : DbReq (result sqlx_error (list (string * Z)))
| QSelectJobByKey (queue key : string) : DbReq (result sqlx_error (option JobRow))
| QInsertJob (n : NormalizedJob) : DbReq (result sqlx_error JobRow)
| QSelectJob (id : Uuid) : DbReq (result sqlx_error (option JobRow))
| QListJobs (queue status job_type : option string) (limit offset : Z)
    : DbReq (result sqlx_error (list JobRow))
| QListAttempts (job_id : Uuid) : DbReq (result sqlx_error (list AttemptRow))
| QListDeadLetter (queue : option string) (limit : Z)
    : DbReq (result sqlx_error (list DeadLetterRow))
| QCancel (id : Uuid) : DbReq (result sqlx_error (option JobRow))
| QRetry (id : Uuid) : DbReq (result sqlx_error (option JobRow))
| QDeleteDeadLetter (id : Uuid) : DbReq (result sqlx_error unit)
| QPurge (older_than : Timestamp) : DbReq (result sqlx_error Z)
| TLease (worker_id : Uuid) (qs : list string) (lease_secs : Z) : DbReq (Result (option Job))
| TComplete (id worker_id : Uuid) (res : option Json) : DbReq (Result (option Job))
| TFail (id worker_id : Uuid) (error : string) (timed_out : bool) : DbReq (Result FailExit)
| QRenew (id worker_id : Uuid) (lease_secs : Z) : DbReq (result sqlx_error Z)
| QReapRetry (limit : Z) : DbReq (result sqlx_error (list Uuid))
| QReapDead (limit : Z) : DbReq (result sqlx_error (list Uuid))
| QReapFailed (limit : Z) : DbReq (result sqlx_error (list Uuid))
| QCloseAttempts (ids : list Uuid) : DbReq (result sqlx_error unit)
| QRegisterWorker (w : Worker) : DbReq (result sqlx_error unit)
| QHeartbeat (id : Uuid) : DbReq (result sqlx_error Z)
| QDeregisterWorker (id : Uuid) : DbReq (result sqlx_error unit)
| QActiveWorkers (within_secs : Z) : DbReq (result sqlx_error (list WorkerRow))
| QPruneWorkers (older_secs : Z) : DbReq (result sqlx_error Z).

Definition exec {A} (q : DbReq A) : Env → Db → A * Db :=
  match q with
  | QInsertQueue name => exec_stmt (sql_insert_queue name)
  | QSelectQueue name => exec_stmt (sql_select_queue name)
  | QSelectQueues => exec_stmt sql_select_queues
  | QUpdatePaused name p => exec_stmt (sql_update_paused name p)
  | QCountByStatus name => exec_stmt (sql_count_by_status name)
  | QSelectJobByKey q k => exec_stmt (sql_select_job_by_key q k)
  | QInsertJob n => exec_stmt (sql_insert_job n)
  | QSelectJob id => exec_stmt (sql_select_job id)
  | QListJobs q s t l o => exec_stmt (sql_list_jobs q s t l o)
  | QListAttempts id => exec_stmt (sql_list_attempts id)
  | QListDeadLetter q l => exec_stmt (sql_list_dead_letter q l)
  | QCancel id => exec_stmt (sql_cancel id)
  | QRetry id => exec_stmt (sql_retry id)
  | QDeleteDeadLetter id => exec_stmt (sql_delete_dead_letter id)
  | QPurge t => exec_stmt (sql_purge t)
  | TLease w qs s => exec_tx (tx_lease w qs s)
  | TComplete id w r => exec_tx (tx_complete id w r)
  | TFail id w e t => exec_tx (tx_fail id w e t)
  | QRenew id w s => exec_stmt (sql_renew id w s)
  | QReapRetry l => exec_stmt (sql_reap_retry l)
  | QReapDead l => exec_stmt (sql_reap_dead l)
  | QReapFailed l => exec_stmt (sql_reap_failed l)
  | QCloseAttempts ids => exec_stmt (sql_close_attempts ids)
  | QRegisterWorker w => exec_stmt (sql_register_worker w)
  | QHeartbeat id => exec_stmt (sql_heartbeat id)
  | QDeregisterWorker id => exec_stmt (sql_deregister_worker id)
  | QActiveWorkers s => exec_stmt (sql_active_workers s)
  | QPruneWorkers s => exec_stmt (sql_prune_workers s)
  end.

End statements.
