(* ===== verification/Store.v ===== *)
(** * [djq-core::store]: the storage seam

    The [Store] trait of [crates/core/src/store.rs] as an effect signature:
    one constructor per method, with the method's return type.  A caller of
    [Arc<dyn Store>] is a program over this signature, and a backend is a
    function that answers it. *)

From S2P Require Import Prelude Prog Externals Status Error Model.
From stdpp Require Import options.

Section store.
Context `{X : Externals}.

Record Submission := mkSubmission { sub_job : Job; sub_created : bool }.

Inductive StoreE : Type → Type :=
(* queues *)
| EnsureQueue (name : string) : StoreE (Result Queue)
| GetQueue (name : string) : StoreE (Result (option Queue))
| ListQueues : StoreE (Result (list Queue))
| SetQueuePaused (name : string) (paused : bool) : StoreE (Result Queue)
| StoreQueueStats (name : string) : StoreE (Result QueueStats)
(* submission and inspection *)
| Submit (job : NormalizedJob) : StoreE (Result Submission)
| GetJob (id : Uuid) : StoreE (Result (option Job))
| ListJobs (queue status job_type : option string) (limit offset : Z) : StoreE (Result (list Job))
| ListAttempts (job_id : Uuid) : StoreE (Result (list JobAttempt))
| ListDeadLetter (queue : option string) (limit : Z) : StoreE (Result (list DeadLetterJob))
(* operator actions *)
| CancelJob (id : Uuid) : StoreE (Result Job)
| RetryJob (id : Uuid) : StoreE (Result Job)
| PurgeFinished (older_than : Timestamp) : StoreE (Result Z)
(* the leasing protocol *)
| LeaseNext (worker_id : Uuid) (queues : list string) (lease_secs : Z) : StoreE (Result (option Job))
| CompleteJob (id worker_id : Uuid) (res : option Json) : StoreE (Result Job)
| FailJob (id worker_id : Uuid) (error : string) (timed_out : bool) : StoreE (Result Job)
| RenewLease (id worker_id : Uuid) (lease_secs : Z) : StoreE (Result unit)
| RecoverExpiredLeases (limit : Z) : StoreE (Result (list Uuid))
(* worker registry *)
| RegisterWorker (w : Worker) : StoreE (Result unit)
| Heartbeat (worker_id : Uuid) : StoreE (Result bool)
| DeregisterWorker (worker_id : Uuid) : StoreE (Result unit)
| ListActiveWorkers (within_secs : Z) : StoreE (Result (list Worker))
| PruneDeadWorkers (older_secs : Z) : StoreE (Result Z).

End store.
