(* ===== verification/PgStore.v ===== *)
(** * [djq-storage]: [impl Store for PgStore]

    The methods of [crates/storage/src/lib.rs] as programs over the database
    requests of [Statements]: which statement is sent next, and what each
    answer becomes.  Between two requests of one method any other client of
    the database may run. *)

From S2P Require Import Prelude Prog Externals Status Error Model Row Sql Statements Store.
From stdpp Require Import options.

Section pgstore.
Context `{X : Externals}.

Abbreviation Db_prog A := (prog DbReq (Result A)).

(** [query.fetch...(&self.pool).await.map_err(storage_err)] *)
Definition query {A} (q : DbReq (result sqlx_error A)) : Db_prog A :=
  map_err_p storage_err (trigger q).

Definition ret_ok {A} (a : A) : Db_prog A := Ret (Ok a).
Definition ret_err {A} (e : QueueError) : Db_prog A := Ret (Err e).

(** [row.map(JobRow::into_job).transpose()] *)
Definition transpose_job (row : option JobRow) : Result (option Job) :=
  match row with
  | None => Ok None
  | Some r => match into_job r with Ok j => Ok (Some j) | Err e => Err e end
  end.

Definition fetch_job (id : Uuid) : Db_prog (option Job) :=
  row ←? query (QSelectJob id);
  Ret (transpose_job row).

(** ** queues *)

(** [fetch_one]: no row is an error of its own. *)
Definition row_not_found : sqlx_error := mkSqlxError None "no rows returned by a query".

Definition fetch_one {A} (p : Db_prog (option A)) : Db_prog A :=
  row ←? p;
  match row with Some r => ret_ok r | None => ret_err (storage_err row_not_found) end.

Definition ensure_queue (name : string) : Db_prog Queue :=
  query (QInsertQueue name) ;?
  row ←? fetch_one (query (QSelectQueue name));
  ret_ok (queue_of_row row).

Definition get_queue (name : string) : Db_prog (option Queue) :=
  row ←? query (QSelectQueue name);
  ret_ok (queue_of_row <$> row).

Definition list_queues : Db_prog (list Queue) :=
  rows ←? query QSelectQueues;
  ret_ok (queue_of_row <$> rows).

Definition set_queue_paused (name : string) (paused : bool) : Db_prog Queue :=
  row ←? query (QUpdatePaused name paused);
  Ret (ok_or (QueueNotFound name) (queue_of_row <$> row)).

Definition stats_default (name : string) (paused : bool) : QueueStats :=
  mkQueueStats name paused 0 0 0 0 0 0 0 0.

(** The body of the loop over the status counts. *)
Definition count_status (stats : QueueStats) (row : string * Z) : QueueStats :=
  let '(status, count) := row in
  if String.eqb status "queued" then stats <| qs_queued := count |>
  else if String.eqb status "scheduled" then stats <| qs_scheduled := count |>
  else if String.eqb status "processing" then stats <| qs_processing := count |>
  else if String.eqb status "completed" then stats <| qs_completed := count |>
  else if String.eqb status "failed" then stats <| qs_failed := count |>
  else if String.eqb status "retrying" then stats <| qs_retrying := count |>
  else if String.eqb status "cancelled" then stats <| qs_cancelled := count |>
  else if String.eqb status "dead_lettered" then stats <| qs_dead_lettered := count |>
  else stats.

Definition queue_stats (name : string) : Db_prog QueueStats :=
  found ←? get_queue name;
  match found with
  | None => ret_err (QueueNotFound name)
  | Some queue =>
      rows ←? query (QCountByStatus name);
      ret_ok (foldl count_status (stats_default name (queue_paused queue)) rows)
  end.

(** ** submission and inspection *)

(** The existing job of [(queue, key)], as an idempotent hit. *)
Definition existing_submission (row : JobRow) : Result Submission :=
  res_bind (into_job row) (λ j, Ok (mkSubmission j false)).

Definition insert_submission (job : NormalizedJob) : Db_prog Submission :=
  answer ← trigger (QInsertJob job);
  match answer with
  | Ok row => Ret (res_bind (into_job row) (λ j, Ok (mkSubmission j true)))
  | Err e =>
      if is_unique_violation e then
        match nj_idempotency_key job with
        | None => ret_err (Storage (sql_text e))
        | Some key =>
            existing ←? fetch_one (query (QSelectJobByKey (nj_queue job) key));
            Ret (existing_submission existing)
        end
      else ret_err (storage_err e)
  end.

Definition submit (job : NormalizedJob) : Db_prog Submission :=
  ensure_queue (nj_queue job) ;?
  match nj_idempotency_key job with
  | None => insert_submission job
  | Some key =>
      found ←? query (QSelectJobByKey (nj_queue job) key);
      match found with
      | Some existing => Ret (existing_submission existing)
      | None => insert_submission job
      end
  end.

Definition get_job (id : Uuid) : Db_prog (option Job) := fetch_job id.

Definition list_jobs (queue status job_type : option string) (limit offset : Z)
  : Db_prog (list Job) :=
  rows ←? query (QListJobs queue status job_type limit offset);
  Ret (collect_results into_job rows).

Definition list_attempts (job_id : Uuid) : Db_prog (list JobAttempt) :=
  rows ←? query (QListAttempts job_id);
  ret_ok (attempt_of_row <$> rows).

Definition list_dead_letter (queue : option string) (limit : Z) : Db_prog (list DeadLetterJob) :=
  rows ←? query (QListDeadLetter queue limit);
  ret_ok (dead_letter_of_row <$> rows).

(** ** operator actions *)

(** Why an update matched no row: the job is gone, or in another status. *)
Definition explain_no_match (id : Uuid) (op : string) : Db_prog Job :=
  found ←? fetch_job id;
  match found with
  | Some j => ret_err (InvalidOperation op (job_status j))
  | None => ret_err (JobNotFound id)
  end.

Definition cancel_job (id : Uuid) : Db_prog Job :=
  row ←? query (QCancel id);
  match row with
  | Some r => Ret (into_job r)
  | None => explain_no_match id "cancel"
  end.

Definition retry_job (id : Uuid) : Db_prog Job :=
  row ←? query (QRetry id);
  match row with
  | Some r => query (QDeleteDeadLetter id) ;? Ret (into_job r)
  | None => explain_no_match id "retry"
  end.

Definition purge_finished (older_than : Timestamp) : Db_prog Z := query (QPurge older_than).

(** ** the leasing protocol *)

Definition lease_next (worker_id : Uuid) (queues : list string) (lease_secs : Z)
  : Db_prog (option Job) := trigger (TLease worker_id queues lease_secs).

Definition lease_lost_error (id worker_id : Uuid) (op : string) : Db_prog Job :=
  explain_no_match id op.

Definition complete_job (id worker_id : Uuid) (res : option Json) : Db_prog Job :=
  row ←? trigger (TComplete id worker_id res);
  match row with
  | Some job => ret_ok job
  | None => lease_lost_error id worker_id "complete"
  end.

Definition fail_job (id worker_id : Uuid) (error : string) (timed_out : bool) : Db_prog Job :=
  exit ←? trigger (TFail id worker_id error timed_out);
  match exit with
  | FailPanicked => Panic
  | FailCommitted =>
      found ←? fetch_job id;
      Ret (ok_or (JobNotFound id) found)
  end.

Definition renew_lease (id worker_id : Uuid) (lease_secs : Z) : Db_prog unit :=
  affected ←? query (QRenew id worker_id lease_secs);
  if affected =? 0 then ret_err (InvalidOperation "renew_lease" Processing) else ret_ok tt.

Definition recover_expired_leases (limit : Z) : Db_prog (list Uuid) :=
  retry_ids ←? query (QReapRetry limit);
  dlq_ids ←? query (QReapDead limit);
  failed_ids ←? query (QReapFailed limit);
  let recovered := retry_ids ++ dlq_ids ++ failed_ids in
  match recovered with
  | [] => ret_ok recovered
  | _ => query (QCloseAttempts recovered) ;? ret_ok recovered
  end.

(** ** worker registry *)

Definition register_worker (w : Worker) : Db_prog unit := query (QRegisterWorker w).

Definition heartbeat (worker_id : Uuid) : Db_prog bool :=
  affected ←? query (QHeartbeat worker_id);
  ret_ok (0 <? affected).

Definition deregister_worker (worker_id : Uuid) : Db_prog unit :=
  query (QDeregisterWorker worker_id).

Definition list_active_workers (within_secs : Z) : Db_prog (list Worker) :=
  rows ←? query (QActiveWorkers within_secs);
  ret_ok (worker_of_row <$> rows).

Definition prune_dead_workers (older_secs : Z) : Db_prog Z := query (QPruneWorkers older_secs).

(** [impl Store for PgStore] *)
Definition pg_store {A} (e : StoreE A) : prog DbReq A :=
  match e with
  | EnsureQueue name => ensure_queue name
  | GetQueue name => get_queue name
  | ListQueues => list_queues
  | SetQueuePaused name paused => set_queue_paused name paused
  | StoreQueueStats name => queue_stats name
  | Submit job => submit job
  | GetJob id => get_job id
  | ListJobs q s t l o => list_jobs q s t l o
  | ListAttempts id => list_attempts id
  | ListDeadLetter q l => list_dead_letter q l
  | CancelJob id => cancel_job id
  | RetryJob id => retry_job id
  | PurgeFinished t => purge_finished t
  | LeaseNext w qs s => lease_next w qs s
  | CompleteJob id w r => complete_job id w r
  | FailJob id w e t => fail_job id w e t
  | RenewLease id w s => renew_lease id w s
  | RecoverExpiredLeases l => recover_expired_leases l
  | RegisterWorker w => register_worker w
  | Heartbeat id => heartbeat id
  | DeregisterWorker id => deregister_worker id
  | ListActiveWorkers s => list_active_workers s
  | PruneDeadWorkers s => prune_dead_workers s
  end.

(** The answer given for a call that panicked, which no call does on tables
    that satisfy the invariant. *)
Definition unanswered {A} (e : StoreE A) : A :=
  match e in StoreE A return A with
  | EnsureQueue _ | SetQueuePaused _ _ => Err (Storage "panic")
  | GetQueue _ => Err (Storage "panic")
  | ListQueues => Err (Storage "panic")
  | StoreQueueStats _ => Err (Storage "panic")
  | Submit _ => Err (Storage "panic")
  | GetJob _ | LeaseNext _ _ _ => Err (Storage "panic")
  | ListJobs _ _ _ _ _ => Err (Storage "panic")
  | ListAttempts _ => Err (Storage "panic")
  | ListDeadLetter _ _ => Err (Storage "panic")
  | CancelJob _ | RetryJob _ | CompleteJob _ _ _ | FailJob _ _ _ _ => Err (Storage "panic")
  | PurgeFinished _ | PruneDeadWorkers _ => Err (Storage "panic")
  | RenewLease _ _ _ | RegisterWorker _ | DeregisterWorker _ => Err (Storage "panic")
  | RecoverExpiredLeases _ => Err (Storage "panic")
  | Heartbeat _ => Err (Storage "panic")
  | ListActiveWorkers _ => Err (Storage "panic")
  end.

(** ** Running alone

    [run_db es p]: the requests of [p] answered one after the other on the
    tables, the [i]-th request of the run in environment [es i]. *)
Definition answer (es : nat → Env) (A : Type) (q : DbReq A) (s : nat * Db) : A * (nat * Db) :=
  let '(i, db) := s in
  let '(a, db') := exec q (es i) db in (a, (S i, db')).

Definition run_db {A} (es : nat → Env) (p : prog DbReq A) (db : Db) : option A * Db :=
  let '(r, (_, db')) := run (answer es) p (0%nat, db) in (r, db').

End pgstore.
