(* ===== verification/Lifecycle.v ===== *)
(** * The lifecycle of one job row

    The abstract specification of the store: an automaton on one row of the
    jobs table, whose events are the only things that may happen to it.  The
    refinement theorem says that every request the store can send, in any
    environment and with any fault, changes each row of the table by one of
    these events or not at all.  What the automaton guarantees then holds of
    every interleaving of every operation. *)

From S2P Require Import Prelude Prog Externals Status Error Model Row Float64 Backoff Sql.
From S2P Require Import Statements.
From stdpp Require Import options.

Section lifecycle.
Context `{X : Externals}.

Inductive row_event :=
| EvInsert (n : NormalizedJob) (id : Uuid)
| EvCancel
| EvRequeue
| EvLease (worker_id : Uuid)
| EvComplete (worker_id : Uuid) (res : option Json)
| EvFail (worker_id : Uuid) (error : string)
| EvRenew (worker_id : Uuid)
| EvReap
| EvPurge.

(** One event on one row, at the statement's [now]. *)
Inductive row_step (now : Timestamp) : row_event → option JobRow → option JobRow → Prop :=
| step_insert n id :
    checks_ok (new_row n id now) = true →
    row_step now (EvInsert n id) None (Some (new_row n id now))
| step_cancel r s :
    jr_status r = as_str s → is_cancellable s = true →
    row_step now EvCancel (Some r) (Some (set_cancelled now r))
| step_requeue r s :
    jr_status r = as_str s → s = Failed ∨ s = DeadLettered →
    row_step now EvRequeue (Some r) (Some (set_requeued now r))
| step_lease r s w secs :
    jr_status r = as_str s → is_leaseable s = true → jr_run_at r ≤ now →
    is_i32 (jr_attempts r + 1) →
    row_step now (EvLease w) (Some r)
      (Some (set_leased w now (now + secs * second) (jr_attempts r + 1) r))
| step_complete r w res :
    holds_lease w r = true →
    row_step now (EvComplete w res) (Some r) (Some (set_completed res now r))
| step_fail_dead r w e :
    holds_lease w r = true → jr_max_attempts r ≤ jr_attempts r → jr_dead_letter r = true →
    row_step now (EvFail w e) (Some r) (Some (set_dead_lettered (Some e) now r))
| step_fail_failed r w e :
    holds_lease w r = true → jr_max_attempts r ≤ jr_attempts r → jr_dead_letter r = false →
    row_step now (EvFail w e) (Some r) (Some (set_failed (Some e) now r))
| step_fail_retry r w e secs :
    holds_lease w r = true → jr_attempts r < jr_max_attempts r →
    fail_delay_secs (job_of_row r Processing) = Some secs →
    row_step now (EvFail w e) (Some r)
      (Some (set_retrying (Some e) (now + secs * second) now r))
| step_renew r w secs :
    holds_lease w r = true →
    row_step now (EvRenew w) (Some r)
      (Some (r <| jr_lease_expires_at := Some (now + secs * second) |>
               <| jr_updated_at := now |>))
| step_reap_retry r secs :
    expired now r = true → jr_attempts r < jr_max_attempts r →
    reap_delay_secs r = Ok secs →
    row_step now EvReap (Some r)
      (Some (set_retrying (lease_expired_error r) (now + secs * second) now r))
| step_reap_dead r :
    expired now r = true → jr_max_attempts r ≤ jr_attempts r → jr_dead_letter r = true →
    row_step now EvReap (Some r) (Some (set_dead_lettered (lease_expired_error r) now r))
| step_reap_failed r :
    expired now r = true → jr_max_attempts r ≤ jr_attempts r → jr_dead_letter r = false →
    row_step now EvReap (Some r) (Some (set_failed (lease_expired_error r) now r))
| step_purge r cutoff :
    purgeable cutoff r = true →
    row_step now EvPurge (Some r) None.

(** The events a request can cause on the row [id]. *)
Definition req_event {A} (q : DbReq A) (id : Uuid) (ev : row_event) : Prop :=
  match q with
  | QInsertJob n => ev = EvInsert n id
  | QCancel i => i = id ∧ ev = EvCancel
  | QRetry i => i = id ∧ ev = EvRequeue
  | QPurge _ => ev = EvPurge
  | TLease w _ _ => ev = EvLease w
  | TComplete i w res => i = id ∧ ev = EvComplete w res
  | TFail i w e _ => i = id ∧ ev = EvFail w e
  | QRenew i w _ => i = id ∧ ev = EvRenew w
  | QReapRetry _ | QReapDead _ | QReapFailed _ => ev = EvReap
  | _ => False
  end.

(** The id column is the key. *)
Definition keyed (m : gmap Uuid JobRow) : Prop := ∀ id r, m !! id = Some r → jr_id r = id.

(** What a request may do to the jobs table. *)
Definition jobs_step {A} (q : DbReq A) (now : Timestamp) (m m' : gmap Uuid JobRow) : Prop :=
  ∀ id, m' !! id = m !! id ∨
        ∃ ev, req_event q id ev ∧ row_step now ev (m !! id) (m' !! id).

(** ** Statement by statement *)

Lemma update_job_returning_None id P f db :
  (update_job_returning id P f db).1 = None → (update_job_returning id P f db).2 = db.
Proof. unfold update_job_returning. repeat case_match; naive_solver. Qed.

Lemma update_job_returning_lookup id P f db k :
  db_jobs (update_job_returning id P f db).2 !! k =
    match db_jobs db !! k with
    | Some r => if bool_decide (k = id) && P r then Some (f r) else Some r
    | None => None
    end.
Proof.
  unfold update_job_returning. destruct (db_jobs db !! id) as [r|] eqn:E; cbn.
  - destruct (P r) eqn:HP; cbn; case_bool_decide as Hk; subst.
    + by rewrite lookup_insert_eq, E, HP.
    + rewrite lookup_insert_ne by done. by destruct (db_jobs db !! k).
    + by rewrite E, HP.
    + by destruct (db_jobs db !! k).
  - case_bool_decide; subst; cbn; [by rewrite E|by destruct (db_jobs db !! k)].
Qed.

Lemma replace_rows_lookup rows m id :
  (replace_rows rows m !! id = m !! id ∧ ∀ r, r ∈ rows → jr_id r ≠ id) ∨
  (∃ r, r ∈ rows ∧ jr_id r = id ∧ replace_rows rows m !! id = Some r).
Proof.
  induction rows as [|r rows IH]; cbn.
  { left. split; [done|]. intros r Hr. by apply elem_of_nil in Hr. }
  destruct (decide (jr_id r = id)) as [<-|Hne].
  - right. exists r. rewrite lookup_insert_eq. set_solver.
  - rewrite lookup_insert_ne by done. destruct IH as [[IH Hn]|(r' & Hr & <- & IH)].
    + left. set_solver.
    + right. exists r'. set_solver.
Qed.

Lemma status_in r l :
  str_in (jr_status r) (as_str <$> l) = true → ∃ s, s ∈ l ∧ jr_status r = as_str s.
Proof. rewrite str_in_true, list_elem_of_fmap. naive_solver. Qed.

Lemma leaseable_status r :
  str_in (jr_status r) ["queued"; "scheduled"; "retrying"]%string = true →
  ∃ s, jr_status r = as_str s ∧ is_leaseable s = true.
Proof.
  intros H. apply (status_in r [Queued; Scheduled; Retrying]) in H as (s & Hs & ->).
  exists s. set_solver.
Qed.

Lemma cancellable_status r :
  str_in (jr_status r) ["queued"; "scheduled"; "retrying"; "processing"]%string = true →
  ∃ s, jr_status r = as_str s ∧ is_cancellable s = true.
Proof.
  intros H. apply (status_in r [Queued; Scheduled; Retrying; Processing]) in H as (s & Hs & ->).
  exists s. set_solver.
Qed.

Lemma lease_candidate_Some qs env db r :
  lease_candidate qs env db = Some r →
  (∃ k, db_jobs db !! k = Some r) ∧ eligible qs (env_now env) db r = true ∧
  jr_id r ∉ env_locked env ∧
  ∀ k r', db_jobs db !! k = Some r' → eligible qs (env_now env) db r' = true →
    jr_id r' ∉ env_locked env → lex_le (lease_key env r) (lease_key env r').
Proof.
  unfold lease_candidate, skip_locked. intros Hh.
  destruct (filter _ _) as [|r0 rest] eqn:Hf; cbn in Hh; [done|]. simplify_eq.
  apply order_by_filter_head in Hf as (Hr & Hl & Hmin).
  apply elem_of_rows_where in Hr as [He Hk]. split_and!; try done.
  intros k r' Hk' He' Hl'. apply Hmin; [|done]. apply elem_of_rows_where. eauto.
Qed.

Lemma lease_candidate_None qs env db :
  lease_candidate qs env db = None ↔
  ∀ k r, db_jobs db !! k = Some r → eligible qs (env_now env) db r = true →
    jr_id r ∈ env_locked env.
Proof.
  unfold lease_candidate, skip_locked.
  assert (∀ l : list JobRow, head l = None ↔ l = []) as Hnil by (by intros []).
  rewrite Hnil, order_by_filter_nil. setoid_rewrite elem_of_rows_where. split.
  - intros H k r Hk He. destruct (decide (jr_id r ∈ env_locked env)); [done|].
    exfalso. eapply H; eauto.
  - intros H r [He [k Hk]] Hn. by eapply Hn, H.
Qed.

Lemma reap_select_elem P limit env db rows r :
  reap_select P limit env db = Ok rows → r ∈ rows →
  P r = true ∧ (∃ k, db_jobs db !! k = Some r) ∧ jr_id r ∉ env_locked env.
Proof.
  unfold reap_select. rewrite sql_limit_Ok. intros [_ ->] Hr.
  apply elem_of_take in Hr as (i & Hr & _). apply list_elem_of_lookup_2 in Hr.
  rewrite elem_of_skip_locked, elem_of_order_by, elem_of_rows_where in Hr. naive_solver.
Qed.

Lemma eligible_leaseable qs now db r :
  eligible qs now db r = true →
  ∃ s, jr_status r = as_str s ∧ is_leaseable s = true ∧ jr_run_at r ≤ now.
Proof.
  unfold eligible. destruct (db_queues db !! jr_queue r); [|done].
  rewrite !andb_true_iff. intros [[_ Hs] Hrun].
  apply leaseable_status in Hs as (s & Hs & Hl). exists s. split_and!; [done..|lia].
Qed.

(** A lease that commits, taken apart: the candidate row, the leased row, and
    the opened attempt. *)
Lemma tx_lease_inl w qs secs env db out db' :
  tx_lease w qs secs env db = inl (out, db') →
  ∃ r r', lease_candidate qs env db = Some r ∧
    r' = set_leased w (env_now env) (env_now env + secs * second) (jr_attempts r + 1) r ∧
    is_i32 (jr_attempts r + 1) ∧
    out = Some (job_of_row r' Processing) ∧
    db_job_attempts db !! db_attempts_seq db = None ∧
    db' = db <| db_jobs ::= <[jr_id r := r']> |>
             <| db_job_attempts ::= <[db_attempts_seq db :=
                  mkAttemptRow (db_attempts_seq db) (jr_id r) (jr_attempts r') (Some w)
                    (env_now env) None "running" None]> |>
             <| db_attempts_seq := db_attempts_seq db + 1 |>.
Proof.
  unfold tx_lease, sql_lease. tx_unfold.
  destruct (lease_candidate qs env db) as [r|]; cbn -[set_leased]; [|done].
  destruct (pg_ts_add_secs _ _) as [expires|] eqn:Hex; cbn -[set_leased]; [|done].
  apply pg_ts_add_secs_Ok in Hex as ->.
  unfold pg_int4. case_test; cbn -[set_leased]; [|done].
  set (r' := set_leased _ _ _ _ r). assert (jr_status r' = as_str Processing) as Hs by done.
  assert (jr_id r' = jr_id r) as Hid by done.
  assert (r' = set_leased w (env_now env) (env_now env + secs * second) (jr_attempts r + 1) r)
    as Hr' by done. clearbody r'.
  rewrite (into_job_as_str r' Processing) by done. unfold sql_insert_attempt. cbn.
  destruct (db_job_attempts db !! db_attempts_seq db) eqn:Hold; [done|].
  rewrite Hid, lookup_insert_eq. intros [= <- <-].
  exists r, r'. split_and!; try done. all: unfold is_i32; lia.
Qed.

Lemma tx_lease_inr w qs secs env db o :
  tx_lease w qs secs env db = inr (Ok o) ↔ o = None ∧ lease_candidate qs env db = None.
Proof.
  unfold tx_lease, sql_lease. tx_unfold.
  destruct (lease_candidate qs env db) as [r|]; cbn -[set_leased]; [|naive_solver].
  split; [|naive_solver].
  destruct (pg_ts_add_secs _ _) as [expires|]; cbn -[set_leased]; [|done].
  unfold pg_int4. case_test; cbn -[set_leased]; [|done].
  rewrite (into_job_as_str (set_leased _ _ _ _ r) Processing) by done.
  by destruct (sql_insert_attempt _ _ _ _ _) as [[[] ?]|].
Qed.

(** The row a failure leaves, from the row it found. *)
Definition failed_row (now : Timestamp) (e : string) (row row' : JobRow) : Prop :=
  (jr_max_attempts row ≤ jr_attempts row ∧ jr_dead_letter row = true ∧
     row' = set_dead_lettered (Some e) now row) ∨
  (jr_max_attempts row ≤ jr_attempts row ∧ jr_dead_letter row = false ∧
     row' = set_failed (Some e) now row) ∨
  (jr_attempts row < jr_max_attempts row ∧
     ∃ secs, fail_delay_secs (job_of_row row Processing) = Some secs ∧
       row' = set_retrying (Some e) (now + secs * second) now row).

(** The dead-letter table after it. *)
Definition fail_dead_letter (row : JobRow) (e : string) (env : Env) (db : Db)
  : gmap Uuid DeadLetterRow :=
  if (jr_max_attempts row <=? jr_attempts row) && jr_dead_letter row then
    match sql_insert_dead_letter (job_of_row row Processing) e env db with
    | Ok (_, db') => db_dead_letter_jobs db'
    | Err _ => db_dead_letter_jobs db
    end
  else db_dead_letter_jobs db.

Lemma update_job_true id f db row :
  db_jobs db !! id = Some row →
  (update_job_returning id (λ _, true) f db).2 = db <| db_jobs ::= <[id := f row]> |>.
Proof. unfold update_job_returning. by intros ->. Qed.

Lemma tx_fail_inl id w e t env db out db' :
  tx_fail id w e t env db = inl (out, db') →
  ∃ row row', out = FailCommitted ∧ db_jobs db !! id = Some row ∧ holds_lease w row = true ∧
    failed_row (env_now env) e row row' ∧
    db' = db <| db_dead_letter_jobs := fail_dead_letter row e env db |>
             <| db_jobs ::= <[id := row']> |>
             <| db_job_attempts ::= update_where (running_of id)
                  (λ a, finish_attempt (if t then "timeout" else "failed") (env_now env) a
                          <| ar_error := Some e |>) |>.
Proof.
  unfold tx_fail. tx_unfold. cbn [sql_select_job sql_read res_bind].
  destruct (db_jobs db !! id) as [row|] eqn:Hrow; [|done].
  destruct (into_job row) as [j|] eqn:Hj; [|done].
  apply into_job_Ok in Hj as (s & Hs & ->).
  cbn [job_status job_locked_by job_max_attempts job_attempts job_dead_letter job_of_row].
  destruct (bool_decide_reflect (s = Processing)) as [->|]; [|done].
  destruct (bool_decide_reflect (jr_locked_by row = Some w)) as [Hw|]; cbn [negb orb]; [|done].
  assert (holds_lease w row = true) as Hh.
  { unfold holds_lease. by rewrite Hs, bool_decide_true by done. }
  unfold failed_row, fail_dead_letter, sql_mark_retrying, sql_update_job, sql_insert_dead_letter.
  destruct (jr_max_attempts row <=? jr_attempts row) eqn:Hex;
    [destruct (jr_dead_letter row) eqn:Hd|]; cbn [andb].
  - rewrite (update_job_true _ _ _ row). 2:{ cbn. case_match; exact Hrow. }
    intros [= <- <-]. exists row, (set_dead_lettered (Some e) (env_now env) row).
    split; [done|]. split; [done|]. split; [done|]. split; [auto with lia|].
    rewrite Hex, Hd. cbn. destruct (db_dead_letter_jobs db !! jr_id row); by destruct db.
  - rewrite (update_job_true _ _ _ row) by done.
    intros [= <- <-]. exists row, (set_failed (Some e) (env_now env) row).
    split; [done|]. split; [done|]. split; [done|]. split; [auto with lia|].
    rewrite Hex, Hd. by destruct db.
  - destruct (fail_delay_secs _) as [secs|] eqn:Hsecs; [|done].
    destruct (pg_ts_add_secs (env_now env) secs) as [run_at|] eqn:Hrun; cbn [res_bind]; [|done].
    apply pg_ts_add_secs_Ok in Hrun as ->.
    rewrite (update_job_true _ _ _ row) by done. intros [= <- <-].
    exists row, (set_retrying (Some e) (env_now env + secs * second) (env_now env) row).
    split; [done|]. split; [done|]. split; [done|]. split.
    { right; right. split; [lia|eauto]. }
    rewrite Hex. by destruct db.
Qed.

Lemma tx_complete_inl id w res env db out db' :
  tx_complete id w res env db = inl (out, db') →
  ∃ row row', db_jobs db !! id = Some row ∧ holds_lease w row = true ∧
    row' = set_completed res (env_now env) row ∧ out = Some (job_of_row row' Completed) ∧
    db' = db <| db_jobs ::= <[id := row']> |>
             <| db_job_attempts ::= update_where (running_of id)
                  (finish_attempt "succeeded" (env_now env)) |>.
Proof.
  unfold tx_complete, sql_complete, update_job_returning. tx_unfold.
  destruct (db_jobs db !! id) as [row|]; [|done].
  destruct (holds_lease w row) eqn:Hh; [|done].
  set (row' := set_completed _ _ row). assert (jr_status row' = as_str Completed) as Hs by done.
  rewrite (into_job_as_str row' Completed Hs). intros [= <- <-]. by exists row, row'.
Qed.

Lemma tx_complete_inr id w res env db o : tx_complete id w res env db = inr (Ok o) → o = None.
Proof.
  unfold tx_complete, sql_complete, update_job_returning. tx_unfold.
  destruct (db_jobs db !! id) as [row|]; [|naive_solver].
  destruct (holds_lease w row); [|naive_solver].
  set (row' := set_completed _ _ row). assert (jr_status row' = as_str Completed) as Hs by done.
  by rewrite (into_job_as_str row' Completed Hs).
Qed.

(** The row an UPDATE ... WHERE id = $1 AND P changes. *)
Lemma update_job_step {A} (q : DbReq A) ev now id P f db :
  (∀ r, db_jobs db !! id = Some r → P r = true →
     req_event q id ev ∧ row_step now ev (Some r) (Some (f r))) →
  jobs_step q now (db_jobs db) (db_jobs (update_job_returning id P f db).2).
Proof.
  intros H k. rewrite update_job_returning_lookup.
  destruct (db_jobs db !! k) as [r|] eqn:E; [|by left].
  case_bool_decide as Hk; cbn; subst; [|by left].
  destruct (P r) eqn:HP; [|by left]. destruct (H r E HP). right. eauto.
Qed.

(** The rows a reaper statement changes. *)
Lemma replace_rows_step {A} (q : DbReq A) ev now rows m :
  keyed m → (∀ id, req_event q id ev) →
  (∀ r', r' ∈ rows → ∃ r k, m !! k = Some r ∧ jr_id r' = jr_id r ∧
     row_step now ev (Some r) (Some r')) →
  jobs_step q now m (replace_rows rows m).
Proof.
  intros Hkey Hev Hrows id.
  destruct (replace_rows_lookup rows m id) as [[-> _]|(r' & Hr' & Hid & ->)]; [by left|].
  right. destruct (Hrows r' Hr') as (r & k & Hk & Heq & Hstep).
  assert (k = id) as -> by (rewrite <- Hid, Heq; symmetry; by apply Hkey).
  exists ev. rewrite Hk. auto.
Qed.

Section requests.
Context (env : Env) (db : Db) (Hkey : keyed (db_jobs db)).
Let now := env_now env.
#[local] Set Default Proof Using "All".

Lemma insert_job_step n r db' :
  sql_insert_job n env db = Ok (r, db') →
  jobs_step (QInsertJob n) now (db_jobs db) (db_jobs db').
Proof.
  unfold sql_insert_job. intros H. case_test_in H; [done|]. case_test_in H; [done|].
  case_match; [|done]. simplify_eq. intros id. cbn.
  destruct (decide (id = env_uuid env)) as [->|]; [|left; by rewrite lookup_insert_ne].
  right. exists (EvInsert n (env_uuid env)). split; [done|]. rewrite lookup_insert_eq.
  unfold unique_conflict in *. cbn in *.
  destruct (db_jobs db !! env_uuid env) eqn:E; [done|].
  constructor. by destruct (checks_ok _).
Qed.

Lemma purge_step cutoff n db' :
  sql_purge cutoff env db = Ok (n, db') →
  jobs_step (QPurge cutoff) now (db_jobs db) (db_jobs db').
Proof.
  intros [= <- <-] id. cbn. destruct (db_jobs db !! id) as [r|] eqn:E.
  - destruct (purgeable cutoff r) eqn:Hp.
    + right. exists EvPurge. split; [done|].
      assert (delete_where (purgeable cutoff) (db_jobs db) !! id = None) as ->
        by (apply lookup_delete_where_None; eauto).
      by econstructor.
    + left. by apply lookup_delete_where.
  - left. apply lookup_delete_where_None. by left.
Qed.

Lemma tx_lease_step w qs secs row db' :
  tx_lease w qs secs env db = inl (row, db') →
  jobs_step (TLease w qs secs) now (db_jobs db) (db_jobs db').
Proof.
  intros (r & r' & Hc & -> & Hi & _ & _ & ->)%tx_lease_inl.
  apply lease_candidate_Some in Hc as ([k Hk] & He & _).
  assert (k = jr_id r) as -> by (symmetry; by apply Hkey).
  intros id. cbn -[set_leased].
  destruct (decide (id = jr_id r)) as [->|]; [|left; by rewrite lookup_insert_ne].
  right. exists (EvLease w). split; [done|]. rewrite lookup_insert_eq, Hk.
  apply eligible_leaseable in He as (s & Hs & Hl & Hrun). by eapply step_lease.
Qed.

Lemma tx_complete_step id w res row db' :
  tx_complete id w res env db = inl (row, db') →
  jobs_step (TComplete id w res) now (db_jobs db) (db_jobs db').
Proof.
  intros (r & r' & Hr & Hh & -> & _ & ->)%tx_complete_inl. cbn. intros k.
  destruct (decide (k = id)) as [->|]; [|left; by rewrite lookup_insert_ne].
  right. exists (EvComplete w res). split; [done|]. rewrite lookup_insert_eq, Hr.
  by apply step_complete.
Qed.

Lemma tx_fail_step id w e t r db' :
  tx_fail id w e t env db = inl (r, db') →
  jobs_step (TFail id w e t) now (db_jobs db) (db_jobs db').
Proof.
  intros (row & row' & _ & Hrow & Hh & Hf & ->)%tx_fail_inl. cbn. intros k.
  destruct (decide (k = id)) as [->|]; [|left; by rewrite lookup_insert_ne].
  right. exists (EvFail w e). split; [done|]. rewrite lookup_insert_eq, Hrow.
  destruct Hf as [(?&?&->)|[(?&?&->)|(?&secs&?&->)]].
  - by apply step_fail_dead.
  - by apply step_fail_failed.
  - by apply step_fail_retry.
Qed.

Lemma renew_step id w secs n db' :
  sql_renew id w secs env db = Ok (n, db') →
  jobs_step (QRenew id w secs) now (db_jobs db) (db_jobs db').
Proof.
  unfold sql_renew. destruct (db_jobs db !! id) as [r|] eqn:E.
  2:{ intros [= <- <-] ?. by left. }
  destruct (holds_lease w r) eqn:Hh; [|intros [= <- <-] ?; by left].
  rewrite res_bind_Ok. intros (expires & ->%pg_ts_add_secs_Ok & [= <- <-]) k. cbn.
  destruct (decide (k = id)) as [->|]; [|left; by rewrite lookup_insert_ne].
  right. exists (EvRenew w). split; [done|]. rewrite lookup_insert_eq, E. by constructor.
Qed.

Lemma reap_retry_step limit ids db' :
  sql_reap_retry limit env db = Ok (ids, db') →
  jobs_step (QReapRetry limit) now (db_jobs db) (db_jobs db').
Proof.
  unfold sql_reap_retry. rewrite res_bind_Ok. intros (rows & Hsel & H).
  rewrite res_bind_Ok in H. destruct H as (rows' & Hrows & [= <- <-]).
  apply (replace_rows_step _ EvReap); [done..|]. intros r' Hr'.
  destruct (collect_results_elem _ _ _ _ Hrows Hr') as (r & Hr & Hrow).
  destruct (reap_select_elem _ _ _ _ _ _ Hsel Hr) as (HP & (k & Hk) & _).
  exists r, k. unfold reap_retry_row in Hrow.
  rewrite res_bind_Ok in Hrow. destruct Hrow as (delay & Hd & Hrow).
  rewrite res_bind_Ok in Hrow. destruct Hrow as (run_at & ->%pg_ts_add_secs_Ok & [= <-]).
  split_and!; [done..|]. apply andb_true_iff in HP as [? ?].
  apply step_reap_retry; [done|lia|done].
Qed.

Lemma reap_dead_step limit ids db' :
  sql_reap_dead limit env db = Ok (ids, db') →
  jobs_step (QReapDead limit) now (db_jobs db) (db_jobs db').
Proof.
  unfold sql_reap_dead. rewrite res_bind_Ok. intros (rows & Hsel & [= <- <-]).
  apply (replace_rows_step _ EvReap); [done..|].
  intros r' (r & -> & Hr)%list_elem_of_fmap.
  destruct (reap_select_elem _ _ _ _ _ _ Hsel Hr) as (HP & (k & Hk) & _).
  exists r, k. split_and!; [done..|]. rewrite !andb_true_iff in HP. destruct HP as [[? ?] ?].
  apply step_reap_dead; [done|lia|done].
Qed.

Lemma reap_failed_step limit ids db' :
  sql_reap_failed limit env db = Ok (ids, db') →
  jobs_step (QReapFailed limit) now (db_jobs db) (db_jobs db').
Proof.
  unfold sql_reap_failed. rewrite res_bind_Ok. intros (rows & Hsel & [= <- <-]).
  apply (replace_rows_step _ EvReap); [done..|].
  intros r' (r & -> & Hr)%list_elem_of_fmap.
  destruct (reap_select_elem _ _ _ _ _ _ Hsel Hr) as (HP & (k & Hk) & _).
  exists r, k. split_and!; [done..|].
  rewrite !andb_true_iff, negb_true_iff in HP. destruct HP as [[? ?] ?].
  apply step_reap_failed; [done|lia|done].
Qed.

Lemma cancel_step id b db' :
  sql_cancel id env db = Ok (b, db') →
  jobs_step (QCancel id) now (db_jobs db) (db_jobs db').
Proof.
  unfold sql_cancel. intros H. match type of H with Ok ?u = _ =>
    assert (u = (b, db')) as E by congruence; replace db' with u.2 by (by rewrite E) end.
  apply (update_job_step _ EvCancel). intros r _ Hr.
  apply cancellable_status in Hr as (s & ? & ?). split; [done|]. by eapply step_cancel.
Qed.

Lemma retry_step id b db' :
  sql_retry id env db = Ok (b, db') →
  jobs_step (QRetry id) now (db_jobs db) (db_jobs db').
Proof.
  unfold sql_retry. intros H. match type of H with Ok ?u = _ =>
    assert (u = (b, db')) as E by congruence; replace db' with u.2 by (by rewrite E) end.
  apply (update_job_step _ EvRequeue). intros r _ Hr.
  apply (status_in r [Failed; DeadLettered]) in Hr as (s & Hs & ?).
  split; [done|]. eapply step_requeue; [done|]. set_solver.
Qed.

End requests.

Lemma jobs_step_refl {A} (q : DbReq A) now m : jobs_step q now m m.
Proof. intros id. by left. Qed.

Lemma exec_stmt_jobs_step {A B} (q : DbReq A) (s : Sql B) env db :
  (∀ b db', s env db = Ok (b, db') → jobs_step q (env_now env) (db_jobs db) (db_jobs db')) →
  jobs_step q (env_now env) (db_jobs db) (db_jobs (exec_stmt s env db).2).
Proof.
  intros H. destruct (exec_stmt_db s env db) as [->|[b Hb]]; [apply jobs_step_refl|eauto].
Qed.

Lemma exec_tx_jobs_step {A B} (q : DbReq A) (t : Tx B B) env db :
  (∀ b db', t env db = inl (b, db') → jobs_step q (env_now env) (db_jobs db) (db_jobs db')) →
  jobs_step q (env_now env) (db_jobs db) (db_jobs (exec_tx t env db).2).
Proof.
  intros H. destruct (exec_tx_db t env db) as [->|[b Hb]]; [apply jobs_step_refl|eauto].
Qed.

(** The statements that leave the jobs table alone. *)
Ltac other_table H :=
  cbv [sql_insert_queue sql_select_queue sql_select_queues sql_update_paused
       sql_count_by_status sql_select_job_by_key sql_select_job sql_list_jobs
       sql_list_attempts sql_list_dead_letter sql_delete_dead_letter sql_close_attempts
       sql_register_worker sql_heartbeat sql_deregister_worker sql_active_workers
       sql_prune_workers sql_read res_bind] in H;
  repeat case_match; simplify_eq/=; apply jobs_step_refl.

Lemma exec_jobs_step {A} (q : DbReq A) env db :
  keyed (db_jobs db) →
  jobs_step q (env_now env) (db_jobs db) (db_jobs (exec q env db).2).
Proof.
  intros Hkey. destruct q; cbn [exec];
    first [apply exec_stmt_jobs_step | apply exec_tx_jobs_step]; intros b db' H;
    lazymatch type of H with
    | sql_insert_job _ _ _ = _ => eapply insert_job_step
    | sql_cancel _ _ _ = _ => eapply cancel_step
    | sql_retry _ _ _ = _ => eapply retry_step
    | sql_purge _ _ _ = _ => eapply purge_step
    | tx_lease _ _ _ _ _ = _ => eapply tx_lease_step
    | tx_complete _ _ _ _ _ = _ => eapply tx_complete_step
    | tx_fail _ _ _ _ _ _ = _ => eapply tx_fail_step
    | sql_renew _ _ _ _ _ = _ => eapply renew_step
    | sql_reap_retry _ _ _ = _ => eapply reap_retry_step
    | sql_reap_dead _ _ _ = _ => eapply reap_dead_step
    | sql_reap_failed _ _ _ = _ => eapply reap_failed_step
    | _ => other_table H
    end; eassumption.
Qed.

(** C2: refinement.  Whatever request the store sends, in whatever
    environment (clock, rows locked elsewhere, tie order, connection fault),
    every row of the jobs table is left alone or moves by one event of the
    lifecycle automaton, and only by the events that request is for. *)
Theorem exec_refines_lifecycle {A} (q : DbReq A) env db :
  keyed (db_jobs db) →
  jobs_step q (env_now env) (db_jobs db) (db_jobs (exec q env db).2).
Proof. apply exec_jobs_step. Qed.

End lifecycle.
