(* ===== verification/Invariant.v ===== *)
(** * Well-formed job rows

    The invariant of one row of the jobs table, its preservation by every step
    of the lifecycle, the frame of a row (what no operation changes), and which
    event of the lifecycle makes which change of status. *)

From S2P Require Import Prelude Prog Externals RustStr Status Error Model Row Float64 Backoff.
From S2P Require Import Sql Statements Lifecycle.
From stdpp Require Import options.

Section invariant.
Context `{X : Externals}.

(** ** Rows *)

(** A row in status [s]. *)
Record row_ok (s : JobStatus) (r : JobRow) : Prop := {
  row_status : jr_status r = as_str s;
  row_max_attempts : 1 ≤ jr_max_attempts r ≤ 100;
  row_attempts : 0 ≤ jr_attempts r ≤ jr_max_attempts r;
  row_timeout : 1 ≤ jr_timeout_secs r ≤ 86400;
  row_backoff : 1 ≤ jr_backoff_base_secs r ≤ jr_backoff_max_secs r;
  row_backoff_max : jr_backoff_max_secs r ≤ i32_max;
  (** a job that can be leased has an attempt left *)
  row_attempt_left : is_leaseable s = true → jr_attempts r < jr_max_attempts r;
  (** the lease columns are set together, while processing and only then *)
  row_leased : s = Processing →
    1 ≤ jr_attempts r ∧ is_Some (jr_locked_by r) ∧ is_Some (jr_locked_at r) ∧
    is_Some (jr_lease_expires_at r);
  row_unleased : s ≠ Processing →
    jr_locked_by r = None ∧ jr_locked_at r = None ∧ jr_lease_expires_at r = None;
  row_completed : s = Completed ↔ is_Some (jr_completed_at r);
  row_result : is_Some (jr_result r) → s = Completed;
  row_failed : s = Failed → jr_dead_letter r = false ∧ jr_attempts r = jr_max_attempts r;
  row_dead : s = DeadLettered → jr_dead_letter r = true ∧ jr_attempts r = jr_max_attempts r;
  row_error : s = Failed ∨ s = DeadLettered ∨ s = Retrying → is_Some (jr_last_error r);
}.

(** A submission as [QueueService::submit] makes it: the output of
    [normalized] on 32-bit fields. *)
Definition submittable (n : NormalizedJob) : Prop :=
  normal n ∧ nj_backoff_max_secs n ≤ i32_max.

Lemma normalized_submittable new now n :
  new_in_range new → normalized new now = Some (Ok n) → submittable n.
Proof.
  rewrite normalized_unfold. intros (_ & Hb & Hm).
  destruct (first_violation _) eqn:Hv; [done|].
  destruct (resolve_run_at new now) as [t|]; [|done]. intros [= <-].
  split; [by apply normal_form_normal|]. cbn. unfold is_i32, i32_max in *.
  destruct (new_backoff_base_secs new) as [b|], (new_backoff_max_secs new) as [m|];
    cbn; try specialize (Hb _ eq_refl); try specialize (Hm _ eq_refl); lia.
Qed.

Definition event_ok (ev : row_event) : Prop :=
  match ev with EvInsert n _ => submittable n | _ => True end.

Lemma row_ok_status s s' r : row_ok s r → jr_status r = as_str s' → s' = s.
Proof. intros [Hs] Hs'. apply (inj as_str). congruence. Qed.

Lemma holds_lease_spec w r :
  holds_lease w r = true ↔ jr_locked_by r = Some w ∧ jr_status r = as_str Processing.
Proof. unfold holds_lease. rewrite andb_true_iff, bool_decide_eq_true, String.eqb_eq. done. Qed.

Lemma expired_spec now r :
  expired now r = true ↔
    jr_status r = as_str Processing ∧ ∃ t, jr_lease_expires_at r = Some t ∧ t < now.
Proof.
  unfold expired. rewrite andb_true_iff, String.eqb_eq. destruct (jr_lease_expires_at r);
    naive_solver lia.
Qed.

Lemma lease_expired_error_some r : is_Some (lease_expired_error r).
Proof. unfold lease_expired_error. case_match; eauto. Qed.

Lemma purgeable_spec cutoff r :
  purgeable cutoff r = true →
  (jr_status r = as_str Completed ∨ jr_status r = as_str Cancelled) ∧ jr_updated_at r < cutoff.
Proof.
  unfold purgeable. rewrite andb_true_iff. intros [Hs Ht].
  apply (status_in r [Completed; Cancelled]) in Hs as (s & Hs & ->). split; [set_solver|lia].
Qed.

(** The status a step starts from, in a well-formed row. *)
Ltac step_status Hok :=
  repeat match goal with
  | H : holds_lease _ _ = true |- _ => apply holds_lease_spec in H as [? H]
  | H : expired _ _ = true |- _ => apply expired_spec in H as [H ?]
  | H : purgeable _ _ = true |- _ => apply purgeable_spec in H as [[H|H] ?]
  | H : jr_status _ = as_str _ |- _ => pose proof (row_ok_status _ _ _ Hok H); clear H
  end; subst.

Lemma row_step_insert now ev r' :
  row_step now ev None (Some r') → event_ok ev →
  ∃ n id, ev = EvInsert n id ∧ r' = new_row n id now ∧ row_ok (nj_status n) r'.
Proof.
  inversion 1 as [n id Hc| | | | | | | | | | | |]; subst.
  intros [(_&_&_&_&Hma&Hto&Hb&Hst) Hmax]. exists n, id. split_and!; [done..|].
  split; cbn; try done; try lia; try (intros [? [=]]); destruct Hst as [Hst|Hst]; rewrite Hst;
    naive_solver lia.
Qed.

(** Re-establish each field of [row_ok] after an update. *)
Ltac row_fields :=
  split; cbn;
  first [ done | lia | (intros _; split_and!; first [lia | eauto]) | naive_solver lia ].

Lemma row_step_ok now ev s r r' :
  row_step now ev (Some r) (Some r') → row_ok s r → ∃ s', row_ok s' r'.
Proof.
  intros Hstep Hok. pose proof (lease_expired_error_some r) as Herr.
  inversion Hstep; subst; step_status Hok;
    destruct Hok as [Hs Hma Hat Hto Hb Hbm Hleft Hlk Hul Hco Hre Hfa Hde Her].
  - exists Cancelled. destruct s; try done; row_fields.
  - exists Queued. row_fields.
  - exists Processing. specialize (Hleft ltac:(done)). destruct s; try done; row_fields.
  - exists Completed. row_fields.
  - exists DeadLettered. row_fields.
  - exists Failed. row_fields.
  - exists Retrying. row_fields.
  - exists Processing. destruct (Hlk eq_refl) as (?&?&?&?). row_fields.
  - exists Retrying. row_fields.
  - exists DeadLettered. row_fields.
  - exists Failed. row_fields.
Qed.

(** ** The frame of a row

    What no operation ever changes: everything the submission fixed, except
    the start time. *)
Definition row_frame (r : JobRow) :=
  (jr_id r, jr_queue r, jr_job_type r, jr_payload r, jr_priority r, jr_idempotency_key r,
   jr_max_attempts r, jr_timeout_secs r, (jr_backoff_base_secs r, jr_backoff_max_secs r),
   jr_dead_letter r, jr_metadata r, jr_correlation_id r, jr_created_at r).

Lemma row_step_frame now ev r r' :
  row_step now ev (Some r) (Some r') → row_frame r' = row_frame r.
Proof. by inversion 1; subst. Qed.

Lemma row_frame_eq r r' :
  row_frame r' = row_frame r →
  jr_id r' = jr_id r ∧ jr_queue r' = jr_queue r ∧
  jr_idempotency_key r' = jr_idempotency_key r ∧ jr_max_attempts r' = jr_max_attempts r.
Proof. unfold row_frame. intros. by simplify_eq. Qed.

(** ** Which operation makes which change of status *)

Inductive operation :=
| OpLease | OpComplete | OpFail | OpCancel | OpRetry | OpReap
| OpOther.

#[export] Instance operation_eq_dec : EqDecision operation.
Proof. solve_decision. Defined.

(** The operation behind an event of the lifecycle. *)
Definition event_operation (ev : row_event) : operation :=
  match ev with
  | EvLease _ => OpLease | EvComplete _ _ => OpComplete | EvFail _ _ => OpFail
  | EvCancel => OpCancel | EvRequeue => OpRetry | EvReap => OpReap
  | EvInsert _ _ | EvRenew _ | EvPurge => OpOther
  end.

Definition performed : list (JobStatus * operation * JobStatus) :=
  [(Queued, OpLease, Processing); (Scheduled, OpLease, Processing);
   (Retrying, OpLease, Processing);
   (Processing, OpComplete, Completed);
   (Processing, OpFail, Retrying); (Processing, OpFail, DeadLettered);
   (Processing, OpFail, Failed);
   (Processing, OpReap, Retrying); (Processing, OpReap, DeadLettered);
   (Processing, OpReap, Failed);
   (Queued, OpCancel, Cancelled); (Scheduled, OpCancel, Cancelled);
   (Retrying, OpCancel, Cancelled); (Processing, OpCancel, Cancelled);
   (Failed, OpRetry, Queued); (DeadLettered, OpRetry, Queued)].

Lemma row_step_performed now ev s s' r r' :
  row_step now ev (Some r) (Some r') → row_ok s r → jr_status r' = as_str s' → s ≠ s' →
  (s, event_operation ev, s') ∈ performed.
Proof.
  intros Hstep Hok. pose proof (row_status _ _ Hok) as Hs.
  inversion Hstep; subst; step_status Hok; cbn; intros Hs' Hne;
    try (apply (as_str_inj Cancelled) in Hs'); try (apply (as_str_inj Queued) in Hs');
    try (apply (as_str_inj Processing) in Hs'); try (apply (as_str_inj Completed) in Hs');
    try (apply (as_str_inj DeadLettered) in Hs'); try (apply (as_str_inj Failed) in Hs');
    try (apply (as_str_inj Retrying) in Hs'); subst; try done; unfold performed;
    try (by destruct Hne; symmetry; eapply row_ok_status);
    try (destruct s; try done); try (destruct_or!; try discriminate); repeat constructor.
Qed.

(** A well-formed row in a given status, after [a] of 2 attempts. *)
Definition sample_row (s : JobStatus) (a : Z) (dl : bool) : JobRow :=
  let leased {T} (t : T) := if decide (s = Processing) then Some t else None in
  {| jr_id := 0%N; jr_queue := "q"; jr_job_type := "t"; jr_payload := default_payload;
     jr_status := as_str s; jr_priority := 0; jr_idempotency_key := None;
     jr_max_attempts := 2; jr_attempts := a; jr_run_at := 0; jr_timeout_secs := 300;
     jr_backoff_base_secs := 2; jr_backoff_max_secs := 300; jr_dead_letter := dl;
     jr_locked_by := leased 7%N; jr_locked_at := leased 0; jr_lease_expires_at := leased 1;
     jr_last_error := Some "boom"%string; jr_result := None; jr_metadata := default_metadata;
     jr_correlation_id := None; jr_created_at := 0; jr_updated_at := 0;
     jr_completed_at := if decide (s = Completed) then Some 0 else None |}.

Lemma sample_row_ok s a dl :
  0 ≤ a ≤ 2 →
  match s with
  | Queued | Scheduled | Retrying => a < 2
  | Processing => 1 ≤ a
  | Failed => a = 2 ∧ dl = false
  | DeadLettered => a = 2 ∧ dl = true
  | Completed | Cancelled => True
  end → row_ok s (sample_row s a dl).
Proof.
  intros Ha Hs. destruct s; split; cbn; unfold i32_max; try done; try lia; naive_solver lia.
Qed.

End invariant.
