(* ===== verification/Integrity.v ===== *)
(** * The integrity of the tables

    The attempt history as an automaton on one attempt row, and the invariant
    of the whole database: well-formed rows, keys, foreign keys, the unique
    idempotency index and the attempt history.  Every request preserves it,
    in every environment and with every fault. *)

From S2P Require Import Prelude Prog Externals Status Error Model Row Float64 Backoff.
From S2P Require Import Sql Statements Lifecycle Invariant.
From stdpp Require Import options.

Section integrity.
Context `{X : Externals}.

(** ** The attempt history *)

Definition closing_statuses : list string := ["succeeded"; "failed"; "timeout"]%string.

(** What can happen to one attempt row, between the jobs tables [jobs] and
    [jobs'] of before and after. *)
Inductive attempt_step (now : Timestamp) (jobs jobs' : gmap Uuid JobRow) (i : Z)
  : option AttemptRow → option AttemptRow → Prop :=
| att_open id r w :
    jobs' !! id = Some r → holds_lease w r = true → jr_locked_at r = Some now →
    attempt_step now jobs jobs' i None
      (Some (mkAttemptRow i id (jr_attempts r) (Some w) now None "running" None))
| att_close a status error :
    ar_status a = "running"%string → status ∈ closing_statuses →
    attempt_step now jobs jobs' i (Some a)
      (Some (finish_attempt status now a <| ar_error := error |>))
| att_cascade a :
    is_Some (jobs !! ar_job_id a) → jobs' !! ar_job_id a = None →
    attempt_step now jobs jobs' i (Some a) None.

Record attempts_step (now : Timestamp) (db db' : Db) : Prop := {
  hist_rows i : db_job_attempts db' !! i = db_job_attempts db !! i ∨
    attempt_step now (db_jobs db) (db_jobs db') i
      (db_job_attempts db !! i) (db_job_attempts db' !! i);
  hist_fresh i : db_job_attempts db !! i = None → is_Some (db_job_attempts db' !! i) →
    i = db_attempts_seq db ∧ db_attempts_seq db' = i + 1;
  hist_seq : db_attempts_seq db ≤ db_attempts_seq db';
  hist_orphans i a : db_job_attempts db' !! i = Some a →
    db_jobs db' !! ar_job_id a = None → db_jobs db !! ar_job_id a = None;
}.

(** Jobs disappear only by a purge. *)
Lemma jobs_step_dom {A} (q : DbReq A) now m m' id :
  jobs_step q now m m' → ¬ req_event q id EvPurge →
  is_Some (m !! id) → is_Some (m' !! id).
Proof.
  intros Hstep Hq [r Hr]. destruct (Hstep id) as [->|(ev & Hev & Hs)]; [eauto|].
  rewrite Hr in Hs. inversion Hs; subst; eauto. done.
Qed.

Lemma attempts_step_same now db db' :
  db_job_attempts db' = db_job_attempts db → db_attempts_seq db' = db_attempts_seq db →
  (∀ id, is_Some (db_jobs db !! id) → is_Some (db_jobs db' !! id)) →
  attempts_step now db db'.
Proof.
  intros Ha Hs Hj. split; rewrite ?Ha, ?Hs; [by left| |done|].
  - intros i Hn [a Ha']. congruence.
  - intros i a _ Hn. apply eq_None_not_Some. intros H%Hj. rewrite Hn in H. by destruct H.
Qed.

Lemma attempts_step_close now db db' P (f : AttemptRow → AttemptRow) :
  db_job_attempts db' = update_where P f (db_job_attempts db) →
  db_attempts_seq db' = db_attempts_seq db →
  (∀ a, P a = true → ar_status a = "running"%string ∧
     ∃ st er, st ∈ closing_statuses ∧ f a = finish_attempt st now a <| ar_error := er |>) →
  (∀ id, is_Some (db_jobs db !! id) → is_Some (db_jobs db' !! id)) →
  attempts_step now db db'.
Proof.
  intros Ha Hs HP Hj. split; rewrite ?Hs; [| |done|].
  - intros i. rewrite Ha, lookup_update_where.
    destruct (db_job_attempts db !! i) as [a|]; [|by left]. cbn.
    destruct (P a) eqn:HPa; [|by left]. right.
    destruct (HP a HPa) as (Hr & st & er & Hst & ->). by constructor.
  - intros i Hn [a Ha']. rewrite Ha, lookup_update_where, Hn in Ha'. done.
  - intros i a _ Hn. apply eq_None_not_Some. intros H%Hj. rewrite Hn in H. by destruct H.
Qed.

Lemma running_of_spec id a :
  running_of id a = true ↔ ar_job_id a = id ∧ ar_status a = "running"%string.
Proof. unfold running_of. by rewrite andb_true_iff, bool_decide_eq_true, String.eqb_eq. Qed.

Lemma update_job_dom id P f db k :
  is_Some (db_jobs db !! k) → is_Some (db_jobs (update_job_returning id P f db).2 !! k).
Proof. rewrite update_job_returning_lookup. intros [r ->]. case_match; eauto. Qed.

Lemma update_job_other id P f db :
  let db' := (update_job_returning id P f db).2 in
  db_job_attempts db' = db_job_attempts db ∧ db_attempts_seq db' = db_attempts_seq db ∧
  db_queues db' = db_queues db ∧ db_workers db' = db_workers db ∧
  db_dead_letter_jobs db' = db_dead_letter_jobs db.
Proof. unfold update_job_returning. repeat case_match; done. Qed.

Lemma replace_rows_dom rows m k : is_Some (m !! k) → is_Some (replace_rows rows m !! k).
Proof.
  intros [r Hr]. destruct (replace_rows_lookup rows m k) as [[-> _]|(r' & _ & _ & ->)]; eauto.
Qed.

(** The history, request by request. *)
Section history.
Context (env : Env) (db : Db) (Hkey : keyed (db_jobs db)).
Let now := env_now env.
#[local] Set Default Proof Using "All".

Lemma purge_history cutoff n db' :
  sql_purge cutoff env db = Ok (n, db') → attempts_step now db db'.
Proof.
  intros [= <- <-]. set (gone := rows_where (purgeable cutoff) (db_jobs db)).
  assert (∀ id, id ∈ jr_id <$> gone ↔ ∃ r, db_jobs db !! id = Some r ∧ purgeable cutoff r = true)
    as Hgone.
  { intros id. rewrite list_elem_of_fmap. unfold gone. setoid_rewrite elem_of_rows_where.
    split; [intros (r & -> & Hp & k & Hk)|intros (r & Hk & Hp)].
    - exists r. split; [|done]. by rewrite (Hkey _ _ Hk).
    - exists r. split; [symmetry; by apply Hkey|eauto]. }
  split; cbn.
  - intros i. destruct (db_job_attempts db !! i) as [a|] eqn:Ha.
    + destruct (decide (ar_job_id a ∈ jr_id <$> gone)) as [Hin|Hout].
      * right. replace (delete_where _ _ !! i) with (@None AttemptRow).
        2:{ symmetry. apply lookup_delete_where_None. right. exists a.
            by rewrite bool_decide_true. }
        apply Hgone in Hin as (r & Hr & Hp). constructor; cbn; [eauto|].
        apply lookup_delete_where_None. eauto.
      * left. apply lookup_delete_where. by rewrite bool_decide_false.
    + left. apply lookup_delete_where_None. by left.
  - intros i Hn [a [Ha _]%lookup_delete_where]. congruence.
  - done.
  - intros i a [Ha Hin]%lookup_delete_where Hn. apply bool_decide_eq_false in Hin.
    apply lookup_delete_where_None in Hn as [|(r & Hr & Hp)]; [done|].
    destruct Hin. apply Hgone. eauto.
Qed.

Lemma tx_lease_history w qs secs row db' :
  tx_lease w qs secs env db = inl (row, db') → attempts_step now db db'.
Proof.
  intros (r & r' & _ & Hr' & _ & _ & Hold & ->)%tx_lease_inl.
  assert (holds_lease w r' = true) as Hh.
  { subst r'. unfold holds_lease. by rewrite bool_decide_true. }
  assert (jr_locked_at r' = Some now) as Hl by by subst r'.
  clear Hr'. split; cbn.
  - intros i. destruct (decide (i = db_attempts_seq db)) as [->|].
    2:{ left. by rewrite lookup_insert_ne. }
    right. rewrite lookup_insert_eq, Hold. apply (att_open _ _ _ _ (jr_id r) r' w); [|done..].
    by rewrite lookup_insert_eq.
  - intros i Hi. destruct (decide (i = db_attempts_seq db)) as [->|]; [done|].
    rewrite lookup_insert_ne, Hi by done. by intros [].
  - lia.
  - intros i a _. destruct (decide (ar_job_id a = jr_id r)) as [->|].
    + by rewrite lookup_insert_eq.
    + by rewrite lookup_insert_ne.
Qed.

Lemma tx_complete_history id w res row db' :
  tx_complete id w res env db = inl (row, db') → attempts_step now db db'.
Proof.
  intros (r & r' & Hr & _ & _ & _ & ->)%tx_complete_inl.
  eapply attempts_step_close; cbn; [done|done| |].
  - intros a [_ Ha]%running_of_spec. split; [done|].
    exists "succeeded"%string, (ar_error a). split; [set_solver|by destruct a].
  - intros k. destruct (decide (k = id)) as [->|];
      [rewrite lookup_insert_eq|rewrite lookup_insert_ne by done]; eauto.
Qed.

Lemma tx_fail_history id w e t r db' :
  tx_fail id w e t env db = inl (r, db') → attempts_step now db db'.
Proof.
  intros (row & row' & _ & Hrow & _ & _ & ->)%tx_fail_inl.
  eapply attempts_step_close; cbn; [done|done| |].
  - intros a [_ Hr]%running_of_spec. split; [done|].
    eexists _, (Some e). split; [|done]. destruct t; set_solver.
  - intros k. destruct (decide (k = id)) as [->|];
      [rewrite lookup_insert_eq|rewrite lookup_insert_ne by done]; eauto.
Qed.

Lemma close_history ids u db' :
  sql_close_attempts ids env db = Ok (u, db') → attempts_step now db db'.
Proof.
  intros [= <- <-]. eapply attempts_step_close; cbn; [done|done| |done].
  intros a Ha. apply andb_true_iff in Ha as [Hr%String.eqb_eq _]. split; [done|].
  eexists "timeout"%string, _. split; [set_solver|]. by destruct a.
Qed.

End history.

Lemma attempts_step_refl now db : attempts_step now db db.
Proof. by apply attempts_step_same. Qed.

(** A request's effect, from the effect of its statement when it commits. *)
Lemma exec_effect {A} (q : DbReq A) env db (Q : Db → Prop) :
  Q db →
  (match q with
   | QInsertQueue n => ∀ b db', sql_insert_queue n env db = Ok (b, db') → Q db'
   | QUpdatePaused n p => ∀ b db', sql_update_paused n p env db = Ok (b, db') → Q db'
   | QInsertJob n => ∀ b db', sql_insert_job n env db = Ok (b, db') → Q db'
   | QCancel id => ∀ b db', sql_cancel id env db = Ok (b, db') → Q db'
   | QRetry id => ∀ b db', sql_retry id env db = Ok (b, db') → Q db'
   | QDeleteDeadLetter id => ∀ b db', sql_delete_dead_letter id env db = Ok (b, db') → Q db'
   | QPurge t => ∀ b db', sql_purge t env db = Ok (b, db') → Q db'
   | TLease w qs s => ∀ b db', tx_lease w qs s env db = inl (b, db') → Q db'
   | TComplete id w r => ∀ b db', tx_complete id w r env db = inl (b, db') → Q db'
   | TFail id w e t => ∀ b db', tx_fail id w e t env db = inl (b, db') → Q db'
   | QRenew id w s => ∀ b db', sql_renew id w s env db = Ok (b, db') → Q db'
   | QReapRetry l => ∀ b db', sql_reap_retry l env db = Ok (b, db') → Q db'
   | QReapDead l => ∀ b db', sql_reap_dead l env db = Ok (b, db') → Q db'
   | QReapFailed l => ∀ b db', sql_reap_failed l env db = Ok (b, db') → Q db'
   | QCloseAttempts l => ∀ b db', sql_close_attempts l env db = Ok (b, db') → Q db'
   | QRegisterWorker w => ∀ b db', sql_register_worker w env db = Ok (b, db') → Q db'
   | QHeartbeat w => ∀ b db', sql_heartbeat w env db = Ok (b, db') → Q db'
   | QDeregisterWorker w => ∀ b db', sql_deregister_worker w env db = Ok (b, db') → Q db'
   | QPruneWorkers s => ∀ b db', sql_prune_workers s env db = Ok (b, db') → Q db'
   | _ => True
   end) →
  Q (exec q env db).2.
Proof.
  intros Hdb HQ.
  destruct q; cbn [exec];
    match goal with
    | |- Q (exec_stmt ?s _ _).2 => destruct (exec_stmt_db s env db) as [->|[b Hb]]; [done|]
    | |- Q (exec_tx ?s _ _).2 => destruct (exec_tx_db s env db) as [->|[b Hb]]; [done|]
    end; try (by eapply HQ);
    (* the statements that only read *)
    match goal with |- Q ?d => assert (d = db) as ->; [|done] end;
    revert Hb;
    cbv [sql_select_queue sql_select_queues sql_count_by_status sql_select_job_by_key
         sql_select_job sql_list_jobs sql_list_attempts sql_list_dead_letter
         sql_active_workers sql_read];
    rewrite res_bind_Ok; naive_solver.
Qed.

(** Take a committed statement apart. *)
Ltac invert_stmt Hb :=
  first [apply tx_lease_inl in Hb | apply tx_complete_inl in Hb | apply tx_fail_inl in Hb | idtac];
  cbv [sql_insert_queue sql_update_paused sql_insert_job sql_cancel sql_retry
       sql_delete_dead_letter sql_renew sql_reap_retry sql_reap_dead sql_reap_failed
       sql_close_attempts sql_register_worker sql_heartbeat sql_deregister_worker
       sql_prune_workers sql_purge update_job_returning] in Hb;
  repeat
    (rewrite ?res_bind_Ok in Hb;
     match type of Hb with
     | ∃ _, _ => let x := fresh "x" in destruct Hb as [x Hb]
     | _ ∧ _ => let H := fresh "Hx" in destruct Hb as [H Hb]
     | context [match ?x with _ => _ end] =>
         first [discriminate Hb | let E := fresh "E" in destruct x eqn:E]
     end);
  try discriminate Hb.

Lemma exec_attempts_step {A} (q : DbReq A) env db :
  keyed (db_jobs db) → attempts_step (env_now env) db (exec q env db).2.
Proof.
  intros Hkey.
  pose proof (exec_jobs_step q env db Hkey) as Hjobs. revert Hjobs.
  set (P db' := jobs_step q (env_now env) (db_jobs db) (db_jobs db') →
         attempts_step (env_now env) db db').
  change (P (exec q env db).2). apply exec_effect; unfold P.
  { intros _. apply attempts_step_refl. }
  destruct q; [..]; try exact I; intros b db' Hb Hjobs;
    try (by eapply purge_history); try (by eapply tx_lease_history);
    try (by eapply tx_complete_history); try (by eapply tx_fail_history);
    try (by eapply close_history);
    (apply attempts_step_same;
      [| |intros k; eapply jobs_step_dom; [done|cbn; naive_solver]]);
    invert_stmt Hb; by simplify_eq/=.
Qed.

(** The attempt history is append-only.  Whatever a request is, each row
    of the attempts table is left alone, or is opened (under a fresh id, for
    the lease being granted, with the job's attempt number, worker and start),
    or is closed (a running attempt gets a final status and an end, once), or
    disappears with its purged job; no attempt is left of a purged job. *)
Theorem attempt_history {A} (q : DbReq A) env db :
  keyed (db_jobs db) → attempts_step (env_now env) db (exec q env db).2.
Proof. apply exec_attempts_step. Qed.

(** ** The invariant *)

Definition attempt_ok (db : Db) (i : Z) (a : AttemptRow) : Prop :=
  ar_id a = i ∧ i < db_attempts_seq db ∧
  (∃ r, db_jobs db !! ar_job_id a = Some r ∧ 1 ≤ ar_attempt a ≤ jr_max_attempts r) ∧
  (ar_status a = "running"%string ∧ ar_finished_at a = None ∨
   ar_status a ∈ closing_statuses ∧ is_Some (ar_finished_at a)).

Record db_ok (db : Db) : Prop := {
  ok_keyed : keyed (db_jobs db);
  ok_rows id r : db_jobs db !! id = Some r → ∃ s, row_ok s r;
  ok_unique id1 id2 r1 r2 k :
    db_jobs db !! id1 = Some r1 → db_jobs db !! id2 = Some r2 → jr_queue r1 = jr_queue r2 →
    jr_idempotency_key r1 = Some k → jr_idempotency_key r2 = Some k → id1 = id2;
  ok_job_queue id r : db_jobs db !! id = Some r → is_Some (db_queues db !! jr_queue r);
  ok_attempts i a : db_job_attempts db !! i = Some a → attempt_ok db i a;
  ok_queues n q : db_queues db !! n = Some q → qr_name q = n;
  ok_workers i w : db_workers db !! i = Some w → wr_id w = i;
  ok_dead_letters i d : db_dead_letter_jobs db !! i = Some d → dlr_id d = i;
}.

Lemma empty_db_ok : db_ok empty_db.
Proof. split; cbn; try by intros. all: try (intros *; rewrite lookup_empty; done). Qed.

Definition req_ok {A} (q : DbReq A) : Prop :=
  match q with QInsertJob n => submittable n | _ => True end.

(** Where a row of the new table comes from. *)
Lemma jobs_step_origin {A} (q : DbReq A) now m m' id r' :
  jobs_step q now m m' → m' !! id = Some r' →
  (∃ r, m !! id = Some r ∧ row_frame r' = row_frame r ∧
     (r' = r ∨ ∃ ev, req_event q id ev ∧ row_step now ev (Some r) (Some r'))) ∨
  (∃ n, m !! id = None ∧ r' = new_row n id now ∧ req_event q id (EvInsert n id) ∧
     row_step now (EvInsert n id) None (Some r')).
Proof.
  intros Hstep Hr'. destruct (Hstep id) as [Heq|(ev & Hev & Hs)].
  - left. exists r'. rewrite <- Heq. auto.
  - rewrite Hr' in Hs. destruct (m !! id) as [r|] eqn:Hr.
    + left. exists r. split_and!; [done|by eapply row_step_frame|eauto].
    + right. inversion Hs as [n id' Hc| | | | | | | | | | | |]; subst.
      assert (id' = id) as -> by (destruct q; cbn in Hev; destruct_and?; by simplify_eq).
      exists n. by split_and!.
Qed.

Lemma req_event_ok {A} (q : DbReq A) id ev : req_event q id ev → req_ok q → event_ok ev.
Proof. destruct q; cbn; intros; destruct_and?; by subst. Qed.

Lemma insert_is_Some_mono {K R} `{Countable K} (m : gmap K R) k r j :
  is_Some (m !! j) → is_Some (<[k := r]> m !! j).
Proof. intros Hj. apply lookup_insert_is_Some'. auto. Qed.

Lemma insert_keyed {K R} `{Countable K} (f : R → K) (m : gmap K R) k r :
  (∀ j x, m !! j = Some x → f x = j) → f r = k →
  ∀ j x, <[k := r]> m !! j = Some x → f x = j.
Proof. intros Hm Hr j x [[<- <-]|[_ Hj]]%lookup_insert_Some; eauto. Qed.

(** The queues never disappear. *)
Lemma exec_queues {A} (q : DbReq A) env db :
  (∀ n, is_Some (db_queues db !! n) → is_Some (db_queues (exec q env db).2 !! n)) ∧
  ((∀ n r, db_queues db !! n = Some r → qr_name r = n) →
   ∀ n r, db_queues (exec q env db).2 !! n = Some r → qr_name r = n).
Proof.
  apply (exec_effect q env db (λ db',
    (∀ n, is_Some (db_queues db !! n) → is_Some (db_queues db' !! n)) ∧
    ((∀ n r, db_queues db !! n = Some r → qr_name r = n) →
     ∀ n r, db_queues db' !! n = Some r → qr_name r = n))); [done|].
  destruct q; try exact I; intros b db' Hb; invert_stmt Hb;
    first [by simplify_eq/= | simplify_eq/=; split];
    try (intros k; by apply insert_is_Some_mono);
    intros Hq; refine (insert_keyed qr_name _ _ _ Hq _); by cbn; eauto.
Qed.

Lemma fail_dead_letter_keyed row e env db :
  (∀ i d, db_dead_letter_jobs db !! i = Some d → dlr_id d = i) →
  ∀ i d, fail_dead_letter row e env db !! i = Some d → dlr_id d = i.
Proof.
  intros Hd. unfold fail_dead_letter. case_test; [|done]. cbn.
  case_match; [done|]. by refine (insert_keyed dlr_id _ _ _ Hd _).
Qed.

Lemma reap_dead_letter_keyed now rows m :
  (∀ i d, m !! i = Some d → dlr_id d = i) →
  ∀ i d, foldr (reap_dead_letter now) m rows !! i = Some d → dlr_id d = i.
Proof.
  intros Hm. induction rows as [|r rows IH]; cbn; [done|].
  unfold reap_dead_letter at 1. case_match; [done|].
  by refine (insert_keyed dlr_id _ _ _ IH _).
Qed.

(** Workers and dead letters are stored under their ids. *)
Lemma exec_side_tables {A} (q : DbReq A) env db :
  let keyed_tables db :=
    (∀ i w, db_workers db !! i = Some w → wr_id w = i) ∧
    (∀ i d, db_dead_letter_jobs db !! i = Some d → dlr_id d = i) in
  db_ok db → keyed_tables (exec q env db).2.
Proof.
  intros keyed_tables Hok.
  assert (keyed_tables db) as [Hw Hd] by (split; apply Hok).
  apply (exec_effect q env db keyed_tables); [done|]. unfold keyed_tables.
  destruct q; try exact I; intros b db' Hb; invert_stmt Hb; simplify_eq/=; try done.
  all: split; try assumption;
    first [ by intros i ? [_ ?]%lookup_delete_Some; eauto
          | by intros i ? [? _]%lookup_delete_where; eauto
          | by apply fail_dead_letter_keyed | by apply reap_dead_letter_keyed
          | refine (insert_keyed wr_id _ _ _ Hw _); by cbn; eauto ].
Qed.

Lemma attempt_ok_preserved db db' i a :
  attempt_ok db i a → db_attempts_seq db ≤ db_attempts_seq db' →
  (∀ r, db_jobs db !! ar_job_id a = Some r →
     ∃ r', db_jobs db' !! ar_job_id a = Some r' ∧ jr_max_attempts r' = jr_max_attempts r) →
  attempt_ok db' i a.
Proof.
  intros (Hi & Hs & (r & Hr & Hb) & Hst) Hle Hr'.
  destruct (Hr' r Hr) as (r' & Hr'' & Heq). split_and!; [done|lia| |done].
  exists r'. split; [done|]. by rewrite Heq.
Qed.

(** The jobs, from the lifecycle automaton alone. *)
Lemma jobs_step_rows {A} (q : DbReq A) now m m' :
  req_ok q → jobs_step q now m m' → keyed m → (∀ id r, m !! id = Some r → ∃ s, row_ok s r) →
  keyed m' ∧ (∀ id r, m' !! id = Some r → ∃ s, row_ok s r).
Proof.
  intros Hq Hstep Hkey Hrows. split.
  - intros id r' Hr'. destruct (jobs_step_origin _ _ _ _ _ _ Hstep Hr')
      as [(r & Hr & Hf & _)|(n & _ & -> & _)]; [|done].
    apply row_frame_eq in Hf as (-> & _). by apply Hkey.
  - intros id r' Hr'. destruct (jobs_step_origin _ _ _ _ _ _ Hstep Hr')
      as [(r & Hr & _ & [->|(ev & Hev & Hs)])|(n & _ & _ & Hev & Hs)].
    + eauto.
    + destruct (Hrows _ _ Hr) as [s Hok]. by eapply row_step_ok.
    + apply row_step_insert in Hs as (? & ? & _ & _ & Hok); [eauto|].
      by eapply req_event_ok.
Qed.

(** The unique index and the foreign key, which only an insert can break. *)
Definition index_ok (db : Db) : Prop :=
  (∀ id1 id2 r1 r2 k, db_jobs db !! id1 = Some r1 → db_jobs db !! id2 = Some r2 →
     jr_queue r1 = jr_queue r2 → jr_idempotency_key r1 = Some k →
     jr_idempotency_key r2 = Some k → id1 = id2) ∧
  (∀ id r, db_jobs db !! id = Some r → is_Some (db_queues db !! jr_queue r)).

Lemma index_ok_frame db db' :
  index_ok db →
  (∀ id r', db_jobs db' !! id = Some r' →
     ∃ r, db_jobs db !! id = Some r ∧ row_frame r' = row_frame r) →
  (∀ n, is_Some (db_queues db !! n) → is_Some (db_queues db' !! n)) → index_ok db'.
Proof.
  intros [Hu Hfk] Hframe Hq. split.
  - intros id1 id2 r1' r2' k (r1 & H1 & (_&->&->&_)%row_frame_eq)%Hframe
      (r2 & H2 & (_&->&->&_)%row_frame_eq)%Hframe. eauto.
  - intros id r' (r & Hr & (_&->&_)%row_frame_eq)%Hframe. eauto.
Qed.

Lemma has_key_spec q k r :
  has_key q k r = true ↔ jr_queue r = q ∧ jr_idempotency_key r = Some k.
Proof.
  unfold has_key. rewrite andb_true_iff, String.eqb_eq.
  destruct (jr_idempotency_key r) as [k'|]; [rewrite String.eqb_eq|]; naive_solver.
Qed.

Lemma unique_conflict_false r db :
  unique_conflict r db = false ↔
  db_jobs db !! jr_id r = None ∧
  ∀ id r' k, db_jobs db !! id = Some r' → jr_queue r' = jr_queue r →
    jr_idempotency_key r = Some k → jr_idempotency_key r' = Some k → False.
Proof.
  unfold unique_conflict. rewrite orb_false_iff. split.
  - intros [H1 H2].
    split; [by destruct (db_jobs db !! jr_id r)|]. intros id r' k Hr' Hq Hk Hk'. rewrite Hk in H2.
    rewrite negb_false_iff, bool_decide_eq_true in H2.
    assert (r' ∈ rows_where (has_key (jr_queue r) k) (db_jobs db)) as Hin.
    { apply elem_of_rows_where. rewrite has_key_spec. eauto. }
    rewrite H2 in Hin. by apply elem_of_nil in Hin.
  - intros [-> Hfree]. split; [done|]. destruct (jr_idempotency_key r) as [k|]; [|done].
    rewrite negb_false_iff, bool_decide_eq_true.
    destruct (rows_where _ _) as [|r' l] eqn:Hl; [done|].
    assert (r' ∈ rows_where (has_key (jr_queue r) k) (db_jobs db)) as Hin by (rewrite Hl; set_solver).
    apply elem_of_rows_where in Hin as [[Hq Hk]%has_key_spec [id Hr']].
    by destruct (Hfree id r' k Hr' Hq eq_refl Hk).
Qed.

Lemma insert_index_ok n env db r db' :
  sql_insert_job n env db = Ok (r, db') → index_ok db → index_ok db'.
Proof.
  unfold sql_insert_job. intros H [Hu Hfk]. case_test_in H; [done|].
  destruct (unique_conflict _ _) eqn:Hc; [done|].
  apply unique_conflict_false in Hc as [Hnew Hkey].
  destruct (db_queues db !! _) eqn:Hq; [|done]. simplify_eq/=. split; cbn.
  - intros id1 id2 r1 r2 k [[<- <-]|[Hn1 H1]]%lookup_insert_Some
      [[<- <-]|[Hn2 H2]]%lookup_insert_Some Heq Hk1 Hk2; [done| | |by eauto].
    + exfalso. by eapply Hkey.
    + exfalso. by eapply Hkey.
  - intros id r [[<- <-]|[_ Hr]]%lookup_insert_Some; [by eauto|eauto].
Qed.

Lemma exec_index_ok {A} (q : DbReq A) env db :
  db_ok db → index_ok (exec q env db).2.
Proof.
  intros Hok. pose proof (exec_jobs_step q env db (ok_keyed _ Hok)) as Hstep.
  assert (index_ok db) as Hix by (split; [apply (ok_unique _ Hok)|apply (ok_job_queue _ Hok)]).
  destruct (exec_queues q env db) as [Hqs _].
  assert ((∀ n id, ¬ req_event q id (EvInsert n id)) → index_ok (exec q env db).2) as Hother.
  { intros Hno. apply (index_ok_frame db); [done| |done]. intros id r' Hr'.
    destruct (jobs_step_origin _ _ _ _ _ _ Hstep Hr') as [(r&?&?&_)|(n&_&_&Hev&_)]; [eauto|].
    by apply Hno in Hev. }
  destruct q; try (apply Hother; cbn; naive_solver). clear Hother.
  apply (exec_effect (QInsertJob n) env db index_ok); [done|].
  intros r db' Hb. by eapply insert_index_ok.
Qed.

Lemma exec_attempts_ok {A} (q : DbReq A) env db :
  db_ok db → req_ok q → ∀ i a, db_job_attempts (exec q env db).2 !! i = Some a →
  attempt_ok (exec q env db).2 i a.
Proof.
  intros Hok Hq i a' Ha'.
  pose proof (exec_jobs_step q env db (ok_keyed _ Hok)) as Hstep.
  destruct (jobs_step_rows _ _ _ _ Hq Hstep (ok_keyed _ Hok) (ok_rows _ Hok)) as [_ Hrows'].
  destruct (exec_attempts_step q env db (ok_keyed _ Hok)) as [Hh Hf Hs Ho].
  set (db' := (exec q env db).2) in *. clearbody db'.
  assert (∀ a, db_job_attempts db !! i = Some a → attempt_ok db' i a ∨
            db_jobs db' !! ar_job_id a = None ∧ is_Some (db_jobs db !! ar_job_id a)) as Hold.
  { intros a Ha. pose proof (ok_attempts _ Hok _ _ Ha) as Haok.
    destruct (db_jobs db' !! ar_job_id a) as [r'|] eqn:Hr'.
    - left. apply (attempt_ok_preserved db); [done..|]. intros r Hr. exists r'. split; [done|].
      destruct (jobs_step_origin _ _ _ _ _ _ Hstep Hr') as [(r0&Hr0&Hfr&_)|(n&Hn&_)].
      + assert (r0 = r) as -> by congruence. by apply row_frame_eq in Hfr as (_&_&_&->).
      + congruence.
    - right. destruct Haok as (_ & _ & (r & Hr & _) & _). eauto. }
  destruct (Hh i) as [Heq|Hat].
  - rewrite Ha' in Heq. destruct (Hold a' (eq_sym Heq)) as [|[Hn [r Hr]]]; [done|].
    exfalso. rewrite (Ho i a' Ha' Hn) in Hr. done.
  - rewrite Ha' in Hat. inversion Hat as [id r w Hr Hl Ht Heq|a st er Hrun Hst Heq|]; subst.
    + symmetry in Heq. destruct (Hf i Heq) as [-> Hs']; [by eauto|].
      destruct (Hrows' _ _ Hr) as [s Hrok]. split_and!; cbn; [done|lia| |by left].
      exists r. split; [done|]. apply holds_lease_spec in Hl as [_ Hl].
      pose proof (row_ok_status _ _ _ Hrok Hl) as <-.
      pose proof (row_attempts _ _ Hrok). pose proof (row_leased _ _ Hrok eq_refl) as [? _]. lia.
    + symmetry in Heq. destruct (Hold a Heq) as [(Hi & Hsq & Hj & _)|[Hn [r Hr]]].
      * split_and!; cbn; [done|done|done|]. right. eauto.
      * exfalso. cbn in Ho. specialize (Ho i _ Ha' Hn). cbn in Ho. congruence.
Qed.

Lemma exec_db_ok {A} (q : DbReq A) env db :
  req_ok q → db_ok db → db_ok (exec q env db).2.
Proof.
  intros Hq Hok. pose proof (exec_jobs_step q env db (ok_keyed _ Hok)) as Hstep.
  destruct (jobs_step_rows _ _ _ _ Hq Hstep (ok_keyed _ Hok) (ok_rows _ Hok)).
  destruct (exec_index_ok q env db Hok), (exec_side_tables q env db Hok).
  destruct (exec_queues q env db) as [_ Hqn].
  split; try done; [by apply exec_attempts_ok|apply Hqn, Hok].
Qed.

End integrity.
