(* ===== verification/StoreProps.v ===== *)
(** * What the store promises

    The functional behaviour of the methods of [PgStore] that move a job, run
    alone and on every branch: the choice the leasing query makes, completion,
    failure and its delay, renewal, cancellation, retry and purge. *)

From S2P Require Import Prelude Prog Externals Status Error Model Row Float64 Backoff.
From S2P Require Import Sql Statements Store PgStore Lifecycle Invariant Integrity.
From stdpp Require Import options.

Section storeprops.
Context `{X : Externals}.

(** No fault: every statement is executed and answered. *)
Definition quiet (es : nat → Env) : Prop := ∀ i, env_fault (es i) = NoFault.

Section running.
Context (es : nat → Env).

Lemma run_query {A} (q : DbReq (result sqlx_error A)) i db :
  run (answer es) (query q) (i, db) =
    (Some (map_err storage_err (exec q (es i) db).1), (S i, (exec q (es i) db).2)).
Proof.
  unfold query, map_err_p. change (prog_bind ?f ?p) with (p ≫= f).
  rewrite run_bind, run_trigger. unfold answer.
  destruct (exec q (es i) db) as [a db']. done.
Qed.

Lemma run_request {A} (q : DbReq A) i db :
  run (answer es) (trigger q) (i, db) =
    (Some (exec q (es i) db).1, (S i, (exec q (es i) db).2)).
Proof. rewrite run_trigger. unfold answer. by destruct (exec q (es i) db). Qed.

Lemma run_fetch_one {A} (p : prog DbReq (Result (option A))) s :
  run (answer es) (fetch_one p) s =
    match run (answer es) p s with
    | (Some (Ok (Some a)), s') => (Some (Ok a), s')
    | (Some (Ok None), s') => (Some (Err (storage_err row_not_found)), s')
    | (Some (Err e), s') => (Some (Err e), s')
    | (None, s') => (None, s')
    end.
Proof.
  unfold fetch_one. rewrite run_bind_ok.
  destruct (run (answer es) p s) as [[[[a|]|e]|] s']; done.
Qed.

Lemma exec_stmt_quiet {A} (s : Sql A) i db :
  quiet es →
  exec_stmt s (es i) db =
    match s (es i) db with Ok (a, db') => (Ok a, db') | Err e => (Err e, db) end.
Proof. intros Hq. unfold exec_stmt. by rewrite Hq. Qed.

Lemma exec_tx_quiet {R} (t : Tx R R) i db :
  quiet es → exec_tx t (es i) db = run_tx t (es i) db.
Proof. intros Hq. unfold exec_tx. by rewrite Hq. Qed.

(** A lookup of one job. *)
Lemma run_fetch_job id i db :
  quiet es →
  run (answer es) (fetch_job id) (i, db) =
    (Some (transpose_job (db_jobs db !! id)), (S i, db)).
Proof.
  intros Hq. unfold fetch_job. rewrite run_bind_ok, run_query. cbn [exec].
  rewrite exec_stmt_quiet by done. cbn. done.
Qed.

Lemma run_explain id op i db s :
  quiet es → (∀ r, db_jobs db !! id = Some r → jr_status r = as_str s) →
  run (answer es) (explain_no_match id op) (i, db) =
    (Some (Err match db_jobs db !! id with
               | Some _ => InvalidOperation op s
               | None => JobNotFound id
               end), (S i, db)).
Proof.
  intros Hq Hs. unfold explain_no_match. rewrite run_bind_ok, run_fetch_job by done.
  destruct (db_jobs db !! id) as [r|]; [|done].
  unfold transpose_job. by rewrite (into_job_as_str r s) by auto.
Qed.
End running.

(** The status of a job of a well-formed database. *)
Lemma db_ok_status db id r :
  db_ok db → db_jobs db !! id = Some r → ∃ s, jr_status r = as_str s ∧ row_ok s r.
Proof. intros Hok Hr. destruct (ok_rows _ Hok _ _ Hr) as [s Hs]. exists s. split; [apply Hs|done]. Qed.

(** ** Leasing *)

(** C8: a granted lease.  [lease_next] hands out a stored job that is
    leaseable and due, in a queue that is listed and not paused, not locked by
    another transaction, and that no other such job precedes in the order
    (priority descending, start time, creation time).  The returned job and
    the stored row are that job, processing, leased to the caller until
    [lease_secs] from now, with one more attempt; a running attempt of that
    number is opened; nothing else changes. *)
Theorem lease_next_grants w qs secs es db j db' :
  db_ok db → run_db es (lease_next w qs secs) db = (Some (Ok (Some j)), db') →
  let env := es 0%nat in let now := env_now env in
  ∃ r s q, db_jobs db !! job_id j = Some r ∧ jr_status r = as_str s ∧ is_leaseable s = true ∧
    jr_run_at r ≤ now ∧ jr_queue r ∈ qs ∧ db_queues db !! jr_queue r = Some q ∧
    qr_paused q = false ∧ job_id j ∉ env_locked env ∧
    (∀ id r', db_jobs db !! id = Some r' → eligible qs now db r' = true →
       id ∉ env_locked env →
       lex_le [- jr_priority r; jr_run_at r; jr_created_at r]
              [- jr_priority r'; jr_run_at r'; jr_created_at r']) ∧
    j = job_of_row (set_leased w now (now + secs * second) (jr_attempts r + 1) r) Processing ∧
    db' = db <| db_jobs ::= <[job_id j :=
                  set_leased w now (now + secs * second) (jr_attempts r + 1) r]> |>
             <| db_job_attempts ::= <[db_attempts_seq db :=
                  mkAttemptRow (db_attempts_seq db) (job_id j) (job_attempts j) (Some w) now
                    None "running" None]> |>
             <| db_attempts_seq := db_attempts_seq db + 1 |>.
Proof.
  intros Hok Hrun. cbv zeta. unfold run_db, lease_next in Hrun. rewrite run_request in Hrun.
  cbn [exec] in Hrun. destruct (exec_tx _ _ _) as [out db1] eqn:He. cbn in Hrun. simplify_eq.
  unfold exec_tx, run_tx in He.
  destruct (env_fault (es 0%nat)); [|done..].
  destruct (tx_lease w qs secs (es 0%nat) db) as [[out db1]|[out|]] eqn:Ht; [| |done].
  2:{ apply tx_lease_inr in Ht as [-> _]. done. }
  simplify_eq. apply tx_lease_inl in Ht as (r & r' & Hc & -> & _ & [= ->] & _ & ->).
  apply lease_candidate_Some in Hc as ([k Hk] & He & Hl & Hmin).
  assert (k = jr_id r) as -> by (symmetry; by apply (ok_keyed _ Hok)).
  destruct (eligible_leaseable _ _ _ _ He) as (s & Hs & Hls & Hrun).
  unfold eligible in He. destruct (db_queues db !! jr_queue r) as [q|] eqn:Hq; [|done].
  rewrite !andb_true_iff, !str_in_true, negb_true_iff in He. destruct He as [[[Hin Hp] _] _].
  exists r, s, q. split_and!; try done.
  intros id r' Hr' He' Hl'.
  assert (lex_le (lease_key (es 0%nat) r) (lease_key (es 0%nat) r')) as Hle.
  { apply (Hmin id); [done..|]. by rewrite (ok_keyed _ Hok _ _ Hr'). }
  revert Hle. unfold lease_key. rewrite !lex_le_cons. unfold lex_le. cbn. tauto.
Qed.

Lemma run_lease_next w qs secs es db :
  quiet es →
  run_db es (lease_next w qs secs) db = 
    (Some (run_tx (tx_lease w qs secs) (es 0%nat) db).1,
     (run_tx (tx_lease w qs secs) (es 0%nat) db).2).
Proof.
  intros Hq. unfold run_db, lease_next. rewrite run_request. cbn [exec].
  by rewrite exec_tx_quiet by done.
Qed.

Lemma db_ok_fresh_attempt db : db_ok db → db_job_attempts db !! db_attempts_seq db = None.
Proof.
  intros Hok. destruct (db_job_attempts db !! db_attempts_seq db) as [a|] eqn:Ha; [|done].
  destruct (ok_attempts _ Hok _ _ Ha) as (_ & Hlt & _). lia.
Qed.

Lemma tx_lease_candidate w qs secs env db r :
  db_ok db → lease_candidate qs env db = Some r →
  (∃ t, pg_ts_add_secs (env_now env) secs = Ok t) →
  ∃ j db', tx_lease w qs secs env db = inl (Some j, db').
Proof.
  intros Hok Hc [t Ht]. pose proof (lease_candidate_Some _ _ _ _ Hc) as ([k Hk] & He & _).
  destruct (db_ok_status _ _ _ Hok Hk) as (s & Hs & Hrow).
  unfold tx_lease, sql_lease. tx_unfold. rewrite Hc, Ht. cbn -[set_leased].
  pose proof (row_attempts _ _ Hrow). pose proof (row_max_attempts _ _ Hrow).
  assert (pg_int4 (jr_attempts r + 1) = Ok (jr_attempts r + 1)) as ->.
  { unfold pg_int4, i32_min, i32_max. case_test; [done|]. lia. }
  cbn -[set_leased]. rewrite (into_job_as_str (set_leased _ _ _ _ r) Processing) by done.
  unfold sql_insert_attempt. cbn -[set_leased].
  rewrite db_ok_fresh_attempt by done.
  change (jr_id (set_leased _ _ _ _ r)) with (jr_id r). rewrite lookup_insert_eq. eauto.
Qed.

(** C9: leasing makes progress.  When the lease's expiry is a timestamp the
    database can represent, [lease_next] finds nothing, and changes nothing,
    exactly when every leaseable, due job of the listed unpaused queues is
    locked by another transaction; otherwise it grants a lease. *)
Theorem lease_next_progress w qs secs es db :
  db_ok db → quiet es → (∃ t, pg_ts_add_secs (env_now (es 0%nat)) secs = Ok t) →
  let available := ∃ id r, db_jobs db !! id = Some r ∧
    eligible qs (env_now (es 0%nat)) db r = true ∧ id ∉ env_locked (es 0%nat) in
  (run_db es (lease_next w qs secs) db = (Some (Ok None), db) ↔ ¬ available) ∧
  (available → ∃ j db', run_db es (lease_next w qs secs) db = (Some (Ok (Some j)), db')).
Proof.
  intros Hok Hq Ht. cbv zeta. rewrite run_lease_next by done. unfold run_tx.
  destruct (lease_candidate qs (es 0%nat) db) as [r|] eqn:Hc.
  - destruct (tx_lease_candidate w qs secs _ _ _ Hok Hc Ht) as (j & db' & ->). cbn.
    apply lease_candidate_Some in Hc as ([k Hk] & He & Hl & _).
    rewrite (ok_keyed _ Hok _ _ Hk) in Hl. split; [|eauto]. split; [done|].
    intros []. eauto.
  - assert (tx_lease w qs secs (es 0%nat) db = inr (Ok None)) as -> by by apply tx_lease_inr.
    cbn. rewrite lease_candidate_None in Hc.
    assert (¬ ∃ id r, db_jobs db !! id = Some r ∧
      eligible qs (env_now (es 0%nat)) db r = true ∧ id ∉ env_locked (es 0%nat)) as Hno.
    { intros (id & r & Hr & He & Hl). apply Hl.
      rewrite <- (ok_keyed _ Hok _ _ Hr). eauto. }
    split; [done|]. by intros.
Qed.

(** The order, and any repetition, of a worker's queue list is irrelevant
    to what it leases: only the set of names matters. *)
Theorem lease_next_queue_order w qs qs' secs es db :
  (∀ q, q ∈ qs ↔ q ∈ qs') →
  run_db es (lease_next w qs secs) db = run_db es (lease_next w qs' secs) db.
Proof.
  intros Hqs. unfold run_db, lease_next. rewrite !run_request. cbn [exec].
  assert (lease_candidate qs (es 0%nat) db = lease_candidate qs' (es 0%nat) db) as Hc.
  { unfold lease_candidate, rows_where. do 3 f_equal. apply list_filter_iff. intros r.
    unfold eligible. destruct (db_queues db !! jr_queue r); [|done].
    rewrite !andb_true_iff, !str_in_true. by rewrite Hqs. }
  assert (exec_tx (tx_lease w qs secs) (es 0%nat) db = exec_tx (tx_lease w qs' secs) (es 0%nat) db)
    as ->; [|done].
  unfold exec_tx, run_tx, tx_lease, sql_lease. tx_unfold. by rewrite Hc.
Qed.

(** ** The two computations of the retry delay *)

(** The seconds before the next attempt of a job. *)
Definition retry_delay (r : JobRow) : Z :=
  Z.min (jr_backoff_max_secs r) (jr_backoff_base_secs r * 2 ^ (Z.max (jr_attempts r) 1 - 1)).

Lemma fail_delay_exact s r :
  row_ok s r → fail_delay_secs (job_of_row r Processing) = Some (retry_delay r).
Proof.
  intros Hok. pose proof (row_attempts _ _ Hok). pose proof (row_max_attempts _ _ Hok).
  pose proof (row_backoff _ _ Hok). pose proof (row_backoff_max _ _ Hok). unfold i32_max in *.
  unfold fail_delay_secs. cbn [job_of_row job_backoff_base_secs job_backoff_max_secs job_attempts].
  rewrite !as_u64_small, as_u32_small by (unfold u64_max, u32_max; lia).
  rewrite delay_exponential by lia. cbn [mbind option_bind].
  replace (Z.max (Z.max (jr_backoff_base_secs r) 1) 1) with (jr_backoff_base_secs r) by lia.
  replace (Z.max (Z.max (jr_backoff_max_secs r) 1) (jr_backoff_base_secs r))
    with (jr_backoff_max_secs r) by lia.
  pose proof (exp_delay_bounds (jr_backoff_base_secs r) (jr_backoff_max_secs r) (jr_attempts r)
                ltac:(lia)) as Hb.
  f_equal. erewrite holds_int_ceil.
  2:{ apply as_secs_f64_from_secs. lia. }
  2:{ unfold i64_max. lia. }
  unfold exp_delay, retry_delay. destruct (Z.le_gt_cases (jr_attempts r) 33).
  - replace (Z.min (Z.max (jr_attempts r) 1 - 1) 32) with (Z.max (jr_attempts r) 1 - 1) by lia.
    apply Z.min_comm.
  - assert (2 ^ 32 ≤ 2 ^ (Z.max (jr_attempts r) 1 - 1)) by (apply Z.pow_le_mono_r; lia).
    replace (Z.min (Z.max (jr_attempts r) 1 - 1) 32) with 32 by lia. nia.
Qed.

Lemma reap_delay_exact s r : row_ok s r → reap_delay_secs r = Ok (retry_delay r).
Proof.
  intros Hok. pose proof (row_attempts _ _ Hok). pose proof (row_max_attempts _ _ Hok).
  pose proof (row_backoff _ _ Hok). pose proof (row_backoff_max _ _ Hok). unfold i32_max in *.
  unfold reap_delay_secs, retry_delay.
  replace (Z.max (jr_attempts r - 1) 0) with (Z.max (jr_attempts r) 1 - 1) by lia.
  set (k := Z.max (jr_attempts r) 1 - 1) in *.
  assert (jr_backoff_base_secs r * 2 ^ k < 2 ^ 1024) as Hlt.
  { assert (2 ^ k ≤ 2 ^ 100) by (apply Z.pow_le_mono_r; lia).
    apply (Z.lt_le_trans _ (2 ^ 31 * 2 ^ 101)); [nia|].
    rewrite <- Z.pow_add_r by lia. apply Z.pow_le_mono_r; lia. }
  destruct (Z.leb_spec 1024 k); [lia|].
  destruct (Z.leb_spec (2 ^ 1024) (jr_backoff_base_secs r * 2 ^ k)); [lia|done].
Qed.

(** C26: the worker and the reaper agree.  [fail_job] computes the delay before
    the next attempt in binary64 with [BackoffPolicy], the reaper computes it
    in SQL; on every well-formed job both are
    [min max (base * 2^(attempts-1))] whole seconds, between the job's base
    and its cap.  (The cap of 32 on the exponent, which only the first one
    has, is never visible on 32-bit bounds.) *)
Theorem retry_delays_agree s r :
  row_ok s r →
  let delay := Z.min (jr_backoff_max_secs r)
                 (jr_backoff_base_secs r * 2 ^ (Z.max (jr_attempts r) 1 - 1)) in
  fail_delay_secs (job_of_row r Processing) = Some delay ∧ reap_delay_secs r = Ok delay ∧
  jr_backoff_base_secs r ≤ delay ≤ jr_backoff_max_secs r.
Proof.
  intros Hok delay. split_and!; [by eapply fail_delay_exact|by eapply reap_delay_exact| |lia].
  unfold delay. pose proof (row_backoff _ _ Hok).
  assert (1 ≤ 2 ^ (Z.max (jr_attempts r) 1 - 1)) by (apply (Z.pow_le_mono_r 2 0); lia). nia.
Qed.

(** ** Finishing a job *)

Section finish.
Context (es : nat → Env) (db : Db) (id w : Uuid).
Let now := env_now (es 0%nat).

(** The tables with the job's row replaced and its running attempts closed. *)
Definition finished_db (r' : JobRow) (close : AttemptRow → AttemptRow)
    (dead : gmap Uuid DeadLetterRow) : Db :=
  db <| db_dead_letter_jobs := dead |>
     <| db_jobs ::= <[id := r']> |>
     <| db_job_attempts ::= update_where (running_of id) close |>.

Lemma db_same_dead_letters : db <| db_dead_letter_jobs := db_dead_letter_jobs db |> = db.
Proof. by destruct db. Qed.

Lemma tx_complete_eval res :
  tx_complete id w res (es 0%nat) db =
    match db_jobs db !! id with
    | Some r =>
        if holds_lease w r then
          inl (Some (job_of_row (set_completed res now r) Completed),
               finished_db (set_completed res now r) (finish_attempt "succeeded" now)
                 (db_dead_letter_jobs db))
        else inr (Ok None)
    | None => inr (Ok None)
    end.
Proof.
  unfold tx_complete, sql_complete, update_job_returning. tx_unfold.
  destruct (db_jobs db !! id) as [r|]; [|done]. destruct (holds_lease w r); [|done].
  change (env_now (es 0%nat)) with now.
  rewrite (into_job_as_str (set_completed res now r) Completed) by done.
  unfold finished_db. by rewrite db_same_dead_letters.
Qed.

Lemma run_complete_held res r :
  quiet es → db_jobs db !! id = Some r → holds_lease w r = true →
  run_db es (complete_job id w res) db =
    (Some (Ok (job_of_row (set_completed res now r) Completed)),
     finished_db (set_completed res now r) (finish_attempt "succeeded" now)
       (db_dead_letter_jobs db)).
Proof.
  intros Hq Hr Hh. unfold run_db, complete_job.
  rewrite run_bind_ok, run_request. cbn [exec]. rewrite exec_tx_quiet by done.
  unfold run_tx. rewrite tx_complete_eval, Hr, Hh. done.
Qed.

(** C12: [complete_job], on every branch.  The holder of the lease completes
    the job: the result is stored, the lease columns and the last error are
    cleared, the running attempt succeeds.  Anyone else, or the holder of a
    lease that has been lost, gets an error that names the job's status (or
    that the job is gone), and nothing changes. *)
Theorem complete_job_spec res :
  quiet es →
  (∀ r, db_jobs db !! id = Some r → holds_lease w r = true →
     run_db es (complete_job id w res) db =
       (Some (Ok (job_of_row (set_completed res now r) Completed)),
        finished_db (set_completed res now r) (finish_attempt "succeeded" now)
          (db_dead_letter_jobs db))) ∧
  (∀ r s, db_jobs db !! id = Some r → jr_status r = as_str s → holds_lease w r = false →
     run_db es (complete_job id w res) db =
       (Some (Err (InvalidOperation "complete" s)), db)) ∧
  (db_jobs db !! id = None →
     run_db es (complete_job id w res) db = (Some (Err (JobNotFound id)), db)).
Proof.
  intros Hq. split; [intros; by apply run_complete_held|].
  unfold run_db, complete_job, lease_lost_error.
  rewrite run_bind_ok, run_request. cbn [exec]. rewrite exec_tx_quiet by done.
  unfold run_tx. rewrite tx_complete_eval. split.
  - intros r s Hr Hs Hh. rewrite Hr, Hh. cbn [fst snd].
    rewrite (run_explain es id "complete" 1 db s) by (done || naive_solver). by rewrite Hr.
  - intros Hr. rewrite Hr. cbn [fst snd].
    rewrite (run_explain es id "complete" 1 db Queued) by (done || naive_solver). by rewrite Hr.
Qed.

(** The job a failure leaves. *)
Definition fail_status (r : JobRow) : JobStatus :=
  if jr_max_attempts r <=? jr_attempts r
  then if jr_dead_letter r then DeadLettered else Failed else Retrying.

Definition fail_result (error : string) (r : JobRow) : JobRow :=
  match fail_status r with
  | DeadLettered => set_dead_lettered (Some error) now r
  | Failed => set_failed (Some error) now r
  | _ => set_retrying (Some error) (now + retry_delay r * second) now r
  end.

Lemma fail_result_status error r : jr_status (fail_result error r) = as_str (fail_status r).
Proof.
  unfold fail_result. destruct (fail_status r) eqn:Hf; try done;
    unfold fail_status in Hf; repeat case_match; done.
Qed.

Lemma tx_fail_commits error timed_out r s :
  row_ok s r → db_jobs db !! id = Some r → holds_lease w r = true →
  (∃ t, pg_ts_add_secs now (retry_delay r) = Ok t) →
  tx_fail id w error timed_out (es 0%nat) db =
    inl (FailCommitted, finished_db (fail_result error r)
      (λ a, finish_attempt (if timed_out then "timeout" else "failed") now a
              <| ar_error := Some error |>)
      (fail_dead_letter r error (es 0%nat) db)).
Proof.
  intros Hok Hr Hh [t Ht]. pose proof (fail_delay_exact _ _ Hok) as Hdelay.
  apply holds_lease_spec in Hh as [Hw Hs].
  unfold tx_fail. tx_unfold. cbn [sql_select_job sql_read res_bind]. rewrite Hr.
  rewrite (into_job_as_str r Processing) by done.
  cbn [job_status job_locked_by job_max_attempts job_attempts job_dead_letter job_of_row].
  rewrite !bool_decide_true by done. cbn [negb orb].
  unfold fail_result, fail_status, fail_dead_letter, finished_db, sql_mark_retrying,
    sql_update_job, sql_insert_dead_letter.
  destruct (jr_max_attempts r <=? jr_attempts r); [destruct (jr_dead_letter r)|].
  - erewrite (update_job_true _ _ _ r) by (cbn; case_match; exact Hr).
    cbn [res_bind job_id job_of_row]. cbn.
    destruct (db_dead_letter_jobs db !! jr_id r); by destruct db.
  - erewrite (update_job_true _ _ _ r) by done. cbn. by destruct db.
  - rewrite Hdelay. change (env_now (es 0%nat)) with now. rewrite Ht. cbn [res_bind].
    apply pg_ts_add_secs_Ok in Ht as ->.
    rewrite (update_job_true _ _ _ r) by done. cbn. by destruct db.
Qed.

Lemma run_fail_job error timed_out s :
  quiet es → 
  (∀ r, db_jobs db !! id = Some r → jr_status r = as_str s ∧ holds_lease w r = false) →
  run_db es (fail_job id w error timed_out) db =
    (Some (Err match db_jobs db !! id with
               | Some _ => InvalidOperation "fail" s | None => JobNotFound id end), db).
Proof.
  intros Hq Hr. unfold run_db, fail_job. rewrite run_bind_ok, run_request. cbn [exec].
  rewrite exec_tx_quiet by done. unfold run_tx, tx_fail. tx_unfold.
  cbn [sql_select_job sql_read res_bind].
  destruct (db_jobs db !! id) as [r|]; [|done]. destruct (Hr r eq_refl) as [Hs Hh].
  rewrite (into_job_as_str r s) by done. cbn [job_status job_locked_by job_of_row].
  assert (negb (bool_decide (s = Processing)) ||
          negb (bool_decide (jr_locked_by r = Some w)) = true) as ->; [|done].
  apply not_false_iff_true. intros [Hs'%negb_false_iff Hw%negb_false_iff]%orb_false_iff.
  apply bool_decide_eq_true in Hs' as ->. unfold holds_lease in Hh.
  by rewrite Hw, Hs in Hh.
Qed.

Lemma run_fail_held error timed_out r :
  quiet es → db_ok db → db_jobs db !! id = Some r → holds_lease w r = true →
  (∃ t, pg_ts_add_secs now (retry_delay r) = Ok t) →
  run_db es (fail_job id w error timed_out) db =
    (Some (Ok (job_of_row (fail_result error r) (fail_status r))),
     finished_db (fail_result error r)
       (λ a, finish_attempt (if timed_out then "timeout" else "failed") now a
               <| ar_error := Some error |>)
       (fail_dead_letter r error (es 0%nat) db)).
Proof.
  intros Hq Hok Hr Hh Ht. destruct (db_ok_status _ _ _ Hok Hr) as (s & _ & Hrow).
  unfold run_db, fail_job. rewrite run_bind_ok, run_request. cbn [exec].
  rewrite exec_tx_quiet by done. unfold run_tx.
  rewrite (tx_fail_commits _ _ r s) by done. cbn [fst snd].
  rewrite run_bind_ok, run_fetch_job by done.
  change (db_jobs (finished_db ?r' _ _)) with (<[id := r']> (db_jobs db)).
  rewrite lookup_insert_eq. unfold transpose_job.
  by rewrite (into_job_as_str _ (fail_status r)) by apply fail_result_status.
Qed.

(** C11: [fail_job], on every branch.  A failure reported by the holder of the
    lease closes the running attempt as failed or timed out with the error,
    and moves the job: with attempts left it retries after the backoff delay;
    without, it is dead lettered with an entry in the dead-letter table (an
    older entry is kept), or failed for good when dead lettering is off.  A
    report by anyone else is refused and changes nothing. *)
Theorem fail_job_spec error timed_out :
  quiet es → db_ok db →
  (∀ r, db_jobs db !! id = Some r → holds_lease w r = true →
     (∃ t, pg_ts_add_secs now (retry_delay r) = Ok t) →
     run_db es (fail_job id w error timed_out) db =
       (Some (Ok (job_of_row (fail_result error r) (fail_status r))),
        finished_db (fail_result error r)
          (λ a, finish_attempt (if timed_out then "timeout" else "failed") now a
                  <| ar_error := Some error |>)
          (fail_dead_letter r error (es 0%nat) db))) ∧
  (∀ r s, db_jobs db !! id = Some r → jr_status r = as_str s → holds_lease w r = false →
     run_db es (fail_job id w error timed_out) db =
       (Some (Err (InvalidOperation "fail" s)), db)) ∧
  (db_jobs db !! id = None →
     run_db es (fail_job id w error timed_out) db = (Some (Err (JobNotFound id)), db)).
Proof.
  intros Hq Hok. split_and!; [intros; by apply run_fail_held|..].
  - intros r s Hr Hs Hh. rewrite (run_fail_job _ _ s) by (done || naive_solver). by rewrite Hr.
  - intros Hr. rewrite (run_fail_job _ _ Queued) by (done || naive_solver). by rewrite Hr.
Qed.

Lemma run_renew_held secs r t :
  quiet es → db_jobs db !! id = Some r → holds_lease w r = true → pg_ts_add_secs now secs = Ok t →
  run_db es (renew_lease id w secs) db =
    (Some (Ok tt), db <| db_jobs ::=
       <[id := r <| jr_lease_expires_at := Some (now + secs * second) |>
                 <| jr_updated_at := now |>]> |>).
Proof.
  intros Hq Hr Hh Ht. unfold run_db, renew_lease. rewrite run_bind_ok, run_query. cbn [exec].
  rewrite exec_stmt_quiet by done. unfold sql_renew.
  rewrite Hr, Hh. change (env_now (es 0%nat)) with now. rewrite Ht.
  by apply pg_ts_add_secs_Ok in Ht as ->.
Qed.

(** [renew_lease], on every branch.  The holder of a lease moves its
    expiry to [lease_secs] from now, whether or not it had passed already;
    anyone else is refused, and nothing changes.  (The refusal always says
    [processing], whatever the job's status.) *)
Theorem renew_lease_spec secs :
  quiet es →
  (∀ r t, db_jobs db !! id = Some r → holds_lease w r = true → pg_ts_add_secs now secs = Ok t →
     run_db es (renew_lease id w secs) db =
       (Some (Ok tt), db <| db_jobs ::=
          <[id := r <| jr_lease_expires_at := Some (now + secs * second) |>
                    <| jr_updated_at := now |>]> |>)) ∧
  ((∀ r, db_jobs db !! id = Some r → holds_lease w r = false) →
     run_db es (renew_lease id w secs) db =
       (Some (Err (InvalidOperation "renew_lease" Processing)), db)).
Proof.
  intros Hq. split; [intros; by eapply run_renew_held|].
  unfold run_db, renew_lease. rewrite run_bind_ok, run_query. cbn [exec].
  rewrite exec_stmt_quiet by done. unfold sql_renew.
  intros Hr. destruct (db_jobs db !! id) as [r|]; [|done]. by rewrite Hr.
Qed.

End finish.

(** ** Operator actions *)

Lemma run_update_job id P f es i db (q : DbReq (result sqlx_error (option JobRow))) :
  quiet es → exec q = exec_stmt (λ env db, Ok (update_job_returning id P (f (env_now env)) db)) →
  run (answer es) (query q) (i, db) =
    (Some (Ok (update_job_returning id P (f (env_now (es i))) db).1),
     (S i, (update_job_returning id P (f (env_now (es i))) db).2)).
Proof.
  intros Hq He. rewrite run_query, He, exec_stmt_quiet by done.
  by destruct (update_job_returning _ _ _ db).
Qed.

Lemma cancellable_iff s :
  str_in (as_str s) ["queued"; "scheduled"; "retrying"; "processing"]%string = is_cancellable s.
Proof. by destruct s. Qed.

(** C35: [cancel_job], on every branch: exactly the jobs in a cancellable
    status are cancelled, which takes the lease away from whoever holds it;
    the others are refused with their status, and nothing else changes (a
    running attempt stays open). *)
Theorem cancel_job_spec es db id :
  quiet es →
  let now := env_now (es 0%nat) in
  (∀ r s, db_jobs db !! id = Some r → jr_status r = as_str s →
     run_db es (cancel_job id) db =
       if is_cancellable s
       then (Some (Ok (job_of_row (set_cancelled now r) Cancelled)),
             db <| db_jobs ::= <[id := set_cancelled now r]> |>)
       else (Some (Err (InvalidOperation "cancel" s)), db)) ∧
  (db_jobs db !! id = None →
     run_db es (cancel_job id) db = (Some (Err (JobNotFound id)), db)).
Proof.
  intros Hq now. unfold run_db, cancel_job. rewrite run_bind_ok.
  erewrite (run_update_job id _ set_cancelled) by (done || reflexivity).
  unfold update_job_returning. split.
  - intros r s Hr Hs. rewrite Hr, Hs, cancellable_iff. destruct (is_cancellable s).
    { cbn [fst snd map_err run]. change (env_now (es 0%nat)) with now.
      by rewrite (into_job_as_str (set_cancelled now r) Cancelled) by done. }
    cbn [fst snd]. rewrite (run_explain es id "cancel" 1 db s) by (done || naive_solver).
    by rewrite Hr.
  - intros Hr. rewrite Hr. cbn [fst snd].
    rewrite (run_explain es id "cancel" 1 db Queued) by (done || naive_solver). by rewrite Hr.
Qed.

(** [retry_job], on every branch: exactly the failed and the dead-lettered
    jobs start over, queued now with no attempts and no error, and their
    dead-letter entry is deleted; the others are refused with their status. *)
Theorem retry_job_spec es db id :
  quiet es →
  let now := env_now (es 0%nat) in
  (∀ r s, db_jobs db !! id = Some r → jr_status r = as_str s →
     run_db es (retry_job id) db =
       if decide (s = Failed ∨ s = DeadLettered)
       then (Some (Ok (job_of_row (set_requeued now r) Queued)),
             db <| db_jobs ::= <[id := set_requeued now r]> |>
                <| db_dead_letter_jobs ::= delete id |>)
       else (Some (Err (InvalidOperation "retry" s)), db)) ∧
  (db_jobs db !! id = None →
     run_db es (retry_job id) db = (Some (Err (JobNotFound id)), db)).
Proof.
  intros Hq now. unfold run_db, retry_job. rewrite run_bind_ok.
  erewrite (run_update_job id _ set_requeued) by (done || reflexivity).
  unfold update_job_returning. split.
  - intros r s Hr Hs. rewrite Hr, Hs.
    assert (str_in (as_str s) ["failed"; "dead_lettered"]%string =
              bool_decide (s = Failed ∨ s = DeadLettered)) as -> by (by destruct s).
    case_decide as Hd; [rewrite bool_decide_true by done|rewrite bool_decide_false by done].
    + cbn [fst snd map_err]. rewrite run_bind_ok, run_query. cbn [exec].
      rewrite exec_stmt_quiet by done. cbn [fst snd map_err run sql_delete_dead_letter].
      change (env_now (es 0%nat)) with now.
      by rewrite (into_job_as_str (set_requeued now r) Queued) by done.
    + cbn [fst snd]. rewrite (run_explain es id "retry" 1 db s) by (done || naive_solver).
      by rewrite Hr.
  - intros Hr. rewrite Hr. cbn [fst snd].
    rewrite (run_explain es id "retry" 1 db Queued) by (done || naive_solver). by rewrite Hr.
Qed.

(** [purge_finished] deletes the completed and cancelled jobs last touched
    before the cutoff, with their attempts, counts them, and deletes nothing
    else: queued, processing, failed and dead-lettered jobs are never
    purged. *)
Theorem purge_finished_spec es db cutoff :
  quiet es → db_ok db →
  let '(r, db') := run_db es (purge_finished cutoff) db in
  let gone id := ∃ r s, db_jobs db !! id = Some r ∧ jr_status r = as_str s ∧
    (s = Completed ∨ s = Cancelled) ∧ jr_updated_at r < cutoff in
  (∃ n, r = Some (Ok n) ∧ n = Z.of_nat (length (rows_where (purgeable cutoff) (db_jobs db)))) ∧
  (∀ id, gone id → db_jobs db' !! id = None) ∧
  (∀ id, ¬ gone id → db_jobs db' !! id = db_jobs db !! id) ∧
  (∀ i a, db_job_attempts db' !! i = Some a ↔
     db_job_attempts db !! i = Some a ∧ ¬ gone (ar_job_id a)).
Proof.
  intros Hq Hok. unfold run_db, purge_finished. rewrite run_query. cbn [exec].
  rewrite exec_stmt_quiet by done. cbn.
  set (gone := λ id, ∃ r s, db_jobs db !! id = Some r ∧ jr_status r = as_str s ∧
         (s = Completed ∨ s = Cancelled) ∧ jr_updated_at r < cutoff).
  assert (∀ id r, db_jobs db !! id = Some r → (purgeable cutoff r = true ↔ gone id)) as Hgone.
  { intros id r Hr. split.
    - intros [[Hs|Hs] Ht]%purgeable_spec; [exists r, Completed|exists r, Cancelled]; auto.
    - intros (r' & s & Hr' & Hs & Hc & Ht). assert (r' = r) as -> by congruence.
      unfold purgeable. rewrite Hs, andb_true_iff. split; [by destruct Hc as [->| ->]|lia]. }
  split_and!.
  - eauto.
  - intros id Hg. apply lookup_delete_where_None. right.
    destruct Hg as (r & s & Hr & Hg). exists r. split; [done|]. apply (Hgone id r Hr).
    exists r, s. auto.
  - intros id Hg. change (¬ gone id) in Hg. clearbody gone.
    destruct (db_jobs db !! id) as [r|] eqn:Hr.
    + apply lookup_delete_where. split; [done|]. apply not_true_iff_false. by rewrite (Hgone _ _ Hr).
    + apply lookup_delete_where_None. by left.
  - intros i a. rewrite lookup_delete_where, bool_decide_eq_false.
    assert (ar_job_id a ∈ jr_id <$> rows_where (purgeable cutoff) (db_jobs db) ↔
              gone (ar_job_id a)) as ->; [|done].
    rewrite list_elem_of_fmap. setoid_rewrite elem_of_rows_where. split.
    + intros (r & -> & Hp & k & Hk). rewrite (ok_keyed _ Hok _ _ Hk). by eapply Hgone.
    + intros Hg. pose proof Hg as (r & _ & Hr & _). exists r.
      split_and!; [by rewrite (ok_keyed _ Hok _ _ Hr)|by apply (Hgone _ _ Hr)|eauto].
Qed.

End storeprops.
