(* ===== verification/Faults.v ===== *)
(** * The errors of the database

    Which errors the statements of [Statements] can be answered with, when no
    connection is lost and the tables satisfy the invariant: the codes are
    PostgreSQL's.  No CHECK, no foreign key of an attempt, no sequence and no
    32-bit or float8 overflow ever fails. *)

From S2P Require Import Prelude Prog Externals Status Error Model Row Float64 Backoff.
From S2P Require Import Sql Statements Store PgStore Lifecycle Invariant Integrity StoreProps.
From stdpp Require Import options.

Section faults.
Context `{X : Externals}.

(** A negative LIMIT or OFFSET. *)
Definition limit_codes (n : Z) : list string := if n <? 0 then ["2201W"%string] else [].
Definition offset_codes (n : Z) : list string := if n <? 0 then ["2201X"%string] else [].

(** A timestamp outside the database's range. *)
Definition out_of_range : string := "22008".

Definition may_raise {A} (q : DbReq A) : list string :=
  match q with
  | QInsertJob _ => ["23505"; "23503"]%string       (* the key or id is taken; no queue *)
  | QListJobs _ _ _ limit offset => limit_codes limit ++ offset_codes offset
  | QListDeadLetter _ limit => limit_codes limit
  | QReapDead limit | QReapFailed limit => limit_codes limit
  | QReapRetry limit => out_of_range :: limit_codes limit
  | TLease _ _ _ | TFail _ _ _ _ | QRenew _ _ _ | QActiveWorkers _ | QPruneWorkers _ =>
      [out_of_range]
  | _ => []
  end.

(** The error of a statement carries one of the codes. *)
Definition stmt_raises {A} (codes : list string) (a : result sqlx_error A) : Prop :=
  match a with Ok _ => True | Err e => ∃ c, c ∈ codes ∧ e = pg_error c end.

(** So does a storage error of a transaction. *)
Definition tx_raises {A} (codes : list string) (a : Result A) : Prop :=
  match a with
  | Err (Storage m) => ∃ c, c ∈ codes ∧ m = pg_error_text c
  | _ => True
  end.

Definition raises_only {A} (codes : list string) (q : DbReq A) : A → Prop :=
  match q in DbReq A return A → Prop with
  | QInsertQueue _ | QDeleteDeadLetter _ | QCloseAttempts _ | QRegisterWorker _
  | QDeregisterWorker _ => stmt_raises codes
  | QSelectQueue _ => stmt_raises codes
  | QSelectQueues => stmt_raises codes
  | QUpdatePaused _ _ => stmt_raises codes
  | QCountByStatus _ => stmt_raises codes
  | QSelectJobByKey _ _ | QSelectJob _ | QCancel _ | QRetry _ => stmt_raises codes
  | QInsertJob _ => stmt_raises codes
  | QListJobs _ _ _ _ _ => stmt_raises codes
  | QListAttempts _ => stmt_raises codes
  | QListDeadLetter _ _ => stmt_raises codes
  | QPurge _ | QRenew _ _ _ | QHeartbeat _ | QPruneWorkers _ => stmt_raises codes
  | TLease _ _ _ | TComplete _ _ _ => tx_raises codes
  | TFail _ _ _ _ => tx_raises codes
  | QReapRetry _ | QReapDead _ | QReapFailed _ => stmt_raises codes
  | QActiveWorkers _ => stmt_raises codes
  end.

(** ** Statement by statement *)

Lemma stmt_noted {A} (s : Sql A) env db codes :
  env_fault env = NoFault →
  match s env db with Ok _ => True | Err e => ∃ c, c ∈ codes ∧ e = pg_error c end →
  stmt_raises codes (exec_stmt s env db).1.
Proof. intros Hf. unfold exec_stmt. rewrite Hf. by destruct (s env db) as [[? ?]|]. Qed.

Lemma sql_limit_codes {R} n (l : list R) e :
  sql_limit n l = Err e → ∃ c, c ∈ limit_codes n ∧ e = pg_error c.
Proof.
  unfold sql_limit, limit_codes. destruct (n <? 0); [|done]. intros [= <-]. eexists. split; [|done].
  set_solver.
Qed.

Lemma sql_offset_codes {R} n (l : list R) e :
  sql_offset n l = Err e → ∃ c, c ∈ offset_codes n ∧ e = pg_error c.
Proof.
  unfold sql_offset, offset_codes. destruct (n <? 0); [|done]. intros [= <-]. eexists. split; [|done].
  set_solver.
Qed.

Lemma pg_ts_codes t secs e : pg_ts_add_secs t secs = Err e → e = pg_error out_of_range.
Proof. unfold pg_ts_add_secs. case_test; [done|]. by intros [= <-]. Qed.

Lemma reap_select_codes P limit env db e :
  reap_select P limit env db = Err e → ∃ c, c ∈ limit_codes limit ∧ e = pg_error c.
Proof. apply sql_limit_codes. Qed.

Lemma reap_retry_codes limit env db :
  db_ok db →
  match sql_reap_retry limit env db with
  | Ok _ => True
  | Err e => ∃ c, c ∈ out_of_range :: limit_codes limit ∧ e = pg_error c
  end.
Proof.
  intros Hok. unfold sql_reap_retry. destruct (reap_select _ _ _ _) as [rows|e] eqn:Hsel; cbn.
  2:{ apply reap_select_codes in Hsel as (c & Hc & ->). exists c. split; [set_solver|done]. }
  destruct (collect_results _ rows) as [rows'|e] eqn:Hc; cbn; [done|].
  exists out_of_range. split; [set_solver|].
  assert (Forall (λ r, ∃ s, row_ok s r) rows) as Hrows.
  { apply Forall_forall. intros r Hr.
    destruct (reap_select_elem _ _ _ _ _ _ Hsel Hr) as (_ & [k Hk] & _). by eapply ok_rows. }
  clear Hsel. revert Hc. induction Hrows as [|r rows [s Hrow] _ IH]; cbn; [done|].
  unfold reap_retry_row at 1. rewrite (reap_delay_exact _ _ Hrow). cbn.
  destruct (pg_ts_add_secs _ _) as [t|e'] eqn:Ht; cbn; [|intros [= <-]; by eapply pg_ts_codes].
  destruct (collect_results _ rows) as [l|e']; cbn; [done|]. intros [= <-]. by apply IH.
Qed.

Lemma insert_job_codes n env db :
  submittable n →
  match sql_insert_job n env db with
  | Ok _ => True
  | Err e => ∃ c, c ∈ ["23505"; "23503"]%string ∧ e = pg_error c
  end.
Proof.
  intros ((_&_&_&_&Hma&Hto&Hb&Hst) & _). unfold sql_insert_job.
  assert (checks_ok (new_row n (env_uuid env) (env_now env)) = true) as ->.
  { unfold checks_ok. cbn [jr_status jr_max_attempts jr_timeout_secs jr_backoff_base_secs
      jr_backoff_max_secs new_row]. rewrite !andb_true_iff.
    split_and!; [by destruct Hst as [-> | ->]|lia..]. }
  cbn [negb]. destruct (unique_conflict _ _); [exists "23505"%string; set_solver|].
  destruct (db_queues db !! _); [done|]. exists "23503"%string. split; [set_solver|done].
Qed.

Lemma tx_lease_codes w qs secs env db :
  db_ok db → tx_raises [out_of_range] (run_tx (tx_lease w qs secs) env db).1.
Proof.
  intros Hok. destruct (lease_candidate qs env db) as [r|] eqn:Hc.
  - destruct (pg_ts_add_secs (env_now env) secs) as [t|e] eqn:Ht.
    + destruct (tx_lease_candidate w qs secs env db r Hok Hc (ex_intro _ t Ht)) as (j & db' & Hrun).
      unfold run_tx. by rewrite Hrun.
    + unfold run_tx, tx_lease, sql_lease. tx_unfold. rewrite Hc, Ht. cbn.
      exists out_of_range. apply pg_ts_codes in Ht as ->. split; [set_solver|done].
  - unfold run_tx. assert (tx_lease w qs secs env db = inr (Ok None)) as ->; [by apply tx_lease_inr|done].
Qed.

Lemma tx_complete_codes id w res env db : tx_raises [] (run_tx (tx_complete id w res) env db).1.
Proof.
  unfold run_tx, tx_complete, sql_complete, update_job_returning. tx_unfold.
  destruct (db_jobs db !! id) as [row|]; [|done]. destruct (holds_lease w row); [|done].
  set (row' := set_completed _ _ row). assert (jr_status row' = as_str Completed) as Hs by done.
  by rewrite (into_job_as_str row' Completed Hs).
Qed.

Lemma tx_fail_codes id w e t env db :
  db_ok db → tx_raises [out_of_range] (run_tx (tx_fail id w e t) env db).1.
Proof.
  intros Hok. unfold run_tx, tx_fail. tx_unfold. cbn [sql_select_job sql_read res_bind].
  destruct (db_jobs db !! id) as [r|] eqn:Hr; [|done].
  destruct (db_ok_status _ _ _ Hok Hr) as (s & Hs & Hrow). rewrite (into_job_as_str r s Hs).
  cbn [job_status job_locked_by job_max_attempts job_attempts job_dead_letter job_of_row].
  destruct (bool_decide_reflect (s = Processing)) as [->|]; [|done].
  rewrite (fail_delay_exact _ _ Hrow).
  destruct (bool_decide (jr_locked_by r = Some w)); cbn [negb orb]; [|done].
  unfold sql_mark_retrying.
  destruct (jr_max_attempts r <=? jr_attempts r); [by destruct (jr_dead_letter r)|].
  destruct (pg_ts_add_secs (env_now env) (retry_delay r)) as [t'|e'] eqn:Ht; [done|]. cbn.
  exists out_of_range. apply pg_ts_codes in Ht as ->. split; [set_solver|done].
Qed.

(** C34: the errors of the database.  On tables that satisfy the invariant, and
    when the connection holds, a well-formed request can only be answered with
    these database errors: a submission with a unique violation (its key or
    its id was taken meanwhile) or a missing queue; a list or a reaper
    statement with a negative LIMIT or OFFSET; a lease, a failure, a renewal,
    the reaper's rescheduling and the worker listings with a time outside the
    database's range.  Every other request is answered; in particular no
    CHECK, no foreign key of an attempt, no unique attempt number, no 32-bit
    counter and no power of two of the backoff ever fails. *)
Theorem statement_errors {A} (q : DbReq A) env db :
  db_ok db → req_ok q → env_fault env = NoFault →
  raises_only (may_raise q) q (exec q env db).1.
Proof.
  intros Hok Hq Hf. destruct q; cbn [exec raises_only may_raise];
    try (apply stmt_noted; [done|]);
    try (unfold exec_tx; rewrite Hf; by apply tx_lease_codes || apply tx_complete_codes
                                      || by apply tx_fail_codes).
  all: try (cbv [sql_insert_queue sql_select_queue sql_select_queues sql_update_paused
                 sql_count_by_status sql_select_job_by_key sql_select_job sql_list_attempts
                 sql_cancel sql_retry sql_delete_dead_letter sql_purge sql_close_attempts
                 sql_register_worker sql_heartbeat sql_deregister_worker sql_read res_bind];
            by repeat case_match).
  - by apply insert_job_codes.
  - unfold sql_list_jobs, sql_read. destruct (sql_offset _ _) as [l|e] eqn:Ho; cbn.
    + destruct (sql_limit _ _) as [l'|e] eqn:Hl; cbn; [done|].
      apply sql_limit_codes in Hl as (c & Hc & ->). exists c. split; [set_solver|done].
    + apply sql_offset_codes in Ho as (c & Hc & ->). exists c. split; [set_solver|done].
  - unfold sql_list_dead_letter, sql_read. destruct (sql_limit _ _) as [l|e] eqn:Hl; cbn; [done|].
    by eapply sql_limit_codes.
  - unfold sql_renew. destruct (db_jobs db !! id) as [r|]; [|done]. destruct (holds_lease _ _); [|done].
    destruct (pg_ts_add_secs _ _) as [t|e] eqn:Ht; cbn; [done|].
    exists out_of_range. apply pg_ts_codes in Ht as ->. split; [set_solver|done].
  - by apply reap_retry_codes.
  - unfold sql_reap_dead. destruct (reap_select _ _ _ _) as [rows|e] eqn:Hsel; cbn; [done|].
    by eapply reap_select_codes.
  - unfold sql_reap_failed. destruct (reap_select _ _ _ _) as [rows|e] eqn:Hsel; cbn; [done|].
    by eapply reap_select_codes.
  - unfold sql_active_workers, sql_read. destruct (pg_ts_add_secs _ _) as [t|e] eqn:Ht; cbn; [done|].
    exists out_of_range. apply pg_ts_codes in Ht as ->. split; [set_solver|done].
  - unfold sql_prune_workers. destruct (pg_ts_add_secs _ _) as [t|e] eqn:Ht; cbn; [done|].
    exists out_of_range. apply pg_ts_codes in Ht as ->. split; [set_solver|done].
Qed.

End faults.
