(* ===== verification/Submission.v ===== *)
(** * Submission, inspection and the worker registry

    What [PgStore] promises about submitting a job (idempotently), counting
    and listing jobs, and keeping the workers' registry. *)

From S2P Require Import Prelude Prog Externals Status Error Model Row Float64 Backoff.
From S2P Require Import Sql Statements Store PgStore Lifecycle Invariant Integrity StoreProps.
From stdpp Require Import options.

Section submission.
Context `{X : Externals}.

(** ** Idempotent submission *)

(** The tables with the queue present. *)
Definition ensured (name : string) (now : Timestamp) (db : Db) : Db :=
  match db_queues db !! name with
  | Some _ => db
  | None => db <| db_queues ::= <[name := mkQueueRow name false None now]> |>
  end.

Lemma ensured_jobs name now db : db_jobs (ensured name now db) = db_jobs db.
Proof. unfold ensured. by case_match. Qed.

Lemma ensured_queue name now db : is_Some (db_queues (ensured name now db) !! name).
Proof.
  unfold ensured. destruct (db_queues db !! name) eqn:E; [by rewrite E|].
  cbn. rewrite lookup_insert_eq. eauto.
Qed.

Lemma run_ensure_queue es name i db :
  quiet es →
  ∃ q, run (answer es) (ensure_queue name) (i, db) =
    (Some (Ok q), (S (S i), ensured name (env_now (es i)) db)).
Proof.
  intros Hq. unfold ensure_queue. rewrite run_bind_ok, run_query. cbn [exec].
  rewrite exec_stmt_quiet by done. cbn [sql_insert_queue fst snd map_err].
  change (match db_queues db !! name with Some _ => db | None => _ end)
    with (ensured name (env_now (es i)) db).
  rewrite run_bind_ok, run_fetch_one, run_query. cbn [exec].
  rewrite exec_stmt_quiet by done. cbn [sql_select_queue sql_read res_bind fst snd map_err].
  destruct (ensured_queue name (env_now (es i)) db) as [q Hr]. rewrite Hr. by eexists.
Qed.

Lemma key_row_unique db r queue key :
  db_ok db → (∃ id, db_jobs db !! id = Some r) → has_key queue key r = true →
  head (rows_where (has_key queue key) (db_jobs db)) = Some r.
Proof.
  intros Hok [id Hr] Hk.
  assert (r ∈ rows_where (has_key queue key) (db_jobs db)) as Hin
    by (apply elem_of_rows_where; eauto).
  destruct (rows_where (has_key queue key) (db_jobs db)) as [|r0 rest] eqn:Hrows.
  { by apply elem_of_nil in Hin. }
  assert (r0 ∈ rows_where (has_key queue key) (db_jobs db)) as [Hk0 [id0 Hr0]]%elem_of_rows_where
    by (rewrite Hrows; set_solver).
  apply has_key_spec in Hk as [Hq Hk], Hk0 as [Hq0 Hk0].
  assert (id0 = id) as -> by (eapply (ok_unique _ Hok); eauto; congruence).
  cbn. congruence.
Qed.

Lemma submittable_checks n id now : submittable n → checks_ok (new_row n id now) = true.
Proof.
  intros [(_&_&_&_&?&?&?&Hs) _]. unfold checks_ok. rewrite !andb_true_iff. cbn.
  split_and!; try lia. by destruct Hs as [-> | ->].
Qed.

Lemma is_unique_violation_23505 : is_unique_violation (pg_error "23505") = true.
Proof. done. Qed.

(** The INSERT when the key is taken. *)
Lemma run_insert_taken es i db n key r s :
  quiet es → db_ok db → submittable n → nj_idempotency_key n = Some key →
  (∃ id, db_jobs db !! id = Some r) → has_key (nj_queue n) key r = true →
  jr_status r = as_str s →
  run (answer es) (insert_submission n) (i, db) =
    (Some (Ok (mkSubmission (job_of_row r s) false)), (S (S i), db)).
Proof.
  intros Hq Hok Hn Hkey Hr Hk Hs.
  assert (sql_insert_job n (es i) db = Err (pg_error "23505")) as Hins.
  { unfold sql_insert_job. rewrite submittable_checks by done. cbn [negb].
    assert (unique_conflict (new_row n (env_uuid (es i)) (env_now (es i))) db = true) as ->;
      [|done].
    unfold unique_conflict. cbn [jr_idempotency_key jr_queue new_row]. rewrite Hkey.
    pose proof (key_row_unique _ _ _ _ Hok Hr Hk) as Hh.
    rewrite bool_decide_false; [by rewrite orb_true_r|]. intros Hnil. by rewrite Hnil in Hh. }
  unfold insert_submission. rewrite run_bind, run_request. cbn [exec].
  rewrite exec_stmt_quiet, Hins by done. cbn [fst snd].
  rewrite is_unique_violation_23505, Hkey.
  rewrite run_bind_ok, run_fetch_one, run_query. cbn [exec]. rewrite exec_stmt_quiet by done.
  cbn [sql_select_job_by_key sql_read res_bind fst snd map_err].
  rewrite (key_row_unique db r) by done. unfold existing_submission.
  by rewrite (into_job_as_str r s).
Qed.

(** The INSERT of a new job. *)
Lemma run_insert_new es i db n :
  quiet es → submittable n → is_Some (db_queues db !! nj_queue n) →
  unique_conflict (new_row n (env_uuid (es i)) (env_now (es i))) db = false →
  let row := new_row n (env_uuid (es i)) (env_now (es i)) in
  run (answer es) (insert_submission n) (i, db) =
    (Some (Ok (mkSubmission (job_of_row row (nj_status n)) true)),
     (S i, db <| db_jobs ::= <[env_uuid (es i) := row]> |>)).
Proof.
  intros Hq Hn [q Hqueue] Hc row. unfold insert_submission. rewrite run_bind, run_request.
  cbn [exec]. rewrite exec_stmt_quiet by done. unfold sql_insert_job.
  rewrite submittable_checks, Hc by done. cbn [negb]. 
  change (jr_queue (new_row n _ _)) with (nj_queue n). rewrite Hqueue. cbn [fst snd].
  rewrite (into_job_as_str (new_row n _ _) (nj_status n)) by done. done.
Qed.

Lemma run_submit es db n :
  quiet es → db_ok db → submittable n →
  let db1 := ensured (nj_queue n) (env_now (es 0%nat)) db in
  let i := match nj_idempotency_key n with Some _ => 3%nat | None => 2%nat end in
  let row := new_row n (env_uuid (es i)) (env_now (es i)) in
  (∀ key id r s, nj_idempotency_key n = Some key → db_jobs db !! id = Some r →
     jr_queue r = nj_queue n → jr_idempotency_key r = Some key → jr_status r = as_str s →
     run_db es (submit n) db = (Some (Ok (mkSubmission (job_of_row r s) false)), db1)) ∧
  ((∀ key id r, nj_idempotency_key n = Some key → db_jobs db !! id = Some r →
      jr_queue r = nj_queue n → jr_idempotency_key r ≠ Some key) →
   db_jobs db !! env_uuid (es i) = None →
   run_db es (submit n) db =
     (Some (Ok (mkSubmission (job_of_row row (nj_status n)) true)),
      db1 <| db_jobs ::= <[env_uuid (es i) := row]> |>)).
Proof.
  intros Hq Hok Hn db1 i row.
  destruct (run_ensure_queue es (nj_queue n) 0 db Hq) as [q Hens].
  pose proof (ensured_jobs (nj_queue n) (env_now (es 0%nat)) db) as Hjobs. fold db1 in Hjobs.
  pose proof (ensured_queue (nj_queue n) (env_now (es 0%nat)) db) as Hqueue. fold db1 in Hqueue.
  assert (run_db es (submit n) db =
    let '(r, (_, db')) := run (answer es)
      (match nj_idempotency_key n with
       | None => insert_submission n
       | Some key =>
           found ←? query (QSelectJobByKey (nj_queue n) key);
           match found with
           | Some existing => Ret (existing_submission existing)
           | None => insert_submission n
           end
       end) (2%nat, db1) in (r, db')) as Hrun.
  { unfold run_db, submit. rewrite run_bind_ok, Hens. done. }
  split.
  - intros key id r s Hkey Hr Hrq Hrk Hs. rewrite Hrun, Hkey, run_bind_ok, run_query. cbn [exec].
    rewrite exec_stmt_quiet by done.
    cbn [sql_select_job_by_key sql_read res_bind fst snd map_err]. rewrite Hjobs.
    rewrite (key_row_unique db r) by (first [done | by eauto | by apply has_key_spec]).
    cbn [run]. unfold existing_submission. by rewrite (into_job_as_str r s).
  - intros Hno Hid.
    assert (unique_conflict row db1 = false) as Hc.
    { unfold unique_conflict. subst row. cbn [jr_id jr_idempotency_key jr_queue new_row].
      rewrite Hjobs, Hid. cbn [orb]. destruct (nj_idempotency_key n) as [key|] eqn:Hkey; [|done].
      rewrite bool_decide_true; [done|]. apply elem_of_nil_inv. intros r [Hk [id Hr]]%elem_of_rows_where.
      apply has_key_spec in Hk as [Hk1 Hk2]. by eapply Hno. }
    rewrite Hrun. subst i. destruct (nj_idempotency_key n) as [key|] eqn:Hkey.
    + rewrite run_bind_ok, run_query. cbn [exec]. rewrite exec_stmt_quiet by done.
      cbn [sql_select_job_by_key sql_read res_bind fst snd map_err]. rewrite Hjobs.
      destruct (head _) as [r|] eqn:Hh.
      * exfalso. apply head_Some_elem_of, elem_of_rows_where in Hh as [Hk [id Hr]].
        apply has_key_spec in Hk as [Hk1 Hk2]. by eapply Hno.
      * by rewrite run_insert_new.
    + by rewrite run_insert_new.
Qed.

(** C15: [submit].  The queue is created when it does not exist.  A submission
    whose (queue, key) is already there returns that job, as not created, and
    inserts nothing; any other submission stores a new job with the
    submission's fields, no attempts and no lease, and returns it as
    created. *)
Theorem submit_spec es db n :
  quiet es → db_ok db → submittable n →
  let db1 := ensured (nj_queue n) (env_now (es 0%nat)) db in
  let i := match nj_idempotency_key n with Some _ => 3%nat | None => 2%nat end in
  let row := new_row n (env_uuid (es i)) (env_now (es i)) in
  (∀ key id r s, nj_idempotency_key n = Some key → db_jobs db !! id = Some r →
     jr_queue r = nj_queue n → jr_idempotency_key r = Some key → jr_status r = as_str s →
     run_db es (submit n) db = (Some (Ok (mkSubmission (job_of_row r s) false)), db1)) ∧
  ((∀ key id r, nj_idempotency_key n = Some key → db_jobs db !! id = Some r →
      jr_queue r = nj_queue n → jr_idempotency_key r ≠ Some key) →
   db_jobs db !! env_uuid (es i) = None →
   run_db es (submit n) db =
     (Some (Ok (mkSubmission (job_of_row row (nj_status n)) true)),
      db1 <| db_jobs ::= <[env_uuid (es i) := row]> |>)).
Proof. apply run_submit. Qed.

(** C16: the race of two submissions with one key.  Another client may insert
    the key between the lookup and the INSERT of [submit]; the rest of
    [submit], run on tables that hold the key, recovers from the unique
    violation and returns the job that won, as not created. *)
Theorem submit_race_resolved es i db n key id r s :
  quiet es → db_ok db → submittable n → nj_idempotency_key n = Some key →
  db_jobs db !! id = Some r → jr_queue r = nj_queue n → jr_idempotency_key r = Some key →
  jr_status r = as_str s →
  run (answer es) (insert_submission n) (i, db) =
    (Some (Ok (mkSubmission (job_of_row r s) false)), (S (S i), db)).
Proof.
  intros. eapply run_insert_taken; try done; [by eauto|by apply has_key_spec].
Qed.

(** ** Counting *)

(** The number the statistics report for a status. *)
Definition stat (st : QueueStats) (s : JobStatus) : Z :=
  match s with
  | Queued => qs_queued st
  | Scheduled => qs_scheduled st
  | Processing => qs_processing st
  | Completed => qs_completed st
  | Failed => qs_failed st
  | Retrying => qs_retrying st
  | Cancelled => qs_cancelled st
  | DeadLettered => qs_dead_lettered st
  end.

(** The number of jobs of a queue in a status. *)
Definition job_count (db : Db) (name : string) (s : JobStatus) : Z :=
  Z.of_nat (length (filter (λ r, jr_status r = as_str s)
    (rows_where (λ r, String.eqb (jr_queue r) name) (db_jobs db)))).

Lemma stat_count_status st s s' c :
  stat (count_status st (as_str s', c)) s = if decide (s = s') then c else stat st s.
Proof. by destruct s, s'. Qed.

Lemma stat_foldl l st s :
  (∀ p, p ∈ l → ∃ s', p.1 = as_str s') → NoDup l.*1 →
  stat (foldl count_status st l) s =
    match list_find (λ p, p.1 = as_str s) l with Some (_, p) => p.2 | None => stat st s end.
Proof.
  revert st. induction l as [|[t c] l IH]; intros st Hl Hnd; [done|].
  destruct (Hl (t, c)) as [s' Ht]; [set_solver|]. cbn in Ht. subst t.
  apply NoDup_cons in Hnd as [Hni Hnd].
  cbn [foldl list_find fst]. rewrite IH by (done || set_solver). rewrite stat_count_status.
  destruct (decide (as_str s' = as_str s)) as [Heq|Hne].
  - apply (inj as_str) in Heq as ->. rewrite decide_True by done.
    destruct (list_find (λ p, p.1 = as_str s) l) as [[k p]|] eqn:Hf; [|done].
    apply list_find_Some in Hf as (Hk & Hp & _). destruct Hni.
    rewrite <- Hp. apply list_elem_of_fmap. exists p. split; [done|].
    by eapply list_elem_of_lookup_2.
  - destruct (list_find (λ p, p.1 = as_str s) l) as [[k p]|] eqn:Hf; [done|].
    cbn. rewrite decide_False; [done|]. intros ->. done.
Qed.

Lemma remove_dups_find {B} (l : list string) (f : string → B) t :
  (∃ i, list_find (λ p, p.1 = t) ((λ u, (u, f u)) <$> remove_dups l) = Some (i, (t, f t))) ∨
  (list_find (λ p, p.1 = t) ((λ u, (u, f u)) <$> remove_dups l) = None ∧ t ∉ l).
Proof.
  destruct (list_find (λ p, p.1 = t) _) as [[i p]|] eqn:Hf.
  - left. exists i. apply list_find_Some in Hf as (Hi & <- & _).
    rewrite list_lookup_fmap in Hi. destruct (remove_dups l !! i); cbn in Hi; by simplify_eq.
  - right. split; [done|]. intros Ht. apply list_find_None in Hf.
    rewrite Forall_forall in Hf. apply (Hf (t, f t)); [|done].
    apply list_elem_of_fmap. exists t. split; [done|]. by apply elem_of_remove_dups.
Qed.

Lemma count_status_paused l st : qs_paused (foldl count_status st l) = qs_paused st.
Proof.
  revert st. induction l as [|[t c] l IH]; intros st; [done|].
  cbn [foldl]. rewrite IH. unfold count_status. repeat case_match; done.
Qed.

Lemma counts_add_up (l : list JobRow) :
  (∀ r, r ∈ l → ∃ s, jr_status r = as_str s) →
  foldr Z.add 0 ((λ s, Z.of_nat (length (filter (λ r, jr_status r = as_str s) l)))
    <$> all_statuses) = Z.of_nat (length l).
Proof.
  induction l as [|r l IH]; intros Hl; [done|].
  destruct (Hl r) as [s Hs]; [set_solver|].
  specialize (IH ltac:(set_solver)). cbn [all_statuses fmap list_fmap foldr] in *.
  assert (∀ s', length (filter (λ r, jr_status r = as_str s') (r :: l)) =
            ((if decide (s = s') then 1 else 0) +
             length (filter (λ r, jr_status r = as_str s') l))%nat) as Hcons.
  { intros s'. rewrite filter_cons, Hs.
    destruct (decide (s = s')) as [->|Hne]; [by rewrite decide_True by done|].
    rewrite decide_False; [done|]. by intros ?%(inj as_str). }
  rewrite !Hcons, length_cons. clear Hcons Hl Hs.
  repeat match goal with |- context [length (filter ?P l)] => 
    generalize dependent (length (filter P l)); intros end.
  destruct s; repeat (case_decide; try done); lia.
Qed.

Lemma count_of_status db name s :
  let statuses := jr_status <$> rows_where (λ r, String.eqb (jr_queue r) name) (db_jobs db) in
  Z.of_nat (length (filter (λ s', s' = as_str s) statuses)) = job_count db name s.
Proof. intros statuses. unfold job_count, statuses.
  generalize (rows_where (λ r, String.eqb (jr_queue r) name) (db_jobs db)). clear.
  intros l. f_equal. induction l as [|r l IH]; [done|]. cbn [fmap list_fmap].
  rewrite !filter_cons. case_decide; cbn; by rewrite IH. Qed.

(** [queue_stats] counts right: for every status, the number it reports is
    the number of the queue's jobs in that status, and the numbers add up to
    all of the queue's jobs; the paused flag is the queue's; and a queue that
    does not exist is an error. *)
Theorem queue_stats_counts es db name :
  quiet es → db_ok db →
  (db_queues db !! name = None →
     run_db es (queue_stats name) db = (Some (Err (QueueNotFound name)), db)) ∧
  (∀ q, db_queues db !! name = Some q →
     ∃ st, run_db es (queue_stats name) db = (Some (Ok st), db) ∧
       qs_paused st = qr_paused q ∧ (∀ s, stat st s = job_count db name s) ∧
       foldr Z.add 0 (stat st <$> all_statuses) =
         Z.of_nat (length (rows_where (λ r, String.eqb (jr_queue r) name) (db_jobs db)))).
Proof.
  intros Hq Hok. unfold run_db, queue_stats, get_queue.
  rewrite !run_bind_ok, run_query. cbn [exec]. rewrite exec_stmt_quiet by done.
  cbn [sql_select_queue sql_read res_bind fst snd map_err]. split; [by intros ->|].
  intros q ->. cbn [run fmap option_fmap option_map ret_ok].
  rewrite run_bind_ok, run_query. cbn [exec]. rewrite exec_stmt_quiet by done.
  cbn [sql_count_by_status sql_read res_bind fst snd map_err ret_ok run].
  set (rows := rows_where _ (db_jobs db)).
  set (counts := _ <$> remove_dups (jr_status <$> rows)).
  assert (∀ r, r ∈ rows → ∃ s, jr_status r = as_str s) as Hrows.
  { intros r (_ & id & Hr)%elem_of_rows_where.
    destruct (db_ok_status _ _ _ Hok Hr) as (s & Hs & _). eauto. }
  assert (∀ s, stat (foldl count_status (stats_default name (queue_paused (queue_of_row q))) counts) s
             = job_count db name s) as Hstat.
  { intros s. rewrite stat_foldl.
    - rewrite <- count_of_status.
      destruct (remove_dups_find (jr_status <$> rows)
        (λ t, Z.of_nat (length (filter (λ s', s' = t) (jr_status <$> rows)))) (as_str s))
        as [[k Hf]|[Hf Hno]]; unfold counts; rewrite Hf; [done|].
      change (rows_where (λ r, String.eqb (jr_queue r) name) (db_jobs db)) with rows.
      assert (filter (λ s', s' = as_str s) (jr_status <$> rows) = []) as ->.
      { apply elem_of_nil_inv. intros t [-> Ht]%list_elem_of_filter. done. }
      by destruct s.
    - intros p (t & -> & Ht)%list_elem_of_fmap. rewrite elem_of_remove_dups in Ht.
      apply list_elem_of_fmap in Ht as (r & -> & Hr). by apply Hrows.
    - unfold counts. rewrite <- list_fmap_compose.
      rewrite (list_fmap_ext _ id) by done. rewrite list_fmap_id. apply NoDup_remove_dups. }
  eexists. split; [reflexivity|]. split; [by rewrite count_status_paused|]. split; [done|].
  rewrite (list_fmap_ext _ (job_count db name)) by (intros; apply Hstat).
  by apply counts_add_up.
Qed.

(** ** Listing *)

Lemma collect_into_job (l : list JobRow) :
  (∀ r, r ∈ l → ∃ s, jr_status r = as_str s) →
  ∃ jobs, collect_results into_job l = Ok jobs ∧ Forall2 (λ r j, into_job r = Ok j) l jobs.
Proof.
  induction l as [|r l IH]; intros Hl; [by exists []|].
  destruct IH as (jobs & Hc & Hf); [set_solver|].
  destruct (Hl r) as [s Hs]; [set_solver|]. pose proof (into_job_as_str r s Hs) as Hr.
  exists (job_of_row r s :: jobs). cbn [collect_results]. rewrite Hr, Hc. cbn.
  split; [done|]. by constructor.
Qed.

(** [list_jobs] pages through one list: the jobs that match the filters,
    each once, newest first.  The page of a limit and an offset is that slice
    of the list, so consecutive pages neither repeat nor skip a job. *)
Theorem list_jobs_pages es db queue status job_type :
  quiet es → db_ok db →
  let matches r := opt_filter queue (jr_queue r) && opt_filter status (jr_status r)
                   && opt_filter job_type (jr_job_type r) in
  ∃ sorted, sorted ≡ₚ rows_where matches (db_jobs db) ∧
    StronglySorted (λ r1 r2, jr_created_at r2 ≤ jr_created_at r1) sorted ∧
    ∀ limit offset, 0 ≤ limit → 0 ≤ offset →
      ∃ jobs, run_db es (list_jobs queue status job_type limit offset) db = (Some (Ok jobs), db) ∧
        Forall2 (λ r j, into_job r = Ok j)
          (take (Z.to_nat limit) (drop (Z.to_nat offset) sorted)) jobs.
Proof.
  intros Hq Hok matches. set (rows := rows_where matches (db_jobs db)).
  set (key := λ r, [- jr_created_at r; env_pos (es 0%nat) (jr_id r)]).
  exists (order_by key rows). split; [apply order_by_perm|]. split.
  { eapply StronglySorted_weaken; [|apply order_by_sorted].
    intros r1 r2. cbn. unfold key. rewrite lex_le_cons. lia. }
  intros limit offset Hl Ho.
  destruct (collect_into_job (take (Z.to_nat limit) (drop (Z.to_nat offset) (order_by key rows))))
    as (jobs & Hc & Hf).
  { intros r Hr. assert (r ∈ rows) as (_ & id & Hrow)%elem_of_rows_where.
    { apply (elem_of_order_by key). apply elem_of_take in Hr as (k & Hr & _).
      rewrite lookup_drop in Hr. by eapply list_elem_of_lookup_2. }
    destruct (db_ok_status _ _ _ Hok Hrow) as (s & Hs & _). eauto. }
  exists jobs. split; [|done]. unfold run_db, list_jobs. rewrite run_bind_ok, run_query.
  cbn [exec]. rewrite exec_stmt_quiet by done. unfold sql_list_jobs, sql_read.
  fold matches key. fold rows. unfold sql_offset. destruct (Z.ltb_spec offset 0); [lia|].
  cbn [res_bind]. unfold sql_limit. destruct (Z.ltb_spec limit 0); [lia|].
  cbn [res_bind fst snd map_err run]. by rewrite Hc.
Qed.

(** ** The workers' registry *)

(** Liveness of workers.  A heartbeat answers whether the worker is
    registered, and refreshes it if so.  Pruning removes, and counts, exactly
    the workers whose last heartbeat is more than [secs] seconds old, while
    [list_active_workers] with the same horizon lists exactly workers it
    keeps. *)
Theorem worker_registry_spec es db secs :
  quiet es → db_ok db →
  let now := env_now (es 0%nat) in
  (∀ id, run_db es (heartbeat id) db =
     match db_workers db !! id with
     | Some r => (Some (Ok true),
                  db <| db_workers ::= <[id := r <| wr_last_heartbeat := now |>]> |>)
     | None => (Some (Ok false), db)
     end) ∧
  ((∃ t, pg_ts_add_secs now (- secs) = Ok t) →
   ∃ n db' ws, run_db es (prune_dead_workers secs) db = (Some (Ok n), db') ∧
     run_db es (list_active_workers secs) db = (Some (Ok ws), db) ∧
     (∀ id r, db_workers db' !! id = Some r ↔
        db_workers db !! id = Some r ∧ now - secs * second ≤ wr_last_heartbeat r) ∧
     (∀ w, w ∈ ws ↔ ∃ r, db_workers db !! worker_id w = Some r ∧ w = worker_of_row r ∧
        now - secs * second < wr_last_heartbeat r) ∧
     (∀ w, w ∈ ws → is_Some (db_workers db' !! worker_id w))).
Proof.
  intros Hq Hok now. split.
  { intros id. unfold run_db, heartbeat. rewrite run_bind_ok, run_query. cbn [exec].
    rewrite exec_stmt_quiet by done. unfold sql_heartbeat.
    by destruct (db_workers db !! id). }
  intros [t Ht]. unfold run_db, prune_dead_workers, list_active_workers.
  rewrite run_bind_ok, !run_query. cbn [exec]. rewrite !exec_stmt_quiet by done.
  unfold sql_prune_workers, sql_active_workers, sql_read. fold now. rewrite Ht.
  apply pg_ts_add_secs_Ok in Ht. replace (now + - secs * second) with (now - secs * second) in Ht by lia.
  subst t. cbn [res_bind fst snd map_err]. unfold ret_ok. cbn [run].
  do 3 eexists. split; [reflexivity|]. split; [reflexivity|]. cbn.
  assert (∀ id r, delete_where (λ r, wr_last_heartbeat r <? now - secs * second) (db_workers db)
            !! id = Some r ↔ db_workers db !! id = Some r ∧ now - secs * second ≤ wr_last_heartbeat r)
    as Hkept by (intros; rewrite lookup_delete_where; naive_solver lia).
  assert (∀ w, w ∈ worker_of_row <$> order_by (λ r, [wr_registered_at r; env_pos (es 0%nat) (wr_id r)])
             (rows_where (λ r, now - secs * second <? wr_last_heartbeat r) (db_workers db)) ↔
           ∃ r, db_workers db !! worker_id w = Some r ∧ w = worker_of_row r ∧
             now - secs * second < wr_last_heartbeat r) as Hlisted.
  { intros w. rewrite list_elem_of_fmap. setoid_rewrite elem_of_order_by.
    setoid_rewrite elem_of_rows_where. split.
    - intros (r & -> & Ha & id & Hr). exists r. cbn. rewrite (ok_workers _ Hok _ _ Hr).
      split_and!; [done..|lia].
    - intros (r & Hr & -> & Ha). exists r. split_and!; [done|lia|eauto]. }
  split; [done|]. split; [done|].
  intros w (r & Hr & _ & Ha)%Hlisted. exists r. apply Hkept. split; [done|lia].
Qed.

End submission.
