(* ===== verification/Reaper.v ===== *)
(** * The lease reaper

    [recover_expired_leases]: which rows its three UPDATE statements select,
    past the locked ones and up to the limit, what they do to every row of the
    jobs table, and that a live lease is safe from it. *)

From S2P Require Import Prelude Prog Externals Status Error Model Row Float64 Backoff.
From S2P Require Import Sql Statements Store PgStore Lifecycle Invariant Integrity StoreProps.
From stdpp Require Import options.

Section reaper.
Context `{X : Externals}.

(** ** One statement

    Each of the three selects a batch: the rows of its case that no one has
    locked, those whose leases ended first first, at most [limit] of them. *)










(** ** The whole pass *)






Section pass.
Context (es : nat → Env) (db : Db) (limit : Z).
Context (Hquiet : quiet es) (Hok : db_ok db) (Hlimit : 0 ≤ limit).
Context (Hts : ∀ id r, db_jobs db !! id = Some r →
  ∃ t, pg_ts_add_secs (env_now (es 0%nat)) (retry_delay r) = Ok t).


#[local] Set Default Proof Using "All".














End pass.


(** ** A live lease is safe *)

Lemma recover_requests limit :
  all_reqs (λ A (q : DbReq A), ∀ id ev, req_event q id ev → ev = EvReap)
    (recover_expired_leases limit).
Proof.
  assert (∀ A (q : DbReq (result sqlx_error A)), (∀ id ev, req_event q id ev → ev = EvReap) →
    all_reqs (λ A (q : DbReq A), ∀ id ev, req_event q id ev → ev = EvReap) (query q)) as Hq.
  { intros A q Hev. by apply all_reqs_map_err, all_reqs_trigger. }
  unfold recover_expired_leases.
  do 3 (apply all_reqs_bind_ok; [by apply Hq|intros ?]).
  case_match; [done|]. apply all_reqs_bind_ok; [by apply Hq|done].
Qed.

(** A live lease is safe from the reaper.  Whatever the environment does
    (rows locked, connections lost, statements interleaved with time passing),
    a pass of the reaper leaves alone, to the last column, every job whose
    lease is unexpired at each statement of the pass, and every job that is
    not processing. *)
Theorem reaper_spares_live_leases es db limit id r :
  keyed (db_jobs db) → db_jobs db !! id = Some r →
  (∀ i, jr_status r ≠ "processing"%string ∨
     ∃ t, jr_lease_expires_at r = Some t ∧ env_now (es i) ≤ t) →
  db_jobs (run_db es (recover_expired_leases limit) db).2 !! id = Some r.
Proof.
  intros Hkey Hr Hlive. set (I := λ s : nat * Db, keyed (db_jobs s.2) ∧ db_jobs s.2 !! id = Some r).
  assert (I (run (answer es) (recover_expired_leases limit) (0%nat, db)).2) as [_ HI].
  - eapply (run_invariant (answer es)); [|apply recover_requests|done].
    intros A q [i db0] Hev [Hkey0 Hr0]. unfold answer.
    pose proof (exec_jobs_step q (es i) db0 Hkey0) as Hstep.
    destruct (exec q (es i) db0) as [a db1]. cbn in *. split; cbn.
    + intros k r' Hr'. destruct (jobs_step_origin _ _ _ _ _ _ Hstep Hr')
        as [(r1 & Hr1 & Hf & _)|(n & _ & -> & _)]; [|done].
      apply row_frame_eq in Hf as (-> & _). by apply Hkey0.
    + destruct (Hstep id) as [->|(ev & Hq & Hs)]; [done|]. exfalso.
      apply Hev in Hq as ->. rewrite Hr0 in Hs.
      assert (expired (env_now (es i)) r = true) as He by (inversion Hs; by subst).
      apply expired_spec in He as (Hst & t & Ht & Hlt).
      destruct (Hlive i) as [|(t' & Ht' & Hle)]; [done|]. simplify_eq. lia.
  - unfold run_db. by destruct (run _ _ _) as [? [? ?]].
Qed.

End reaper.
