(* ===== verification/Concurrency.v ===== *)
(** * Concurrent clients of the database

    API servers, workers and reapers call the store at the same time, and only
    a statement or a transaction is atomic.  A system is the tables and the
    residual programs of the calls in flight; a step starts a call, runs the
    next request of one of them, or drops one (it has returned, panicked, or
    its process died).  A [history] is the requests of such a run, in order. *)

From S2P Require Import Prelude Prog Externals Status Error Model Row Float64 Backoff.
From S2P Require Import Sql Statements Store PgStore Lifecycle Invariant Integrity StoreProps.
From S2P Require Import Submission Reaper.
From stdpp Require Import options.

(** ** The requests of the store's methods *)

Section reqs.
Context `{X : Externals} (P : ∀ A, DbReq A → Prop).

Lemma query_reqs {A} (q : DbReq (result sqlx_error A)) : P _ q → all_reqs P (query q).
Proof. intros Hq. by apply all_reqs_map_err, all_reqs_trigger. Qed.

Lemma trigger_reqs {A} (q : DbReq A) : P _ q → all_reqs P (trigger q).
Proof. intros Hq. by apply all_reqs_trigger. Qed.

Lemma fetch_one_reqs {A} (p : prog DbReq (Result (option A))) :
  all_reqs P p → all_reqs P (fetch_one p).
Proof. intros Hp. apply all_reqs_bind_ok; [done|]. by intros [|]. Qed.

Lemma insert_submission_reqs n :
  P _ (QInsertJob n) → (∀ queue key, P _ (QSelectJobByKey queue key)) →
  all_reqs P (insert_submission n).
Proof.
  intros Hn Hsel. apply all_reqs_bind; [by apply trigger_reqs|]. intros [row|e]; [done|].
  case_match; [|done]. case_match; [|done].
  apply all_reqs_bind_ok; [|done]. by apply fetch_one_reqs, query_reqs.
Qed.
End reqs.

(** Down the requests of a method. *)
Ltac method_reqs :=
  unfold ensure_queue, get_queue, list_queues, set_queue_paused, queue_stats, submit, get_job,
    list_jobs, list_attempts, list_dead_letter, cancel_job, retry_job, purge_finished,
    lease_next, complete_job, fail_job, renew_lease, recover_expired_leases, register_worker,
    heartbeat, deregister_worker, list_active_workers, prune_dead_workers, lease_lost_error,
    explain_no_match, fetch_job, get_queue;
  repeat first
    [ exact I
    | apply all_reqs_bind_ok; [|intros ?]
    | apply fetch_one_reqs
    | by apply query_reqs | by apply trigger_reqs
    | progress unfold ensure_queue
    | case_match ].

Section concurrency.
Context `{X : Externals}.

Inductive thread : Type :=
| Thread {A : Type} (p : prog DbReq A).

Definition system : Type := Db * list thread.

(** What a caller hands to the store: a submission comes out of
    [normalized]. *)
Definition call_ok {A} (e : StoreE A) : Prop :=
  match e with Submit n => submittable n | _ => True end.

Inductive event :=
| Event {A : Type} (q : DbReq A) (env : Env).

Inductive sys_step : system → option event → system → Prop :=
| sys_call db ts A (e : StoreE A) :
    call_ok e → sys_step (db, ts) None (db, Thread (pg_store e) :: ts)
| sys_request db ts1 ts2 A Y (q : DbReq Y) (k : Y → prog DbReq A) env :
    sys_step (db, ts1 ++ Thread (Vis q k) :: ts2) (Some (Event q env))
      ((exec q env db).2, ts1 ++ Thread (k (exec q env db).1) :: ts2)
| sys_drop db ts1 t ts2 : sys_step (db, ts1 ++ t :: ts2) None (db, ts1 ++ ts2).

(** A run of the system, with the requests it made. *)
Inductive sys_run : system → list event → system → Prop :=
| run_done s : sys_run s [] s
| run_silent s s' l s'' : sys_step s None s' → sys_run s' l s'' → sys_run s l s''
| run_event s ev s' l s'' : sys_step s (Some ev) s' → sys_run s' l s'' → sys_run s (ev :: l) s''.

(** The tables after the requests of a list. *)
Definition apply_event (ev : event) (db : Db) : Db :=
  match ev with Event q env => (exec q env db).2 end.

Definition replay (l : list event) (db : Db) : Db := foldl (λ d ev, apply_event ev d) db l.

Definition event_req_ok (ev : event) : Prop := match ev with Event q _ => req_ok q end.

Definition thread_ok (t : thread) : Prop :=
  match t with Thread p => all_reqs (λ A (q : DbReq A), req_ok q) p end.

(** Every request of every method is well formed. *)
Lemma pg_store_reqs {A} (e : StoreE A) : call_ok e → thread_ok (Thread (pg_store e)).
Proof.
  intros He. destruct e; cbn [thread_ok pg_store]; method_reqs; by apply insert_submission_reqs.
Qed.

Lemma sys_step_ok s o s' :
  sys_step s o s' → Forall thread_ok s.2 →
  Forall thread_ok s'.2 ∧ match o with Some ev => event_req_ok ev | None => True end ∧
  s'.1 = match o with Some ev => apply_event ev s.1 | None => s.1 end.
Proof.
  intros Hs Hts. inversion Hs as [db ts A e He|db ts1 ts2 A Y q k env|db ts1 t ts2]; subst;
    cbn in *.
  - split_and!; [|done..]. constructor; [by apply pg_store_reqs|done].
  - rewrite !Forall_app, !Forall_cons in *. destruct Hts as (H1 & [Hq Hk] & H2).
    split_and!; try done. apply Hk.
  - rewrite !Forall_app, !Forall_cons in *. naive_solver.
Qed.

Lemma sys_run_replay s l s' :
  sys_run s l s' → Forall thread_ok s.2 → Forall event_req_ok l ∧ s'.1 = replay l s.1.
Proof.
  induction 1 as [s|s s' l s'' Hs _ IH|s ev s' l s'' Hs _ IH]; intros Hts; [by split| |];
    destruct (sys_step_ok _ _ _ Hs Hts) as (Hts' & Hev & Hdb); destruct (IH Hts') as [Hl ->].
  - split; [done|]. by rewrite Hdb.
  - split; [by constructor|]. cbn. by rewrite Hdb.
Qed.

Lemma replay_ok l db : Forall event_req_ok l → db_ok db → db_ok (replay l db).
Proof.
  revert db. induction l as [|[A q env] l IH]; intros db Hl Hok; [done|].
  apply Forall_cons in Hl as [Hq Hl]. cbn. apply IH; [done|]. by apply exec_db_ok.
Qed.

(** C1: integrity under concurrency.  However the calls of any number of
    clients interleave, whatever clock, locks and connection faults each
    statement meets, and wherever a client panics or dies, the tables keep
    the invariant [db_ok]: every job row is well formed (attempts within the
    budget, lease columns set exactly while processing, completion time
    exactly when completed), idempotency keys are unique per queue, no job is
    without its queue, no attempt without its job, and an attempt is finished
    exactly when its status is final. *)
Theorem interleavings_keep_db_ok db ts l db' ts' :
  db_ok db → Forall thread_ok ts → sys_run (db, ts) l (db', ts') →
  db_ok db' ∧ Forall event_req_ok l ∧ db' = replay l db.
Proof.
  intros Hok Hts Hrun. destruct (sys_run_replay _ _ _ Hrun Hts) as [Hl Hdb].
  cbn in Hdb. subst db'. split; [by apply replay_ok|done].
Qed.

(** ** No panic *)

Lemma tx_fail_no_panic id w e t env db :
  db_ok db → tx_fail id w e t env db ≠ inr (Ok FailPanicked).
Proof.
  intros Hok. unfold tx_fail. tx_unfold. cbn [sql_select_job sql_read res_bind].
  destruct (db_jobs db !! id) as [r|] eqn:Hr; [|done].
  destruct (db_ok_status _ _ _ Hok Hr) as (s & Hs & Hrow).
  rewrite (into_job_as_str r s) by done.
  cbn [job_status job_locked_by job_max_attempts job_attempts job_dead_letter job_of_row].
  destruct (bool_decide_reflect (s = Processing)) as [->|]; [|done].
  rewrite (fail_delay_exact _ _ Hrow).
  destruct (bool_decide (jr_locked_by r = Some w)); cbn [negb orb]; [|done].
  unfold sql_mark_retrying.
  destruct (jr_max_attempts r <=? jr_attempts r); [by destruct (jr_dead_letter r)|].
  by destruct (pg_ts_add_secs (env_now env) (retry_delay r)).
Qed.

Lemma query_never_panics {A} (q : DbReq (result sqlx_error A)) : never_panics (query q).
Proof. by apply never_panics_map_err. Qed.

Lemma fetch_one_never_panics {A} (p : prog DbReq (Result (option A))) :
  never_panics p → never_panics (fetch_one p).
Proof. intros Hp. apply never_panics_bind_ok; [done|]. by intros [|]. Qed.

Lemma insert_submission_never_panics n : never_panics (insert_submission n).
Proof.
  apply never_panics_bind; [done|]. intros [row|e]; [done|].
  case_match; [|done]. case_match; [|done].
  apply never_panics_bind_ok; [|done]. apply fetch_one_never_panics, query_never_panics.
Qed.

(** C33: the store never panics.  On tables that satisfy the invariant, no call
    of any method, under any clock, locks, faults and ids, ends in a panic;
    in particular the backoff arithmetic of [fail_job] cannot overflow a
    [Duration]. *)
Theorem pg_store_never_panics {A} (e : StoreE A) es db :
  db_ok db → (run_db es (pg_store e) db).1 ≠ None.
Proof.
  intros Hok. assert ((run (answer es) (pg_store e) (0%nat, db)).1 ≠ None) as Hrun.
  2:{ unfold run_db. by destruct (run _ _ _) as [? [? ?]]. }
  destruct e; try (apply never_panics_run; cbn [pg_store];
    unfold ensure_queue, get_queue, list_queues, set_queue_paused, queue_stats, submit, get_job,
      list_jobs, list_attempts, list_dead_letter, cancel_job, retry_job, purge_finished,
      lease_next, complete_job, renew_lease, recover_expired_leases, register_worker,
      heartbeat, deregister_worker, list_active_workers, prune_dead_workers, lease_lost_error,
      explain_no_match, fetch_job, get_queue;
    repeat first
      [ exact I
      | apply insert_submission_never_panics
      | apply never_panics_bind_ok; [|intros ?]
      | apply fetch_one_never_panics
      | apply query_never_panics
      | progress unfold ensure_queue
      | case_match
      | by intros ? ]; fail).
  cbn [pg_store]. unfold fail_job. rewrite run_bind_ok, run_request.
  cbn [exec]. unfold exec_tx, run_tx.
  pose proof (tx_fail_no_panic id worker_id error timed_out (es 0%nat) db Hok) as Hno.
  assert (∀ j s, (run (answer es) (found ←? fetch_job j; Ret (ok_or (JobNotFound j) found)) s).1 ≠ None)
    as Hfetch.
  { intros j s. apply never_panics_run. apply never_panics_bind_ok; [|done].
    apply never_panics_bind_ok; [apply query_never_panics|done]. }
  destruct (env_fault (es 0%nat)); [|done..].
  destruct (tx_fail id worker_id error timed_out (es 0%nat) db) as [[out db']|[out|]] eqn:Ht;
    cbn [fst snd]; [|destruct out; [apply Hfetch|done]|done].
  apply tx_fail_inl in Ht as (? & ? & -> & _). apply Hfetch.
Qed.

(** ** Fencing *)

(** The requests that may end the lease of [w] on [id]. *)
Definition may_end {A} (q : DbReq A) (now : Timestamp) (id w : Uuid) (r : JobRow) : Prop :=
  match q with
  | TComplete i w' _ => i = id ∧ w' = w
  | TFail i w' _ _ => i = id ∧ w' = w
  | QCancel i => i = id
  | QReapRetry _ | QReapDead _ | QReapFailed _ => ∃ t, jr_lease_expires_at r = Some t ∧ t < now
  | _ => False
  end.

Lemma held_row w r : holds_lease w r = true → jr_locked_by r = Some w ∧ jr_status r = "processing"%string.
Proof. by intros [??]%holds_lease_spec. Qed.

(** C3: fencing.  While a worker holds the lease of a job, no request of
    anyone else touches it: one request either leaves the lease with the same
    holder, the same number of attempts and the same start, or it ends the
    lease and is the holder's own completion or failure, an operator's
    cancellation, or the reaper finding the lease expired.  In particular no
    other worker can lease the job, complete it or fail it. *)
Theorem lease_fencing {A} (q : DbReq A) env db id w r :
  db_ok db → db_jobs db !! id = Some r → holds_lease w r = true →
  ∃ r', db_jobs (exec q env db).2 !! id = Some r' ∧
    ((holds_lease w r' = true ∧ jr_attempts r' = jr_attempts r ∧
      jr_locked_at r' = jr_locked_at r) ∨
     (jr_status r' ≠ "processing"%string ∧ jr_locked_by r' = None ∧
      may_end q (env_now env) id w r)).
Proof.
  intros Hok Hr Hh. destruct (db_ok_status _ _ _ Hok Hr) as (s & Hs & Hrow).
  pose proof (held_row _ _ Hh) as [Hw Hp].
  pose proof (row_ok_status _ _ _ Hrow (Hp : _ = as_str Processing)) as <-.
  destruct (exec_jobs_step q env db (ok_keyed _ Hok) id) as [->|(ev & Hev & Hstep)].
  { exists r. split; [done|]. by left. }
  rewrite Hr in Hstep.
  assert (∀ w' , holds_lease w' r = true → w' = w) as Hsame.
  { intros w' [Hw' _]%holds_lease_spec. congruence. }
  inversion Hstep; subst; clear Hstep;
    repeat match goal with
    | H : holds_lease ?w' r = true |- _ => pose proof (Hsame _ H); clear H
    | H : jr_status r = as_str ?s |- _ =>
        lazymatch s with Processing => fail | _ => idtac end;
        pose proof (row_ok_status _ _ _ Hrow H); clear H
    | H : expired _ r = true |- _ => apply expired_spec in H as [_ H]
    | H : purgeable _ r = true |- _ => apply purgeable_spec in H as [[H|H] _]
    end; simplify_eq;
    try (by destruct_or!);
    (eexists; split; [done|]);
    first [ right; split_and!; [done|done|];
            destruct q; cbn in Hev |- *; destruct_and?; simplify_eq; done
          | left; split_and!; [|done|done]; unfold holds_lease; cbn;
            by rewrite Hw, Hp, bool_decide_true ].
Qed.

(** ** The attempt budget *)

Definition is_processing (db : Db) (id : Uuid) : bool :=
  match db_jobs db !! id with
  | Some r => String.eqb (jr_status r) "processing"
  | None => false
  end.

(** The number of leases of a job a list of requests grants: the requests
    that move it into [processing]. *)
Fixpoint leases_granted (id : Uuid) (l : list event) (db : Db) : Z :=
  match l with
  | [] => 0
  | ev :: l' =>
      let db' := apply_event ev db in
      (if negb (is_processing db id) && is_processing db' id then 1 else 0)
      + leases_granted id l' db'
  end.

(** The requests that may start a job over, or remove it. *)
Definition resets (id : Uuid) (ev : event) : Prop :=
  match ev with
  | Event (QRetry i) _ => i = id
  | Event (QPurge _) _ => True
  | _ => False
  end.

Lemma event_attempts ev db id r :
  db_ok db → event_req_ok ev → db_jobs db !! id = Some r → ¬ resets id ev →
  ∃ r', db_jobs (apply_event ev db) !! id = Some r' ∧
    jr_attempts r' = jr_attempts r +
      (if negb (is_processing db id) && is_processing (apply_event ev db) id then 1 else 0).
Proof.
  intros Hok Hq Hr Hres. destruct ev as [A q env]. cbn [apply_event].
  destruct (db_ok_status _ _ _ Hok Hr) as (s & Hs & Hrow). unfold is_processing. rewrite Hr.
  destruct (exec_jobs_step q env db (ok_keyed _ Hok) id) as [Heq|(ev & Hev & Hstep)].
  { exists r. rewrite Heq, Hr. split; [done|]. destruct (String.eqb _ _); cbn; lia. }
  rewrite Hr in Hstep. inversion Hstep; subst; clear Hstep;
    try (by (destruct q; cbn in Hev, Hres; destruct_and?; simplify_eq));
    (eexists; split; [done|]); cbn;
    repeat match goal with
    | H : holds_lease _ r = true |- _ => apply held_row in H as [_ H]
    | H : expired _ r = true |- _ => apply expired_spec in H as [H _]
    end;
    repeat match goal with H : jr_status r = ?t |- _ => rewrite H; clear H end;
    try (rewrite String.eqb_refl); cbn; try lia;
    match goal with s0 : JobStatus |- context [as_str ?s0] => destruct s0; try done; cbn; lia end.
Qed.

Lemma event_frame ev db id r r' :
  db_ok db → db_jobs db !! id = Some r → db_jobs (apply_event ev db) !! id = Some r' →
  row_frame r' = row_frame r.
Proof.
  intros Hok Hr Hr'. destruct ev as [A q env]. cbn in Hr'.
  destruct (jobs_step_origin _ _ _ _ _ _ (exec_jobs_step q env db (ok_keyed _ Hok)) Hr')
    as [(r0 & Hr0 & Hf & _)|(n & Hn & _)]; congruence.
Qed.

Lemma apply_event_ok ev db : event_req_ok ev → db_ok db → db_ok (apply_event ev db).
Proof. destruct ev as [A q env]. apply exec_db_ok. Qed.

(** C5: the attempt budget.  Over any history of the system in which the job
    is neither retried by an operator nor purged, every lease granted is
    counted as an attempt, and the leases granted never exceed what was left
    of the job's [max_attempts], whether they ended by failure, timeout, a
    lost connection or the death of a worker. *)
Theorem attempt_budget l db id r :
  db_ok db → Forall event_req_ok l → db_jobs db !! id = Some r → Forall (λ ev, ¬ resets id ev) l →
  ∃ r', db_jobs (replay l db) !! id = Some r' ∧ row_frame r' = row_frame r ∧
    jr_attempts r' = jr_attempts r + leases_granted id l db ∧
    0 ≤ leases_granted id l db ≤ jr_max_attempts r - jr_attempts r.
Proof.
  intros Hok Hl Hr Hres.
  assert (∃ r', db_jobs (replay l db) !! id = Some r' ∧ row_frame r' = row_frame r ∧
    jr_attempts r' = jr_attempts r + leases_granted id l db ∧ 0 ≤ leases_granted id l db)
    as (r' & Hr' & Hf & Ha & Hpos).
  - revert db r Hok Hr. induction l as [|ev l IH]; intros db r Hok Hr.
    { exists r. cbn. split_and!; done || lia. }
    apply Forall_cons in Hl as [Hev Hl], Hres as [Hre Hres].
    destruct (event_attempts ev db id r Hok Hev Hr Hre) as (r1 & Hr1 & Ha1).
    destruct (IH Hl Hres _ _ (apply_event_ok ev db Hev Hok) Hr1) as (r' & Hr' & Hf' & Ha' & Hp).
    exists r'. cbn [replay foldl leases_granted]. split_and!; [done| |lia|case_match; lia].
    rewrite Hf'. by eapply event_frame.
  - exists r'. split_and!; try done.
    destruct (db_ok_status _ _ _ (replay_ok l db Hl Hok) Hr') as (s & _ & Hrow).
    pose proof (row_attempts _ _ Hrow). apply row_frame_eq in Hf as (_&_&_&Hm). lia.
Qed.

(** ** Exactly once, when nothing fails *)

(** The requests that can make a job leaseable again, or remove it. *)
Definition requeues (id : Uuid) (ev : event) : Prop :=
  match ev with
  | Event (TFail i _ _ _) _ | Event (QRetry i) _ => i = id
  | Event (QReapRetry _) _ | Event (QReapDead _) _ | Event (QReapFailed _) _
  | Event (QPurge _) _ => True
  | _ => False
  end.

(** The leases a job in this status may still be granted. *)
Definition leases_left (s : JobStatus) : Z := if is_leaseable s then 1 else 0.

Lemma event_leases_left ev db id r s :
  db_ok db → event_req_ok ev → db_jobs db !! id = Some r → jr_status r = as_str s →
  ¬ requeues id ev →
  ∃ r' s', db_jobs (apply_event ev db) !! id = Some r' ∧ jr_status r' = as_str s' ∧
    (if negb (is_processing db id) && is_processing (apply_event ev db) id then 1 else 0)
    + leases_left s' ≤ leases_left s.
Proof.
  intros Hok Hq Hr Hs Hre. destruct ev as [A q env]. cbn [apply_event].
  destruct (db_ok_status _ _ _ Hok Hr) as (s1 & Hs1 & Hrow).
  assert (s1 = s) as -> by (apply (inj as_str); congruence). clear Hs1.
  unfold is_processing. rewrite Hr.
  destruct (exec_jobs_step q env db (ok_keyed _ Hok) id) as [Heq|(ev & Hev & Hstep)].
  { exists r, s. rewrite Heq, Hr. split_and!; [done..|]. destruct (String.eqb _ _); cbn; lia. }
  rewrite Hr in Hstep. inversion Hstep; subst; clear Hstep;
    try (by (destruct q; cbn in Hev, Hre; destruct_and?; simplify_eq)).
  - match goal with H : jr_status r = as_str ?s0 |- _ => pose proof (row_ok_status _ _ _ Hrow H) end.
    subst. eexists _, Status.Cancelled. split_and!; [done..|]. cbn. unfold leases_left.
    destruct (String.eqb _ _); cbn; by destruct (is_leaseable _).
  - match goal with H : jr_status r = as_str ?s0, H' : is_leaseable ?s0 = true |- _ =>
      pose proof (row_ok_status _ _ _ Hrow H); subst; unfold leases_left; rewrite H' end.
    eexists _, Processing. split_and!; [done..|]. cbn. destruct (String.eqb _ _); cbn; lia.
  - match goal with H : holds_lease _ r = true |- _ => apply held_row in H as [_ H];
      pose proof (row_ok_status _ _ _ Hrow (H : _ = as_str Processing)) end.
    subst. eexists _, Completed. split_and!; [done..|]. cbn. by destruct (String.eqb _ _).
  - match goal with H : holds_lease _ r = true |- _ => apply held_row in H as [_ H];
      pose proof (row_ok_status _ _ _ Hrow (H : _ = as_str Processing)) end.
    subst. eexists _, Processing. split_and!; [done|by cbn|]. cbn.
    rewrite Hs. by cbn.
Qed.

(** The leasing transaction hands the job out, whether or not its answer gets
    back to the worker. *)
Definition hands_out (id : Uuid) (ev : event) (db : Db) : bool :=
  match ev with
  | Event (TLease w qs secs) env =>
      match env_fault env, (run_tx (tx_lease w qs secs) env db).1 with
      | LostBefore _, _ => false
      | _, Ok (Some job) => bool_decide (job_id job = id)
      | _, _ => false
      end
  | _ => false
  end.

(** How often a list of requests hands the job out, to whomever, in whatever
    status it is. *)
Fixpoint handouts (id : Uuid) (l : list event) (db : Db) : Z :=
  match l with
  | [] => 0
  | ev :: l' => (if hands_out id ev db then 1 else 0) + handouts id l' (apply_event ev db)
  end.

(** What a worker is told is what the transaction did. *)
Lemma answer_hands_out id w qs secs env db job :
  (exec (TLease w qs secs) env db).1 = Ok (Some job) → job_id job = id →
  hands_out id (Event (TLease w qs secs) env) db = true.
Proof.
  cbn [exec hands_out]. unfold exec_tx. intros Ha Hid. destruct (env_fault env); try done.
  rewrite Ha. by case_bool_decide.
Qed.

(** Only a leaseable job is handed out, and it is processed then. *)
Lemma hands_out_leaseable id ev db :
  db_ok db → hands_out id ev db = true →
  ∃ r s r', db_jobs db !! id = Some r ∧ jr_status r = as_str s ∧ is_leaseable s = true ∧
    db_jobs (apply_event ev db) !! id = Some r' ∧ jr_status r' = as_str Processing.
Proof.
  intros Hok Hh. destruct ev as [A q env]. destruct q; try done. cbn in Hh.
  destruct (tx_lease worker_id qs lease_secs env db) as [[out db']|e] eqn:Ht.
  2:{ unfold run_tx in Hh. rewrite Ht in Hh. cbn in Hh.
      destruct e as [[job|]|], (env_fault env); try done; by apply tx_lease_inr in Ht as [? _]. }
  assert (run_tx (tx_lease worker_id qs lease_secs) env db = (Ok out, db')) as Hrun
    by (unfold run_tx; by rewrite Ht).
  rewrite Hrun in Hh. cbn in Hh.
  apply tx_lease_inl in Ht as (r & r' & Hc & Hr' & _ & -> & _ & ->).
  apply lease_candidate_Some in Hc as ([k Hk] & He & _).
  pose proof (ok_keyed _ Hok _ _ Hk) as Hid. subst k.
  apply eligible_leaseable in He as (s & Hs & Hl & _).
  assert (jr_id r = id) as <-.
  { destruct (env_fault env); [|done|]; apply bool_decide_eq_true in Hh; by subst r'. }
  exists r, s, r'. split_and!; [done..| |by subst r'].
  cbn [apply_event exec]. unfold exec_tx.
  destruct (env_fault env); [|done|]; rewrite Hrun; cbn; by rewrite lookup_insert_eq.
Qed.

Lemma event_handouts ev db id r s :
  db_ok db → event_req_ok ev → db_jobs db !! id = Some r → jr_status r = as_str s →
  ¬ requeues id ev →
  ∃ r' s', db_jobs (apply_event ev db) !! id = Some r' ∧ jr_status r' = as_str s' ∧
    (if hands_out id ev db then 1 else 0) + leases_left s' ≤ leases_left s.
Proof.
  intros Hok Hev Hr Hs Hne.
  destruct (event_leases_left ev db id r s Hok Hev Hr Hs Hne) as (r' & s' & Hr' & Hs' & Hle).
  exists r', s'. split_and!; [done..|]. destruct (hands_out id ev db) eqn:Hh.
  - destruct (hands_out_leaseable id ev db Hok Hh) as (r1 & s1 & r2 & Hr1 & Hs1 & Hl & Hr2 & Hp).
    simplify_eq. rewrite Hs in Hs1. rewrite Hs' in Hp. apply (inj as_str) in Hs1 as <-, Hp as ->.
    unfold leases_left. by rewrite Hl.
  - destruct (negb _ && _); lia.
Qed.

(** C6: no double lease.  However many workers lease and complete concurrently,
    under any locks and connection faults, and whatever else any client does
    short of failing or retrying the job, reaping and purging: the leasing
    transactions hand the job out at most once in all, and never if it is not
    leaseable at the start.  So no job is handed to two workers, nor twice to
    one, while its first holder has not failed or lost its lease. *)
Theorem no_double_lease l db id r s :
  db_ok db → Forall event_req_ok l → db_jobs db !! id = Some r → jr_status r = as_str s →
  Forall (λ ev, ¬ requeues id ev) l →
  0 ≤ handouts id l db ≤ (if is_leaseable s then 1 else 0).
Proof.
  intros Hok Hl Hr Hs Hre. change (if is_leaseable s then 1 else 0) with (leases_left s).
  revert db r s Hok Hr Hs. induction l as [|ev l IH]; intros db r s Hok Hr Hs.
  { cbn. unfold leases_left. by destruct (is_leaseable s). }
  apply Forall_cons in Hl as [Hev Hl], Hre as [Hne Hre].
  destruct (event_handouts ev db id r s Hok Hev Hr Hs Hne) as (r' & s' & Hr' & Hs' & Hle).
  specialize (IH Hl Hre _ _ _ (apply_event_ok ev db Hev Hok) Hr' Hs').
  cbn [handouts]. destruct (hands_out id ev db); lia.
Qed.

(** ** Finished jobs, and idempotency over time *)

Definition purges (ev : event) : Prop :=
  match ev with Event (QPurge _) _ => True | _ => False end.

Lemma event_keeps ev db id r :
  db_ok db → db_jobs db !! id = Some r → ¬ purges ev →
  is_Some (db_jobs (apply_event ev db) !! id).
Proof.
  intros Hok Hr Hp. destruct ev as [A q env].
  apply (jobs_step_dom q (env_now env) (db_jobs db)); [apply exec_jobs_step, Hok| |eauto].
  destruct q; cbn in *; naive_solver.
Qed.

Lemma event_finished ev db id r :
  db_ok db → ¬ purges ev → db_jobs db !! id = Some r →
  jr_status r = as_str Completed ∨ jr_status r = as_str Cancelled →
  db_jobs (apply_event ev db) !! id = Some r.
Proof.
  intros Hok Hp Hr Hs. destruct ev as [A q env]. cbn.
  destruct (exec_jobs_step q env db (ok_keyed _ Hok) id) as [->|(ev & Hq & Hstep)]; [done|].
  exfalso. rewrite Hr in Hstep.
  destruct (db_ok_status _ _ _ Hok Hr) as (s & _ & Hrow).
  assert (s = Completed ∨ s = Cancelled) as Hs'
    by (destruct Hs as [Hs|Hs]; pose proof (row_ok_status _ _ _ Hrow Hs); auto).
  inversion Hstep; subst;
    repeat match goal with
    | H : holds_lease _ r = true |- _ => apply held_row in H as [_ H]
    | H : expired _ r = true |- _ => apply expired_spec in H as [H _]
    | H : jr_status r = as_str ?s1 |- _ =>
        pose proof (row_ok_status _ _ _ Hrow H); clear H
    | H : jr_status r = "processing"%string |- _ =>
        pose proof (row_ok_status _ _ _ Hrow (H : _ = as_str Processing)); clear H
    end; subst; clear Hs;
    try (destruct Hs' as [-> | ->]; done); try (destruct_or!; simplify_eq; done);
    destruct q; cbn in Hq, Hp; destruct_and?; done.
Qed.

(** C18: a finished job is final.  Once a job is completed or cancelled, no
    history changes its row in any column (its result in particular) until a
    purge removes it: no late completion, failure, reaper pass, cancellation
    or retry can. *)
Theorem finished_jobs_frozen l db id r :
  db_ok db → Forall event_req_ok l → db_jobs db !! id = Some r →
  jr_status r = as_str Completed ∨ jr_status r = as_str Cancelled →
  Forall (λ ev, ¬ purges ev) l →
  db_jobs (replay l db) !! id = Some r.
Proof.
  intros Hok Hl Hr Hs. revert db Hok Hr. induction Hl as [|ev l Hev Hl IH]; intros db Hok Hr Hp;
    [done|].
  apply Forall_cons in Hp as [Hp Hps]. cbn. apply IH; [by apply apply_event_ok| |done].
  by apply event_finished.
Qed.

Lemma run_db_ok {A} es (p : prog DbReq A) db :
  thread_ok (Thread p) → db_ok db → db_ok (run_db es p db).2.
Proof.
  intros Hp Hok. assert (db_ok (run (answer es) p (0%nat, db)).2.2) as HI.
  - apply (run_invariant (answer es) (λ A (q : DbReq A), req_ok q) (λ s, db_ok s.2)); [|done..].
    intros B q [i d] Hq Hd. unfold answer.
    pose proof (exec_db_ok q (es i) d Hq Hd). by destruct (exec q (es i) d).
  - unfold run_db. by destruct (run _ _ _) as [? [? ?]].
Qed.

Lemma replay_keeps l db id r :
  db_ok db → Forall event_req_ok l → Forall (λ ev, ¬ purges ev) l →
  db_jobs db !! id = Some r →
  ∃ r', db_jobs (replay l db) !! id = Some r' ∧ row_frame r' = row_frame r.
Proof.
  intros Hok Hl. revert db r Hok. induction Hl as [|ev l Hev Hl IH]; intros db r Hok Hp Hr;
    [by exists r|].
  apply Forall_cons in Hp as [Hp Hps].
  destruct (event_keeps ev db id r Hok Hr Hp) as [r1 Hr1].
  destruct (IH _ r1 (apply_event_ok ev db Hev Hok) Hps Hr1) as (r' & Hr' & Hf).
  exists r'. split; [done|]. rewrite Hf. by eapply event_frame.
Qed.

(** The job an accepted keyed submission leaves in the table. *)
Lemma submitted_row es db n sub key :
  db_ok db → quiet es → submittable n → nj_idempotency_key n = Some key →
  (∀ i, db_jobs db !! env_uuid (es i) = None) →
  (run_db es (submit n) db).1 = Some (Ok sub) →
  ∃ r, db_jobs (run_db es (submit n) db).2 !! job_id (sub_job sub) = Some r ∧
    jr_queue r = nj_queue n ∧ jr_idempotency_key r = Some key.
Proof.
  intros Hok Hq Hn Hkey Hfresh Hsub.
  destruct (run_submit es db n Hq Hok Hn) as [Hold Hnew]. rewrite Hkey in *.
  destruct (rows_where (has_key (nj_queue n) key) (db_jobs db)) as [|r rows] eqn:Hrows.
  - rewrite Hnew in Hsub |- *; try done; clear Hold Hnew;
      try (intros key' id r [= <-] Hr Hrq Hrk;
           assert (r ∈ rows_where (has_key (nj_queue n) key) (db_jobs db)) as Hin
             by (apply elem_of_rows_where; rewrite has_key_spec; eauto);
           rewrite Hrows in Hin; by apply elem_of_nil in Hin).
    cbn in Hsub. simplify_eq. eexists. cbn. rewrite lookup_insert_eq. by split_and!.
  - assert (r ∈ rows_where (has_key (nj_queue n) key) (db_jobs db)) as Hin
      by (rewrite Hrows; set_solver).
    apply elem_of_rows_where in Hin as [Hk [id Hr]]. apply has_key_spec in Hk as [Hrq Hrk].
    destruct (db_ok_status _ _ _ Hok Hr) as (s & Hs & _).
    rewrite (Hold key id r s) in Hsub |- * by done. cbn in *. simplify_eq. cbn.
    exists r. rewrite ensured_jobs, (ok_keyed _ Hok _ _ Hr). by split_and!.
Qed.

(** C14: idempotency over time.  After a submission under an idempotency key
    was accepted, and as long as the job has not been purged, every later
    submission to the same queue under the same key returns that same job as
    not created, and leaves the jobs table unchanged, whatever happened in
    between and whatever the later submission says. *)
Theorem submit_idempotent es db n sub l es' n' key :
  db_ok db → quiet es → submittable n → nj_idempotency_key n = Some key →
  (∀ i, db_jobs db !! env_uuid (es i) = None) →
  (run_db es (submit n) db).1 = Some (Ok sub) →
  Forall event_req_ok l → Forall (λ ev, ¬ purges ev) l →
  quiet es' → submittable n' → nj_queue n' = nj_queue n → nj_idempotency_key n' = Some key →
  let db2 := replay l (run_db es (submit n) db).2 in
  ∃ job, (run_db es' (submit n') db2).1 = Some (Ok (mkSubmission job false)) ∧
    job_id job = job_id (sub_job sub) ∧
    db_jobs (run_db es' (submit n') db2).2 = db_jobs db2.
Proof.
  intros Hok Hq Hn Hkey Hfresh Hsub Hl Hnp Hq' Hn' Hqueue Hkey' db2.
  destruct (submitted_row es db n sub key) as (r & Hr & Hrq & Hrk); [done..|].
  assert (db_ok (run_db es (submit n) db).2) as Hok1.
  { apply run_db_ok; [|done]. by apply (pg_store_reqs (Submit n)). }
  destruct (replay_keeps l _ _ r Hok1 Hl Hnp Hr) as (r2 & Hr2 & (_&Hq2&Hk2&_)%row_frame_eq).
  pose proof (replay_ok l _ Hl Hok1) as Hok2. fold db2 in Hok2, Hr2.
  destruct (db_ok_status _ _ _ Hok2 Hr2) as (s & Hs & _).
  destruct (run_submit es' db2 n' Hq' Hok2 Hn') as [Hold _].
  rewrite (Hold key _ r2 s) by (done || congruence).
  exists (job_of_row r2 s). cbn. split; [done|]. split; [|apply ensured_jobs].
  by apply (ok_keyed _ Hok2).
Qed.

End concurrency.
