(* ===== verification/Liveness.v ===== *)
(** * Every job comes to an end

    Infinite executions of the concurrent system of [Concurrency]: any number
    of clients start calls, drop them, die, and meet any fault.  Once no job
    is submitted or retried any more, and as long as the workers keep polling
    and the reaper keeps sweeping (the fairness of the schedule), the queue
    drains: after some point every job left in the table is finished, for
    good.  The proof is a measure on the jobs table, which no request
    increases and which each grant or reap decreases. *)

From S2P Require Import Prelude Prog Externals Status Error Model Row Float64 Backoff.
From S2P Require Import Sql Statements Store PgStore Lifecycle Invariant Integrity StoreProps.
From S2P Require Import Concurrency.
From stdpp Require Import options.

Section liveness.
Context `{X : Externals}.

(** ** The work left in a job *)

Definition status_finished (s : JobStatus) : bool :=
  match s with
  | Completed | Failed | Status.Cancelled | DeadLettered => true
  | Queued | Scheduled | Retrying | Processing => false
  end.

Definition row_finished (r : JobRow) : Prop :=
  ∃ s, jr_status r = as_str s ∧ status_finished s = true.

(** The grants and the endings a job can still see: two for each attempt left,
    and one for a lease that is out. *)
Definition row_work (r : JobRow) : nat :=
  let left := (2 * Z.to_nat (jr_max_attempts r - jr_attempts r))%nat in
  if String.eqb (jr_status r) "processing" then S left
  else if str_in (jr_status r) ["queued"; "scheduled"; "retrying"]%string then left
  else 0%nat.

Definition work_at (m : gmap Uuid JobRow) (id : Uuid) : nat :=
  match m !! id with Some r => row_work r | None => 0%nat end.

(** The work of a table whose jobs are among [ids]. *)
Definition work (ids : list Uuid) (m : gmap Uuid JobRow) : nat :=
  sum_list_with (work_at m) ids.

Lemma row_work_status s r :
  jr_status r = as_str s →
  row_work r =
    match s with
    | Queued | Scheduled | Retrying => 2 * Z.to_nat (jr_max_attempts r - jr_attempts r)
    | Processing => S (2 * Z.to_nat (jr_max_attempts r - jr_attempts r))
    | _ => 0
    end%nat.
Proof. unfold row_work. intros ->. by destruct s. Qed.

Lemma row_work_0 s r : row_ok s r → row_work r = 0%nat → row_finished r.
Proof.
  intros Hok. rewrite (row_work_status s) by apply Hok. exists s. split; [apply Hok|].
  pose proof (row_attempt_left _ _ Hok). destruct s; cbn in *; try done; lia.
Qed.

Lemma row_finished_work r : row_finished r → row_work r = 0%nat.
Proof. intros (s & Hs & Hf). rewrite (row_work_status s) by done. by destruct s. Qed.

(** The request of an event brings no new work. *)
Definition new_work (ev : event) : Prop :=
  match ev with Event (QInsertJob _) _ | Event (QRetry _) _ => True | _ => False end.

(** A job that is where it was: no lease granted, none ended. *)
Definition same_place (r r' : JobRow) : Prop :=
  jr_status r' = jr_status r ∧ jr_attempts r' = jr_attempts r ∧ row_frame r' = row_frame r.

Lemma row_step_work now ev s r r' :
  row_step now ev (Some r) (Some r') → row_ok s r → ev ≠ EvRequeue →
  same_place r r' ∨ (row_work r' < row_work r)%nat.
Proof.
  intros Hstep Hok Hev. pose proof (row_attempts _ _ Hok) as Ha.
  pose proof (row_attempt_left _ _ Hok) as Hleft.
  rewrite (row_work_status s r) by apply Hok.
  inversion Hstep; subst; try done;
    repeat match goal with
    | H : holds_lease _ r = true |- _ => apply holds_lease_spec in H as [_ H]
    | H : expired _ r = true |- _ => apply expired_spec in H as [H _]
    end;
    match goal with H : jr_status r = as_str ?s0 |- _ =>
      pose proof (row_ok_status _ _ _ Hok H); subst end;
    unfold row_work; cbn -[Nat.mul];
    first [ right; lia | by left
          | right; destruct s; cbn -[Nat.mul] in *; try done; try specialize (Hleft eq_refl); lia ].
Qed.

(** One request, on one row. *)
Lemma event_work ev db id :
  db_ok db → ¬ new_work ev →
  (work_at (db_jobs (apply_event ev db)) id ≤ work_at (db_jobs db) id)%nat ∧
  ∀ r, db_jobs db !! id = Some r →
    (∃ r', db_jobs (apply_event ev db) !! id = Some r' ∧ same_place r r') ∨
    (work_at (db_jobs (apply_event ev db)) id < row_work r)%nat ∨ row_finished r.
Proof.
  intros Hok Hnew. destruct ev as [A q env]. cbn [apply_event]. unfold work_at.
  destruct (exec_jobs_step q env db (ok_keyed _ Hok) id) as [->|(ev & Hev & Hstep)].
  { split; [done|]. intros r ->. left. exists r. by repeat split. }
  destruct (db_jobs db !! id) as [r|] eqn:Hr.
  - destruct (db_ok_status _ _ _ Hok Hr) as (s & Hs & Hrow).
    destruct (db_jobs (exec q env db).2 !! id) as [r'|].
    + assert (ev ≠ EvRequeue) as Hne
        by (intros ->; destruct q; cbn in *; destruct_and?; done).
      destruct (row_step_work _ _ _ _ _ Hstep Hrow Hne) as [Hp|Hlt].
      * pose proof Hp as (Hst & Hat & Hf). pose proof (row_frame_eq _ _ Hf) as (_&_&_&Hm).
        split; [unfold row_work; by rewrite Hst, Hat, Hm|]. intros ? [= <-]. left. eauto.
      * split; [lia|]. intros ? [= <-]. right. by left.
    + split; [lia|]. intros ? [= <-]. right. right.
      inversion Hstep as [| | | | | | | | | | | |? cutoff Hp]; subst.
      apply purgeable_spec in Hp as [[Hs'|Hs'] _]; [by exists Completed|by exists Status.Cancelled].
  - exfalso. inversion Hstep; subst. destruct q; cbn in *; destruct_and?; done.
Qed.

(** ** Progress of one statement *)

(** A clock the database can represent, with room for any 32-bit delay. *)
Definition clock_in_range (env : Env) : Prop :=
  pg_ts_min ≤ env_now env < pg_ts_end - 2 ^ 32 * second.

Lemma in_range_add env secs :
  clock_in_range env → 0 ≤ secs < 2 ^ 32 →
  pg_ts_add_secs (env_now env) secs = Ok (env_now env + secs * second).
Proof.
  intros Hb Hsecs. unfold clock_in_range, pg_ts_add_secs, second in *. cbv zeta. case_test; [done|]. lia.
Qed.

(** A worker polls the queue of [r], which is due, not paused and not locked. *)
Definition polls (r : JobRow) (ev : event) (db : Db) : Prop :=
  match ev with
  | Event (TLease _ qs secs) env =>
      env_fault env = NoFault ∧ clock_in_range env ∧ 0 ≤ secs < 2 ^ 32 ∧
      eligible qs (env_now env) db r = true ∧ jr_id r ∉ env_locked env
  | _ => False
  end.

(** The reaper's statement for [r], whose lease has expired. *)
Definition reaps (r : JobRow) (ev : event) : Prop :=
  let due env := env_fault env = NoFault ∧ clock_in_range env ∧
                 expired (env_now env) r = true ∧ jr_id r ∉ env_locked env in
  match ev with
  | Event (QReapRetry limit) env =>
      due env ∧ 1 ≤ limit ∧ jr_attempts r < jr_max_attempts r
  | Event (QReapDead limit) env =>
      due env ∧ 1 ≤ limit ∧ jr_max_attempts r ≤ jr_attempts r ∧ jr_dead_letter r = true
  | Event (QReapFailed limit) env =>
      due env ∧ 1 ≤ limit ∧ jr_max_attempts r ≤ jr_attempts r ∧ jr_dead_letter r = false
  | _ => False
  end.

(** Some job has less work left. *)
Definition progress (m m' : gmap Uuid JobRow) : Prop :=
  ∃ id, is_Some (m !! id) ∧ (work_at m' id < work_at m id)%nat.

Lemma row_step_progress now ev s id r r' (m m' : gmap Uuid JobRow) :
  m !! id = Some r → m' !! id = Some r' → row_ok s r → jr_status r' ≠ jr_status r →
  row_step now ev (Some r) (Some r') → ev ≠ EvRequeue → progress m m'.
Proof.
  intros Hr Hr' Hok Hne Hstep Hev. exists id. unfold work_at. rewrite Hr, Hr'. split; [by eexists|].
  destruct (row_step_work _ _ _ _ _ Hstep Hok Hev) as [[Hst _]|]; done.
Qed.

Lemma polls_progress r id ev db :
  db_ok db → db_jobs db !! id = Some r → polls r ev db →
  progress (db_jobs db) (db_jobs (apply_event ev db)).
Proof.
  intros Hok Hr Hp. destruct ev as [A q env]. destruct q; try done.
  destruct Hp as (Hf & Hb & Hsecs & He & Hl). cbn [apply_event exec]. unfold exec_tx. rewrite Hf.
  destruct (lease_candidate qs env db) as [r1|] eqn:Hc.
  2:{ destruct Hl. by apply (proj1 (lease_candidate_None qs env db) Hc id r). }
  destruct (tx_lease_candidate worker_id qs lease_secs env db r1 Hok Hc) as (j & db' & Ht).
  { eexists. by apply in_range_add. }
  unfold run_tx. rewrite Ht. cbn [snd].
  pose proof (tx_lease_step env db (ok_keyed _ Hok) _ _ _ _ _ Ht) as Hstep.
  apply tx_lease_inl in Ht as (r2 & r' & Hc' & Hr' & _ & _ & _ & ->).
  assert (r2 = r1) as -> by congruence. clear Hc'.
  apply lease_candidate_Some in Hc as ([k Hk] & He1 & _).
  pose proof (ok_keyed _ Hok _ _ Hk) as Hid. subst k.
  destruct (db_ok_status _ _ _ Hok Hk) as (s & Hs & Hrow).
  apply eligible_leaseable in He1 as (s1 & Hs1 & Hl1 & _).
  assert (jr_status r' ≠ jr_status r1) as Hne by (subst r'; rewrite Hs1; by destruct s1).
  destruct (Hstep (jr_id r1)) as [Heq|(ev & -> & Hev)];
    cbn in *; rewrite lookup_insert_eq in *; rewrite Hk in *; [congruence|].
  eapply row_step_progress; [exact Hk|apply lookup_insert_eq|exact Hrow|exact Hne|exact Hev|done].
Qed.

(** A reaper's statement that selects the rows of [P] and rewrites them by
    [f] moves one, if there is one. *)
Lemma reap_select_head P limit env db id r :
  1 ≤ limit → db_jobs db !! id = Some r → P r = true → jr_id r ∉ env_locked env →
  ∃ rows r1, reap_select P limit env db = Ok rows ∧ r1 ∈ rows.
Proof.
  intros Hlim Hr HP Hl. unfold reap_select, sql_limit.
  destruct (Z.ltb_spec limit 0); [lia|].
  set (key := λ r, [default 0 (jr_lease_expires_at r); env_pos env (jr_id r)]).
  assert (r ∈ skip_locked env (order_by key (rows_where P (db_jobs db)))) as Hin.
  { rewrite elem_of_skip_locked, elem_of_order_by, elem_of_rows_where. eauto. }
  destruct (skip_locked env _) as [|r1 rows] eqn:Hrows; [by apply elem_of_nil in Hin|].
  exists (take (Z.to_nat limit) (r1 :: rows)), r1. split; [done|].
  destruct (Z.to_nat limit) eqn:Hn; [lia|]. cbn. set_solver.
Qed.

Lemma reap_progress {A} (q : DbReq A) P f limit env db m' id r :
  db_ok db → db_jobs db !! id = Some r → P r = true → jr_id r ∉ env_locked env → 1 ≤ limit →
  (∀ r, P r = true → expired (env_now env) r = true) →
  (∀ r, jr_id (f r) = jr_id r ∧ jr_status (f r) ≠ as_str Processing) →
  (∀ id ev, req_event q id ev → ev = EvReap) →
  jobs_step q (env_now env) (db_jobs db) m' →
  (∀ rows, reap_select P limit env db = Ok rows → m' = replace_rows (f <$> rows) (db_jobs db)) →
  progress (db_jobs db) m'.
Proof.
  intros Hok Hr HP Hl Hlim Hexp Hf Hq Hstep Hm.
  destruct (reap_select_head P limit env db id r) as (rows & r1 & Hsel & Hr1); [done..|].
  destruct (reap_select_elem _ _ _ _ _ _ Hsel Hr1)
    as ([Hs1 _]%Hexp%expired_spec & [k Hk] & _).
  pose proof (ok_keyed _ Hok _ _ Hk) as Hid1. subst k.
  destruct (db_ok_status _ _ _ Hok Hk) as (s & Hs & Hrow).
  specialize (Hm _ Hsel).
  destruct (replace_rows_lookup (f <$> rows) (db_jobs db) (jr_id r1))
    as [[_ Hno]|(r' & Hr' & _ & Hr'')].
  { destruct (Hno (f r1)); [by apply list_elem_of_fmap_2|apply Hf]. }
  rewrite <- Hm in Hr''. apply list_elem_of_fmap in Hr' as (r0 & -> & _).
  assert (jr_status (f r0) ≠ jr_status r1) as Hne by (rewrite Hs1; apply Hf).
  destruct (Hstep (jr_id r1)) as [Heq|(ev & Hev & Hst)]; rewrite Hr'', Hk in *; [congruence|].
  apply Hq in Hev as ->. by eapply row_step_progress.
Qed.

(** In range, the reaper's first statement cannot fail. *)
Lemma reap_retry_commits limit env db rows :
  db_ok db → clock_in_range env →
  reap_select (λ r, expired (env_now env) r && (jr_attempts r <? jr_max_attempts r)) limit env db
    = Ok rows →
  sql_reap_retry limit env db =
    Ok (jr_id <$> rows, db <| db_jobs ::= replace_rows
      ((λ r, set_retrying (lease_expired_error r)
               (env_now env + retry_delay r * second) (env_now env) r) <$> rows) |>).
Proof.
  intros Hok Hb Hsel. unfold sql_reap_retry. rewrite Hsel. cbn [res_bind].
  rewrite (collect_results_Ok _ (λ r, set_retrying (lease_expired_error r)
               (env_now env + retry_delay r * second) (env_now env) r)); [done|].
  intros r' Hr'. destruct (reap_select_elem _ _ _ _ _ _ Hsel Hr') as (_ & [k' Hk'] & _).
  destruct (db_ok_status _ _ _ Hok Hk') as (s & _ & Hrow). unfold reap_retry_row.
  rewrite (reap_delay_exact _ _ Hrow). cbn [res_bind]. rewrite in_range_add; [done|done|].
  unfold retry_delay. pose proof (row_backoff _ _ Hrow). pose proof (row_backoff_max _ _ Hrow).
  unfold i32_max in *.
  assert (0 < 2 ^ (Z.max (jr_attempts r') 1 - 1)) by (apply Z.pow_pos_nonneg; lia). nia.
Qed.

Lemma reaps_progress r id ev db :
  db_ok db → db_jobs db !! id = Some r → reaps r ev →
  progress (db_jobs db) (db_jobs (apply_event ev db)).
Proof.
  intros Hok Hr Hp. destruct ev as [A q env].
  pose proof (exec_jobs_step q env db (ok_keyed _ Hok)) as Hstep.
  destruct q; try done; cbn [apply_event exec] in *;
    [destruct Hp as ((Hf & Hb & He & Hl) & Hlim & Ha)
    |destruct Hp as ((Hf & Hb & He & Hl) & Hlim & Ha & Hd)..];
    unfold exec_stmt in *; rewrite Hf in *.
  - eapply (reap_progress (QReapRetry limit)
      (λ r, expired (env_now env) r && (jr_attempts r <? jr_max_attempts r)) (λ r, set_retrying
        (lease_expired_error r) (env_now env + retry_delay r * second) (env_now env) r));
      [exact Hok|exact Hr|rewrite He; cbn; lia|exact Hl|exact Hlim|
       by intros ? [??]%andb_true_iff|done|by intros|exact Hstep|].
    intros rows Hsel. by rewrite (reap_retry_commits limit env db rows Hok Hb Hsel).
  - eapply (reap_progress (QReapDead limit)
      (λ r, expired (env_now env) r && (jr_max_attempts r <=? jr_attempts r) && jr_dead_letter r)
      (λ r, set_dead_lettered (lease_expired_error r) (env_now env) r));
      [exact Hok|exact Hr|rewrite He, Hd; cbn; lia|exact Hl|exact Hlim|
       by intros ? [[??]%andb_true_iff ?]%andb_true_iff|done|by intros|exact Hstep|].
    intros rows Hsel. unfold sql_reap_dead. by rewrite Hsel.
  - eapply (reap_progress (QReapFailed limit)
      (λ r, expired (env_now env) r && (jr_max_attempts r <=? jr_attempts r)
            && negb (jr_dead_letter r))
      (λ r, set_failed (lease_expired_error r) (env_now env) r));
      [exact Hok|exact Hr|rewrite He, Hd; cbn; lia|exact Hl|exact Hlim|
       by intros ? [[??]%andb_true_iff ?]%andb_true_iff|done|by intros|exact Hstep|].
    intros rows Hsel. unfold sql_reap_failed. by rewrite Hsel.
Qed.

(** ** Sums *)

Lemma sum_list_with_le {A} (f g : A → nat) l :
  (∀ x, x ∈ l → f x ≤ g x)%nat → (sum_list_with f l ≤ sum_list_with g l)%nat.
Proof.
  induction l as [|x l IH]; intros H; cbn; [done|].
  pose proof (H x ltac:(set_solver)). specialize (IH ltac:(set_solver)). lia.
Qed.

Lemma sum_list_with_lt {A} (f g : A → nat) l x :
  (∀ x, x ∈ l → f x ≤ g x)%nat → x ∈ l → (f x < g x)%nat →
  (sum_list_with f l < sum_list_with g l)%nat.
Proof.
  induction l as [|y l IH]; intros H Hx Hlt; [by apply elem_of_nil in Hx|]. cbn.
  pose proof (H y ltac:(set_solver)).
  assert (∀ x, x ∈ l → f x ≤ g x)%nat as Hl by set_solver.
  apply elem_of_cons in Hx as [->|Hx]; [pose proof (sum_list_with_le f g l Hl)|specialize (IH Hl Hx Hlt)];
    lia.
Qed.

Lemma sum_list_with_pos {A} (f : A → nat) l :
  sum_list_with f l ≠ 0%nat → ∃ x, x ∈ l ∧ f x ≠ 0%nat.
Proof.
  induction l as [|x l IH]; cbn; [done|]. intros H.
  destruct (decide (f x = 0%nat)) as [Hx|]; [|exists x; set_solver].
  destruct IH as (y & ? & ?); [lia|]. exists y. set_solver.
Qed.

(** ** Infinite executions *)

(** An execution takes a step of the system at each instant, or stutters. *)
Definition execution (σ : nat → system) (evs : nat → option event) : Prop :=
  ∀ n, (evs n = None ∧ σ (S n) = σ n) ∨ sys_step (σ n) (evs n) (σ (S n)).

(** From a sound state, with no new work: nobody submits or retries. *)
Record draining (σ : nat → system) (evs : nat → option event) : Prop := {
  dr_exec : execution σ evs;
  dr_db : db_ok (σ 0%nat).1;
  dr_threads : Forall thread_ok (σ 0%nat).2;
  dr_no_new : ∀ n ev, evs n = Some ev → ¬ new_work ev;
}.

(** The fairness of the schedule.  A job that waits does not wait for ever
    without a worker polling for it when it could be leased, and a lease does
    not stay out for ever without the reaper coming by after its expiry. *)
Definition moved (id : Uuid) (r : JobRow) (m : gmap Uuid JobRow) : Prop :=
  ∀ r', m !! id = Some r' → ¬ same_place r r'.

Definition answered_by (σ : nat → system) (evs : nat → option event)
    (P : JobRow → event → Db → Prop) (n : nat) (id : Uuid) (r : JobRow) : Prop :=
  ∃ k, (n ≤ k)%nat ∧
    (moved id r (db_jobs (σ k).1) ∨
     ∃ r' ev, db_jobs (σ k).1 !! id = Some r' ∧ evs k = Some ev ∧ P r' ev (σ k).1).

Record fair (σ : nat → system) (evs : nat → option event) : Prop := {
  fair_polled : ∀ n id r s, db_jobs (σ n).1 !! id = Some r → jr_status r = as_str s →
    is_leaseable s = true → answered_by σ evs polls n id r;
  fair_reaped : ∀ n id r, db_jobs (σ n).1 !! id = Some r → jr_status r = as_str Processing →
    answered_by σ evs (λ r ev _, reaps r ev) n id r;
}.

Section drain.
Context (σ : nat → system) (evs : nat → option event) (Hdr : draining σ evs).
#[local] Set Default Proof Using "All".

Let db n := (σ n).1.
Let ids := elements (dom (db_jobs (db 0))).
Let W n := work ids (db_jobs (db n)).

Lemma execution_ok n : db_ok (db n) ∧ Forall thread_ok (σ n).2.
Proof.
  induction n as [|n [IHdb IHts]]; [by split; apply Hdr|].
  destruct (dr_exec _ _ Hdr n) as [[_ Heq]|Hstep]; unfold db in *; [by rewrite Heq|].
  destruct (sys_step_ok _ _ _ Hstep IHts) as (Hts & Hev & Heq). split; [|done].
  rewrite Heq. destruct (evs n) as [ev|]; [by apply apply_event_ok|done].
Qed.

Lemma execution_db n :
  db (S n) = match evs n with Some ev => apply_event ev (db n) | None => db n end.
Proof.
  destruct (execution_ok n) as [_ Hts]. unfold db.
  destruct (dr_exec _ _ Hdr n) as [[-> ->]|Hstep]; [done|].
  by destruct (sys_step_ok _ _ _ Hstep Hts) as (_ & _ & ->).
Qed.

Lemma step_work n id :
  (work_at (db_jobs (db (S n))) id ≤ work_at (db_jobs (db n)) id)%nat ∧
  ∀ r, db_jobs (db n) !! id = Some r →
    (∃ r', db_jobs (db (S n)) !! id = Some r' ∧ same_place r r') ∨
    (work_at (db_jobs (db (S n))) id < row_work r)%nat ∨ row_finished r.
Proof.
  rewrite execution_db. destruct (evs n) as [ev|] eqn:Hev.
  - apply event_work; [apply execution_ok|by apply (dr_no_new _ _ Hdr n)].
  - split; [done|]. intros r Hr. left. exists r. by repeat split.
Qed.

Lemma work_le n m id :
  (n ≤ m)%nat → (work_at (db_jobs (db m)) id ≤ work_at (db_jobs (db n)) id)%nat.
Proof. induction 1 as [|m _ IH]; [done|]. destruct (step_work m id). lia. Qed.

Lemma total_work_le n m : (n ≤ m)%nat → (W m ≤ W n)%nat.
Proof. intros Hn. apply sum_list_with_le. intros id _. by apply work_le. Qed.

(** No job appears. *)
Lemma ids_cover n id : is_Some (db_jobs (db n) !! id) → id ∈ ids.
Proof.
  induction n as [|n IH]; intros [r Hr].
  - unfold ids. apply elem_of_elements. by apply elem_of_dom_2 in Hr.
  - apply IH. rewrite execution_db in Hr. destruct (evs n) as [[A q env]|] eqn:Hev; [|by eexists].
    destruct (execution_ok n) as [Hok _]. cbn in Hr.
    destruct (jobs_step_origin _ _ _ _ _ _ (exec_jobs_step q env _ (ok_keyed _ Hok)) Hr)
      as [(r0 & Hr0 & _)|(nj & Hnj & Hq)]; [by eexists|].
    destruct (dr_no_new _ _ Hdr n _ Hev). by destruct q; cbn in Hq; destruct_and?.
Qed.

(** A job that is not finished stays where it is, or has less work left. *)
Lemma moved_work n m id r :
  (n ≤ m)%nat → db_jobs (db n) !! id = Some r → ¬ row_finished r →
  (∃ r', db_jobs (db m) !! id = Some r' ∧ same_place r r') ∨
  (work_at (db_jobs (db m)) id < row_work r)%nat.
Proof.
  intros Hn Hr Hnf. induction Hn as [|m Hnm IH]; [left; exists r; by repeat split|].
  destruct IH as [(r1 & Hr1 & Hst1 & Hat1 & Hf1)|Hlt].
  - destruct (step_work m id) as [_ H]. pose proof (row_frame_eq _ _ Hf1) as (_&_&_&Hm1).
    destruct (H r1 Hr1) as [(r2 & Hr2 & Hst2 & Hat2 & Hf2)|[Hlt|Hfin]].
    + left. exists r2. split; [done|]. split_and!; congruence.
    + right. replace (row_work r) with (row_work r1); [done|].
      unfold row_work. by rewrite Hst1, Hat1, Hm1.
    + destruct Hnf. unfold row_finished in *. by rewrite <- Hst1.
  - right. destruct (step_work m id). lia.
Qed.

Lemma progress_work n m :
  (n ≤ m)%nat → progress (db_jobs (db m)) (db_jobs (db (S m))) → (W (S m) < W n)%nat.
Proof.
  intros Hn (id & Hid & Hlt). pose proof (total_work_le n m Hn).
  enough (W (S m) < W m)%nat by lia.
  apply (sum_list_with_lt _ _ _ id); [|by apply ids_cover in Hid|done].
  intros k _. apply work_le. lia.
Qed.

(** Whoever answers for a job, some job has less work left afterwards. *)
Lemma answered_progress (P : JobRow → event → Db → Prop) n id r :
  (∀ id r ev d, db_ok d → db_jobs d !! id = Some r → P r ev d →
     progress (db_jobs d) (db_jobs (apply_event ev d))) →
  db_jobs (db n) !! id = Some r → ¬ row_finished r → answered_by σ evs P n id r →
  ∃ k, (W k < W n)%nat.
Proof.
  intros HP Hr Hnf (k & Hk & [Hmoved|(r' & ev & Hr' & Hev & Hp)]).
  - exists k. destruct (moved_work n k id r Hk Hr Hnf) as [(r' & Hr' & Hsame)|Hlt];
      [by destruct (Hmoved r')|].
    apply (sum_list_with_lt _ _ _ id).
    + intros i _. by apply work_le.
    + apply (ids_cover n). by eexists.
    + unfold work_at at 2. by rewrite Hr.
  - exists (S k). apply (progress_work n k Hk). rewrite (execution_db k), Hev.
    apply (HP id r' ev); [apply execution_ok|done|done].
Qed.

Lemma work_decreases n : fair σ evs → W n ≠ 0%nat → ∃ k, (W k < W n)%nat.
Proof.
  intros Hfair (id & _ & Hid)%sum_list_with_pos. unfold work_at in Hid.
  destruct (db_jobs (db n) !! id) as [r|] eqn:Hr; [|done].
  destruct (execution_ok n) as [Hok _]. destruct (db_ok_status _ _ _ Hok Hr) as (s & Hs & Hrow).
  assert (¬ row_finished r) as Hnf by (by intros ?%row_finished_work).
  rewrite (row_work_status s r Hs) in Hid.
  destruct (is_leaseable s) eqn:Hl.
  - eapply (answered_progress polls); [by intros; eapply polls_progress|done|done|].
    by eapply fair_polled.
  - assert (s = Processing) as -> by (by destruct s).
    eapply (answered_progress (λ r ev _, reaps r ev)); [by intros; eapply reaps_progress|done|done|].
    by eapply fair_reaped.
Qed.

Lemma work_vanishes : fair σ evs → ∃ n, W n = 0%nat.
Proof.
  intros Hfair. enough (∀ w n, (W n ≤ w)%nat → ∃ n, W n = 0%nat) as H by by eapply (H (W 0%nat) 0%nat).
  intros w. induction w as [|w IH]; intros n Hw; [exists n; lia|].
  destruct (decide (W n = 0%nat)) as [|Hne]; [by exists n|].
  destruct (work_decreases n Hfair Hne) as [k Hk]. apply (IH k). lia.
Qed.

Lemma no_work_finished n m id r :
  W n = 0%nat → (n ≤ m)%nat → db_jobs (db m) !! id = Some r → row_finished r.
Proof.
  intros H0 Hm Hr. destruct (execution_ok m) as [Hok _].
  destruct (db_ok_status _ _ _ Hok Hr) as (s & _ & Hrow).
  apply (row_work_0 s); [done|].
  pose proof (total_work_le n m Hm) as HW. rewrite H0 in HW.
  destruct (decide (row_work r = 0%nat)) as [|Hne]; [done|].
  enough (sum_list_with (λ _, 0%nat) ids < W m)%nat by lia.
  apply (sum_list_with_lt _ _ _ id); [lia|apply (ids_cover m); by eexists|].
  unfold work_at. rewrite Hr. lia.
Qed.
End drain.

(** C7: liveness of the whole system.  Whatever the clients do and however
    their calls interleave, die and fail, once nothing is submitted or retried
    any more, and provided the workers keep polling for every waiting job and
    the reaper keeps coming by for every lease that runs out, there is a
    moment from which on every job in the table is completed, failed,
    dead-lettered or cancelled: none waits for ever, and none is retried for
    ever. *)
Theorem queue_drains σ evs :
  draining σ evs → fair σ evs →
  ∃ n, ∀ m id r, (n ≤ m)%nat → db_jobs (σ m).1 !! id = Some r → row_finished r.
Proof.
  intros Hdr Hfair. destruct (work_vanishes σ evs Hdr Hfair) as [n Hn].
  exists n. intros m id r. by apply (no_work_finished σ evs Hdr n).
Qed.

End liveness.
