(* ===== verification/Schema.v ===== *)
(** * The schema: the migration as data

    The statements of [crates/storage/migrations/0001_init.sql] as a value
    (tables, columns, constraints, indexes), what they mean for the rows of a
    table, and that the tables of [Sql] satisfy them in every reachable state.
    The statements of [Statements] check a constraint only where it can fail,
    in the INSERT of a job: that this loses nothing is proved here. *)

From S2P Require Import Prelude Prog Externals Status Error Model Row Float64 Backoff.
From S2P Require Import Sql Statements Store PgStore Lifecycle Invariant Integrity StoreProps.
From S2P Require Import Concurrency.
From stdpp Require Import options.

Section schema.
Context `{X : Externals}.

(** ** The language of the migration *)

Inductive sql_type :=
| TEXT | BOOLEAN | INTEGER | BIGSERIAL | TIMESTAMPTZ | UUID | JSONB | TEXT_ARRAY.

(** The DEFAULT expressions. *)
Inductive default_expr :=
| DText (s : string) | DInteger (z : Z) | DBoolean (b : bool)
| DNow                    (* now() *)
| DRandomUuid             (* gen_random_uuid() *)
| DNextval                (* the sequence of a BIGSERIAL *)
| DEmptyObject.           (* '{}'::jsonb *)

(** The conditions of CHECK and of partial indexes. *)
Inductive condition :=
| CIn (column : string) (texts : list string)
| CAtLeast (column : string) (n : Z)
| CNotNull (column : string).

Record column := mkColumn {
  c_name : string;
  c_type : sql_type;
  c_not_null : bool;
  c_default : option default_expr;
  c_check : option condition;
  c_references : option (string * string);      (* REFERENCES ... ON DELETE CASCADE *)
}.

Record table := mkTable {
  t_name : string;
  t_key : string;                               (* the PRIMARY KEY column *)
  t_columns : list column;
}.

Record index := mkIndex {
  i_name : string;
  i_unique : bool;
  i_table : string;
  i_columns : list string;
  i_where : option condition;
}.

Definition nullable (name : string) (ty : sql_type) : column :=
  mkColumn name ty false None None None.
Definition not_null (name : string) (ty : sql_type) (default : option default_expr) : column :=
  mkColumn name ty true default None None.
Definition checked (name : string) (ty : sql_type) (default : default_expr) (c : condition)
  : column := mkColumn name ty true (Some default) (Some c) None.
Definition references (name : string) (ty : sql_type) (other : string * string) : column :=
  mkColumn name ty true None None (Some other).

(** ** The migration *)

Definition queues_table : table := mkTable "queues" "name"
  [ not_null "name" TEXT None;
    not_null "paused" BOOLEAN (Some (DBoolean false));
    nullable "max_concurrency" INTEGER;
    not_null "created_at" TIMESTAMPTZ (Some DNow) ].

Definition jobs_table : table := mkTable "jobs" "id"
  [ not_null "id" UUID (Some DRandomUuid);
    references "queue" TEXT ("queues", "name")%string;
    not_null "job_type" TEXT None;
    not_null "payload" JSONB (Some DEmptyObject);
    checked "status" TEXT (DText "queued")
      (CIn "status" ["queued"; "scheduled"; "processing"; "completed"; "failed"; "retrying";
                     "cancelled"; "dead_lettered"]%string);
    not_null "priority" INTEGER (Some (DInteger 0));
    nullable "idempotency_key" TEXT;
    checked "max_attempts" INTEGER (DInteger 5) (CAtLeast "max_attempts" 1);
    not_null "attempts" INTEGER (Some (DInteger 0));
    not_null "run_at" TIMESTAMPTZ (Some DNow);
    checked "timeout_secs" INTEGER (DInteger 300) (CAtLeast "timeout_secs" 1);
    checked "backoff_base_secs" INTEGER (DInteger 2) (CAtLeast "backoff_base_secs" 1);
    checked "backoff_max_secs" INTEGER (DInteger 300) (CAtLeast "backoff_max_secs" 1);
    not_null "dead_letter" BOOLEAN (Some (DBoolean true));
    nullable "locked_by" UUID;
    nullable "locked_at" TIMESTAMPTZ;
    nullable "lease_expires_at" TIMESTAMPTZ;
    nullable "last_error" TEXT;
    nullable "result" JSONB;
    not_null "metadata" JSONB (Some DEmptyObject);
    nullable "correlation_id" TEXT;
    not_null "created_at" TIMESTAMPTZ (Some DNow);
    not_null "updated_at" TIMESTAMPTZ (Some DNow);
    nullable "completed_at" TIMESTAMPTZ ].

Definition job_attempts_table : table := mkTable "job_attempts" "id"
  [ not_null "id" BIGSERIAL (Some DNextval);
    references "job_id" UUID ("jobs", "id")%string;
    not_null "attempt" INTEGER None;
    nullable "worker_id" UUID;
    not_null "started_at" TIMESTAMPTZ (Some DNow);
    nullable "finished_at" TIMESTAMPTZ;
    checked "status" TEXT (DText "running")
      (CIn "status" ["running"; "succeeded"; "failed"; "timeout"]%string);
    nullable "error" TEXT ].

Definition workers_table : table := mkTable "workers" "id"
  [ not_null "id" UUID None;
    not_null "hostname" TEXT None;
    not_null "queues" TEXT_ARRAY None;
    not_null "concurrency" INTEGER None;
    not_null "registered_at" TIMESTAMPTZ (Some DNow);
    not_null "last_heartbeat" TIMESTAMPTZ (Some DNow) ].

Definition dead_letter_jobs_table : table := mkTable "dead_letter_jobs" "id"
  [ not_null "id" UUID None;
    not_null "queue" TEXT None;
    not_null "job_type" TEXT None;
    not_null "payload" JSONB None;
    not_null "attempts" INTEGER None;
    nullable "last_error" TEXT;
    not_null "dead_lettered_at" TIMESTAMPTZ (Some DNow);
    nullable "original_created_at" TIMESTAMPTZ ].

Definition schema : list table :=
  [queues_table; jobs_table; job_attempts_table; workers_table; dead_letter_jobs_table].

(** The indexes; whether a column is DESC has no meaning for the rows. *)
Definition indexes : list index :=
  [ mkIndex "jobs_idem_uniq" true "jobs" ["queue"; "idempotency_key"]
      (Some (CNotNull "idempotency_key"));
    mkIndex "jobs_lease_fetch_idx" false "jobs" ["queue"; "priority"; "run_at"]
      (Some (CIn "status" ["queued"; "scheduled"; "retrying"]));
    mkIndex "jobs_expired_lease_idx" false "jobs" ["lease_expires_at"]
      (Some (CIn "status" ["processing"]));
    mkIndex "jobs_status_queue_idx" false "jobs" ["status"; "queue"] None;
    mkIndex "jobs_created_at_idx" false "jobs" ["created_at"] None;
    mkIndex "job_attempts_job_idx" false "job_attempts" ["job_id"; "attempt"] None;
    mkIndex "workers_heartbeat_idx" false "workers" ["last_heartbeat"] None;
    mkIndex "dlq_queue_idx" false "dead_letter_jobs" ["queue"; "dead_lettered_at"] None ]%string.

(** ** Rows *)

Inductive value :=
| VNull | VText (s : string) | VBool (b : bool) | VInt (z : Z) | VUuid (u : Uuid)
| VTime (t : Timestamp) | VJson (j : Json) | VTexts (l : list string).

Definition sql_row : Type := list (string * value).

Fixpoint get (r : sql_row) (c : string) : value :=
  match r with
  | [] => VNull
  | (c', v) :: r' => if String.eqb c' c then v else get r' c
  end.

Definition has_type (ty : sql_type) (v : value) : bool :=
  match v, ty with
  | VNull, _ | VText _, TEXT | VBool _, BOOLEAN | VInt _, INTEGER | VInt _, BIGSERIAL
  | VUuid _, UUID | VTime _, TIMESTAMPTZ | VJson _, JSONB | VTexts _, TEXT_ARRAY => true
  | _, _ => false
  end.

(** A condition is true, false, or unknown on NULL. *)
Definition condition_value (r : sql_row) (c : condition) : option bool :=
  match c with
  | CIn col texts => match get r col with VText s => Some (str_in s texts) | _ => None end
  | CAtLeast col n => match get r col with VInt z => Some (n <=? z) | _ => None end
  | CNotNull col => Some (match get r col with VNull => false | _ => true end)
  end.

(** CHECK rejects what is false; an index and its uniqueness concern the rows
    where its WHERE is true and no column is NULL. *)
Definition check_passes (r : sql_row) (c : option condition) : bool :=
  match c with
  | Some c => match condition_value r c with Some b => b | None => true end
  | None => true
  end.

Definition indexed (i : index) (r : sql_row) : bool :=
  match i_where i with
  | Some c => match condition_value r c with Some b => b | None => false end
  | None => true
  end && forallb (λ c, match get r c with VNull => false | _ => true end) (i_columns i).

(** ** What the schema demands of the contents of the tables *)

Definition contents : Type := string → list sql_row.

Definition column_ok (rows : contents) (r : sql_row) (c : column) : Prop :=
  (c_not_null c = true → get r (c_name c) ≠ VNull) ∧
  has_type (c_type c) (get r (c_name c)) = true ∧
  check_passes r (c_check c) = true ∧
  match c_references c with
  | None => True
  | Some (t, key) =>
      get r (c_name c) = VNull ∨ ∃ r', r' ∈ rows t ∧ get r' key = get r (c_name c)
  end.

Definition table_ok (rows : contents) (t : table) : Prop :=
  (∀ r, r ∈ rows (t_name t) → r.*1 = c_name <$> t_columns t ∧ Forall (column_ok rows r) (t_columns t)) ∧
  NoDup ((λ r, get r (t_key t)) <$> rows (t_name t)).

Definition index_holds (rows : contents) (i : index) : Prop :=
  i_unique i = true →
  NoDup ((λ r, get r <$> i_columns i) <$> filter (λ r, indexed i r = true) (rows (i_table i))).

Definition satisfies (rows : contents) : Prop :=
  Forall (table_ok rows) schema ∧ Forall (index_holds rows) indexes.

(** ** The tables of [Sql], as contents *)

Definition optional {A} (f : A → value) (o : option A) : value :=
  match o with Some a => f a | None => VNull end.

Definition image_of (t : table) (vs : list value) : sql_row := zip (c_name <$> t_columns t) vs.

Definition queue_values (r : QueueRow) : list value :=
  [ VText (qr_name r); VBool (qr_paused r); optional VInt (qr_max_concurrency r);
    VTime (qr_created_at r) ].
Definition queue_image (r : QueueRow) : sql_row := image_of queues_table (queue_values r).

Definition job_values (r : JobRow) : list value :=
  [ VUuid (jr_id r); VText (jr_queue r); VText (jr_job_type r); VJson (jr_payload r);
    VText (jr_status r); VInt (jr_priority r); optional VText (jr_idempotency_key r);
    VInt (jr_max_attempts r); VInt (jr_attempts r); VTime (jr_run_at r);
    VInt (jr_timeout_secs r); VInt (jr_backoff_base_secs r); VInt (jr_backoff_max_secs r);
    VBool (jr_dead_letter r); optional VUuid (jr_locked_by r); optional VTime (jr_locked_at r);
    optional VTime (jr_lease_expires_at r); optional VText (jr_last_error r);
    optional VJson (jr_result r); VJson (jr_metadata r); optional VText (jr_correlation_id r);
    VTime (jr_created_at r); VTime (jr_updated_at r); optional VTime (jr_completed_at r) ].
Definition job_image (r : JobRow) : sql_row := image_of jobs_table (job_values r).

Definition attempt_values (r : AttemptRow) : list value :=
  [ VInt (ar_id r); VUuid (ar_job_id r); VInt (ar_attempt r); optional VUuid (ar_worker_id r);
    VTime (ar_started_at r); optional VTime (ar_finished_at r); VText (ar_status r);
    optional VText (ar_error r) ].
Definition attempt_image (r : AttemptRow) : sql_row := image_of job_attempts_table (attempt_values r).

Definition worker_values (r : WorkerRow) : list value :=
  [ VUuid (wr_id r); VText (wr_hostname r); VTexts (wr_queues r); VInt (wr_concurrency r);
    VTime (wr_registered_at r); VTime (wr_last_heartbeat r) ].
Definition worker_image (r : WorkerRow) : sql_row := image_of workers_table (worker_values r).

Definition dead_letter_values (r : DeadLetterRow) : list value :=
  [ VUuid (dlr_id r); VText (dlr_queue r); VText (dlr_job_type r); VJson (dlr_payload r);
    VInt (dlr_attempts r); optional VText (dlr_last_error r); VTime (dlr_dead_lettered_at r);
    optional VTime (dlr_original_created_at r) ].
Definition dead_letter_image (r : DeadLetterRow) : sql_row := image_of dead_letter_jobs_table (dead_letter_values r).

Definition rows_of {K R} `{Countable K} (f : R → sql_row) (m : gmap K R) : list sql_row :=
  f <$> (map_to_list m).*2.

Definition image (db : Db) : contents := λ t,
  if String.eqb t "queues" then rows_of queue_image (db_queues db)
  else if String.eqb t "jobs" then rows_of job_image (db_jobs db)
  else if String.eqb t "job_attempts" then rows_of attempt_image (db_job_attempts db)
  else if String.eqb t "workers" then rows_of worker_image (db_workers db)
  else if String.eqb t "dead_letter_jobs" then rows_of dead_letter_image (db_dead_letter_jobs db)
  else [].

Lemma elem_of_rows_of {K R} `{Countable K} (f : R → sql_row) (m : gmap K R) r :
  r ∈ rows_of f m ↔ ∃ k x, m !! k = Some x ∧ r = f x.
Proof.
  unfold rows_of. rewrite list_elem_of_fmap. setoid_rewrite list_elem_of_fmap. split.
  - intros (x & -> & [k x'] & -> & Hin%elem_of_map_to_list). eauto.
  - intros (k & x & Hk & ->). exists x. split; [done|]. exists (k, x). by rewrite elem_of_map_to_list.
Qed.

(** A table is keyed by its primary key. *)
Lemma key_nodup {K R} `{Countable K} (f : R → sql_row) (g : R → K) (h : K → value) key (m : gmap K R) :
  Inj (=) (=) h → (∀ k r, m !! k = Some r → g r = k) → (∀ r, get (f r) key = h (g r)) →
  NoDup ((λ r, get r key) <$> rows_of f m).
Proof.
  intros Hinj Hg Hf.
  assert ((λ r, get r key) <$> rows_of f m = h <$> (map_to_list m).*1) as ->.
  { unfold rows_of. rewrite <- !list_fmap_compose. apply list_fmap_ext.
    intros i [k r] Hi. cbn. rewrite Hf, (Hg k); [done|].
    apply elem_of_map_to_list. by apply list_elem_of_lookup_2 in Hi. }
  by apply (NoDup_fmap_2 h), NoDup_fst_map_to_list.
Qed.

(** *** Column by column *)

Lemma get_image t vs i c v :
  NoDup (c_name <$> t_columns t) → t_columns t !! i = Some c → vs !! i = Some v →
  get (image_of t vs) (c_name c) = v.
Proof.
  unfold image_of. generalize (t_columns t). clear t. intros cs. revert vs i.
  induction cs as [|c' cs IH]; intros [|v' vs] [|i]; cbn; try done.
  - intros _ [= ->] [= ->]. by rewrite String.eqb_refl.
  - intros [Hnin Hnd]%NoDup_cons Hc Hv.
    destruct (String.eqb_spec (c_name c') (c_name c)) as [Heq|_]; [|by apply (IH vs i)].
    destruct Hnin. rewrite Heq. apply list_elem_of_fmap_2. by eapply list_elem_of_lookup_2.
Qed.

(** The condition of a column's CHECK, on its own value. *)
Definition own_check (v : value) (c : option condition) : bool :=
  match c with
  | None => true
  | Some (CIn _ texts) => match v with VText s => str_in s texts | _ => true end
  | Some (CAtLeast _ n) => match v with VInt z => n <=? z | _ => true end
  | Some (CNotNull _) => match v with VNull => false | _ => true end
  end.

Definition checks_itself (c : column) : bool :=
  match c_check c with
  | None => true
  | Some (CIn col _) | Some (CAtLeast col _) | Some (CNotNull col) => String.eqb col (c_name c)
  end.

Definition value_ok (rows : contents) (c : column) (v : value) : Prop :=
  (c_not_null c = true → v ≠ VNull) ∧ has_type (c_type c) v = true ∧
  own_check v (c_check c) = true ∧
  match c_references c with
  | None => True
  | Some (t, key) => v = VNull ∨ ∃ r', r' ∈ rows t ∧ get r' key = v
  end.

(** Each column has its own name, and checks itself only. *)
Definition plain_table (t : table) : bool :=
  bool_decide (NoDup (c_name <$> t_columns t)) && forallb checks_itself (t_columns t).

Lemma columns_ok_iff rows t vs :
  plain_table t = true → length vs = length (t_columns t) →
  (Forall (column_ok rows (image_of t vs)) (t_columns t) ↔
   Forall2 (value_ok rows) (t_columns t) vs).
Proof.
  intros [Hnd%bool_decide_eq_true Hown]%andb_true_iff Hlen.
  rewrite forallb_forall in Hown. setoid_rewrite <- list_elem_of_In in Hown.
  assert (∀ i c v, t_columns t !! i = Some c → vs !! i = Some v →
    column_ok rows (image_of t vs) c ↔ value_ok rows c v) as Hcv.
  { intros i c v Hc Hv. unfold column_ok, value_ok. rewrite (get_image t vs i c v) by done.
    enough (check_passes (image_of t vs) (c_check c) = own_check v (c_check c)) as -> by done.
    specialize (Hown c ltac:(by eapply list_elem_of_lookup_2)). unfold checks_itself in Hown.
    destruct (c_check c) as [[col l|col n|col]|]; cbn; try done;
      apply String.eqb_eq in Hown as ->; rewrite (get_image t vs i c v) by done; by destruct v. }
  rewrite Forall_lookup, Forall2_lookup. split.
  - intros H i. destruct (t_columns t !! i) as [c|] eqn:Hc.
    + destruct (lookup_lt_is_Some_2 vs i) as [v Hv].
      { rewrite Hlen. by eapply lookup_lt_Some. }
      rewrite Hv. constructor. apply (Hcv i); eauto.
    + rewrite (lookup_ge_None_2 vs i); [constructor|]. rewrite Hlen. by apply lookup_ge_None_1.
  - intros H i c Hc. specialize (H i). rewrite Hc in H. inversion H as [? v Hv Heq|]; subst.
    by apply (Hcv i c v).
Qed.

Lemma image_of_names t vs :
  length vs = length (t_columns t) → (image_of t vs).*1 = c_name <$> t_columns t.
Proof. intros Hlen. unfold image_of. apply fst_zip. by rewrite length_fmap, Hlen. Qed.

(** One value of a row: no NULL where it is forbidden, of the column's type. *)
Ltac value :=
  unfold value_ok; cbn; split_and!;
  try first [ reflexivity | exact I | intros _; discriminate | intros [=]
            | match goal with |- context [optional _ ?o] => destruct o; reflexivity end
            | match goal with |- context [match ?o with Some _ => _ | None => _ end] =>
                destruct o; reflexivity end ].

Ltac values := repeat apply Forall2_cons_2; try apply Forall2_nil_2; value.

Lemma job_values_ok db id r :
  db_ok db → db_jobs db !! id = Some r →
  Forall2 (value_ok (image db)) (t_columns jobs_table) (job_values r).
Proof.
  intros Hok Hr. destruct (db_ok_status _ _ _ Hok Hr) as (s & Hs & Hrow).
  pose proof (row_max_attempts _ _ Hrow). pose proof (row_timeout _ _ Hrow).
  pose proof (row_backoff _ _ Hrow).
  destruct (ok_job_queue _ Hok _ _ Hr) as [q Hq].
  values; try (rewrite Z.leb_le; lia).
  - right. exists (queue_image q). split; [apply elem_of_rows_of; eauto|].
    cbn. by rewrite (ok_queues _ Hok _ _ Hq).
  - rewrite Hs. by destruct s.
Qed.

Lemma attempt_values_ok db i a :
  db_ok db → db_job_attempts db !! i = Some a →
  Forall2 (value_ok (image db)) (t_columns job_attempts_table) (attempt_values a).
Proof.
  intros Hok Ha. destruct (ok_attempts _ Hok _ _ Ha) as (Hid & _ & (r & Hr & _) & Hst).
  values.
  - right. exists (job_image r). split; [apply elem_of_rows_of; eauto|].
    cbn. by rewrite (ok_keyed _ Hok _ _ Hr).
  - destruct Hst as [[-> _]|[Hst _]]; [done|]. unfold closing_statuses in Hst.
    rewrite !elem_of_cons in Hst. destruct Hst as [->|[->|[->|Hst]]]; [done..|].
    by apply elem_of_nil in Hst.
Qed.

Lemma queue_values_ok rows q : Forall2 (value_ok rows) (t_columns queues_table) (queue_values q).
Proof. values. Qed.

Lemma worker_values_ok rows w : Forall2 (value_ok rows) (t_columns workers_table) (worker_values w).
Proof. values. Qed.

Lemma dead_letter_values_ok rows d :
  Forall2 (value_ok rows) (t_columns dead_letter_jobs_table) (dead_letter_values d).
Proof. values. Qed.

(** *** Table by table *)

Lemma rows_table_ok {K R} `{Countable K} rows t (vals : R → list value) (m : gmap K R)
    (g : R → K) (h : K → value) :
  Inj (=) (=) h →
  rows (t_name t) = rows_of (λ r, image_of t (vals r)) m → plain_table t = true →
  (∀ r, length (vals r) = length (t_columns t)) →
  (∀ k r, m !! k = Some r → Forall2 (value_ok rows) (t_columns t) (vals r)) →
  (∀ k r, m !! k = Some r → g r = k) →
  (∀ r, get (image_of t (vals r)) (t_key t) = h (g r)) →
  table_ok rows t.
Proof.
  intros Hinj Hrows Hplain Hlen Hvals Hg Hkey. split; rewrite Hrows.
  - intros r (k & x & Hk & ->)%elem_of_rows_of. split; [by apply image_of_names|].
    apply columns_ok_iff; eauto.
  - by eapply key_nodup.
Qed.

#[local] Instance vuuid_inj : Inj (=) (=) VUuid.
Proof. by intros ?? [=]. Qed.
#[local] Instance vtext_inj : Inj (=) (=) VText.
Proof. by intros ?? [=]. Qed.
#[local] Instance vint_inj : Inj (=) (=) VInt.
Proof. by intros ?? [=]. Qed.

Lemma get_job_key r :
  get (job_image r) "queue" = VText (jr_queue r) ∧
  get (job_image r) "idempotency_key" = optional VText (jr_idempotency_key r).
Proof. done. Qed.

(** The rows of the unique index are the keyed jobs. *)
Lemma indexed_job r :
  indexed (mkIndex "jobs_idem_uniq" true "jobs" ["queue"; "idempotency_key"]%string
             (Some (CNotNull "idempotency_key"))) (job_image r) = true ↔
  is_Some (jr_idempotency_key r).
Proof.
  unfold indexed. cbn [i_where i_columns condition_value forallb].
  destruct (get_job_key r) as [-> ->].
  destruct (jr_idempotency_key r); cbn.
  - split; [intros _; by eexists|done].
  - split; [done|by intros []].
Qed.

Lemma unique_index_holds db :
  db_ok db → Forall (index_holds (image db)) indexes.
Proof.
  intros Hok. unfold indexes. repeat apply Forall_cons_2; try apply Forall_nil_2;
    try (by intros [=]). intros _. cbn [i_table i_columns].
  change (image db "jobs") with (rows_of job_image (db_jobs db)).
  apply NoDup_fmap_2_strong.
  - intros r1 r2 [Hi1 Hr1]%list_elem_of_filter [Hi2 Hr2]%list_elem_of_filter Heq.
    apply elem_of_rows_of in Hr1 as (id1 & x1 & Hx1 & ->), Hr2 as (id2 & x2 & Hx2 & ->).
    apply indexed_job in Hi1 as [k1 Hk1], Hi2 as [k2 Hk2].
    change ([VText (jr_queue x1); optional VText (jr_idempotency_key x1)] =
            [VText (jr_queue x2); optional VText (jr_idempotency_key x2)]) in Heq.
    rewrite Hk1, Hk2 in Heq. injection Heq as Hq ->.
    assert (id1 = id2) as <- by by eapply (ok_unique _ Hok id1 id2 x1 x2 k2).
    congruence.
  - apply NoDup_filter. apply (NoDup_fmap_1 (λ r, get r "id")).
    by apply (key_nodup job_image jr_id VUuid "id"); [apply _|apply Hok|].
Qed.

Lemma schema_holds db : db_ok db → satisfies (image db).
Proof.
  intros Hok. split; [|by apply unique_index_holds].
  unfold schema. repeat apply Forall_cons_2; try apply Forall_nil_2.
  - apply (rows_table_ok _ queues_table queue_values (db_queues db) qr_name VText);
      [apply _|done|by vm_compute|done|intros; apply queue_values_ok|apply Hok|done].
  - apply (rows_table_ok _ jobs_table job_values (db_jobs db) jr_id VUuid);
      [apply _|done|by vm_compute|done|intros; by eapply job_values_ok|apply Hok|done].
  - apply (rows_table_ok _ job_attempts_table attempt_values (db_job_attempts db) ar_id VInt);
      [apply _|done|by vm_compute|done|intros; by eapply attempt_values_ok| |done].
    intros i a Ha. by destruct (ok_attempts _ Hok _ _ Ha).
  - apply (rows_table_ok _ workers_table worker_values (db_workers db) wr_id VUuid);
      [apply _|done|by vm_compute|done|intros; apply worker_values_ok|apply Hok|done].
  - apply (rows_table_ok _ dead_letter_jobs_table dead_letter_values (db_dead_letter_jobs db)
      dlr_id VUuid);
      [apply _|done|by vm_compute|done|intros; apply dead_letter_values_ok|apply Hok|done].
Qed.

(** C19: the schema.  However the calls of any number of clients interleave,
    fail and die, the tables always satisfy every constraint of the
    migration: every NOT NULL, every column's type, every CHECK, every primary
    key, every foreign key, and the unique index on the idempotency keys.  So
    the constraints that the statements of this model do not check (of every
    UPDATE, and of the attempts, workers, queues and dead letters) never
    reject anything. *)
Theorem schema_always_holds db ts l db' ts' :
  db_ok db → Forall thread_ok ts → sys_run (db, ts) l (db', ts') →
  satisfies (image db').
Proof.
  intros Hok Hts Hrun. destruct (sys_run_replay _ _ _ Hrun Hts) as [Hl Hdb].
  cbn in Hdb. subst db'. by apply schema_holds, replay_ok.
Qed.

(** The columns a job is read by are those of the table, in its order. *)
Lemma job_columns_of_table :
  JOB_COLUMNS = String.concat ", " (c_name <$> t_columns jobs_table).
Proof. by vm_compute. Qed.

(** ON DELETE CASCADE: after a purge, the attempts left are those whose job is
    left. *)
Lemma purge_cascades db cutoff env n db' :
  db_ok db → sql_purge cutoff env db = Ok (n, db') →
  db_job_attempts db' =
    filter (λ ia, is_Some (db_jobs db' !! ar_job_id ia.2)) (db_job_attempts db).
Proof.
  intros Hok [= <- <-]. cbn. unfold delete_where at 1. apply map_filter_strong_ext_1.
  intros i a. cbn. split; intros [H Ha]; (split; [|done]).
  - apply bool_decide_eq_false in H. destruct (ok_attempts _ Hok _ _ Ha) as (_ & _ & (r & Hr & _) & _).
    exists r. apply lookup_delete_where. split; [done|].
    destruct (purgeable cutoff r) eqn:Hp; [|done]. destruct H. apply list_elem_of_fmap.
    exists r. split; [symmetry; by apply (ok_keyed _ Hok)|]. apply elem_of_rows_where. eauto.
  - destruct H as [r [Hr Hp]%lookup_delete_where]. apply bool_decide_eq_false.
    intros (r' & Hid & [Hp' [k Hk]]%elem_of_rows_where)%list_elem_of_fmap.
    rewrite Hid, (ok_keyed _ Hok _ _ Hk) in Hr. congruence.
Qed.

(** ** INSERT

    A row gets the values the statement binds, and the defaults of the other
    columns. *)
Definition default_value (env : Env) (db : Db) (d : option default_expr) : value :=
  match d with
  | None => VNull
  | Some (DText s) => VText s
  | Some (DInteger z) => VInt z
  | Some (DBoolean b) => VBool b
  | Some DNow => VTime (env_now env)
  | Some DRandomUuid => VUuid (env_uuid env)
  | Some DNextval => VInt (db_attempts_seq db)
  | Some DEmptyObject => VJson (json_object [])
  end.

Fixpoint bound (c : string) (given : list (string * value)) : option value :=
  match given with
  | [] => None
  | (c', v) :: rest => if String.eqb c' c then Some v else bound c rest
  end.

Definition insert_row (t : table) (given : list (string * value)) (env : Env) (db : Db) : sql_row :=
  (λ c, (c_name c, match bound (c_name c) given with
                   | Some v => v
                   | None => default_value env db (c_default c)
                   end)) <$> t_columns t.

(** INSERT INTO jobs (queue, job_type, ...) VALUES ($1,...,$14) *)
Definition submit_columns (n : NormalizedJob) : list (string * value) :=
  [ ("queue", VText (nj_queue n)); ("job_type", VText (nj_job_type n));
    ("payload", VJson (nj_payload n)); ("status", VText (as_str (nj_status n)));
    ("priority", VInt (nj_priority n));
    ("idempotency_key", optional VText (nj_idempotency_key n));
    ("max_attempts", VInt (nj_max_attempts n)); ("run_at", VTime (nj_run_at n));
    ("timeout_secs", VInt (nj_timeout_secs n));
    ("backoff_base_secs", VInt (nj_backoff_base_secs n));
    ("backoff_max_secs", VInt (nj_backoff_max_secs n));
    ("dead_letter", VBool (nj_dead_letter n)); ("metadata", VJson (nj_metadata n));
    ("correlation_id", optional VText (nj_correlation_id n)) ]%string.

Lemma new_row_image n env db :
  job_image (new_row n (env_uuid env) (env_now env)) = insert_row jobs_table (submit_columns n) env db.
Proof. reflexivity. Qed.

(** The contents with one more row. *)
Definition add_row (t : string) (r : sql_row) (rows : contents) : contents := λ t',
  if String.eqb t' t then r :: rows t' else rows t'.

Lemma job_values_iff rows r :
  Forall2 (value_ok rows) (t_columns jobs_table) (job_values r) ↔
  checks_ok r = true ∧ ∃ q, q ∈ rows "queues"%string ∧ get q "name" = VText (jr_queue r).
Proof.
  unfold checks_ok. rewrite !andb_true_iff. split.
  - intros H.
    pose proof (Forall2_lookup_lr _ _ _ 1%nat _ _ H eq_refl eq_refl) as (_ & _ & _ & Hq).
    pose proof (Forall2_lookup_lr _ _ _ 4%nat _ _ H eq_refl eq_refl) as (_ & _ & Hst & _).
    pose proof (Forall2_lookup_lr _ _ _ 7%nat _ _ H eq_refl eq_refl) as (_ & _ & Hma & _).
    pose proof (Forall2_lookup_lr _ _ _ 10%nat _ _ H eq_refl eq_refl) as (_ & _ & Hto & _).
    pose proof (Forall2_lookup_lr _ _ _ 11%nat _ _ H eq_refl eq_refl) as (_ & _ & Hb & _).
    pose proof (Forall2_lookup_lr _ _ _ 12%nat _ _ H eq_refl eq_refl) as (_ & _ & Hm & _).
    split_and!; [exact Hst|exact Hma|exact Hto|exact Hb|exact Hm|].
    by destruct Hq as [[=]|Hq].
  - intros (((((Hst & Hma) & Hto) & Hb) & Hm) & Hq).
    values; [right; exact Hq|exact Hst|exact Hma|exact Hto|exact Hb|exact Hm].
Qed.

(** Adding a job to tables that satisfy the schema. *)
Section add_job.
Context (db : Db) (Hok : db_ok db) (r : JobRow).
#[local] Set Default Proof Using "Type*".

Let rows' := add_row "jobs" (job_image r) (image db).

Lemma add_row_sub t x : x ∈ image db t → x ∈ rows' t.
Proof. unfold rows', add_row. case_match; set_solver. Qed.

Lemma add_row_other t : t ≠ "jobs"%string → rows' t = image db t.
Proof. intros Ht. unfold rows', add_row. by destruct (String.eqb_spec t "jobs"). Qed.

Lemma column_ok_add x c : column_ok (image db) x c → column_ok rows' x c.
Proof.
  intros (Hn & Ht & Hc & Hr). split_and!; [done..|]. destruct (c_references c) as [[t k]|]; [|done].
  destruct Hr as [Hr|(y & Hy & Hk)]; [by left|]. right. exists y. split; [by apply add_row_sub|done].
Qed.

Lemma other_table_ok t :
  t_name t ≠ "jobs"%string → table_ok (image db) t → table_ok rows' t.
Proof.
  intros Ht [Hrows Hkey]. unfold table_ok. rewrite add_row_other by done. split; [|done].
  intros x Hx. destruct (Hrows x Hx) as [Hnames Hcols]. split; [done|].
  eapply Forall_impl; [done|]. intros c. apply column_ok_add.
Qed.

Lemma jobs_table_add :
  table_ok rows' jobs_table ↔
  Forall2 (value_ok rows') (t_columns jobs_table) (job_values r) ∧ db_jobs db !! jr_id r = None.
Proof.
  destruct (schema_holds db Hok) as [Htables _].
  assert (table_ok (image db) jobs_table) as [Hrows Hkey]
    by (by apply (Forall_lookup_1 _ _ 1%nat _ Htables)).
  unfold table_ok. change (rows' (t_name jobs_table)) with (job_image r :: image db "jobs").
  cbn [fmap list_fmap]. rewrite NoDup_cons. split.
  - intros [Hall [Hnin _]]. split.
    + apply columns_ok_iff; [by vm_compute|done|]. apply (Hall (job_image r)). set_solver.
    + destruct (db_jobs db !! jr_id r) as [r0|] eqn:Hr0; [|done]. destruct Hnin.
      apply list_elem_of_fmap. exists (job_image r0). split.
      * change (VUuid (jr_id r) = VUuid (jr_id r0)). by rewrite (ok_keyed _ Hok _ _ Hr0).
      * apply (elem_of_rows_of job_image). eauto.
  - intros [Hvals Hnone]. split; [|split; [|done]].
    + intros x [->|Hx]%elem_of_cons.
      * split; [by apply image_of_names|]. by apply columns_ok_iff; [by vm_compute|..].
      * destruct (Hrows x Hx) as [Hnames Hcols]. split; [done|].
        eapply Forall_impl; [done|]. intros c. apply column_ok_add.
    + intros (x & Heq & Hx)%list_elem_of_fmap.
      apply (elem_of_rows_of job_image) in Hx as (k & r0 & Hr0 & ->).
      change (VUuid (jr_id r) = VUuid (jr_id r0)) in Heq. injection Heq as Heq.
      rewrite (ok_keyed _ Hok _ _ Hr0) in Heq. congruence.
Qed.

Lemma unique_index_add :
  Forall (index_holds rows') indexes ↔
  ∀ key id r0, jr_idempotency_key r = Some key → db_jobs db !! id = Some r0 →
    jr_queue r0 = jr_queue r → jr_idempotency_key r0 ≠ Some key.
Proof.
  pose proof (unique_index_holds db Hok) as Hold. split.
  - intros H key id r0 Hk Hr0 Hq Hk0. unfold indexes in H. apply Forall_cons in H as [H _].
    specialize (H eq_refl). cbn [i_table i_columns] in H.
    change (rows' "jobs"%string) with (job_image r :: rows_of job_image (db_jobs db)) in H.
    rewrite filter_cons_True in H by (apply indexed_job; by eexists).
    cbn [fmap list_fmap] in H. apply NoDup_cons in H as [Hnin _]. destruct Hnin.
    apply list_elem_of_fmap. exists (job_image r0). split.
    + change ([VText (jr_queue r); optional VText (jr_idempotency_key r)] =
              [VText (jr_queue r0); optional VText (jr_idempotency_key r0)]).
      by rewrite Hq, Hk, Hk0.
    + apply list_elem_of_filter. split; [apply indexed_job; by eexists|].
      apply elem_of_rows_of. eauto.
  - intros Hfree. unfold indexes in *. repeat apply Forall_cons_2; try apply Forall_nil_2;
      try (by intros [=]). intros _. cbn [i_table i_columns].
    apply Forall_cons in Hold as [Hold _]. specialize (Hold eq_refl). cbn [i_table i_columns] in Hold.
    change (rows' "jobs"%string) with (job_image r :: image db "jobs").
    rewrite filter_cons. case_decide as Hi; [|done]. cbn [fmap list_fmap]. apply NoDup_cons.
    split; [|done]. intros (x & Heq & [Hi0 Hx]%list_elem_of_filter)%list_elem_of_fmap.
    apply (elem_of_rows_of job_image) in Hx as (id & r0 & Hr0 & ->).
    apply indexed_job in Hi as [k Hk], Hi0 as [k0 Hk0].
    change ([VText (jr_queue r); optional VText (jr_idempotency_key r)] =
            [VText (jr_queue r0); optional VText (jr_idempotency_key r0)]) in Heq.
    rewrite Hk, Hk0 in Heq. injection Heq as Hq ->. by apply (Hfree k0 id r0 Hk Hr0).
Qed.

Lemma satisfies_add :
  satisfies rows' ↔
  checks_ok r = true ∧ unique_conflict r db = false ∧ is_Some (db_queues db !! jr_queue r).
Proof.
  destruct (schema_holds db Hok) as [Htables _].
  assert (satisfies rows' ↔ table_ok rows' jobs_table ∧ Forall (index_holds rows') indexes) as ->.
  { unfold satisfies. split; intros [Hjobs Hidx]; (split; [|done]).
    - by apply (Forall_lookup_1 _ _ 1%nat _ Hjobs).
    - unfold schema in *. rewrite !Forall_cons in Htables.
      destruct Htables as (Hq & _ & Ha & Hw & Hd & _).
      repeat apply Forall_cons_2; try apply Forall_nil_2; [|done|..]; by apply other_table_ok. }
  rewrite jobs_table_add, unique_index_add, job_values_iff, unique_conflict_false.
  change (rows' "queues"%string) with (rows_of queue_image (db_queues db)).
  setoid_rewrite elem_of_rows_of.
  assert ((∃ q, (∃ k x, db_queues db !! k = Some x ∧ q = queue_image x) ∧
            get q "name" = VText (jr_queue r)) ↔ is_Some (db_queues db !! jr_queue r)) as ->.
  { split.
    - intros (q & (k & x & Hk & ->) & Hn). change (VText (qr_name x) = VText (jr_queue r)) in Hn.
      injection Hn as <-. rewrite (ok_queues _ Hok _ _ Hk). eauto.
    - intros [x Hx]. exists (queue_image x). split; [eauto|].
      change (VText (qr_name x) = VText (jr_queue r)). by rewrite (ok_queues _ Hok _ _ Hx). }
  naive_solver.
Qed.
End add_job.

(** C17: INSERT against the schema.  On tables that satisfy the invariant, the
    INSERT of a submission is accepted exactly when the tables with the new
    row (the bound values, and the schema's defaults in the other columns)
    satisfy every constraint of the migration; so the model's CHECK, unique
    and foreign-key tests are the migration's.  The rows the other INSERTs
    create are the bound values with the schema's defaults too. *)
Theorem inserts_follow_schema env db :
  db_ok db →
  (∀ n, (∃ out, sql_insert_job n env db = Ok out) ↔
     satisfies (add_row "jobs" (insert_row jobs_table (submit_columns n) env db) (image db))) ∧
  (∀ name, db_queues db !! name = None →
     ∃ q db', sql_insert_queue name env db = Ok (tt, db') ∧ db_queues db' !! name = Some q ∧
       queue_image q = insert_row queues_table [("name"%string, VText name)] env db) ∧
  (∀ id attempt w db', sql_insert_attempt id attempt w env db = Ok (tt, db') →
     ∃ a, db_job_attempts db' !! db_attempts_seq db = Some a ∧
       attempt_image a = insert_row job_attempts_table
         [("job_id", VUuid id); ("attempt", VInt attempt); ("worker_id", VUuid w);
          ("started_at", VTime (env_now env)); ("status", VText "running")]%string env db) ∧
  (∀ w, db_workers db !! worker_id w = None →
     ∃ r db', sql_register_worker w env db = Ok (tt, db') ∧ db_workers db' !! worker_id w = Some r ∧
       worker_image r = insert_row workers_table
         [("id", VUuid (worker_id w)); ("hostname", VText (worker_hostname w));
          ("queues", VTexts (worker_queues w)); ("concurrency", VInt (worker_concurrency w));
          ("registered_at", VTime (env_now env)); ("last_heartbeat", VTime (env_now env))]%string
         env db) ∧
  (∀ job error, db_dead_letter_jobs db !! job_id job = None →
     ∃ d db', sql_insert_dead_letter job error env db = Ok (tt, db') ∧
       db_dead_letter_jobs db' !! job_id job = Some d ∧
       dead_letter_image d = insert_row dead_letter_jobs_table
         [("id", VUuid (job_id job)); ("queue", VText (job_queue job));
          ("job_type", VText (job_job_type job)); ("payload", VJson (job_payload job));
          ("attempts", VInt (job_attempts job)); ("last_error", VText error);
          ("original_created_at", VTime (job_created_at job))]%string env db).
Proof.
  intros Hok. split_and!.
  - intros n. rewrite <- new_row_image, satisfies_add by done. unfold sql_insert_job.
    set (r := new_row n (env_uuid env) (env_now env)).
    destruct (checks_ok r), (unique_conflict r db), (db_queues db !! jr_queue r) as [q|] eqn:Hq;
      cbn; rewrite ?Hq; split; intros; destruct_and?; try by eauto; naive_solver.
  - intros name Hn. unfold sql_insert_queue. rewrite Hn. do 2 eexists. split; [reflexivity|].
    split; [apply lookup_insert_eq|reflexivity].
  - intros id attempt w db'. unfold sql_insert_attempt. repeat case_match; try done. intros [= <-].
    eexists. split; [apply lookup_insert_eq|reflexivity].
  - intros w Hw. unfold sql_register_worker. rewrite Hw. do 2 eexists. split; [reflexivity|].
    split; [apply lookup_insert_eq|reflexivity].
  - intros job error Hd. unfold sql_insert_dead_letter. rewrite Hd. do 2 eexists.
    split; [reflexivity|]. split; [apply lookup_insert_eq|reflexivity].
Qed.

End schema.
