(* ===== verification/Races.v ===== *)
(** * Two races

    A method that sends several statements outside a transaction can be
    interleaved with other clients between them.  A deterministic scheduler
    builds such runs, and two of them show what the history of attempts and
    the dead-letter table do not promise. *)

From S2P Require Import Prelude Prog Externals Status Error Model Row Float64 Backoff.
From S2P Require Import Sql Statements Store PgStore Lifecycle Invariant Integrity StoreProps.
From S2P Require Import Concurrency.
From stdpp Require Import options.

Section races.
Context `{X : Externals}.

(** The next request of the [i]-th call in flight. *)
Definition step_thread (s : system) (c : nat * Env) : system :=
  match s.2 !! c.1 with
  | Some (Thread (Vis q k)) =>
      ((exec q c.2 s.1).2, <[c.1 := Thread (k (exec q c.2 s.1).1)]> s.2)
  | _ => s
  end.

Definition sched (cs : list (nat * Env)) (s : system) : system := foldl step_thread s cs.

Lemma sys_run_app s l s' l' s'' :
  sys_run s l s' → sys_run s' l' s'' → sys_run s (l ++ l') s''.
Proof. induction 1; cbn; eauto using sys_run. Qed.

(** The request it makes. *)
Definition thread_event (s : system) (c : nat * Env) : option event :=
  match s.2 !! c.1 with Some (Thread (Vis q _)) => Some (Event q c.2) | _ => None end.

Lemma step_thread_step s c :
  (thread_event s c = None ∧ step_thread s c = s) ∨
  sys_step s (thread_event s c) (step_thread s c).
Proof.
  destruct s as [db ts], c as [i env]. unfold step_thread, thread_event. cbn.
  destruct (ts !! i) as [[A p]|] eqn:Hi; [|by left].
  destruct p as [a|Y q k|]; [by left| |by left]. right.
  pose proof (lookup_lt_Some _ _ _ Hi) as Hlt. rewrite insert_take_drop by done.
  rewrite <- (take_drop_middle ts i (Thread (Vis q k)) Hi) at 1. apply sys_request.
Qed.

Lemma step_thread_run s c : ∃ l, sys_run s l (step_thread s c).
Proof.
  destruct (step_thread_step s c) as [[_ ->]|Hstep]; [by eexists; constructor|].
  destruct (thread_event s c) as [ev|].
  - exists [ev]. by eapply run_event, run_done.
  - exists []. by eapply run_silent, run_done.
Qed.

Lemma sched_run cs s : ∃ l, sys_run s l (sched cs s).
Proof.
  revert s. induction cs as [|c cs IH]; intros s; [eexists; constructor|].
  destruct (step_thread_run s c) as [l Hl], (IH (step_thread s c)) as [l' Hl'].
  exists (l ++ l'). by eapply sys_run_app.
Qed.

(** An environment at [t] seconds. *)
Definition at_second (t : Z) : Env := {|
  env_now := t * second; env_locked := ∅; env_pos := λ _, 0; env_collate := λ _, 0;
  env_uuid := 99%N; env_fault := NoFault |}.

(** One queue, and one job whose first lease, of worker 7, expired. *)
Definition race_db : Db := {|
  db_queues := {[ "q"%string := mkQueueRow "q" false None 0 ]};
  db_jobs := {[ 0%N := sample_row Processing 1 true ]};
  db_job_attempts := {[ 1 := mkAttemptRow 1 0%N 1 (Some 7%N) 0 None "running" None ]};
  db_attempts_seq := 2;
  db_workers := ∅;
  db_dead_letter_jobs := ∅ |}.

Lemma race_db_ok : db_ok race_db.
Proof.
  split; cbn.
  - intros id r [<- <-]%lookup_singleton_Some. done.
  - intros id r [<- <-]%lookup_singleton_Some. exists Processing. by apply sample_row_ok.
  - intros id1 id2 r1 r2 k [<- <-]%lookup_singleton_Some [<- <-]%lookup_singleton_Some. done.
  - intros id r [<- <-]%lookup_singleton_Some. by eexists.
  - intros i a [<- <-]%lookup_singleton_Some. split_and!; [done|done| |by left].
    exists (sample_row Processing 1 true). by split_and!.
  - intros n q [<- <-]%lookup_singleton_Some. done.
  - done.
  - done.
Qed.

(** The reaper closes attempts outside the transaction that recovers their
    jobs.  Between the two, another worker may lease a recovered job: in this
    run its new attempt is closed as timed out while it is running, and stays
    so after the worker has completed the job. *)
Theorem reaper_close_race :
  db_ok race_db ∧
  ∃ l s', sys_run (race_db, [Thread (recover_expired_leases 10);
                             Thread (lease_next 8%N ["q"%string] 30);
                             Thread (complete_job 0%N 8%N None)]) l s' ∧
    (jr_status <$> db_jobs s'.1 !! 0%N) = Some "completed"%string ∧
    ((λ a, (ar_attempt a, ar_worker_id a, ar_status a)) <$> db_job_attempts s'.1 !! 2) =
      Some (2, Some 8%N, "timeout"%string).
Proof.
  split; [apply race_db_ok|].
  set (cs := [(0%nat, at_second 10); (1%nat, at_second 20); (0%nat, at_second 20);
              (0%nat, at_second 20); (0%nat, at_second 20); (2%nat, at_second 21)]).
  destruct (sched_run cs (race_db, [Thread (recover_expired_leases 10);
                             Thread (lease_next 8%N ["q"%string] 30);
                             Thread (complete_job 0%N 8%N None)])) as [l Hl].
  exists l. eexists. split; [exact Hl|]. split; vm_compute; reflexivity.
Qed.

(** The same queue, and a dead-lettered job with its entry. *)
Definition dead_db : Db := {|
  db_queues := {[ "q"%string := mkQueueRow "q" false None 0 ]};
  db_jobs := {[ 0%N := sample_row DeadLettered 2 true ]};
  db_job_attempts := ∅;
  db_attempts_seq := 1;
  db_workers := ∅;
  db_dead_letter_jobs :=
    {[ 0%N := mkDeadLetterRow 0%N "q" "t" default_payload 2 (Some "boom"%string) 0 None ]} |}.

Lemma dead_db_ok : db_ok dead_db.
Proof.
  split; cbn.
  - intros id r [<- <-]%lookup_singleton_Some. done.
  - intros id r [<- <-]%lookup_singleton_Some. exists DeadLettered. by apply sample_row_ok.
  - intros id1 id2 r1 r2 k [<- <-]%lookup_singleton_Some [<- <-]%lookup_singleton_Some. done.
  - intros id r [<- <-]%lookup_singleton_Some. by eexists.
  - done.
  - intros n q [<- <-]%lookup_singleton_Some. done.
  - done.
  - intros i d [<- <-]%lookup_singleton_Some. done.
Qed.

(** [retry_job] re-queues a job and deletes its dead-letter entry in two
    statements.  In this run the job exhausts its attempts again between the
    two: the old entry was still there, so no new one is inserted, and the
    late DELETE leaves a dead-lettered job without an entry in the dead-letter
    table. *)
Theorem retry_dead_letter_race :
  let attempt := [Thread (lease_next 8%N ["q"%string] 30);
                  Thread (fail_job 0%N 8%N "boom" false)] in
  db_ok dead_db ∧
  ∃ l s', sys_run (dead_db, Thread (retry_job 0%N) :: attempt ++ attempt) l s' ∧
    (jr_status <$> db_jobs s'.1 !! 0%N) = Some "dead_lettered"%string ∧
    db_dead_letter_jobs s'.1 !! 0%N = None.
Proof.
  intros attempt. split; [apply dead_db_ok|].
  set (cs := [(0%nat, at_second 10); (1%nat, at_second 11); (2%nat, at_second 12);
              (3%nat, at_second 60); (4%nat, at_second 61); (0%nat, at_second 62)]).
  destruct (sched_run cs (dead_db, Thread (retry_job 0%N) :: attempt ++ attempt)) as [l Hl].
  exists l. eexists. split; [exact Hl|]. split; vm_compute; reflexivity.
Qed.

End races.
