(* ===== verification/Transitions.v ===== *)
(** * The status changes the store makes

    Which operation takes a job from which status to which, over every request
    the store can send to sound tables: no more than a table of sixteen
    changes, and each of the sixteen does happen.  The transition table of
    [djq-core] is compared with it. *)

From S2P Require Import Prelude Prog Externals Status Error Model Row Float64 Backoff.
From S2P Require Import Sql Statements Store PgStore Lifecycle Invariant Integrity StoreProps.
From S2P Require Import Races.
From stdpp Require Import options.

Section transitions.
Context `{X : Externals}.

(** ** A database of one job *)

Definition row_db (r : JobRow) : Db := {|
  db_queues := {[ "q"%string := mkQueueRow "q" false None 0 ]};
  db_jobs := {[ 0%N := r ]};
  db_job_attempts := ∅;
  db_attempts_seq := 1;
  db_workers := ∅;
  db_dead_letter_jobs := ∅ |}.

Lemma row_db_ok s r : jr_id r = 0%N → jr_queue r = "q"%string → row_ok s r → db_ok (row_db r).
Proof.
  intros Hid Hq Hrow. split; cbn.
  - intros id r' [<- <-]%lookup_singleton_Some. done.
  - intros id r' [<- <-]%lookup_singleton_Some. by exists s.
  - intros id1 id2 r1 r2 k [<- <-]%lookup_singleton_Some [<- <-]%lookup_singleton_Some. done.
  - intros id r' [<- <-]%lookup_singleton_Some. rewrite Hq. by eexists.
  - done.
  - intros n q [<- <-]%lookup_singleton_Some. done.
  - done.
  - done.
Qed.

(** ** The changes *)

Definition operation_of {A} (q : DbReq A) : operation :=
  match q with
  | TLease _ _ _ => OpLease
  | TComplete _ _ _ => OpComplete
  | TFail _ _ _ _ => OpFail
  | QCancel _ => OpCancel
  | QRetry _ => OpRetry
  | QReapRetry _ | QReapDead _ | QReapFailed _ => OpReap
  | _ => OpOther
  end.

(** A request of the operation changes the status of some job of some sound
    tables from [s] to [s']. *)
Definition changes (s : JobStatus) (o : operation) (s' : JobStatus) : Prop :=
  s ≠ s' ∧ ∃ A (q : DbReq A) env db id r r',
    operation_of q = o ∧ req_ok q ∧ db_ok db ∧
    db_jobs db !! id = Some r ∧ jr_status r = as_str s ∧
    db_jobs (exec q env db).2 !! id = Some r' ∧ jr_status r' = as_str s'.

Lemma req_event_operation {A} (q : DbReq A) id ev :
  req_event q id ev → operation_of q = event_operation ev.
Proof. destruct q; cbn; intros; destruct_and?; by subst. Qed.

Lemma changes_performed s o s' : changes s o s' → (s, o, s') ∈ performed.
Proof.
  intros (Hne & A & q & env & db & id & r & r' & <- & Hq & Hok & Hr & Hs & Hr' & Hs').
  destruct (db_ok_status _ _ _ Hok Hr) as (s1 & Hs1 & Hrow).
  assert (s1 = s) as -> by (apply as_str_inj; congruence).
  destruct (exec_jobs_step q env db (ok_keyed _ Hok) id) as [Heq|(ev & Hev & Hstep)].
  - rewrite Heq, Hr in Hr'. simplify_eq. rewrite Hs in Hs'. by apply as_str_inj in Hs'.
  - rewrite Hr, Hr' in Hstep. rewrite (req_event_operation q id ev Hev).
    by eapply row_step_performed.
Qed.

(** A request on the sample row in status [s]. *)
Lemma sample_changes {A} (q : DbReq A) s s' a dl :
  row_ok s (sample_row s a dl) → s ≠ s' → req_ok q →
  jr_status <$> db_jobs (exec q (at_second 10) (row_db (sample_row s a dl))).2 !! 0%N
    = Some (as_str s') →
  changes s (operation_of q) s'.
Proof.
  intros Hok Hne Hq Hs'. split; [done|].
  apply fmap_Some in Hs' as (r' & Hr' & Hs').
  exists A, q, (at_second 10), (row_db (sample_row s a dl)), 0%N, (sample_row s a dl), r'.
  split_and!; try done. by eapply row_db_ok.
Qed.

#[local] Ltac sample q a dl :=
  apply (sample_changes q _ _ a dl); [by apply sample_row_ok|done|done|vm_compute; reflexivity].

Lemma performed_changes s o s' : (s, o, s') ∈ performed → changes s o s'.
Proof.
  set (goal := λ c : JobStatus * operation * JobStatus, changes c.1.1 c.1.2 c.2).
  assert (Forall goal performed) as Hall.
  2:{ intros Hin. by apply (proj1 (Forall_forall goal performed) Hall (s, o, s')). }
  repeat first [apply Forall_cons; split | apply Forall_nil; exact I].
  1-3: sample (TLease 8%N ["q"%string] 30) 1 true.
  1: sample (TComplete 0%N 7%N None) 1 true.
  1: sample (TFail 0%N 7%N "e" false) 1 true.
  1: sample (TFail 0%N 7%N "e" false) 2 true.
  1: sample (TFail 0%N 7%N "e" false) 2 false.
  1: sample (QReapRetry 10) 1 true.
  1: sample (QReapDead 10) 2 true.
  1: sample (QReapFailed 10) 2 false.
  1-4: sample (QCancel 0%N) 1 true.
  1: sample (QRetry 0%N) 2 false.
  sample (QRetry 0%N) 2 true.
Qed.

Lemma changes_spec s o s' : changes s o s' ↔ (s, o, s') ∈ performed.
Proof. split; [apply changes_performed|apply performed_changes]. Qed.

(** C25: the status changes the store makes.  Over all requests it sends, in all
    environments and on all sound tables, the changes of a job's status, with
    the operation that makes each, are exactly the sixteen of [performed]: no
    other is ever made, and each of these is.  Against [can_transition_to]:
    the changes made that it does not permit are [Processing] to
    [DeadLettered], straight, and the re-queueing of a [Failed] and of a
    [DeadLettered] job (the second of which is terminal); and the seven
    transitions it permits that nothing ever makes are those listed last. *)
Theorem store_transitions :
  (∀ s o s', changes s o s' ↔ (s, o, s') ∈ performed) ∧
  (∀ s s', (∃ o, changes s o s') ∧ can_transition_to s s' = false ↔
     (s, s') ∈ [(Processing, DeadLettered); (Failed, Queued); (DeadLettered, Queued)]) ∧
  (∀ s s', can_transition_to s s' = true ∧ ¬ (∃ o, changes s o s') ↔
     (s, s') ∈ [(Queued, Scheduled); (Scheduled, Queued); (Processing, Queued);
                (Retrying, Queued); (Retrying, DeadLettered);
                (Failed, DeadLettered); (Failed, Retrying)]).
Proof.
  split; [exact changes_spec|]. setoid_rewrite changes_spec.
  assert (∀ s s', (∃ o, (s, o, s') ∈ performed) ↔
    (s, s') ∈ (λ c : JobStatus * operation * JobStatus, (c.1.1, c.2)) <$> performed) as Hp.
  { intros s s'. rewrite list_elem_of_fmap. split.
    - intros [o Ho]. by exists (s, o, s').
    - intros ([[s1 o] s2] & [= -> ->] & Ho). by exists o. }
  setoid_rewrite Hp. split; intros s s'; apply (bool_decide_unpack _); by destruct s, s'.
Qed.

End transitions.
