(* ===== verification/StoreLaws.v ===== *)
(** * What a store promises its callers

    The contract of the [Store] trait, as its callers may rely on it: a class
    of backends with an invariant and the jobs they store.  The laws speak of
    one caller's answers, and hold while other clients use the store too: they
    say what is stored at the moment of the answer, and what no call of
    anybody but a purge can change afterwards. *)

From S2P Require Import Prelude Prog Externals Status Error Model Store.
From S2P Require Import Invariant Concurrency.
From stdpp Require Import options.

Section laws.
Context `{X : Externals}.

(** The columns of a job that no operation changes. *)
Definition job_frame (j : Job) :=
  (job_id j, job_queue j, job_job_type j, job_payload j, job_priority j, job_idempotency_key j,
   job_max_attempts j, job_timeout_secs j, (job_backoff_base_secs j, job_backoff_max_secs j),
   job_dead_letter j, job_metadata j, job_correlation_id j, job_created_at j).

(** No call brings a job out of these. *)
Definition finished (s : JobStatus) : Prop := s = Completed ∨ s = Cancelled.

Definition is_purge {A} (e : StoreE A) : Prop :=
  match e with PurgeFinished _ => True | _ => False end.

(** A submission was stored as [j]: its own fields, and the initial ones. *)
Definition stored_as (n : NormalizedJob) (j : Job) : Prop :=
  job_job_type j = nj_job_type n ∧ job_payload j = nj_payload n ∧
  job_priority j = nj_priority n ∧ job_max_attempts j = nj_max_attempts n ∧
  job_run_at j = nj_run_at n ∧ job_status j = nj_status n ∧ job_attempts j = 0 ∧
  job_timeout_secs j = nj_timeout_secs n ∧
  (job_backoff_base_secs j, job_backoff_max_secs j) =
    (nj_backoff_base_secs n, nj_backoff_max_secs n) ∧
  job_dead_letter j = nj_dead_letter n ∧ job_metadata j = nj_metadata n ∧
  job_correlation_id j = nj_correlation_id n ∧ job_locked_by j = None.

Class LawfulStore {S : Type} (backend : ∀ A, StoreE A → S → A * S) := {
  sound : S → Prop;
  stored : S → Uuid → option Job;
  law_sound A (e : StoreE A) s : call_ok e → sound s → sound (backend A e s).2;
  (** nothing but a purge removes a job, and nothing changes its frame *)
  law_kept A (e : StoreE A) s id j :
    call_ok e → ¬ is_purge e → sound s → stored s id = Some j →
    ∃ j', stored (backend A e s).2 id = Some j' ∧ job_frame j' = job_frame j;
  law_finished A (e : StoreE A) s id j :
    call_ok e → ¬ is_purge e → sound s → stored s id = Some j → finished (job_status j) →
    stored (backend A e s).2 id = Some j;
  law_get id s o s' :
    sound s → backend _ (GetJob id) s = (Ok o, s') → stored s' id = o;
  law_get_err id s err s' :
    sound s → backend _ (GetJob id) s = (Err err, s') → ∃ msg, err = Storage msg;
  law_submit n s sub s' :
    submittable n → sound s → backend _ (Submit n) s = (Ok sub, s') →
    stored s' (job_id (sub_job sub)) = Some (sub_job sub) ∧
    job_queue (sub_job sub) = nj_queue n ∧
    job_idempotency_key (sub_job sub) = nj_idempotency_key n ∧
    (if sub_created sub then
       stored_as n (sub_job sub) ∧ stored s (job_id (sub_job sub)) = None
     else nj_idempotency_key n ≠ None);
  (** an idempotency key names one job of its queue *)
  law_keyed s id1 id2 j1 j2 key :
    sound s → stored s id1 = Some j1 → stored s id2 = Some j2 →
    job_queue j1 = job_queue j2 → job_idempotency_key j1 = Some key →
    job_idempotency_key j2 = Some key → id1 = id2;
  law_lease w queues secs s j s' :
    sound s → backend _ (LeaseNext w queues secs) s = (Ok (Some j), s') →
    stored s' (job_id j) = Some j ∧ job_status j = Processing ∧ job_locked_by j = Some w ∧
    job_queue j ∈ queues ∧ 1 ≤ job_attempts j ≤ job_max_attempts j;
  law_complete id w res s j s' :
    sound s → backend _ (CompleteJob id w res) s = (Ok j, s') →
    stored s' id = Some j ∧ job_status j = Completed ∧ job_result j = res;
  law_cancel id s j s' :
    sound s → backend _ (CancelJob id) s = (Ok j, s') →
    stored s' id = Some j ∧ job_status j = Cancelled;
}.

(** ** What follows for a sequence of calls *)

Inductive any_call : Type :=
| AnyCall {A : Type} (e : StoreE A).

(** A call of a client that does not purge. *)
Definition harmless (c : any_call) : Prop :=
  match c with AnyCall e => call_ok e ∧ ¬ is_purge e end.

Section calls.
Context {S : Type} (backend : ∀ A, StoreE A → S → A * S) `{L : !LawfulStore backend}.

(** The store after a list of calls. *)
Definition after (calls : list any_call) (s : S) : S :=
  foldl (λ s c, match c with AnyCall e => (backend _ e s).2 end) s calls.

Lemma after_sound calls s : Forall harmless calls → sound s → sound (after calls s).
Proof.
  intros Hc. revert s. induction Hc as [|[A e] calls [He _] _ IH]; intros s Hs; [done|].
  cbn. apply IH. by apply law_sound.
Qed.

Lemma after_kept calls s id j :
  Forall harmless calls → sound s → stored s id = Some j →
  ∃ j', stored (after calls s) id = Some j' ∧ job_frame j' = job_frame j.
Proof.
  intros Hc. revert s j. induction Hc as [|[A e] calls [He Hp] _ IH]; intros s j Hs Hj;
    [by exists j|].
  destruct (law_kept A e s id j He Hp Hs Hj) as (j1 & Hj1 & Hf1).
  destruct (IH _ _ (law_sound A e s He Hs) Hj1) as (j' & Hj' & Hf').
  exists j'. split; [done|congruence].
Qed.

Lemma after_finished calls s id j :
  Forall harmless calls → sound s → stored s id = Some j → finished (job_status j) →
  stored (after calls s) id = Some j.
Proof.
  intros Hc. revert s. induction Hc as [|[A e] calls [He Hp] _ IH]; intros s Hs Hj Hf; [done|].
  cbn. apply IH; [by apply law_sound|by apply law_finished|done].
Qed.
End calls.

End laws.
