(* ===== verification/PgLaws.v ===== *)
(** * [PgStore] keeps the contract

    [PgStore] as a backend in the midst of other clients: before each of its
    statements any requests of others may run, in any environment and with any
    fault, as long as nobody purges.  It satisfies the laws of [StoreLaws]. *)

From S2P Require Import Prelude Prog Externals Status Error Model Row.
From S2P Require Import Sql Statements Store PgStore Lifecycle Invariant Integrity StoreProps.
From S2P Require Import Concurrency StoreLaws.
From stdpp Require Import options.

(** A request that purges nothing. *)
Ltac plain_req := split; [done|by intros ? []].

Section pglaws.
Context `{X : Externals}.

(** The environment of the [i]-th statement of the [k]-th call, and what the
    other clients do before it. *)
Record Surroundings := mkSurroundings {
  su_env : nat → nat → Env;
  su_others : nat → nat → list event;
}.

Definition no_purge (su : Surroundings) : Prop :=
  ∀ k i, Forall (λ ev, event_req_ok ev ∧ ¬ purges ev) (su_others su k i).

Section backend.
Context (su : Surroundings).

Definition noisy_answer (k : nat) (A : Type) (q : DbReq A) (s : nat * Db) : A * (nat * Db) :=
  let '(i, db) := s in
  let '(a, db') := exec q (su_env su k i) (replay (su_others su k i) db) in (a, (S i, db')).

Definition noisy_backend (A : Type) (e : StoreE A) (s : nat * Db) : A * (nat * Db) :=
  let '(k, db) := s in
  let '(r, (_, db')) := run (noisy_answer k) (pg_store e) (0%nat, db) in
  (default (unanswered e) r, (S k, db')).

(** The stored job: a row whose status parses. *)
Definition stored_job (db : Db) (id : Uuid) : option Job :=
  match into_job <$> db_jobs db !! id with Some (Ok j) => Some j | _ => None end.

Lemma stored_job_row db id r s :
  db_jobs db !! id = Some r → jr_status r = as_str s → stored_job db id = Some (job_of_row r s).
Proof. intros Hr Hs. unfold stored_job. rewrite Hr. cbn. by rewrite (into_job_as_str r s). Qed.

Lemma stored_job_inv db id j :
  stored_job db id = Some j →
  ∃ r s, db_jobs db !! id = Some r ∧ jr_status r = as_str s ∧ j = job_of_row r s.
Proof.
  unfold stored_job. destruct (db_jobs db !! id) as [r|]; [|done]. cbn.
  destruct (into_job r) as [j'|] eqn:Hj; [|done]. intros [= ->].
  apply into_job_Ok in Hj as (s & Hs & ->). eauto.
Qed.

Lemma job_frame_row r r' s s' :
  row_frame r' = row_frame r → job_frame (job_of_row r' s') = job_frame (job_of_row r s).
Proof. unfold row_frame, job_frame. cbn. intros Hf. injection Hf. intros. congruence. Qed.

(** The answer of a call, from the run of its program. *)
Lemma noisy_ok A (e : StoreE (Result A)) k db a s' :
  noisy_backend _ e (k, db) = (Ok a, s') → (∀ b, unanswered e ≠ Ok b) →
  run (noisy_answer k) (pg_store e) (0%nat, db) =
    (Some (Ok a), (run (noisy_answer k) (pg_store e) (0%nat, db)).2) ∧
  s' = (S k, (run (noisy_answer k) (pg_store e) (0%nat, db)).2.2).
Proof.
  unfold noisy_backend. intros Hb Hun.
  destruct (run (noisy_answer k) (pg_store e) (0%nat, db)) as [[r|] [i db']]; cbn in *;
    simplify_eq; [done|]. by destruct (Hun a).
Qed.

(** ** The invariant, and what is kept *)

Lemma noisy_invariant k (N : event → Prop) (I : Db → Prop) :
  (∀ i, Forall (λ ev, event_req_ok ev ∧ N ev) (su_others su k i)) →
  (∀ ev db, event_req_ok ev → N ev → I db → I (apply_event ev db)) →
  ∀ A (p : prog DbReq A) i db,
    all_reqs (λ A (q : DbReq A), req_ok q ∧ ∀ env, N (Event q env)) p → I db →
    I (run (noisy_answer k) p (i, db)).2.2.
Proof.
  intros Hsu Hev A p i db Hp Hdb.
  apply (run_invariant (noisy_answer k) (λ A (q : DbReq A), req_ok q ∧ ∀ env, N (Event q env))
           (λ s, I s.2)); [|done..].
  intros Y q [i' db'] [Hok Hn] HI. unfold noisy_answer. cbn [snd] in HI.
  assert (I (replay (su_others su k i') db')) as HI'.
  { specialize (Hsu i'). revert db' HI.
    induction Hsu as [|ev l [He Hp'] _ IH]; intros db' HI; [done|]. cbn. apply IH. by apply Hev. }
  pose proof (Hev (Event q (su_env su k i')) _ Hok (Hn _) HI') as H. cbn in H.
  by destruct (exec q (su_env su k i') (replay (su_others su k i') db')).
Qed.

Lemma noisy_backend_state A (e : StoreE A) k db :
  (noisy_backend A e (k, db)).2.2 = (run (noisy_answer k) (pg_store e) (0%nat, db)).2.2.
Proof.
  unfold noisy_backend. by destruct (run (noisy_answer k) (pg_store e) (0%nat, db)) as [? [? ?]].
Qed.

(** The requests of a call that is not a purge. *)
Definition plain {A} (q : DbReq A) : Prop := req_ok q ∧ ∀ env, ¬ purges (Event q env).

Lemma pg_store_plain {A} (e : StoreE A) :
  call_ok e → ¬ is_purge e → all_reqs (λ A (q : DbReq A), plain q) (pg_store e).
Proof.
  intros He Hp. destruct e; cbn [pg_store]; try (by destruct Hp); method_reqs;
    try (split; [done|by intros env []]).
  all: apply insert_submission_reqs; intros; (split; [done|by intros env []]).
Qed.

Lemma noisy_keeps (I : Db → Prop) A (e : StoreE A) k db :
  no_purge su → call_ok e → ¬ is_purge e →
  (∀ ev db, event_req_ok ev → ¬ purges ev → I db → I (apply_event ev db)) →
  I db → I (noisy_backend A e (k, db)).2.2.
Proof.
  intros Hsu He Hp Hev HI. rewrite noisy_backend_state.
  apply (noisy_invariant k (λ ev, ¬ purges ev)); try done. by apply pg_store_plain.
Qed.

Lemma run_noisy_ok k A (p : prog DbReq A) i db :
  no_purge su → all_reqs (λ A (q : DbReq A), req_ok q) p → db_ok db →
  db_ok (run (noisy_answer k) p (i, db)).2.2.
Proof.
  intros Hsu Hp. apply (noisy_invariant k (λ _, True)).
  - intros i'. eapply Forall_impl; [apply Hsu|]. by intros ev [].
  - intros ev db' Hev _. by apply apply_event_ok.
  - clear -Hp. induction p as [a|Y q h IH|]; [done| |done]. cbn in *.
    destruct Hp as [Hq Hh]. split; [by split|]. intros x. by apply IH.
Qed.

(** ** Postconditions of the methods *)

Lemma exec_stmt_Ok {A} (st : Sql A) env db a db' :
  exec_stmt st env db = (Ok a, db') → st env db = Ok (a, db').
Proof.
  unfold exec_stmt. destruct (env_fault env); [|done|];
    destruct (st env db) as [[a1 db1]|e1]; intros; by simplify_eq.
Qed.

Lemma exec_read_Ok {A} (f : Env → Db → result sqlx_error A) env db a db' :
  exec_stmt (sql_read f) env db = (Ok a, db') → db' = db ∧ f env db = Ok a.
Proof.
  intros H%exec_stmt_Ok. unfold sql_read in H.
  destruct (f env db); cbn in H; by simplify_eq.
Qed.

Lemma exec_tx_Ok {R} (t : Tx R R) env db r db' :
  exec_tx t env db = (Ok r, db') → run_tx t env db = (Ok r, db').
Proof. unfold exec_tx. by destruct (env_fault env). Qed.

(** What the other clients, and the call, keep while it runs. *)
Definition kept (I : Db → Prop) : Prop :=
  ∀ ev db, event_req_ok ev → ¬ purges ev → db_ok db → I db → I (apply_event ev db).

Section methods.
Context (k : nat) (Hsu : no_purge su) (I : Db → Prop) (HI : kept I).
#[local] Set Default Proof Using "Type*".

Definition good (db : Db) : Prop := db_ok db ∧ I db.

Lemma replay_good l db :
  Forall (λ ev, event_req_ok ev ∧ ¬ purges ev) l → good db → good (replay l db).
Proof.
  intros Hl. revert db. induction Hl as [|ev l [Hev Hp] _ IH]; intros db [Hok Hi]; [done|].
  cbn. apply IH. split; [by apply apply_event_ok|by apply HI].
Qed.

Lemma run_good A (p : prog DbReq A) i db :
  all_reqs (λ A (q : DbReq A), plain q) p → good db → good (run (noisy_answer k) p (i, db)).2.2.
Proof.
  intros Hp. apply (noisy_invariant k (λ ev, ¬ purges ev)); [done| |done].
  intros ev db' Hev Hnp [Hok Hi]. split; [by apply apply_event_ok|by apply HI].
Qed.

Lemma ends_request A B (q : DbReq A) (h : A → prog DbReq B) i db (Q : B → nat * Db → Prop) :
  good db → plain q →
  (∀ env a db1 db', good db1 → good db' → exec q env db1 = (a, db') →
     ends_in (noisy_answer k) (h a) (S i, db') Q) →
  ends_in (noisy_answer k) (trigger q ≫= h) (i, db) Q.
Proof.
  intros Hdb Hq Hh b s' Hrun. rewrite run_bind, run_trigger in Hrun. unfold noisy_answer at 1 in Hrun.
  set (db1 := replay (su_others su k i) db) in *.
  assert (good db1) as Hdb1 by (apply replay_good; [apply Hsu|done]).
  destruct Hq as [Hq Hp].
  assert (good (exec q (su_env su k i) db1).2) as Hdb'.
  { split; [by apply exec_db_ok, Hdb1|]. by apply (HI (Event q _)), Hdb1; [|apply Hp|apply Hdb1]. }
  destruct (exec q (su_env su k i) db1) as [a db'] eqn:He.
  by apply (Hh _ a db1 db' Hdb1 Hdb' He).
Qed.

Lemma ends_query A B (q : DbReq (result sqlx_error A)) (h : A → prog DbReq (Result B)) i db
    (Q : Result B → nat * Db → Prop) :
  good db → plain q →
  (∀ env a db1 db', good db1 → good db' → exec q env db1 = (Ok a, db') →
     ends_in (noisy_answer k) (h a) (S i, db') Q) →
  (∀ e db', good db' → Q (Err (Storage e)) (S i, db')) →
  ends_in (noisy_answer k) (bind_ok h (query q)) (i, db) Q.
Proof.
  intros Hdb Hq Hh HQ.
  change (bind_ok h (query q)) with
    (trigger q ≫= λ r, match map_err storage_err r with Ok a => h a | Err e => Ret (Err e) end).
  apply ends_request; [done..|]. intros env [a|e] db1 db' Hdb1 Hdb' He; cbn [map_err].
  - by apply (Hh env a db1 db').
  - apply ends_in_ret. by apply HQ.
Qed.

(** One lookup: what it answers is stored, and only the database's errors come
    out of it. *)
Lemma ends_fetch id i db :
  good db →
  ends_in (noisy_answer k) (fetch_job id) (i, db)
    (λ r s', match r with Ok o => stored_job s'.2 id = o | Err e => ∃ m, e = Storage m end).
Proof.
  intros Hdb. apply ends_query; [done|plain_req| |by eexists].
  intros env row db1 db' Hdb1 Hdb' He. apply ends_in_ret. cbn [exec] in He.
  unfold sql_select_job in He. apply exec_read_Ok in He as [-> [= <-]]. unfold transpose_job, stored_job. cbn [snd].
  destruct (db_jobs db1 !! id) as [r|]; [|done].
  destruct (into_job r) as [j|e] eqn:Hj; cbn; rewrite ?Hj; [done|].
  apply into_job_Err in Hj as (m & -> & _). by eexists.
Qed.

(** What an accepted submission leaves; a created job was not there before it
    was inserted. *)
Definition submitted (n : NormalizedJob) (sub : Submission) (db : Db) : Prop :=
  stored_job db (job_id (sub_job sub)) = Some (sub_job sub) ∧
  job_queue (sub_job sub) = nj_queue n ∧
  job_idempotency_key (sub_job sub) = nj_idempotency_key n ∧
  (if sub_created sub then
     stored_as n (sub_job sub) ∧
     ∃ db1, good db1 ∧ db_jobs db1 !! job_id (sub_job sub) = None
   else nj_idempotency_key n ≠ None).

Definition submit_post (n : NormalizedJob) (r : Result Submission) (s : nat * Db) : Prop :=
  match r with Ok sub => submitted n sub s.2 | Err _ => True end.

Lemma found_submitted n key env db1 row db' r i :
  good db1 → nj_idempotency_key n = Some key →
  exec (QSelectJobByKey (nj_queue n) key) env db1 = (Ok (Some row), db') →
  existing_submission row = r → submit_post n r (i, db').
Proof.
  intros [Hdb _] Hkey He <-. cbn [exec] in He. unfold sql_select_job_by_key in He.
  apply exec_read_Ok in He as [-> [= He]].
  assert (row ∈ rows_where (has_key (nj_queue n) key) (db_jobs db1)) as Hin.
  { destruct (rows_where _ _) as [|r0 rest]; [done|]. cbn in He. simplify_eq. set_solver. }
  apply elem_of_rows_where in Hin as [Hk [id Hrow]]. apply has_key_spec in Hk as [Hq Hk].
  pose proof (ok_keyed _ Hdb _ _ Hrow) as Hid.
  unfold existing_submission. destruct (into_job row) as [j|e] eqn:Hj; [|done].
  apply into_job_Ok in Hj as (s & Hs & ->). cbn. split; [|split; [done|split]].
  - cbn. rewrite Hid. by eapply stored_job_row.
  - cbn. by rewrite Hkey.
  - cbn. by rewrite Hkey.
Qed.

Lemma inserted_submitted n env db1 row db' i :
  good db1 → exec (QInsertJob n) env db1 = (Ok row, db') →
  submit_post n (res_bind (into_job row) (λ j, Ok (mkSubmission j true))) (i, db').
Proof.
  intros Hgood He. cbn [exec] in He. apply exec_stmt_Ok in He. unfold sql_insert_job in He.
  destruct (negb _); [done|]. destruct (unique_conflict _ db1) eqn:Hu; [done|].
  case_match; simplify_eq. rewrite (into_job_as_str _ (nj_status n)) by done.
  apply orb_false_iff in Hu as [Hu _]. cbn in Hu.
  destruct (db_jobs db1 !! env_uuid env) eqn:Hid; [done|].
  split_and!; try done.
  - cbn. apply stored_job_row; [|done]. cbn. apply lookup_insert_eq.
  - cbn. split; [done|]. exists db1. by split.
Qed.

Lemma ends_insert n i db :
  submittable n → good db →
  ends_in (noisy_answer k) (insert_submission n) (i, db) (submit_post n).
Proof.
  intros Hn Hdb. apply ends_request; [done|plain_req|]. intros env [row|e] db1 db' Hdb1 Hdb' He.
  { apply ends_in_ret. by apply (inserted_submitted _ env db1). }
  destruct (is_unique_violation e); [|by apply ends_in_ret].
  destruct (nj_idempotency_key n) as [key|] eqn:Hkey; [|by apply ends_in_ret].
  apply (ends_in_bind_ok _ _ _ _ (λ row s', submit_post n (existing_submission row) s')).
  2:{ intros row s' HQ. by apply ends_in_ret. }
  apply (ends_query _ _ _ _ _ _ _ Hdb'); [plain_req| |done].
  intros env' [row|] db2 db3 Hdb2 Hdb3 He'.
  - apply ends_in_ret. by eapply (found_submitted _ key _ db2).
  - by apply ends_in_ret.
Qed.

Lemma ends_submit n i db :
  submittable n → good db → ends_in (noisy_answer k) (submit n) (i, db) (submit_post n).
Proof.
  intros Hn Hdb.
  apply (ends_in_bind_ok _ _ _ _ (λ _ s', good s'.2)).
  { intros r s' Hrun. destruct r; [|done]. replace s' with
      (run (noisy_answer k) (ensure_queue (nj_queue n)) (i, db)).2 by by rewrite Hrun.
    apply run_good; [|done]. apply (pg_store_plain (EnsureQueue (nj_queue n)) Logic.I).
    by intros []. }
  intros _ [i' db1] Hdb1. destruct (nj_idempotency_key n) as [key|] eqn:Hkey; [|by apply ends_insert].
  apply ends_query; [done|plain_req| |done]. intros env [row|] db2 db3 Hdb2 Hdb3 He.
  - apply ends_in_ret. by eapply (found_submitted _ key _ db2).
  - by apply ends_insert.
Qed.

Lemma ends_lease w qs secs i db :
  good db →
  ends_in (noisy_answer k) (lease_next w qs secs) (i, db) (λ r s',
    match r with
    | Ok (Some j) => stored_job s'.2 (job_id j) = Some j ∧ job_status j = Processing ∧
        job_locked_by j = Some w ∧ job_queue j ∈ qs ∧ 1 ≤ job_attempts j ≤ job_max_attempts j
    | _ => True
    end).
Proof.
  intros Hdb. change (lease_next w qs secs) with (trigger (TLease w qs secs) ≫= Ret).
  apply ends_request; [done|plain_req|]. intros env a db1 db' Hdb1 Hdb' He. apply ends_in_ret.
  destruct a as [[j|]|]; try done. cbn [exec] in He. apply exec_tx_Ok in He. unfold run_tx in He.
  destruct (tx_lease w qs secs env db1) as [[out db2]|out] eqn:Ht; simplify_eq.
  2:{ by apply tx_lease_inr in Ht as [? _]. }
  apply tx_lease_inl in Ht as (r & r' & Hc & -> & _ & [= ->] & _ & ->).
  apply lease_candidate_Some in Hc as ([id Hr] & He & _).
  destruct (db_ok_status _ _ _ (proj1 Hdb1) Hr) as (s & _ & Hrow).
  destruct (eligible_leaseable _ _ _ _ He) as (s1 & Hs1 & Hl & _).
  pose proof (row_attempt_left _ _ Hrow). pose proof (row_attempts _ _ Hrow).
  rewrite (row_ok_status _ _ _ Hrow Hs1) in *. cbn [snd]. split_and!; try done.
  - apply stored_job_row; [|done]. cbn. apply lookup_insert_eq.
  - cbn. unfold eligible in He. destruct (db_queues db1 !! jr_queue r); [|done].
    rewrite !andb_true_iff, str_in_true in He. tauto.
  - cbn. lia.
  - cbn. naive_solver lia.
Qed.

Lemma ends_explain id op i db (Q : Result Job → nat * Db → Prop) :
  good db → (∀ e s', Q (Err e) s') →
  ends_in (noisy_answer k) (explain_no_match id op) (i, db) Q.
Proof.
  intros Hdb HQ. apply (ends_in_bind_ok _ _ _ _ (λ _ _, True)).
  - intros [o|e] s' _; [done|apply HQ].
  - intros [j|] s' _; apply ends_in_ret, HQ.
Qed.

(** A final answer of an operation on a job: the job is stored, in the new
    status. *)
Definition ended_as (id : Uuid) (P : Job → Prop) (r : Result Job) (s : nat * Db) : Prop :=
  match r with Ok j => stored_job s.2 id = Some j ∧ P j | Err _ => True end.

Lemma ends_complete id w res i db :
  good db →
  ends_in (noisy_answer k) (complete_job id w res) (i, db)
    (ended_as id (λ j, job_status j = Completed ∧ job_result j = res)).
Proof.
  intros Hdb. apply ends_request; [done|plain_req|]. intros env a db1 db' Hdb1 Hdb' He.
  destruct a as [[j|]|e]; cbn [map_err].
  - apply ends_in_ret. cbn [exec] in He. apply exec_tx_Ok in He. unfold run_tx in He.
    destruct (tx_complete id w res env db1) as [[out db2]|out] eqn:Ht; simplify_eq.
    + apply tx_complete_inl in Ht as (r & r' & _ & _ & -> & [= ->] & ->).
      split; [|done]. apply stored_job_row; [|done]. cbn. apply lookup_insert_eq.
    + by apply tx_complete_inr in Ht.
  - by apply ends_explain.
  - by apply ends_in_ret.
Qed.

Lemma ends_cancel id i db :
  good db →
  ends_in (noisy_answer k) (cancel_job id) (i, db) (ended_as id (λ j, job_status j = Cancelled)).
Proof.
  intros Hdb. apply ends_query; [done|plain_req| |done]. intros env [r'|] db1 db' Hdb1 Hdb' He.
  - apply ends_in_ret. cbn [exec] in He. apply exec_stmt_Ok in He.
    unfold sql_cancel, update_job_returning in He.
    destruct (db_jobs db1 !! id) as [r|]; [|done].
    destruct (str_in _ _); [|done]. simplify_eq.
    rewrite (into_job_as_str (set_cancelled (env_now env) r) Cancelled) by done.
    split; [|done]. apply stored_job_row; [|done]. cbn. apply lookup_insert_eq.
  - by apply ends_explain.
Qed.

End methods.
(** ** The instance *)

#[local] Arguments noisy_backend : simpl never.

Lemma event_finished_job ev db id r j :
  db_ok db → ¬ purges ev → db_jobs db !! id = Some r → into_job r = Ok j →
  finished (job_status j) → db_jobs (apply_event ev db) !! id = Some r.
Proof.
  intros Hok Hp Hr (s & Hs & ->)%into_job_Ok Hf. apply event_finished; [done..|].
  cbn in Hf. destruct Hf as [-> | ->]; auto.
Qed.

Lemma stored_job_lookup db id j :
  stored_job db id = Some j ↔ ∃ r, db_jobs db !! id = Some r ∧ into_job r = Ok j.
Proof.
  unfold stored_job. split.
  - destruct (db_jobs db !! id) as [r|]; [|done]. cbn.
    destruct (into_job r) eqn:Hj; [|done]. intros. exists r. by simplify_eq.
  - intros (r & -> & Hj). cbn. by rewrite Hj.
Qed.

Lemma noisy_run A (e : StoreE (Result A)) k db a s' (Q : Result A → nat * Db → Prop) :
  noisy_backend _ e (k, db) = (Ok a, s') → (∀ b, unanswered e ≠ Ok b) →
  ends_in (noisy_answer k) (pg_store e) (0%nat, db) Q → ∃ i, Q (Ok a) (i, s'.2).
Proof.
  intros Hb Hun HQ. destruct (noisy_ok _ _ _ _ _ _ Hb Hun) as [Hrun ->].
  apply HQ in Hrun. cbn. by destruct (run _ _ _).2 as [i db']; exists i.
Qed.

Context (Hsu : no_purge su).

Lemma kept_always : kept (λ _, True).
Proof. done. Qed.

Lemma kept_job id : kept (λ db, is_Some (db_jobs db !! id)).
Proof. intros ev db _ Hp Hok [r Hr]. by eapply event_keeps. Qed.

#[export] Program Instance pg_lawful : LawfulStore noisy_backend := {
  sound s := db_ok s.2;
  stored s := stored_job s.2;
}.
Next Obligation.
  intros A e [k db] He Hok. cbn in *. rewrite noisy_backend_state.
  apply run_noisy_ok; [done| |done]. by apply (pg_store_reqs e).
Qed.
Next Obligation.
  intros A e [k db] id j He Hp Hok (r & s & Hr & Hs & ->)%stored_job_inv. cbn in *.
  destruct (noisy_keeps (λ d, db_ok d ∧ ∃ r', db_jobs d !! id = Some r' ∧ row_frame r' = row_frame r)
    A e k db) as (Hok' & r' & Hr' & Hf); [done..| |by eauto|].
  - intros ev d Hev Hnp (Hd & r1 & Hr1 & Hf1). split; [by apply apply_event_ok|].
    destruct (event_keeps ev d id r1 Hd Hr1 Hnp) as [r2 Hr2]. exists r2. split; [done|].
    rewrite <-Hf1. by eapply event_frame.
  - destruct (db_ok_status _ _ _ Hok' Hr') as (s' & Hs' & _).
    exists (job_of_row r' s'). split; [by apply stored_job_row|by apply job_frame_row].
Qed.
Next Obligation.
  intros A e [k db] id j He Hp Hok (r & Hr & Hj)%stored_job_lookup Hf. cbn in *.
  destruct (noisy_keeps (λ d, db_ok d ∧ db_jobs d !! id = Some r) A e k db)
    as (Hok' & Hr'); [done..| |done|].
  - intros ev d Hev Hnp (Hd & Hr1). split; [by apply apply_event_ok|].
    by eapply event_finished_job.
  - apply stored_job_lookup. eauto.
Qed.
Next Obligation.
  intros id [k db] o s' Hok Hb. cbn in *.
  by destruct (noisy_run _ _ _ _ _ _ _ Hb (λ _, ltac:(done)) (ends_fetch k Hsu _ kept_always id 0 db (conj Hok I))).
Qed.
Next Obligation.
  intros id [k db] err s' Hok Hb. cbn in *. unfold noisy_backend in Hb. cbn [pg_store] in Hb.
  pose proof (ends_fetch k Hsu _ kept_always id 0 db (conj Hok I)) as HQ. unfold ends_in in HQ.
  unfold get_job in Hb. destruct (run _ _ _) as [[r|] [i db']]; cbn in Hb; simplify_eq; [|by eexists].
  by apply (HQ _ _ eq_refl).
Qed.
Next Obligation.
  intros n [k db] sub s' Hn Hok Hb. cbn in *.
  destruct (noisy_run _ _ _ _ _ _ _ Hb (λ _, ltac:(done))
    (ends_submit k Hsu _ kept_always n 0 db Hn (conj Hok I))) as (i & Hst & Hq & Hk & Hcr).
  split; [done|]. split; [done|]. split; [done|].
  destruct (sub_created sub) eqn:Hc; [|done]. destruct Hcr as [Has _]. split; [done|].
  destruct (stored_job db _) as [j|] eqn:Hj; [|done].
  apply stored_job_lookup in Hj as (r & Hr & _).
  destruct (noisy_run _ _ _ _ _ _ _ Hb (λ _, ltac:(done))
    (ends_submit k Hsu _ (kept_job _) n 0 db Hn (conj Hok (mk_is_Some _ _ Hr))))
    as (i' & _ & _ & _ & Hcr).
  rewrite Hc in Hcr. destruct Hcr as (_ & db1 & [_ [r1 Hr1]] & Hnone). congruence.
Qed.
Next Obligation.
  intros [k db] id1 id2 j1 j2 key Hok (r1 & s1 & Hr1 & _ & ->)%stored_job_inv
    (r2 & s2 & Hr2 & _ & ->)%stored_job_inv Hq Hk1 Hk2.
  by apply (ok_unique _ Hok id1 id2 r1 r2 key).
Qed.
Next Obligation.
  intros w qs secs [k db] j s' Hok Hb. cbn in *.
  by destruct (noisy_run _ _ _ _ _ _ _ Hb (λ _, ltac:(done)) (ends_lease k Hsu _ kept_always w qs secs 0 db (conj Hok I))).
Qed.
Next Obligation.
  intros id w res [k db] j s' Hok Hb. cbn in *.
  by destruct (noisy_run _ _ _ _ _ _ _ Hb (λ _, ltac:(done)) (ends_complete k Hsu _ kept_always id w res 0 db (conj Hok I))).
Qed.
Next Obligation.
  intros id [k db] j s' Hok Hb. cbn in *.
  by destruct (noisy_run _ _ _ _ _ _ _ Hb (λ _, ltac:(done)) (ends_cancel k Hsu _ kept_always id 0 db (conj Hok I))).
Qed.

End backend.

(** C20: [PgStore] keeps the contract.  In the midst of other clients, whose
    requests run before each of its statements in any environment and with any
    fault but do not purge, [PgStore] satisfies every law of a lawful store:
    sound means the invariant [db_ok] of the tables, and the job stored under
    an id is its row, read back. *)
Theorem pg_store_lawful su :
  no_purge su →
  ∃ L : LawfulStore (noisy_backend su),
    (∀ k db, sound (LawfulStore := L) (k, db) ↔ db_ok db) ∧
    (∀ k db id j, stored (LawfulStore := L) (k, db) id = Some j ↔
       ∃ r, db_jobs db !! id = Some r ∧ into_job r = Ok j).
Proof.
  intros Hsu. exists (pg_lawful su Hsu). split; [done|].
  intros k db id j. apply (stored_job_lookup db id j).
Qed.

End pglaws.
