(* ===== verification/Telemetry.v ===== *)
(** * [djq-telemetry]: the metrics

    The collectors of [crates/telemetry/src/lib.rs] and the operations the
    program makes on them.  The [prometheus] crate is outside the repository:
    an operation is an effect, recorded in order, and what the crate asks of
    it (a declared collector of that kind, called with its number of labels)
    is a property of the programs that make it. *)

From S2P Require Import Prelude Externals RustStr.
From stdpp Require Import options.

(** The fields of [Metrics], but for the registry. *)
Inductive metric :=
| jobs_submitted | jobs_completed | jobs_failed | jobs_retried | jobs_dead_lettered
| jobs_timed_out | queue_depth | active_workers | processing_duration | lease_wait | build_info.

#[export] Instance metric_eq_dec : EqDecision metric.
Proof. solve_decision. Defined.

Inductive metric_kind := KCounter | KIntGauge | KGauge | KHistogram (buckets_ms : list Z).

Record Collector := mkCollector {
  col_metric : metric;
  col_name : string;
  col_help : string;
  col_kind : metric_kind;
  col_labels : list string;
}.

(** [Metrics::new]: the collectors, in the order they are registered.  Bucket
    bounds are in milliseconds. *)
Definition metrics_new : list Collector :=
  [ mkCollector jobs_submitted "djq_jobs_submitted_total" "Jobs accepted at the API"
      KCounter ["queue"%string];
    mkCollector jobs_completed "djq_jobs_completed_total" "Jobs completed successfully"
      KCounter ["queue"%string];
    mkCollector jobs_failed "djq_jobs_failed_total" "Job attempts that failed"
      KCounter ["queue"%string];
    mkCollector jobs_retried "djq_jobs_retried_total" "Retries scheduled"
      KCounter ["queue"%string];
    mkCollector jobs_dead_lettered "djq_jobs_dead_lettered_total" "Jobs sent to the DLQ"
      KCounter ["queue"%string];
    mkCollector jobs_timed_out "djq_jobs_timed_out_total" "Attempts timed out" KCounter [];
    mkCollector queue_depth "djq_queue_depth" "Leaseable jobs currently waiting"
      KIntGauge ["queue"%string];
    mkCollector active_workers "djq_active_workers" "Workers alive in window" KIntGauge [];
    mkCollector processing_duration "djq_processing_duration_seconds"
      "Job processing duration in seconds"
      (KHistogram [5; 10; 25; 50; 100; 250; 500; 1000; 2500; 5000; 10000; 30000; 60000]) [];
    mkCollector lease_wait "djq_lease_wait_seconds" "Time spent leaseable before pickup"
      (KHistogram [10; 50; 100; 250; 500; 1000; 2500; 5000; 10000; 30000; 60000; 300000]) [];
    mkCollector build_info "djq_build_info" "Build info" KGauge [] ].

(** What the program does to a collector: [c.with_label_values(ls).inc()],
    [g.with_label_values(ls).set(z)], [h.observe(x)]. *)
Inductive metric_op :=
| Inc (m : metric) (labels : list string)
| SetGauge (m : metric) (labels : list string) (z : Z)
| Observe (m : metric) (x : f64).

(** The operation is one its collector has, with its number of labels. *)
Definition metric_op_ok (op : metric_op) : bool :=
  existsb (λ c,
    match op, col_kind c with
    | Inc m ls, KCounter => bool_decide (col_metric c = m ∧ length ls = length (col_labels c))
    | SetGauge m ls _, KIntGauge =>
        bool_decide (col_metric c = m ∧ length ls = length (col_labels c))
    | Observe m _, KHistogram _ => bool_decide (col_metric c = m)
    | _, _ => false
    end) metrics_new.

(** [Metrics::render], on what the encoder of the [prometheus] crate makes of
    the gathered registry: its bytes, or its error. *)
Definition render (encoded : result string string) : string :=
  match encoded with
  | Err _ => ""%string
  | Ok buf => from_utf8_or_default buf
  end.

(** ** Tracing *)

(** The subscriber a process has installed, and the lines it logged. *)
Record Subscriber := mkSubscriber { sub_filter : string; sub_json : bool }.

(** [init_tracing]: the state is the [OnceCell] [TRACING] with what was
    installed; [env_filter] is the filter of [RUST_LOG], if it parses. *)
Definition init_tracing (env_filter : option string) (service : string) (json : bool)
    (tracing : option Subscriber) : option Subscriber :=
  match tracing with
  | Some sub => Some sub
  | None => Some (mkSubscriber (default "info,sqlx=warn,hyper=warn"%string env_filter) json)
  end.
