(* ===== verification/QueueService.v ===== *)
(** * [djq-queue]: the service

    [QueueService] of [crates/queue/src/lib.rs]: every method as a program
    over the store, the clock and the metrics, against any backend of the
    [Store] interface. *)

From S2P Require Import Prelude Prog Externals Status Error Model Store Telemetry.
From stdpp Require Import options.

Section service.
Context `{X : Externals}.

(** ** Effects *)

Inductive SvcE : Type → Type :=
| CallStore {A} (e : StoreE A) : SvcE A      (* self.store.method(...).await *)
| UtcNow : SvcE Timestamp                    (* chrono::Utc::now() *)
| Metric (op : metric_op) : SvcE unit.       (* self.metrics... *)

Abbreviation Svc A := (prog SvcE (Result A)).

Definition call {A} (e : StoreE A) : prog SvcE A := trigger (CallStore e).
Definition record (op : metric_op) : prog SvcE unit := trigger (Metric op).

Definition DEFAULT_LEASE_SECS : Z := 30.

(** ** Submission *)

Definition submit (new : NewJob) : Svc Submission :=
  now ← trigger UtcNow;
  match normalized new now with
  | None => Panic
  | Some (Err e) => Ret (Err e)
  | Some (Ok normalized) =>
      let queue := nj_queue normalized in
      submission ←? call (Submit normalized);
      if sub_created submission
      then _ ← record (Inc jobs_submitted [queue]); Ret (Ok submission)
      else Ret (Ok submission)
  end.

(** ** Inspection *)

Definition get_job (id : Uuid) : Svc Job :=
  found ←? call (GetJob id);
  Ret (ok_or (JobNotFound id) found).

Definition list_jobs (filter : JobFilter) : Svc (list Job) :=
  let '(limit, offset) := bounded filter in
  let status := as_str <$> jf_status filter in
  call (ListJobs (jf_queue filter) status (jf_job_type filter) limit offset).

Definition list_attempts (job_id : Uuid) : Svc (list JobAttempt) :=
  found ←? call (GetJob job_id);
  match found with
  | None => Ret (Err (JobNotFound job_id))
  | Some _ => call (ListAttempts job_id)
  end.

Definition list_dead_letter (queue : option string) (limit : Z) : Svc (list DeadLetterJob) :=
  call (ListDeadLetter queue (clamp 1 500 limit)).

(** ** Operator actions *)

Definition cancel_job (id : Uuid) : Svc Job := call (CancelJob id).

Definition retry_job (id : Uuid) : Svc Job := call (RetryJob id).

(** The subtraction is [chrono]'s, and panics out of its range. *)
Definition purge_finished (older_than_secs : Z) : Svc Z :=
  now ← trigger UtcNow;
  match chrono_sub_secs now (Z.max older_than_secs 0) with
  | None => Panic
  | Some cutoff => call (PurgeFinished cutoff)
  end.

(** ** Queues *)

Definition ensure_queue (name : string) : Svc Queue := call (EnsureQueue name).
Definition list_queues : Svc (list Queue) := call ListQueues.
Definition set_queue_paused (name : string) (paused : bool) : Svc Queue :=
  call (SetQueuePaused name paused).
Definition queue_stats (name : string) : Svc QueueStats := call (StoreQueueStats name).

(** ** Worker-facing operations *)

Definition lease_next (worker_id : Uuid) (queues : list string) (lease_secs : Z)
  : Svc (option Job) := call (LeaseNext worker_id queues lease_secs).

Definition renew_lease (id worker_id : Uuid) (lease_secs : Z) : Svc unit :=
  call (RenewLease id worker_id lease_secs).

Definition record_failure (job : Job) (worker_id : Uuid) (err : string) (timed_out : bool)
  : Svc Job :=
  _ ← record (Inc jobs_failed [job_queue job]);
  updated ←? call (FailJob (job_id job) worker_id err timed_out);
  match job_status updated with
  | Retrying => _ ← record (Inc jobs_retried [job_queue job]); Ret (Ok updated)
  | DeadLettered => _ ← record (Inc jobs_dead_lettered [job_queue job]); Ret (Ok updated)
  | _ => Ret (Ok updated)
  end.

Definition report_outcome (job : Job) (worker_id : Uuid) (outcome : ExecutionOutcome)
    (duration_secs : f64) : Svc Job :=
  _ ← record (Observe processing_duration duration_secs);
  match outcome with
  | Success res =>
      updated ←? call (CompleteJob (job_id job) worker_id res);
      _ ← record (Inc jobs_completed [job_queue job]);
      Ret (Ok updated)
  | Failure err => record_failure job worker_id err false
  | Timeout =>
      _ ← record (Inc jobs_timed_out []);
      record_failure job worker_id "execution timed out" true
  end.

Definition complete_job (id worker_id : Uuid) (res : option Json) : Svc Job :=
  call (CompleteJob id worker_id res).

(** ** Running against a backend

    A backend answers the store's calls; the run records the metric
    operations and the store calls, in order. *)
Section backend.
Context {S : Type} (backend : ∀ A, StoreE A → S → A * S).

Inductive store_call :=
| StoreCall {A : Type} (e : StoreE A).

Record World := mkWorld {
  w_store : S;
  w_clock : nat → Timestamp;     (* the instants [Utc::now] returns *)
  w_ticks : nat;
  w_calls : list store_call;
  w_metrics : list metric_op;
}.

#[export] Instance eta_World : Eta World := λ w,
  mkWorld (w_store w) (w_clock w) (w_ticks w) (w_calls w) (w_metrics w).

Definition svc_answer (A : Type) (e : SvcE A) (w : World) : A * World :=
  match e in SvcE A return A * World with
  | CallStore e =>
      let '(a, s) := backend _ e (w_store w) in
      (a, w <| w_store := s |> <| w_calls ::= λ cs, cs ++ [StoreCall e] |>)
  | UtcNow => (w_clock w (w_ticks w), w <| w_ticks ::= Nat.succ |>)
  | Metric op => (tt, w <| w_metrics ::= λ ms, ms ++ [op] |>)
  end.

Lemma run_call {A B} (e : StoreE (Result A)) (k : A → prog SvcE (Result B)) w :
  run svc_answer (bind_ok k (call e)) w =
    let '(r, s) := backend _ e (w_store w) in
    let w' := w <| w_store := s |> <| w_calls ::= λ cs, cs ++ [StoreCall e] |> in
    match r with Ok a => run svc_answer (k a) w' | Err err => (Some (Err err), w') end.
Proof.
  rewrite run_bind_ok. unfold call. rewrite run_trigger. cbn.
  by destruct (backend _ e (w_store w)) as [[a|err] s].
Qed.

Lemma world_eq (w w' : World) :
  w_store w = w_store w' → w_clock w = w_clock w' → w_ticks w = w_ticks w' →
  w_calls w = w_calls w' → w_metrics w = w_metrics w' → w = w'.
Proof. destruct w, w'. cbn. intros; by subst. Qed.

(** The world after one store call that answered [s]. *)
Definition called {A} (e : StoreE A) (s : S) (w : World) : World :=
  w <| w_store := s |> <| w_calls ::= λ cs, cs ++ [StoreCall e] |>.

Lemma run_bind_call {A B} (e : StoreE A) (k : A → prog SvcE B) w :
  run svc_answer (call e ≫= k) w =
    run svc_answer (k (backend _ e (w_store w)).1) (called e (backend _ e (w_store w)).2 w).
Proof. rewrite run_bind. unfold call. rewrite run_trigger. cbn. by destruct (backend _ e (w_store w)). Qed.

Lemma run_record {A} op (p : prog SvcE A) w :
  run svc_answer (record op ≫= λ _, p) w =
    run svc_answer p (w <| w_metrics ::= λ ms, ms ++ [op] |>).
Proof. done. Qed.

Lemma run_record_alone op w :
  run svc_answer (record op) w = (Some tt, w <| w_metrics ::= λ ms, ms ++ [op] |>).
Proof. done. Qed.

(** ** The outcome report *)

(** The store call an outcome becomes. *)
Definition outcome_call (job : Job) (worker_id : Uuid) (outcome : ExecutionOutcome)
  : StoreE (Result Job) :=
  match outcome with
  | Success res => CompleteJob (job_id job) worker_id res
  | Failure err => FailJob (job_id job) worker_id err false
  | Timeout => FailJob (job_id job) worker_id "execution timed out" true
  end.

(** The metrics an outcome is worth, given what the store answered. *)
Definition outcome_metrics (job : Job) (outcome : ExecutionOutcome) (duration_secs : f64)
    (answer : Result Job) : list metric_op :=
  let q := [job_queue job] in
  let moved := match answer with
               | Ok updated => match job_status updated with
                               | Retrying => [Inc jobs_retried q]
                               | DeadLettered => [Inc jobs_dead_lettered q]
                               | _ => []
                               end
               | Err _ => []
               end in
  Observe processing_duration duration_secs ::
  match outcome with
  | Success _ => match answer with Ok _ => [Inc jobs_completed q] | Err _ => [] end
  | Failure _ => Inc jobs_failed q :: moved
  | Timeout => Inc jobs_timed_out [] :: Inc jobs_failed q :: moved
  end.

Definition reported (w : World) (s : S) (c : store_call) (ms : list metric_op) : World :=
  w <| w_store := s |> <| w_calls ::= λ cs, cs ++ [c] |> <| w_metrics ::= λ l, l ++ ms |>.

Lemma run_report_outcome job worker_id outcome duration_secs w :
  let c := outcome_call job worker_id outcome in
  let '(answer, s) := backend _ c (w_store w) in
  run svc_answer (report_outcome job worker_id outcome duration_secs) w =
    (Some answer,
     reported w s (StoreCall c) (outcome_metrics job outcome duration_secs answer)).
Proof.
  cbv zeta. unfold report_outcome, record_failure, reported, outcome_metrics.
  destruct outcome as [res|err|]; cbn [outcome_call]; rewrite ?run_record, run_call; cbn;
    destruct (backend _ _ (w_store w)) as [[updated|e] s]; cbn;
    try destruct (job_status updated); destruct w; cbn;
    unfold set; cbn; rewrite <- ?app_assoc; done.
Qed.

(** [report_outcome] reports once, whatever the store is.  A success is
    one [complete_job], a failure and a timeout are one [fail_job] (a timeout
    flagged as such); the caller gets the store's answer; the duration is
    observed once, and the counters are exactly those of the outcome: a
    completion is counted when the store accepted it, a failed attempt always,
    a timeout on top of its failure, and a retry or a dead letter when the
    store says that is what became of the job. *)
Theorem report_outcome_spec job worker_id outcome duration_secs w :
  let c := outcome_call job worker_id outcome in
  let '(answer, s) := backend _ c (w_store w) in
  run svc_answer (report_outcome job worker_id outcome duration_secs) w =
    (Some answer,
     reported w s (StoreCall c) (outcome_metrics job outcome duration_secs answer)).
Proof. apply run_report_outcome. Qed.

(** [submit] takes the time once and validates before it touches the
    store: an invalid request costs no store call and no metric, a valid one
    is one [Store::submit] of its normal form, and the submissions counter of
    the job's queue moves exactly when the store created the job. *)
Theorem service_submit_spec new w :
  let now := w_clock w (w_ticks w) in
  let w1 := w <| w_ticks ::= Nat.succ |> in
  run svc_answer (submit new) w =
    match normalized new now with
    | None => (None, w1)
    | Some (Err e) => (Some (Err e), w1)
    | Some (Ok n) =>
        let '(answer, s) := backend _ (Submit n) (w_store w) in
        (Some answer,
         reported w1 s (StoreCall (Submit n))
           (match answer with
            | Ok sub => if sub_created sub then [Inc jobs_submitted [new_queue new]] else []
            | Err _ => []
            end))
    end.
Proof.
  cbv zeta. unfold submit. rewrite run_bind, run_trigger. cbn [svc_answer].
  destruct (normalized new (w_clock w (w_ticks w))) as [[n|e]|] eqn:Hn; [|done..].
  assert (nj_queue n = new_queue new) as Hq.
  { revert Hn. rewrite normalized_unfold. destruct (first_violation _); [done|].
    destruct (resolve_run_at _ _); [|done]. by intros [= <-]. }
  rewrite run_call. cbn. destruct (backend _ (Submit n) (w_store w)) as [[sub|e] s];
    [destruct (sub_created sub)|]; cbn; rewrite ?Hq; destruct w; unfold reported, set; cbn;
    by rewrite ?app_nil_r.
Qed.

End backend.

(** ** Bounds and metrics of every method *)

(** Every limit and offset that reaches the store is a page. *)
Definition page_ok {A} (e : SvcE A) : Prop :=
  match e with
  | CallStore (ListJobs _ _ _ limit offset) => 1 ≤ limit ≤ 200 ∧ 0 ≤ offset
  | CallStore (ListDeadLetter _ limit) => 1 ≤ limit ≤ 500
  | _ => True
  end.

(** Whatever limit and offset a request carries, what reaches the store is
    a page of 1 to 200 jobs, or of 1 to 500 dead letters, at a non-negative
    offset. *)
Theorem service_pages_bounded filter queue limit :
  all_reqs (λ A (e : SvcE A), page_ok e) (list_jobs filter) ∧
  all_reqs (λ A (e : SvcE A), page_ok e) (list_dead_letter queue limit).
Proof.
  split; cbn; [|unfold clamp; split; [lia|done]].
  unfold clamp. split; [lia|done].
Qed.

(** [purge_finished] hands the store the instant [older_than_secs] ago,
    a negative age counting as none, in one call; but nothing bounds the age
    of a request, and an age [chrono] cannot subtract from the clock panics. *)
Theorem service_purge_spec {S : Type} (backend : ∀ A, StoreE A → S → A * S) age w :
  let now := w_clock w (w_ticks w) in
  let w1 := w <| w_ticks ::= Nat.succ |> in
  run (svc_answer backend) (purge_finished age) w =
    match chrono_sub_secs now (Z.max age 0) with
    | None => (None, w1)
    | Some cutoff =>
        let '(answer, s) := backend _ (PurgeFinished cutoff) (w_store w) in
        (Some answer, reported w1 s (StoreCall (PurgeFinished cutoff)) [])
    end.
Proof.
  cbv zeta. unfold purge_finished. rewrite run_bind, run_trigger. cbn [svc_answer].
  destruct (chrono_sub_secs _ _) as [cutoff|]; [|done].
  unfold call. rewrite run_trigger. cbn. destruct (backend _ _ _) as [r s].
  destruct w. unfold reported, set; cbn. by rewrite app_nil_r.
Qed.

End service.
