(* ===== verification/Maintenance.v ===== *)
(** * [djq-queue::maintenance]: the background sweeps

    The maintenance loop of [crates/queue/src/maintenance.rs]: what one sweep
    calls and records, and when the loop sweeps and stops. *)

From S2P Require Import Prelude Prog Externals Status Error Model Float64 Store Telemetry.
From S2P Require Import QueueService.
From stdpp Require Import options.

Section maintenance.
Context `{X : Externals}.

Record MaintenanceConfig := mkMaintenanceConfig {
  tick : Duration;
  recover_batch : Z;
  worker_ttl_secs : Z;
  active_window_secs : Z;
}.

Definition maintenance_default : MaintenanceConfig := {|
  tick := from_secs 5;
  recover_batch := 100;
  worker_ttl_secs := 60;
  active_window_secs := 30;
|}.

(** The body of [for q in queues]: a failed count is skipped. *)
Definition refresh_depth (q : Queue) : prog SvcE unit :=
  r ← queue_stats (queue_name q);
  match r with
  | Ok stats =>
      let depth := qs_queued stats + qs_scheduled stats + qs_retrying stats in
      record (SetGauge queue_depth [queue_name q] depth)
  | Err _ => Ret tt
  end.

Fixpoint refresh_depths (queues : list Queue) : prog SvcE unit :=
  match queues with
  | [] => Ret tt
  | q :: rest => _ ← refresh_depth q; refresh_depths rest
  end.

(** [sweep]: its errors are logged and swallowed. *)
Definition sweep (cfg : MaintenanceConfig) : prog SvcE unit :=
  _ ← call (RecoverExpiredLeases (recover_batch cfg));
  _ ← call (PruneDeadWorkers (worker_ttl_secs cfg));
  active ← call (ListActiveWorkers (active_window_secs cfg));
  _ ← match active with
      | Ok workers => record (SetGauge active_workers [] (Z.of_nat (length workers)))
      | Err _ => Ret tt
      end;
  found ← list_queues;
  match found with
  | Ok queues => refresh_depths queues
  | Err _ => Ret tt
  end.

(** The branch each [tokio::select!] of the loop takes. *)
Inductive select_branch := Cancelled | Ticked.

(** [run], on the branches its selects take. *)
Fixpoint maintenance_run (cfg : MaintenanceConfig) (branches : list select_branch)
  : prog SvcE unit :=
  match branches with
  | [] => Ret tt
  | Cancelled :: _ => Ret tt
  | Ticked :: rest => _ ← sweep cfg; maintenance_run cfg rest
  end.

(** ** What a sweep does *)

Section backend.
Context {S : Type} (backend : ∀ A, StoreE A → S → A * S).

(** The gauge updates for the queues, from the answers to [queue_stats]. *)
Definition depth_update (q : Queue) (answer : Result QueueStats) : list metric_op :=
  match answer with
  | Ok st => [SetGauge queue_depth [queue_name q] (qs_queued st + qs_scheduled st + qs_retrying st)]
  | Err _ => []
  end.

(** The answers to [queue_stats] for each queue, one after the other. *)
Fixpoint stats_answers (queues : list Queue) (s : S) : list (Result QueueStats) * S :=
  match queues with
  | [] => ([], s)
  | q :: rest =>
      let '(r, s1) := backend _ (StoreQueueStats (queue_name q)) s in
      let '(rs, s2) := stats_answers rest s1 in (r :: rs, s2)
  end.

Lemma run_refresh_depths queues w :
  run (svc_answer backend) (refresh_depths queues) w =
    (Some tt,
     w <| w_store := (stats_answers queues (w_store w)).2 |>
       <| w_calls ::= λ cs, cs ++ ((λ q, StoreCall (StoreQueueStats (queue_name q))) <$> queues) |>
       <| w_metrics ::= λ ms,
            ms ++ concat (zip_with depth_update queues (stats_answers queues (w_store w)).1) |>).
Proof.
  revert w. induction queues as [|q queues IH]; intros w.
  { f_equal. apply world_eq; try done; cbn; by rewrite app_nil_r. }
  cbn [refresh_depths]. rewrite run_bind. unfold refresh_depth, queue_stats.
  rewrite run_bind_call. cbn [stats_answers].
  destruct (backend _ _ (w_store w)) as [r s1]. cbn [fst snd].
  set (w1 := called (StoreQueueStats (queue_name q)) s1 w).
  assert (run (svc_answer backend)
    match r with
    | Ok stats => record (SetGauge queue_depth [queue_name q]
                    (qs_queued stats + qs_scheduled stats + qs_retrying stats))
    | Err _ => Ret tt
    end w1 = (Some tt, w1 <| w_metrics ::= λ l, l ++ depth_update q r |>)) as Hrun.
  { destruct r; [done|]. f_equal. apply world_eq; try done. cbn. by rewrite app_nil_r. }
  rewrite Hrun, IH. cbn [w_store set called]. subst w1. cbn [w_store].
  change (w_store (_ <| w_metrics ::= _ |>)) with s1.
  destruct (stats_answers queues s1) as [rs s2] eqn:Hst. cbn [fst snd].
  f_equal. apply world_eq; try done; cbn; rewrite <- ?app_assoc; rewrite ?Hst; done.
Qed.

(** A sweep is never fatal and never partial.  Whatever the store answers,
    errors included, a sweep runs to its end: it recovers one batch, prunes
    the dead workers, counts the active ones and lists the queues, in that
    order; it sets the active-workers gauge to the count when it got one; and
    it asks for the statistics of every listed queue, and sets the queue's
    depth to its leaseable jobs whenever it got an answer, whether or not it
    got one for the others. *)
Theorem sweep_spec cfg w :
  let '(recovered, s1) := backend _ (RecoverExpiredLeases (recover_batch cfg)) (w_store w) in
  let '(pruned, s2) := backend _ (PruneDeadWorkers (worker_ttl_secs cfg)) s1 in
  let '(active, s3) := backend _ (ListActiveWorkers (active_window_secs cfg)) s2 in
  let '(listed, s4) := backend _ ListQueues s3 in
  let queues := match listed with Ok qs => qs | Err _ => [] end in
  let '(answers, s5) := stats_answers queues s4 in
  run (svc_answer backend) (sweep cfg) w =
    (Some tt,
     w <| w_store := s5 |>
       <| w_calls ::= λ cs, cs ++
            [StoreCall (RecoverExpiredLeases (recover_batch cfg));
             StoreCall (PruneDeadWorkers (worker_ttl_secs cfg));
             StoreCall (ListActiveWorkers (active_window_secs cfg));
             StoreCall ListQueues] ++
            ((λ q, StoreCall (StoreQueueStats (queue_name q))) <$> queues) |>
       <| w_metrics ::= λ ms, ms ++
            match active with
            | Ok ws => [SetGauge active_workers [] (Z.of_nat (length ws))] | Err _ => [] end ++
            concat (zip_with depth_update queues answers) |>).
Proof.
  unfold sweep, list_queues. rewrite run_bind_call.
  destruct (backend _ (RecoverExpiredLeases (recover_batch cfg)) (w_store w)) as [recovered s1].
  cbn [fst snd]. rewrite run_bind_call. change (w_store (called _ s1 w)) with s1.
  destruct (backend _ (PruneDeadWorkers (worker_ttl_secs cfg)) s1) as [pruned s2].
  cbn [fst snd]. rewrite run_bind_call. change (w_store (called _ s2 _)) with s2.
  destruct (backend _ (ListActiveWorkers (active_window_secs cfg)) s2) as [active s3].
  cbn [fst snd]. rewrite run_bind.
  set (w3 := called (ListActiveWorkers (active_window_secs cfg)) s3 _).
  set (ms := match active with Ok ws => [SetGauge active_workers [] (Z.of_nat (length ws))]
             | Err _ => [] end).
  assert (run (svc_answer backend)
    match active with
    | Ok workers => record (SetGauge active_workers [] (Z.of_nat (length workers)))
    | Err _ => Ret tt
    end w3 = (Some tt, w3 <| w_metrics ::= λ l, l ++ ms |>)) as ->.
  { subst ms. destruct active; [done|]. f_equal. apply world_eq; [done..|]. cbn.
    by rewrite app_nil_r. }
  rewrite run_bind_call. change (w_store (w3 <| w_metrics ::= _ |>)) with s3.
  destruct (backend _ ListQueues s3) as [listed s4]. cbn [fst snd].
  destruct listed as [queues|e].
  - rewrite run_refresh_depths. change (w_store (called ListQueues s4 _)) with s4.
    destruct (stats_answers queues s4) as [answers s5]. cbn [fst snd].
    f_equal. subst w3 ms. apply world_eq; [done..| |]; cbn; by rewrite <- ?app_assoc.
  - cbn [stats_answers]. f_equal. subst w3 ms. apply world_eq; [done..| |]; cbn;
      by rewrite <- ?app_assoc, ?app_nil_r.
Qed.

Lemma run_sweep cfg w : ∃ w', run (svc_answer backend) (sweep cfg) w = (Some tt, w').
Proof.
  unfold sweep, list_queues. rewrite !run_bind_call, run_bind.
  destruct (backend _ (ListActiveWorkers _) _) as [[ws|e] s3]; cbn [fst snd];
    [rewrite run_record_alone|cbn [run]]; rewrite run_bind_call;
    destruct (backend _ ListQueues _) as [[queues|e'] s4]; cbn [fst snd];
    rewrite ?run_refresh_depths; by eexists.
Qed.

(** The sweeps of [n] ticks. *)
Fixpoint sweeps (cfg : MaintenanceConfig) (n : nat) : prog SvcE unit :=
  match n with O => Ret tt | Datatypes.S n' => _ ← sweep cfg; sweeps cfg n' end.

(** The ticks before the first cancellation. *)
Fixpoint ticks_before (branches : list select_branch) : nat :=
  match branches with
  | Ticked :: rest => Datatypes.S (ticks_before rest)
  | _ => O
  end.

(** The loop sweeps on every tick until the shutdown and never after, and
    always ends without a panic: on the branches its selects take, it is the
    sweeps of the ticks before the first cancellation. *)
Theorem maintenance_run_spec cfg branches w :
  run (svc_answer backend) (maintenance_run cfg branches) w =
    run (svc_answer backend) (sweeps cfg (ticks_before branches)) w ∧
  (run (svc_answer backend) (maintenance_run cfg branches) w).1 = Some tt.
Proof.
  revert w. induction branches as [|[|] rest IH]; intros w; [done|done|].
  cbn [maintenance_run ticks_before sweeps]. rewrite !run_bind.
  destruct (run_sweep cfg w) as [w' ->]. apply IH.
Qed.

End backend.

End maintenance.
