(* ===== verification/Handlers.v ===== *)
(** * [djq-worker]: handlers and their registry

    [JobHandler], [HandlerRegistry] and the built-in handlers of
    [crates/worker/src/lib.rs] and [handlers.rs].  A handler is a program
    whose only effect is to sleep. *)

From S2P Require Import Prelude Prog Externals Status Error Model Float64.
From stdpp Require Import pretty.
From stdpp Require Import options.
Local Open Scope Z_scope.

Section handlers.
Context `{X : Externals}.

Inductive HandlerE : Type → Type :=
| Sleep (d : Duration) : HandlerE unit.

Definition HandlerResult : Type := result string (option Json).

Definition JobHandler : Type := Job → prog HandlerE HandlerResult.

(** ** The registry *)

Definition HandlerRegistry : Type := gmap string JobHandler.

Definition registry_new : HandlerRegistry := ∅.

Definition register (self : HandlerRegistry) (job_type : string) (handler : JobHandler)
  : HandlerRegistry := <[job_type := handler]> self.

Definition registry_get (self : HandlerRegistry) (job_type : string) : option JobHandler :=
  self !! job_type.

Lemma registry_get_eq r t h : registry_get (register r t h) t = Some h.
Proof. apply lookup_insert_eq. Qed.

Lemma registry_get_ne r t t' h : t' ≠ t → registry_get (register r t h) t' = registry_get r t'.
Proof. intros Hne. by apply lookup_insert_ne. Qed.

(** [String]'s order is the order of its bytes. *)
Definition str_le (a b : string) : Prop := String.leb a b = true.
#[export] Instance str_le_dec a b : Decision (str_le a b) := decide (String.leb a b = true).

Definition job_types (self : HandlerRegistry) : list string :=
  merge_sort str_le (map_to_list self).*1.

(** ** The built-in handlers *)

Definition echo_handler : JobHandler := λ job, Ret (Ok (Some (job_payload job))).

(** The body of the loop over the numbers. *)
Fixpoint sum_numbers (sum : f64) (numbers : list Json) : result string f64 :=
  match numbers with
  | [] => Ok sum
  | n :: rest =>
      match json_as_f64 n with
      | Some x => sum_numbers (f64_add sum x) rest
      | None => Err ("non-numeric element: " ++ json_to_string n)%string
      end
  end.

Definition sum_handler : JobHandler := λ job,
  match json_get (job_payload job) "numbers" ≫= json_as_array with
  | None => Ret (Err "payload.numbers must be an array"%string)
  | Some numbers =>
      match sum_numbers (f64_of_Z 0) numbers with
      | Err e => Ret (Err e)
      | Ok sum => Ret (Ok (Some (json_object [("sum"%string, json_of_f64 sum)])))
      end
  end.

Definition sleep_handler : JobHandler := λ job,
  let ms := default 100 (json_get (job_payload job) "ms" ≫= json_as_u64) in
  _ ← trigger (Sleep (from_millis ms));
  Ret (Ok (Some (json_object [("slept_ms"%string, json_of_int ms)]))).

Definition fail_handler : JobHandler := λ job,
  let msg := default "intentional failure"%string
               (json_get (job_payload job) "message" ≫= json_as_str) in
  Ret (Err msg).

Definition flaky_handler : JobHandler := λ job,
  let fail_until := default 2 (json_get (job_payload job) "fail_until" ≫= json_as_i64) in
  if job_attempts job <? fail_until
  then Ret (Err ("flaky failure on attempt " ++ pretty (job_attempts job) ++
                 " (< " ++ pretty fail_until ++ ")"))%string
  else Ret (Ok (Some (json_object [("succeeded_on_attempt"%string,
                                    json_of_int (job_attempts job))]))).

Definition with_examples (self : HandlerRegistry) : HandlerRegistry :=
  register (register (register (register (register self
    "echo" echo_handler) "sum" sum_handler) "sleep" sleep_handler)
    "fail" fail_handler) "flaky" flaky_handler.

(** What a handler returns, however long its sleeps take; [None] is a panic. *)
Definition handler_value (p : prog HandlerE HandlerResult) : option HandlerResult :=
  (run (λ A (e : HandlerE A) (s : unit),
          match e in HandlerE A return A * unit with Sleep _ => (tt, s) end) p tt).1.

(** The registry is a map: the last handler registered for a type is the
    one found, the other types keep theirs, and [job_types] lists exactly the
    types that have a handler, each once, in order. *)
Theorem registry_spec (reg : HandlerRegistry) t h :
  registry_get (register reg t h) t = Some h ∧
  (∀ t', t' ≠ t → registry_get (register reg t h) t' = registry_get reg t') ∧
  (∀ t', t' ∈ job_types reg ↔ is_Some (registry_get reg t')) ∧ NoDup (job_types reg) ∧
  (∀ t', is_Some (registry_get (with_examples reg) t') ↔
     t' ∈ ["echo"; "sum"; "sleep"; "fail"; "flaky"]%string ∨ is_Some (registry_get reg t')).
Proof.
  unfold registry_get, register, job_types. split_and!.
  - apply registry_get_eq.
  - intros t' Hne. by apply registry_get_ne.
  - intros t'. rewrite merge_sort_Permutation, list_elem_of_fmap. split.
    + intros ([k x] & -> & Hin%elem_of_map_to_list). by eexists.
    + intros [x Hx]. exists (t', x). split; [done|]. by apply elem_of_map_to_list.
  - rewrite merge_sort_Permutation. apply NoDup_fst_map_to_list.
  - intros t'. unfold with_examples, register, HandlerRegistry in *.
    rewrite !lookup_insert_is_Some', !elem_of_cons. set_solver.
Qed.

(** The flaky handler fails exactly while the attempt number is below
    [fail_until] (2 by default), so with enough attempts it succeeds: on
    attempt [fail_until], counting from 1. *)
Theorem flaky_eventually_succeeds job :
  let fail_until := default 2 (json_get (job_payload job) "fail_until" ≫= json_as_i64) in
  (job_attempts job < fail_until →
     ∃ msg, handler_value (flaky_handler job) = Some (Err msg)) ∧
  (fail_until ≤ job_attempts job →
     ∃ j, handler_value (flaky_handler job) = Some (Ok (Some j))).
Proof.
  intros fail_until. unfold flaky_handler. fold fail_until.
  destruct (Z.ltb_spec (job_attempts job) fail_until);
    (split; intros; [|]); try lia; by eexists.
Qed.

End handlers.
