(* ===== verification/WorkerConfig.v ===== *)
(** * [djq-worker::config]: the worker's configuration

    [WorkerConfig] of [crates/worker/src/config.rs], read from an environment
    given as a function from variable names. *)

From S2P Require Import Prelude Externals RustStr Float64.
From Stdlib Require Import Ascii.
From stdpp Require Import options.

Record WorkerConfig := mkWorkerConfig {
  wc_id : Uuid;
  wc_hostname : string;
  wc_queues : list string;
  wc_concurrency : Z;
  wc_lease_secs : Z;
  wc_poll_interval : Duration;
  wc_heartbeat_interval : Duration;
  wc_shutdown_grace : Duration;
}.

#[export] Instance eta_WorkerConfig : Eta WorkerConfig := λ c, mkWorkerConfig
  (wc_id c) (wc_hostname c) (wc_queues c) (wc_concurrency c) (wc_lease_secs c)
  (wc_poll_interval c) (wc_heartbeat_interval c) (wc_shutdown_grace c).

(** [Default], with the drawn [Uuid::new_v4()]. *)
Definition worker_config_default (new_v4 : Uuid) : WorkerConfig := {|
  wc_id := new_v4;
  wc_hostname := "unknown";
  wc_queues := ["default"%string];
  wc_concurrency := 8;
  wc_lease_secs := 30;
  wc_poll_interval := from_millis 500;
  wc_heartbeat_interval := from_secs 10;
  wc_shutdown_grace := from_secs 30;
|}.

(** [std::env::var(key).ok()] *)
Definition environment : Type := string → option string.

Definition env_parse (env : environment) (key : string) : option Z :=
  v ← env key; parse_i64 (str_trim v).

(** The queues of [WORKER_QUEUES]. *)
Definition parse_queues (q : string) : list string :=
  filter (λ s, str_is_empty s = false) (str_trim <$> str_split ","%char q).

(** [if let Some(n) = o { cfg = f(n) }] *)
Definition with_var {A} (o : option A) (f : A → WorkerConfig → WorkerConfig)
    (cfg : WorkerConfig) : WorkerConfig :=
  match o with Some a => f a cfg | None => cfg end.

Definition worker_from_env (env : environment) (new_v4 : Uuid) : WorkerConfig :=
  let cfg := worker_config_default new_v4 in
  let cfg := with_var (env "HOSTNAME"%string)
    (λ h cfg, if str_is_empty h then cfg else cfg <| wc_hostname := h |>) cfg in
  let cfg := with_var (env "WORKER_QUEUES"%string)
    (λ q cfg, match parse_queues q with
              | [] => cfg
              | queues => cfg <| wc_queues := queues |>
              end) cfg in
  let cfg := with_var (env_parse env "WORKER_CONCURRENCY")
    (λ n cfg, cfg <| wc_concurrency := Z.max (as_u64 n) 1 |>) cfg in
  let cfg := with_var (env_parse env "WORKER_LEASE_SECS")
    (λ n cfg, cfg <| wc_lease_secs := Z.max n 1 |>) cfg in
  let cfg := with_var (env_parse env "WORKER_POLL_MS")
    (λ n cfg, cfg <| wc_poll_interval := from_millis (as_u64 (Z.max n 10)) |>) cfg in
  let cfg := with_var (env_parse env "WORKER_HEARTBEAT_SECS")
    (λ n cfg, cfg <| wc_heartbeat_interval := from_secs (as_u64 (Z.max n 1)) |>) cfg in
  with_var (env_parse env "WORKER_SHUTDOWN_GRACE_SECS")
    (λ n cfg, cfg <| wc_shutdown_grace := from_secs (as_u64 (Z.max n 1)) |>) cfg.

Lemma env_parse_range env key n : env_parse env key = Some n → is_i64 n.
Proof. unfold env_parse. destruct (env key); [|done]. apply parse_i64_range. Qed.

Lemma as_u64_range n : 0 ≤ as_u64 n ≤ u64_max.
Proof. unfold as_u64, u64_max. pose proof (Z.mod_pos_bound n (2 ^ 64)). lia. Qed.

(** Each field of the result, on its own. *)
Lemma worker_from_env_fields env u :
  let c := worker_from_env env u in
  wc_queues c = match env "WORKER_QUEUES"%string with
                | Some q => match parse_queues q with [] => ["default"%string] | qs => qs end
                | None => ["default"%string] end ∧
  wc_concurrency c = match env_parse env "WORKER_CONCURRENCY" with
                     | Some n => Z.max (as_u64 n) 1 | None => 8 end ∧
  wc_lease_secs c = match env_parse env "WORKER_LEASE_SECS" with
                    | Some n => Z.max n 1 | None => 30 end ∧
  wc_poll_interval c = from_millis match env_parse env "WORKER_POLL_MS" with
                       | Some n => as_u64 (Z.max n 10) | None => 500 end ∧
  wc_heartbeat_interval c = from_secs match env_parse env "WORKER_HEARTBEAT_SECS" with
                       | Some n => as_u64 (Z.max n 1) | None => 10 end ∧
  wc_shutdown_grace c = from_secs match env_parse env "WORKER_SHUTDOWN_GRACE_SECS" with
                       | Some n => as_u64 (Z.max n 1) | None => 30 end.
Proof.
  cbv zeta. unfold worker_from_env, with_var.
  destruct (env "HOSTNAME"%string) as [h|]; [destruct (str_is_empty h)|];
  (destruct (env "WORKER_QUEUES"%string) as [q|]; [destruct (parse_queues q)|]);
  destruct (env_parse env "WORKER_CONCURRENCY"), (env_parse env "WORKER_LEASE_SECS"),
    (env_parse env "WORKER_POLL_MS"), (env_parse env "WORKER_HEARTBEAT_SECS"),
    (env_parse env "WORKER_SHUTDOWN_GRACE_SECS"); by split_and!.
Qed.

(** Whatever the environment holds, the configuration is usable: at least
    one queue and no empty queue name, at least one concurrent job, a lease of
    at least a second, a poll of at least 10 ms, a heartbeat and a shutdown
    grace of at least a second; an unset or unparsable variable leaves the
    default. *)
Theorem worker_config_well_formed env u :
  let c := worker_from_env env u in
  wc_queues c ≠ [] ∧ (∀ q, q ∈ wc_queues c → q ≠ ""%string) ∧
  1 ≤ wc_concurrency c ≤ u64_max ∧ 1 ≤ wc_lease_secs c ≤ i64_max ∧
  (10 ≤ dur_secs (wc_poll_interval c) * 1000 + dur_nanos (wc_poll_interval c) / 1000000) ∧
  1 ≤ dur_secs (wc_heartbeat_interval c) ∧ 1 ≤ dur_secs (wc_shutdown_grace c) ∧
  (env_parse env "WORKER_CONCURRENCY" = None → wc_concurrency c = 8) ∧
  (env_parse env "WORKER_LEASE_SECS" = None → wc_lease_secs c = 30).
Proof.
  intros c. destruct (worker_from_env_fields env u) as (Hq & Hc & Hl & Hp & Hh & Hs).
  fold c in Hq, Hc, Hl, Hp, Hh, Hs. rewrite Hq, Hc, Hl, Hp, Hh, Hs. clear Hq Hc Hl Hp Hh Hs c.
  assert (∀ k n, env_parse env k = Some n → ∀ lo, 1 ≤ lo ≤ 10 →
            as_u64 (Z.max n lo) = Z.max n lo) as Hu64.
  { intros k n Hn lo Hlo. apply env_parse_range in Hn. unfold is_i64, i64_min, i64_max in Hn.
    apply as_u64_small. unfold u64_max. lia. }
  split_and!.
  - repeat case_match; done.
  - intros q. destruct (env "WORKER_QUEUES"%string) as [s|]; [|by intros ->%list_elem_of_singleton].
    destruct (parse_queues s) as [|q0 qs] eqn:Hqs; [by intros ->%list_elem_of_singleton|].
    intros Hin. rewrite <- Hqs in Hin. unfold parse_queues in Hin.
    apply list_elem_of_filter in Hin as [He _]. by intros ->.
  - destruct (env_parse env _); lia.
  - destruct (env_parse env _) as [z|]; [|unfold u64_max; lia].
    pose proof (as_u64_range z). unfold u64_max in *. lia.
  - clear. destruct (env_parse env _); [apply Z.le_max_r|lia].
  - destruct (env_parse env _) as [z|] eqn:Hn; [|unfold i64_max; lia]. apply env_parse_range in Hn.
    unfold is_i64, i64_max in *. lia.
  - cbn. destruct (env_parse env _) as [z|] eqn:Hn; [|done]. rewrite (Hu64 _ _ Hn) by lia.
    rewrite Z.div_mul by done. pose proof (Z.div_mod (Z.max z 10) 1000 ltac:(done)). lia.
  - cbn. destruct (env_parse env _) as [z|] eqn:Hn; [rewrite (Hu64 _ _ Hn) by lia|]; lia.
  - cbn. destruct (env_parse env _) as [z|] eqn:Hn; [rewrite (Hu64 _ _ Hn) by lia|]; lia.
  - by intros ->.
  - by intros ->.
Qed.

(** The largest semaphore [tokio] accepts; [Semaphore::new] panics above. *)
Definition semaphore_max_permits : Z := u64_max / 8.

(** A negative [WORKER_CONCURRENCY] is cast to [usize] before it is
    clamped: it becomes an enormous concurrency, which
    [Semaphore::new] refuses with a panic, and not the documented minimum. *)
Theorem negative_concurrency_wraps env u n :
  env_parse env "WORKER_CONCURRENCY" = Some n → n < 0 →
  wc_concurrency (worker_from_env env u) = 2 ^ 64 + n ∧
  semaphore_max_permits < wc_concurrency (worker_from_env env u).
Proof.
  intros Hn Hneg. destruct (worker_from_env_fields env u) as (_ & -> & _). rewrite Hn.
  apply env_parse_range in Hn. unfold is_i64, i64_min in Hn.
  assert (as_u64 n = 2 ^ 64 + n) as ->.
  { unfold as_u64. rewrite <- (Z.mod_add n 1) by done. rewrite Z.mod_small by lia. lia. }
  unfold semaphore_max_permits, u64_max. change ((2 ^ 64 - 1) / 8) with (2 ^ 61 - 1). lia.
Qed.

Lemma negative_concurrency_wraps_witness :
  let env := λ k, if String.eqb k "WORKER_CONCURRENCY" then Some " -1 "%string else None in
  wc_concurrency (worker_from_env env 0%N) = 18446744073709551615.
Proof.
  intros env. apply (negative_concurrency_wraps env 0%N (-1)); [reflexivity|lia].
Defined.
