(* ===== verification/Worker.v ===== *)
(** * [djq-worker::runtime]: executing jobs

    [execute_job] and the heartbeat of [crates/worker/src/runtime.rs], as
    programs over the service, the clock of the attempt and the timed run of a
    handler, against any backend of the store. *)

From S2P Require Import Prelude Prog Externals Status Error Model Float64 Store Telemetry.
From S2P Require Import QueueService Maintenance Handlers WorkerConfig.
From stdpp Require Import options.

Section worker.
Context `{X : Externals}.

(** How [timeout(dur, handler.handle(&job)).await] ends. *)
Inductive timed_result :=
| Finished (r : HandlerResult)
| TimeElapsed
| HandlerPanicked.

Inductive WorkerE : Type → Type :=
| Service {A} (e : SvcE A) : WorkerE A
| Timed (dur : Duration) (p : prog HandlerE HandlerResult) : WorkerE timed_result
| StartElapsed : WorkerE f64.          (* start.elapsed().as_secs_f64() *)

Definition svc {A} (p : prog SvcE A) : prog WorkerE A := interp (λ A (e : SvcE A), trigger (Service e)) p.

Definition no_handler (job_type : string) : string :=
  ("no handler for job_type '" ++ job_type ++ "'")%string.

(** The handler's run, as an outcome. *)
Definition run_handler (registry : HandlerRegistry) (job : Job) : prog WorkerE ExecutionOutcome :=
  match registry_get registry (job_job_type job) with
  | None => Ret (Failure (no_handler (job_job_type job)))
  | Some handler =>
      let dur := from_secs (as_u64 (Z.max (job_timeout_secs job) 1)) in
      t ← trigger (Timed dur (handler job));
      match t with
      | Finished (Ok res) => Ret (Success res)
      | Finished (Err msg) => Ret (Failure msg)
      | TimeElapsed => Ret Timeout
      | HandlerPanicked => Panic
      end
  end.

Definition execute_job (registry : HandlerRegistry) (worker_id : Uuid) (job : Job)
  : prog WorkerE unit :=
  let cover := job_timeout_secs job + 30 in
  renewed ← svc (renew_lease (job_id job) worker_id cover);
  match renewed with
  | Err _ => Ret tt
  | Ok _ =>
      outcome ← run_handler registry job;
      elapsed ← trigger StartElapsed;
      _ ← svc (report_outcome job worker_id outcome elapsed);
      Ret tt
  end.

(** One turn of [run]'s loop: lease a job and, if there is one, execute it.
    The task is run to its end before the next turn, as it is when the permits
    are one; the permits, the shutdown and the drain are the subject of
    [Runtime].  (The poll interval is not a call.) *)
Definition worker_round (registry : HandlerRegistry) (worker_id : Uuid) (queues : list string)
    (lease_secs : Z) : prog WorkerE unit :=
  leased ← svc (lease_next worker_id queues lease_secs);
  match leased with
  | Ok (Some job) => execute_job registry worker_id job
  | Ok None | Err _ => Ret tt
  end.

(** [n] turns, before any shutdown. *)
Fixpoint worker_rounds (registry : HandlerRegistry) (worker_id : Uuid) (queues : list string)
    (lease_secs : Z) (n : nat) : prog WorkerE unit :=
  match n with
  | O => Ret tt
  | S n' =>
      _ ← worker_round registry worker_id queues lease_secs;
      worker_rounds registry worker_id queues lease_secs n'
  end.

(** The [Worker] that [run] registers; [concurrency as i32]. *)
Definition worker_of_config (config : WorkerConfig) (now : Timestamp) : Worker := {|
  worker_id := wc_id config;
  worker_hostname := wc_hostname config;
  worker_queues := wc_queues config;
  worker_concurrency := as_i32 (wc_concurrency config);
  worker_registered_at := now;
  worker_last_heartbeat := now;
|}.

(** One tick of [heartbeat_loop]. *)
Definition heartbeat_tick (worker : Worker) : prog SvcE unit :=
  r ← call (Heartbeat (worker_id worker));
  match r with
  | Ok true => Ret tt
  | Ok false => _ ← call (RegisterWorker worker); Ret tt
  | Err _ => Ret tt
  end.

(** [heartbeat_loop], on the branches its selects take. *)
Fixpoint heartbeat_loop (worker : Worker) (branches : list select_branch) : prog SvcE unit :=
  match branches with
  | [] => Ret tt
  | Cancelled :: _ => Ret tt
  | Ticked :: rest => _ ← heartbeat_tick worker; heartbeat_loop worker rest
  end.

(** ** Against a backend *)

Section backend.
Context {S : Type} (backend : ∀ A, StoreE A → S → A * S).
(** How the timed run of a handler ends, and how long it took. *)
Context (timed : Duration → prog HandlerE HandlerResult → timed_result) (elapsed : f64).

Definition worker_answer (A : Type) (e : WorkerE A) (w : World (S := S)) : A * World (S := S) :=
  match e in WorkerE A return A * World with
  | Service e => svc_answer backend _ e w
  | Timed dur p => (timed dur p, w)
  | StartElapsed => (elapsed, w)
  end.

Lemma run_svc {A} (p : prog SvcE A) w :
  run worker_answer (svc p) w = run (svc_answer backend) p w.
Proof.
  revert w. induction p as [a|Y e k IH|]; intros w; [done| |done].
  unfold svc. cbn [interp run]. cbn. destruct (svc_answer backend Y e w) as [y w']. apply IH.
Qed.

(** The outcome of the handler's run; [None] is its panic. *)
Definition job_outcome (registry : HandlerRegistry) (job : Job) : option ExecutionOutcome :=
  match registry_get registry (job_job_type job) with
  | None => Some (Failure (no_handler (job_job_type job)))
  | Some handler =>
      match timed (from_secs (Z.max (job_timeout_secs job) 1)) (handler job) with
      | Finished (Ok res) => Some (Success res)
      | Finished (Err msg) => Some (Failure msg)
      | TimeElapsed => Some Timeout
      | HandlerPanicked => None
      end
  end.

Lemma run_execute_job registry worker_id job w :
  0 ≤ job_timeout_secs job ≤ i32_max →
  let renew := RenewLease (job_id job) worker_id (job_timeout_secs job + 30) in
  let '(renewed, s1) := backend _ renew (w_store w) in
  let w1 := called renew s1 w in
  run worker_answer (execute_job registry worker_id job) w =
    match renewed, job_outcome registry job with
    | Err _, _ => (Some tt, w1)
    | Ok _, None => (None, w1)
    | Ok _, Some outcome =>
        let c := outcome_call job worker_id outcome in
        let '(answer, s2) := backend _ c s1 in
        (Some tt, reported w1 s2 (StoreCall c) (outcome_metrics job outcome elapsed answer))
    end.
Proof.
  intros Hto. cbv zeta. unfold execute_job. rewrite run_bind, run_svc.
  unfold renew_lease, call. rewrite run_trigger. cbn [svc_answer].
  destruct (backend _ (RenewLease _ _ _) (w_store w)) as [[[]|e] s1]; [|done].
  change (w <| w_store := s1 |> <| w_calls ::= _ |>) with
    (called (RenewLease (job_id job) worker_id (job_timeout_secs job + 30)) s1 w).
  set (w1 := called _ s1 w).
  rewrite run_bind. unfold run_handler, job_outcome.
  assert (as_u64 (Z.max (job_timeout_secs job) 1) = Z.max (job_timeout_secs job) 1) as Hu64.
  { apply as_u64_small. unfold u64_max, i32_max in *. lia. }
  assert (∀ outcome,
    run worker_answer (el ← trigger StartElapsed;
       _ ← svc (report_outcome job worker_id outcome el); Ret tt) w1 =
    let c := outcome_call job worker_id outcome in
    let '(answer, s2) := backend _ c s1 in
    (Some tt, reported w1 s2 (StoreCall c) (outcome_metrics job outcome elapsed answer))) as Hrep.
  { intros outcome. rewrite run_bind, run_trigger. cbn [worker_answer]. rewrite run_bind, run_svc.
    pose proof (run_report_outcome backend job worker_id outcome elapsed w1) as Hr.
    change (w_store w1) with s1 in Hr. cbv zeta in *.
    destruct (backend _ (outcome_call _ _ _) s1) as [answer s2]. by rewrite Hr. }
  destruct (registry_get registry (job_job_type job)) as [handler|]; [|cbn [run]; by rewrite Hrep].
  rewrite run_bind, run_trigger. cbn [worker_answer]. rewrite Hu64.
  destruct (timed _ (handler job)) as [[res|msg]| |]; cbn [run]; [by rewrite Hrep..|done].
Qed.

(** C28: executing a leased job.  The worker first extends the lease to cover
    the job's timeout and 30 seconds more.  If that is refused, the lease was
    lost, and nothing else happens: no handler runs and nothing is reported.
    Otherwise the handler of the job's type runs under the job's timeout (at
    least a second), a missing handler being a failure, and the outcome is
    reported exactly once, with the attempt's duration; an error of the report
    is swallowed.  Only a panic of the handler leaves the job unreported. *)
Theorem execute_job_spec registry worker_id job w :
  0 ≤ job_timeout_secs job ≤ i32_max →
  let renew := RenewLease (job_id job) worker_id (job_timeout_secs job + 30) in
  let '(renewed, s1) := backend _ renew (w_store w) in
  let w1 := called renew s1 w in
  run worker_answer (execute_job registry worker_id job) w =
    match renewed, job_outcome registry job with
    | Err _, _ => (Some tt, w1)
    | Ok _, None => (None, w1)
    | Ok _, Some outcome =>
        let c := outcome_call job worker_id outcome in
        let '(answer, s2) := backend _ c s1 in
        (Some tt, reported w1 s2 (StoreCall c) (outcome_metrics job outcome elapsed answer))
    end.
Proof. apply run_execute_job. Qed.

(** One tick, in full. *)
Lemma run_heartbeat_tick worker w :
  let '(r, s1) := backend _ (Heartbeat (worker_id worker)) (w_store w) in
  let w1 := called (Heartbeat (worker_id worker)) s1 w in
  run (svc_answer backend) (heartbeat_tick worker) w =
    (Some tt,
     match r with
     | Ok false => called (RegisterWorker worker) (backend _ (RegisterWorker worker) s1).2 w1
     | _ => w1
     end).
Proof.
  unfold heartbeat_tick. rewrite run_bind_call.
  destruct (backend _ (Heartbeat (worker_id worker)) (w_store w)) as [[[|]|e] s1];
    cbn [fst snd]; [done| |done].
  rewrite run_bind_call. done.
Qed.

(** The calls of one tick, given the answer of its heartbeat. *)
Definition tick_calls (worker : Worker) (r : Result bool) : list store_call :=
  StoreCall (Heartbeat (worker_id worker)) ::
  match r with Ok false => [StoreCall (RegisterWorker worker)] | _ => [] end.

(** The heartbeat keeps the worker registered.  Every tick before the
    shutdown makes one heartbeat, re-registers the worker exactly when the
    store answers that its row is gone, and swallows every error; after the
    shutdown nothing is called. *)
Theorem heartbeat_loop_spec worker branches w :
  ∃ answers w',
    run (svc_answer backend) (heartbeat_loop worker branches) w = (Some tt, w') ∧
    length answers = ticks_before branches ∧
    w_calls w' = w_calls w ++ concat (tick_calls worker <$> answers) ∧
    w_metrics w' = w_metrics w.
Proof.
  revert w. induction branches as [|[|] rest IH]; intros w.
  1,2: exists [], w; split_and!; try done; cbn; by rewrite app_nil_r.
  cbn [heartbeat_loop ticks_before]. rewrite run_bind.
  pose proof (run_heartbeat_tick worker w) as Ht. cbv zeta in Ht.
  destruct (backend _ (Heartbeat (worker_id worker)) (w_store w)) as [r s1]. rewrite Ht. cbn [run].
  match goal with |- context [run _ _ ?w1] => destruct (IH w1) as (rs & w' & -> & Hlen & Hc & Hm) end.
  exists (r :: rs), w'. split_and!; [done|by cbn; rewrite Hlen| |].
  - rewrite Hc. by destruct r as [[|]|]; cbn; rewrite <- !app_assoc.
  - rewrite Hm. by destruct r as [[|]|].
Qed.

End backend.

End worker.
