(* ===== verification/EndToEnd.v ===== *)
(** * From the worker to the tables

    The layers put together: the worker's loop over the service, the service
    over [PgStore], [PgStore] over the tables.  What one turn of the loop does
    to the database, and that a worker alone with a job brings it to an end. *)

From S2P Require Import Prelude Prog Externals Status Error Model Row Float64.
From S2P Require Import Sql Statements Store PgStore Lifecycle Invariant Integrity StoreProps.
From S2P Require Import Concurrency Telemetry QueueService Handlers Worker.
From stdpp Require Import options.

Section endtoend.
Context `{X : Externals}.

(** ** [PgStore] as a backend

    The [i]-th statement of the [k]-th call runs in environment [ess k i]. *)
Definition pg_backend (ess : nat → nat → Env) (A : Type) (e : StoreE A) (s : nat * Db)
  : A * (nat * Db) :=
  let '(r, db') := run_db (ess s.1) (pg_store e) s.2 in
  (default (unanswered e) r, (S s.1, db')).

Lemma pg_backend_run ess A (e : StoreE A) k db a db' :
  run_db (ess k) (pg_store e) db = (Some a, db') →
  pg_backend ess A e (k, db) = (a, (S k, db')).
Proof. unfold pg_backend. cbn [fst snd]. by intros ->. Qed.

(** ** What an outcome leaves *)

Definition outcome_row (es : nat → Env) (outcome : ExecutionOutcome) (r : JobRow) : JobRow :=
  match outcome with
  | Success res => set_completed res (env_now (es 0%nat)) r
  | Failure err => fail_result es err r
  | Timeout => fail_result es "execution timed out" r
  end.

Definition outcome_status (outcome : ExecutionOutcome) (r : JobRow) : JobStatus :=
  match outcome with Success _ => Completed | Failure _ | Timeout => fail_status r end.

Definition outcome_attempt (now : Timestamp) (outcome : ExecutionOutcome) (a : AttemptRow)
  : AttemptRow :=
  match outcome with
  | Success _ => finish_attempt "succeeded" now a
  | Failure err => finish_attempt "failed" now a <| ar_error := Some err |>
  | Timeout => finish_attempt "timeout" now a <| ar_error := Some "execution timed out"%string |>
  end.

(** The leased row, and the same row with its lease extended. *)
Definition extend (t now : Timestamp) (r : JobRow) : JobRow :=
  r <| jr_lease_expires_at := Some t |> <| jr_updated_at := now |>.

Lemma outcome_row_extend es outcome t now r :
  outcome_row es outcome (extend t now r) = outcome_row es outcome r.
Proof.
  assert (∀ err, fail_result es err (extend t now r) = fail_result es err r) as Hf.
  { intros err. unfold fail_result, retry_delay.
    change (fail_status (extend t now r)) with (fail_status r). by destruct (fail_status r). }
  by destruct outcome; cbn [outcome_row]; rewrite ?Hf.
Qed.

Lemma holds_lease_extend w t now r : holds_lease w (extend t now r) = holds_lease w r.
Proof. by destruct r. Qed.

Lemma outcome_status_extend outcome t now r :
  outcome_status outcome (extend t now r) = outcome_status outcome r.
Proof. by destruct outcome. Qed.

Lemma outcome_row_status es outcome r :
  jr_status (outcome_row es outcome r) = as_str (outcome_status outcome r).
Proof.
  destruct outcome; [done|apply fail_result_status..].
Qed.

Lemma outcome_row_frame es outcome r :
  row_frame (outcome_row es outcome r) = row_frame r ∧
  jr_attempts (outcome_row es outcome r) = jr_attempts r.
Proof.
  assert (∀ err, row_frame (fail_result es err r) = row_frame r ∧
    jr_attempts (fail_result es err r) = jr_attempts r) as Hf.
  { intros err. unfold fail_result. by destruct (fail_status r). }
  destruct outcome; [done|apply Hf..].
Qed.

Lemma outcome_row_unlocked es outcome r : jr_locked_by (outcome_row es outcome r) = None.
Proof.
  assert (∀ err, jr_locked_by (fail_result es err r) = None) as Hn.
  { intros err. unfold fail_result. by destruct (fail_status r). }
  destruct outcome; [done|apply Hn..].
Qed.


(** ** The clock and the connection *)

(** No fault, and a clock that is not within a century of the last instant the
    database can represent. *)
Definition steady (ess : nat → nat → Env) : Prop :=
  ∀ k i, env_fault (ess k i) = NoFault ∧
    pg_ts_min ≤ env_now (ess k i) < pg_ts_end - 2 ^ 32 * second.

Lemma steady_quiet ess k : steady ess → quiet (ess k).
Proof. intros Hs i. apply Hs. Qed.

Lemma steady_add ess k i secs :
  steady ess → 0 ≤ secs < 2 ^ 32 →
  pg_ts_add_secs (env_now (ess k i)) secs = Ok (env_now (ess k i) + secs * second).
Proof.
  intros Hs Hsecs. destruct (Hs k i) as [_ Hb]. unfold pg_ts_add_secs. cbv zeta.
  case_test; [done|]. unfold second in *. lia.
Qed.

(** ** One turn of the worker's loop *)

Section round.
Context (ess : nat → nat → Env) (Hsteady : steady ess).
Context (timed : Duration → prog HandlerE HandlerResult → timed_result) (elapsed : f64).
Context (registry : HandlerRegistry) (w : Uuid) (qs : list string) (secs : Z).
Hypothesis Hsecs : 0 ≤ secs < 2 ^ 32.
#[local] Set Default Proof Using "Type*".
#[local] Set Proof Using Clear Unused.

Let backend := pg_backend ess.

(** The row the worker gets when it leases [r] in call [k]. *)
Definition leased_row (k : nat) (r : JobRow) : JobRow :=
  let now := env_now (ess k 0%nat) in
  set_leased w now (now + secs * second) (jr_attempts r + 1) r.

(** The tables after the lease. *)
Definition leased_db (k : nat) (r : JobRow) (db : Db) : Db :=
  db <| db_jobs ::= <[jr_id r := leased_row k r]> |>
     <| db_job_attempts ::= <[db_attempts_seq db :=
          mkAttemptRow (db_attempts_seq db) (jr_id r) (jr_attempts r + 1) (Some w)
            (env_now (ess k 0%nat)) None "running" None]> |>
     <| db_attempts_seq := db_attempts_seq db + 1 |>.

Lemma backend_lease k db r :
  db_ok db → lease_candidate qs (ess k 0%nat) db = Some r →
  backend _ (LeaseNext w qs secs) (k, db) =
    (Ok (Some (job_of_row (leased_row k r) Processing)), (S k, leased_db k r db)).
Proof.
  intros Hok Hc. apply pg_backend_run. cbn [pg_store].
  rewrite run_lease_next by by apply steady_quiet. unfold run_tx.
  destruct (tx_lease_candidate w qs secs (ess k 0%nat) db r Hok Hc) as (j & db' & Ht).
  { eexists. by apply steady_add. }
  rewrite Ht. apply tx_lease_inl in Ht as (r1 & r' & Hc' & -> & _ & [= ->] & _ & ->).
  assert (r1 = r) as -> by congruence. done.
Qed.


Lemma backend_ok A (e : StoreE A) k db :
  call_ok e → db_ok db → db_ok (backend _ e (k, db)).2.2.
Proof.
  intros He Hok. unfold backend, pg_backend. cbn [fst snd].
  pose proof (run_db_ok (ess k) (pg_store e) db (pg_store_reqs e He) Hok).
  by destruct (run_db (ess k) (pg_store e) db).
Qed.

Lemma backend_renew k db id r cover :
  db_jobs db !! id = Some r → holds_lease w r = true → 0 ≤ cover < 2 ^ 32 →
  backend _ (RenewLease id w cover) (k, db) =
    (Ok tt, (S k, db <| db_jobs ::=
       <[id := extend (env_now (ess k 0%nat) + cover * second) (env_now (ess k 0%nat)) r]> |>)).
Proof.
  intros Hr Hh Hcover. apply pg_backend_run. cbn [pg_store].
  eapply run_renew_held; [by apply steady_quiet|done|done|by apply steady_add].
Qed.

(** The tables after the report of [outcome]. *)
Lemma backend_report k db id r outcome job :
  db_ok db → db_jobs db !! id = Some r → holds_lease w r = true → job_id job = id →
  ∃ updated dead,
    backend _ (outcome_call job w outcome) (k, db) =
      (Ok updated,
       (S k, finished_db db id (outcome_row (ess k) outcome r)
               (outcome_attempt (env_now (ess k 0%nat)) outcome) dead)) ∧
    updated = job_of_row (outcome_row (ess k) outcome r) (outcome_status outcome r) ∧
    (outcome_status outcome r = DeadLettered → is_Some (dead !! id)) ∧
    (outcome_status outcome r ≠ DeadLettered → dead = db_dead_letter_jobs db).
Proof.
  intros Hok Hr Hh <-.
  destruct (db_ok_status _ _ _ Hok Hr) as (s & _ & Hrow).
  assert (∃ t, pg_ts_add_secs (env_now (ess k 0%nat)) (retry_delay r) = Ok t) as Ht.
  { eexists. apply steady_add; [done|]. unfold retry_delay.
    pose proof (row_backoff _ _ Hrow). pose proof (row_backoff_max _ _ Hrow). unfold i32_max in *.
    assert (0 < 2 ^ (Z.max (jr_attempts r) 1 - 1)) by (apply Z.pow_pos_nonneg; lia). nia. }
  assert (jr_id r = job_id job) as Hid by by apply (ok_keyed _ Hok).
  assert (∀ err, (fail_status r = DeadLettered →
      is_Some (fail_dead_letter r err (ess k 0%nat) db !! job_id job)) ∧
    (fail_status r ≠ DeadLettered →
      fail_dead_letter r err (ess k 0%nat) db = db_dead_letter_jobs db)) as Hdead.
  { intros err. unfold fail_dead_letter, fail_status, sql_insert_dead_letter.
    destruct (jr_max_attempts r <=? jr_attempts r), (jr_dead_letter r); cbn [andb]; try done.
    split; [|done]. intros _. cbn [job_id job_of_row]. rewrite Hid.
    destruct (db_dead_letter_jobs db !! job_id job) eqn:Hd; cbn; [by rewrite Hd|].
    by rewrite lookup_insert_eq. }
  destruct outcome as [res|err|]; cbn [outcome_call outcome_row outcome_attempt outcome_status].
  - eexists _, (db_dead_letter_jobs db). split; [|done].
    apply pg_backend_run. by apply run_complete_held; [apply steady_quiet|..].
  - eexists _, _. split; [|split; [reflexivity|apply (Hdead err)]].
    apply pg_backend_run. by apply run_fail_held; [apply steady_quiet|..].
  - eexists _, _. split; [|split; [reflexivity|apply (Hdead "execution timed out"%string)]].
    apply pg_backend_run. by apply run_fail_held; [apply steady_quiet|..].
Qed.

Lemma finished_db_extend db id e r' close dead :
  finished_db (db <| db_jobs ::= <[id := e]> |>) id r' close dead = finished_db db id r' close dead.
Proof. unfold finished_db, set. cbn. by rewrite insert_insert_eq. Qed.

(** What the turn leaves: the row of the outcome, the leased attempt closed. *)
Definition round_db (k : nat) (r : JobRow) (outcome : ExecutionOutcome)
    (dead : gmap Uuid DeadLetterRow) (db : Db) : Db :=
  let report := ess (S (S k)) in
  finished_db (leased_db k r db) (jr_id r) (outcome_row report outcome (leased_row k r))
    (outcome_attempt (env_now (report 0%nat)) outcome) dead.

Lemma run_round wd k db r outcome :
  w_store wd = (k, db) → db_ok db → lease_candidate qs (ess k 0%nat) db = Some r →
  let job := job_of_row (leased_row k r) Processing in
  job_outcome timed registry job = Some outcome →
  let status := outcome_status outcome (leased_row k r) in
  ∃ wd' dead updated,
    run (worker_answer backend timed elapsed) (worker_round registry w qs secs) wd =
      (Some tt, wd') ∧
    w_store wd' = (S (S (S k)), round_db k r outcome dead db) ∧
    db_ok (round_db k r outcome dead db) ∧
    (status = DeadLettered → is_Some (dead !! jr_id r)) ∧
    (status ≠ DeadLettered → dead = db_dead_letter_jobs db) ∧
    job_status updated = status ∧
    w_metrics wd' = w_metrics wd ++ outcome_metrics job outcome elapsed (Ok updated) ∧
    w_calls wd' = w_calls wd ++ [StoreCall (LeaseNext w qs secs);
      StoreCall (RenewLease (jr_id r) w (jr_timeout_secs r + 30));
      StoreCall (outcome_call job w outcome)].
Proof.
  intros Hst Hok Hc job Hout status.
  pose proof (backend_lease k db r Hok Hc) as Hlease.
  assert (db_ok (leased_db k r db)) as Hok1.
  { pose proof (backend_ok _ (LeaseNext w qs secs) k db I Hok) as H. by rewrite Hlease in H. }
  assert (db_jobs (leased_db k r db) !! jr_id r = Some (leased_row k r)) as Hr1
    by apply lookup_insert_eq.
  assert (holds_lease w (leased_row k r) = true) as Hh1.
  { unfold holds_lease. cbn. by rewrite bool_decide_true. }
  destruct (db_ok_status _ _ _ Hok1 Hr1) as (s & Hs & Hrow).
  pose proof (row_timeout _ _ Hrow) as Hto.
  assert (0 ≤ job_timeout_secs job + 30 < 2 ^ 32) as Hcover by (cbn in *; lia).
  pose proof (backend_renew (S k) _ _ _ _ Hr1 Hh1 Hcover) as Hrenew.
  set (db2 := _ <| db_jobs ::= _ |>) in Hrenew.
  assert (db_ok db2) as Hok2.
  { pose proof (backend_ok _ (RenewLease (jr_id r) w (job_timeout_secs job + 30)) (S k) _ I Hok1) as H.
    by rewrite Hrenew in H. }
  set (row2 := extend _ _ _) in db2.
  assert (db_jobs db2 !! jr_id r = Some row2) as Hr2 by apply lookup_insert_eq.
  assert (holds_lease w row2 = true) as Hh2 by (by unfold row2; rewrite holds_lease_extend).
  assert (job_id job = jr_id r) as Hid by done.
  destruct (backend_report (S (S k)) db2 (jr_id r) row2 outcome job Hok2 Hr2 Hh2 Hid)
    as (updated & dead & Hrep & Hupd & Hdead & Hdead').
  assert (db_ok (round_db k r outcome dead db)) as Hok3.
  { pose proof (backend_ok _ (outcome_call job w outcome) (S (S k)) db2) as H.
    rewrite Hrep in H. cbn [fst snd] in H. unfold db2, row2 in H.
    rewrite finished_db_extend, outcome_row_extend in H. apply H; [by destruct outcome|done]. }
  subst db2 row2. rewrite finished_db_extend, outcome_row_extend in Hrep.
  unfold worker_round. rewrite run_bind, run_svc. unfold lease_next, call.
  rewrite run_trigger. cbn [svc_answer]. rewrite Hst, Hlease.
  match goal with |- context [run _ (execute_job _ _ _) ?w1] => set (wd1 := w1) end.
  assert (w_store wd1 = (S k, leased_db k r db)) as Hst1 by done.
  pose proof (run_execute_job backend timed elapsed registry w job wd1) as Hexec.
  cbv zeta in Hexec. rewrite Hst1 in Hexec.
  change (job_id job) with (jr_id r) in Hexec. rewrite Hrenew, Hout in Hexec.
  rewrite Hrep in Hexec.
  eexists _, dead, updated. split; [apply Hexec; cbn in *; unfold i32_max; lia|].
  split; [done|]. split; [done|].
  rewrite outcome_status_extend in Hdead, Hdead', Hupd.
  split; [exact Hdead|]. split; [exact Hdead'|]. split; [by rewrite Hupd; cbn [job_status job_of_row]|].
  split; [reflexivity|]. unfold reported, called, set. cbn. by rewrite <- !app_assoc.
Qed.

(** The status, result and error of the job after the turn. *)
Lemma round_outcome k es outcome r :
  let r' := outcome_row es outcome (leased_row k r) in
  match outcome with
  | Success res => jr_status r' = as_str Completed ∧ jr_result r' = res
  | Failure _ | Timeout =>
      jr_status r' = as_str (if jr_attempts r + 1 <? jr_max_attempts r then Retrying
                             else if jr_dead_letter r then DeadLettered else Failed) ∧
      jr_last_error r' = Some match outcome with
                              | Failure err => err | _ => "execution timed out"%string end
  end.
Proof.
  cbv zeta. rewrite outcome_row_status.
  assert (fail_status (leased_row k r) =
    if jr_attempts r + 1 <? jr_max_attempts r then Retrying
    else if jr_dead_letter r then DeadLettered else Failed) as Hf.
  { unfold fail_status. cbn. rewrite Z.ltb_antisym. by destruct (jr_max_attempts r <=? _). }
  destruct outcome; cbn [outcome_status outcome_row]; [done|..]; rewrite Hf;
    (split; [done|]); unfold fail_result; rewrite Hf;
    by destruct (jr_attempts r + 1 <? _), (jr_dead_letter r).
Qed.

(** The attempts of the job after the turn. *)
Lemma round_attempts k r outcome dead db :
  let db' := round_db k r outcome dead db in
  (∃ a, db_job_attempts db' !! db_attempts_seq db = Some a ∧ ar_job_id a = jr_id r ∧
     ar_attempt a = jr_attempts r + 1 ∧ ar_worker_id a = Some w ∧ is_Some (ar_finished_at a) ∧
     ar_status a = match outcome with
                   | Success _ => "succeeded" | Failure _ => "failed" | Timeout => "timeout"
                   end%string) ∧
  (∀ i a, db_job_attempts db' !! i = Some a → ar_job_id a = jr_id r →
     ar_status a ≠ "running"%string).
Proof.
  cbv zeta. assert (db_job_attempts (round_db k r outcome dead db) =
    update_where (running_of (jr_id r)) (outcome_attempt (env_now (ess (S (S k)) 0%nat)) outcome)
      (db_job_attempts (leased_db k r db))) as -> by done.
  split.
  - change (db_job_attempts (leased_db k r db)) with
      (<[db_attempts_seq db := mkAttemptRow (db_attempts_seq db) (jr_id r) (jr_attempts r + 1)
           (Some w) (env_now (ess k 0%nat)) None "running" None]> (db_job_attempts db)).
    rewrite lookup_update_where, lookup_insert_eq. cbn [fmap option_fmap option_map].
    unfold running_of at 1. cbn [ar_job_id ar_status]. rewrite bool_decide_true by done. cbn [andb].
    destruct outcome; eexists; (split; [reflexivity|]); by cbn.
  - intros i a. rewrite lookup_update_where.
    intros (a0 & _ & ->)%fmap_Some. case_test; [by destruct outcome|].
    intros Hj Hst. unfold running_of in *.
    by rewrite Hj, Hst, bool_decide_true in * by done.
Qed.

(** One turn of the worker's loop, down to the tables.  When a job is
    available and no handler panics, the turn leases one, extends its lease,
    runs its handler and reports the outcome: the job is completed with the
    handler's result, or, with its error recorded, waits for its retry, is
    dead lettered or failed, as its attempts and its [dead_letter] flag say;
    one attempt was used, the lease is released, its attempt is closed as the
    outcome says and no running attempt is left; every other job is
    untouched. *)
Theorem worker_round_spec wd k db :
  w_store wd = (k, db) → db_ok db →
  (∃ id r, db_jobs db !! id = Some r ∧ eligible qs (env_now (ess k 0%nat)) db r = true ∧
     id ∉ env_locked (ess k 0%nat)) →
  (∀ job, job_outcome timed registry job ≠ None) →
  ∃ wd' db' id r r' outcome,
    run (worker_answer backend timed elapsed) (worker_round registry w qs secs) wd =
      (Some tt, wd') ∧ w_store wd' = (S (S (S k)), db') ∧ db_ok db' ∧
    db_jobs db !! id = Some r ∧ eligible qs (env_now (ess k 0%nat)) db r = true ∧
    job_outcome timed registry (job_of_row (leased_row k r) Processing) = Some outcome ∧
    db_jobs db' = <[id := r']> (db_jobs db) ∧
    row_frame r' = row_frame r ∧ jr_attempts r' = jr_attempts r + 1 ∧ jr_locked_by r' = None ∧
    match outcome with
    | Success res => jr_status r' = as_str Completed ∧ jr_result r' = res
    | Failure _ | Timeout =>
        jr_status r' = as_str (if jr_attempts r + 1 <? jr_max_attempts r then Retrying
                               else if jr_dead_letter r then DeadLettered else Failed) ∧
        jr_last_error r' = Some match outcome with
                                | Failure err => err | _ => "execution timed out"%string end
    end ∧
    (∃ a, db_job_attempts db' !! db_attempts_seq db = Some a ∧ ar_job_id a = id ∧
       ar_attempt a = jr_attempts r + 1 ∧ ar_worker_id a = Some w ∧ is_Some (ar_finished_at a) ∧
       ar_status a = match outcome with
                     | Success _ => "succeeded" | Failure _ => "failed" | Timeout => "timeout"
                     end%string) ∧
    (∀ i a, db_job_attempts db' !! i = Some a → ar_job_id a = id →
       ar_status a ≠ "running"%string).
Proof.
  intros Hst Hok (id & r & Hr & He & Hl) Hnp.
  destruct (lease_candidate qs (ess k 0%nat) db) as [c|] eqn:Hc.
  2:{ rewrite lease_candidate_None in Hc. destruct Hl. rewrite <- (ok_keyed _ Hok _ _ Hr). by eapply Hc. }
  clear id r Hr He Hl. pose proof (lease_candidate_Some _ _ _ _ Hc) as ([id Hr] & He & _ & _).
  pose proof (ok_keyed _ Hok _ _ Hr) as <-.
  destruct (job_outcome timed registry (job_of_row (leased_row k c) Processing)) as [outcome|] eqn:Ho;
    [|by apply Hnp in Ho].
  destruct (run_round wd k db c outcome Hst Hok Hc Ho)
    as (wd' & dead & updated & Hrun & Hst' & Hok' & _).
  destruct (round_attempts k c outcome dead db) as [Hatt Hnone].
  destruct (outcome_row_frame (ess (S (S k))) outcome (leased_row k c)) as [Hf Ha].
  exists wd', (round_db k c outcome dead db), (jr_id c), c,
    (outcome_row (ess (S (S k))) outcome (leased_row k c)), outcome.
  split; [exact Hrun|]. split; [exact Hst'|]. split; [exact Hok'|]. split; [exact Hr|].
  split; [exact He|]. split; [exact Ho|]. split.
  { unfold round_db, finished_db, leased_db, set. cbn [db_jobs]. by rewrite insert_insert_eq. }
  split; [by rewrite Hf|]. split; [by rewrite Ha|]. split; [apply outcome_row_unlocked|].
  split; [apply round_outcome|]. split; [exact Hatt|exact Hnone].
Qed.

(** ** Turn after turn *)


(** The job waits, is due, and is not locked when call [k] is made. *)
Definition available (k : nat) (id : Uuid) (r : JobRow) : Prop :=
  jr_run_at r ≤ env_now (ess k 0%nat) ∧ id ∉ env_locked (ess k 0%nat).

#[local] Instance available_dec k id r : Decision (available k id r).
Proof. unfold available. apply _. Defined.






Hypothesis Hnopanic : ∀ job, job_outcome timed registry job ≠ None.






End round.

End endtoend.
