(* ===== verification/Runtime.v ===== *)
(** * [djq-worker::runtime]: the run loop

    [WorkerRuntime::run] of [crates/worker/src/runtime.rs] as a state machine:
    the permits of the semaphore, the tasks in flight, and where the loop is.
    An event is a branch a [select!] takes, an answer of the store, or a task
    that ends. *)

From S2P Require Import Prelude Externals Status Error Model Float64 WorkerConfig.
From stdpp Require Import options.

Section runtime.
Context `{X : Externals}.

Inductive phase :=
| Starting          (* register_worker *)
| Acquiring         (* sem.acquire_owned() or shutdown *)
| Leasing           (* lease_next, holding a permit *)
| Sleeping          (* the poll interval, or shutdown *)
| Draining          (* join_next until the grace elapses *)
| Deregistering     (* deregister_worker *)
| Stopped
| StartFailed       (* the registration failed *)
| Crashed.          (* Semaphore::new panicked *)

(** [rs_aborted]: the tasks [abort_all] has asked to stop; each stops at its
    next suspension point, or runs to its end before it. *)
Record RunState := mkRunState {
  rs_phase : phase;
  rs_permits : Z;
  rs_tasks : list Job;
  rs_aborted : list Job;
}.

Inductive run_event :=
| Registered (r : Result unit)
| Acquired                      (* a permit *)
| Leased (answer : Result (option Job))
| Woke                          (* the poll interval elapsed *)
| ShutDown                      (* the cancellation branch of a select *)
| TaskDone (i : nat)            (* the i-th task in flight ends *)
| Drained                       (* no task is left *)
| GraceElapsed                  (* the abort of the rest is requested *)
| AbortedDone (i : nat)         (* the i-th aborted task is gone *)
| Deregistered (r : Result unit).

Definition run_start : RunState := mkRunState Starting 0 [] [].

(** The next state; [None] when the event cannot happen there. *)
Definition run_next (cfg : WorkerConfig) (s : RunState) (ev : run_event) : option RunState :=
  match rs_phase s, ev with
  | Starting, Registered (Err _) => Some (mkRunState StartFailed 0 [] [])
  | Starting, Registered (Ok _) =>
      if semaphore_max_permits <? wc_concurrency cfg then Some (mkRunState Crashed 0 [] [])
      else Some (mkRunState Acquiring (wc_concurrency cfg) [] [])
  | Acquiring, Acquired =>
      if 0 <? rs_permits s
      then Some (mkRunState Leasing (rs_permits s - 1) (rs_tasks s) (rs_aborted s)) else None
  | Acquiring, ShutDown =>
      Some (mkRunState Draining (rs_permits s) (rs_tasks s) (rs_aborted s))
  | Leasing, Leased (Ok (Some job)) =>
      (* the task owns the permit *)
      Some (mkRunState Acquiring (rs_permits s) (rs_tasks s ++ [job]) (rs_aborted s))
  | Leasing, Leased (Ok None) | Leasing, Leased (Err _) =>
      Some (mkRunState Sleeping (rs_permits s + 1) (rs_tasks s) (rs_aborted s))
  | Sleeping, Woke => Some (mkRunState Acquiring (rs_permits s) (rs_tasks s) (rs_aborted s))
  | Sleeping, ShutDown =>
      Some (mkRunState Draining (rs_permits s) (rs_tasks s) (rs_aborted s))
  | (Acquiring | Leasing | Sleeping | Draining) as p, TaskDone i =>
      match rs_tasks s !! i with
      | Some _ => Some (mkRunState p (rs_permits s + 1) (delete i (rs_tasks s)) (rs_aborted s))
      | None => None
      end
  | Draining, Drained =>
      match rs_tasks s with
      | [] => Some (mkRunState Deregistering (rs_permits s) [] (rs_aborted s))
      | _ => None
      end
  | Draining, GraceElapsed =>
      Some (mkRunState Deregistering (rs_permits s) [] (rs_aborted s ++ rs_tasks s))
  | (Deregistering | Stopped) as p, AbortedDone i =>
      match rs_aborted s !! i with
      | Some _ => Some (mkRunState p (rs_permits s + 1) (rs_tasks s) (delete i (rs_aborted s)))
      | None => None
      end
  | Deregistering, Deregistered _ =>
      Some (mkRunState Stopped (rs_permits s) (rs_tasks s) (rs_aborted s))
  | _, _ => None
  end.

Fixpoint run_events (cfg : WorkerConfig) (s : RunState) (evs : list run_event) : option RunState :=
  match evs with
  | [] => Some s
  | ev :: evs' => s' ← run_next cfg s ev; run_events cfg s' evs'
  end.

(** ** Bounded concurrency *)

(** The permit the loop holds while it leases. *)
Definition held (p : phase) : Z := match p with Leasing => 1 | _ => 0 end.

Definition running (p : phase) : bool :=
  match p with Acquiring | Leasing | Sleeping | Draining | Deregistering | Stopped => true
  | _ => false end.

(** Every permit is free, held by the loop, or owned by a task; tasks are
    aborted by the shutdown only, and those that are not are over by then. *)
Definition permits_ok (cfg : WorkerConfig) (s : RunState) : Prop :=
  0 ≤ rs_permits s ∧
  (if running (rs_phase s)
   then rs_permits s + held (rs_phase s) + Z.of_nat (length (rs_tasks s))
          + Z.of_nat (length (rs_aborted s)) = wc_concurrency cfg
   else rs_tasks s = []) ∧
  match rs_phase s with Deregistering | Stopped => rs_tasks s = [] | _ => rs_aborted s = [] end.

(** Opens a step of the loop. *)
Ltac invert_run_next :=
  repeat match goal with
  | H : context [match ?x with _ => _ end] |- _ => destruct x eqn:?; cbn in *; try done
  end; simplify_eq/=;
  try match goal with H : _ !! _ = Some _ |- _ =>
    pose proof (length_delete _ _ (mk_is_Some _ _ H)); pose proof (lookup_lt_Some _ _ _ H) end.

Lemma run_next_permits cfg s ev s' :
  0 ≤ wc_concurrency cfg → run_next cfg s ev = Some s' → permits_ok cfg s → permits_ok cfg s'.
Proof.
  intros Hc Hstep (Hp & Hok & Hend). unfold permits_ok in *. destruct s as [p n tasks gone]. cbn in *.
  destruct p, ev; cbn in *; try done; invert_run_next;
    split_and!; try done; rewrite ?length_app; cbn; lia.
Qed.

Lemma run_events_permits cfg evs s s' :
  0 ≤ wc_concurrency cfg → run_events cfg s evs = Some s' → permits_ok cfg s → permits_ok cfg s'.
Proof.
  intros Hc. revert s. induction evs as [|ev evs IH]; intros s Hrun Hs; cbn in Hrun; [by simplify_eq|].
  destruct (run_next cfg s ev) as [s1|] eqn:Hs1; [|done]. cbn in Hrun.
  eapply IH; [done|]. by eapply run_next_permits.
Qed.

Lemma run_start_permits cfg : permits_ok cfg run_start.
Proof. done. Qed.

Lemma permits_ok_bound cfg s :
  0 ≤ wc_concurrency cfg → permits_ok cfg s →
  Z.of_nat (length (rs_tasks s) + length (rs_aborted s)) ≤ wc_concurrency cfg.
Proof.
  intros Hc (Hp & Hs & Ha). destruct (rs_phase s); cbn in *; try lia; rewrite Hs, Ha; cbn; lia.
Qed.

(** C29: bounded concurrency.  Whatever happens, at most [concurrency] jobs are
    in flight at once, those whose abort was requested included, the loop
    leases only when it holds a permit for the job, and once the loop runs no
    permit is ever lost: the free ones, the one the loop holds and the tasks'
    always add up to [concurrency]. *)
Theorem concurrency_bounded cfg evs s :
  1 ≤ wc_concurrency cfg → run_events cfg run_start evs = Some s →
  Z.of_nat (length (rs_tasks s) + length (rs_aborted s)) ≤ wc_concurrency cfg ∧
  permits_ok cfg s ∧
  (∀ job s', run_next cfg s (Leased (Ok (Some job))) = Some s' →
     Z.of_nat (length (rs_tasks s') + length (rs_aborted s')) ≤ wc_concurrency cfg).
Proof.
  intros Hc Hrun. assert (permits_ok cfg s) as Hs.
  { eapply run_events_permits; [lia|done|apply run_start_permits]. }
  split_and!; [apply permits_ok_bound; [lia|done]|done|]. intros job s' Hstep.
  apply permits_ok_bound; [lia|]. eapply run_next_permits; [lia|done..].
Qed.

(** ** Shutdown *)

Definition stopping (p : phase) : bool :=
  match p with Draining | Deregistering | Stopped => true | _ => false end.

(** The steps that are left once the loop is draining. *)
Definition shutdown_steps (s : RunState) : nat :=
  match rs_phase s with
  | Draining => 2 + length (rs_tasks s) + length (rs_aborted s)
  | Deregistering => 1 + length (rs_aborted s)
  | _ => length (rs_aborted s)
  end.

(** The events by which the loop asks for work. *)
Definition seeks_work (ev : run_event) : Prop :=
  match ev with Acquired | Leased _ | Woke => True | _ => False end.

(** The tasks whose end an event is. *)
Definition tasks_ended (ev : run_event) : nat :=
  match ev with TaskDone _ | AbortedDone _ => 1 | _ => 0 end.

Definition in_flight (s : RunState) : list Job := rs_tasks s ++ rs_aborted s.

Lemma stopping_step cfg s ev s' :
  stopping (rs_phase s) = true → run_next cfg s ev = Some s' →
  stopping (rs_phase s') = true ∧ ¬ seeks_work ev ∧
  (shutdown_steps s' < shutdown_steps s)%nat ∧
  (length (in_flight s') + tasks_ended ev = length (in_flight s))%nat ∧
  (∀ job, job ∈ in_flight s' → job ∈ in_flight s) ∧
  (ev ≠ GraceElapsed → rs_aborted s = [] → rs_aborted s' = []) ∧
  (rs_phase s' = Stopped → rs_phase s = Stopped ∨ ∃ r, ev = Deregistered r).
Proof.
  destruct s as [p n tasks gone]. intros Hp Hstep. unfold shutdown_steps, in_flight.
  destruct p; try done; destruct ev; cbn in *; try done; invert_run_next;
    rewrite ?length_app; split_and!; try done; try tauto; try lia; eauto;
    try (intros _ ->; reflexivity);
    intros job; rewrite ?elem_of_app, ?elem_of_nil; try tauto;
    intros [Hj|Hj]; try apply list_elem_of_delete_inv in Hj; tauto.
Qed.

Lemma stopping_run cfg evs s s' :
  stopping (rs_phase s) = true → run_events cfg s evs = Some s' →
  Forall (λ ev, ¬ seeks_work ev) evs ∧
  (length evs + shutdown_steps s' ≤ shutdown_steps s)%nat ∧
  (length (in_flight s') + sum_list_with tasks_ended evs = length (in_flight s))%nat ∧
  (∀ job, job ∈ in_flight s' → job ∈ in_flight s) ∧
  (GraceElapsed ∉ evs → rs_aborted s = [] → rs_aborted s' = []) ∧
  (rs_phase s' = Stopped → rs_phase s = Stopped ∨ ∃ r, Deregistered r ∈ evs).
Proof.
  revert s. induction evs as [|ev evs IH]; intros s Hp Hrun; cbn in Hrun.
  { simplify_eq. cbn. split_and!; try done; try lia; by left. }
  destruct (run_next cfg s ev) as [s1|] eqn:Hs1; [|done]. cbn in Hrun.
  destruct (stopping_step cfg s ev s1 Hp Hs1) as (Hp1 & Hw & Hlt & Hn & Hin & Hab & Hst).
  destruct (IH s1 Hp1 Hrun) as (Hws & Hle & Hns & Hins & Habs & Hsts).
  cbn. split_and!; [by constructor|lia|lia|by auto| |].
  - intros Hg Ha. apply Habs; [set_solver|]. apply Hab; [set_solver|done].
  - intros [[Hs|[r ->]]%Hst|[r Hr]]%Hsts; [by left|right; exists r; set_solver..].
Qed.

(** Aborted tasks go. *)
Lemma aborted_end cfg s :
  rs_phase s = Stopped →
  run_events cfg s (replicate (length (rs_aborted s)) (AbortedDone 0)) =
    Some (mkRunState Stopped (rs_permits s + Z.of_nat (length (rs_aborted s))) (rs_tasks s) []).
Proof.
  destruct s as [p n tasks gone]. cbn. intros ->. revert n.
  induction gone as [|j gone IH]; intros n; cbn; [by rewrite Z.add_0_r|].
  rewrite IH. do 2 f_equal. lia.
Qed.

(** From wherever the shutdown is, the worker can get to its end. *)
Lemma stopping_ends cfg s :
  stopping (rs_phase s) = true → permits_ok cfg s →
  ∃ evs s', run_events cfg s evs = Some s' ∧ rs_phase s' = Stopped ∧ in_flight s' = [].
Proof.
  intros Hp (_ & _ & Hend). destruct s as [p n tasks gone]. destruct p; try done; cbn in *; subst.
  - exists (GraceElapsed :: Deregistered (Ok tt) :: replicate (length tasks) (AbortedDone 0)).
    eexists. cbn. by rewrite (aborted_end cfg (mkRunState Stopped _ [] tasks)).
  - exists (Deregistered (Ok tt) :: replicate (length gone) (AbortedDone 0)).
    eexists. cbn. by rewrite (aborted_end cfg (mkRunState Stopped _ [] gone)).
  - exists (replicate (length gone) (AbortedDone 0)).
    eexists. by rewrite (aborted_end cfg (mkRunState Stopped _ [] gone)).
Qed.

(** C30: graceful shutdown.  Take any run of the loop up to some moment.  If it
    is waiting there, for a permit or for its next poll, the shutdown branch
    can be taken at once; if it is leasing, it can be taken right after the
    answer.  Once it is taken, with the jobs in flight as they were, whatever
    happens next: the worker asks for no permit, leases nothing and goes back
    to sleep no more; there are at most two events more than tasks in flight
    (so it stops); no task is started or lost, each one that is gone having
    ended; none is aborted unless the grace elapsed; when the worker has
    stopped it has deregistered, and every task is over unless it was aborted;
    and at every moment of it the shutdown can be completed, to no task at
    all. *)
Theorem shutdown_drains cfg before s :
  1 ≤ wc_concurrency cfg → run_events cfg run_start before = Some s →
  (rs_phase s = Acquiring ∨ rs_phase s = Sleeping → is_Some (run_next cfg s ShutDown)) ∧
  (∀ answer s1, run_next cfg s (Leased answer) = Some s1 → is_Some (run_next cfg s1 ShutDown)) ∧
  ∀ s0, run_next cfg s ShutDown = Some s0 →
    rs_tasks s0 = rs_tasks s ∧
    ∀ after s', run_events cfg s0 after = Some s' →
      Forall (λ ev, ¬ seeks_work ev) after ∧
      (length after ≤ length (rs_tasks s) + 2)%nat ∧
      (length (in_flight s') + sum_list_with tasks_ended after = length (rs_tasks s))%nat ∧
      (∀ job, job ∈ in_flight s' → job ∈ rs_tasks s) ∧
      (GraceElapsed ∉ after → rs_aborted s' = []) ∧
      (rs_phase s' = Stopped → rs_tasks s' = [] ∧ ∃ r, Deregistered r ∈ after) ∧
      ∃ rest s'', run_events cfg s' rest = Some s'' ∧ rs_phase s'' = Stopped ∧ in_flight s'' = [].
Proof.
  intros Hc Hrun.
  assert (permits_ok cfg s) as Hok by (eapply run_events_permits; [lia|done|apply run_start_permits]).
  split; [|split].
  - destruct s as [p n tasks gone]. cbn. by intros [-> | ->]; eexists.
  - destruct s as [p n tasks gone]. intros answer s1 Hs1.
    destruct p; try done; cbn in Hs1; invert_run_next; by eexists.
  - intros s0 Hs0.
    assert (stopping (rs_phase s0) = true ∧ rs_phase s0 = Draining ∧ rs_tasks s0 = rs_tasks s ∧
      rs_aborted s0 = []) as (Hp & Hd & Ht & Ha).
    { destruct Hok as (_ & _ & Hend). destruct s as [p n tasks gone].
      by destruct p; cbn in Hs0, Hend; simplify_eq/=. }
    pose proof (run_next_permits cfg s ShutDown s0 ltac:(lia) Hs0 Hok) as Hok0.
    split; [done|]. intros after s' Hafter.
    destruct (stopping_run cfg after s0 s' Hp Hafter) as (Hw & Hle & Hn & Hin & Hab & Hst).
    pose proof (run_events_permits cfg after s0 s' ltac:(lia) Hafter Hok0) as Hok'.
    unfold shutdown_steps in Hle. rewrite Hd, Ht, Ha in Hle.
    unfold in_flight in Hn, Hin. rewrite Ht, Ha, app_nil_r in Hn, Hin. cbn in Hle.
    split_and!; [done|lia|done|done|by auto| |].
    + intros Hs. split; [destruct Hok' as (_ & _ & Hend); by rewrite Hs in Hend|].
      destruct (Hst Hs) as [|]; [congruence|done].
    + apply (stopping_ends cfg); [|done]. clear -Hp Hafter. revert s0 Hp Hafter.
      induction after as [|ev after IH]; intros s0 Hp Hafter; cbn in Hafter; [by simplify_eq|].
      destruct (run_next cfg s0 ev) as [s1|] eqn:Hs1; [|done].
      eapply IH; [|exact Hafter]. by eapply stopping_step.
Qed.

End runtime.
