(* ===== verification/Api.v ===== *)
(** * [djq-api]: errors, routes and configuration

    The error mapping, the HTTP handlers and the configuration of
    [crates/api/src/{error,routes,config}.rs].  A handler is a program over
    the service; extraction of its arguments and serialization of its answer
    are [axum]'s and [serde]'s. *)

From S2P Require Import Prelude Prog Externals RustStr Status Error Model Store Telemetry.
From S2P Require Import QueueService WorkerConfig.
From stdpp Require Import options.

Section api.
Context `{X : Externals}.

(** ** Errors *)

Record ApiError := mkApiError { api_status : Z; api_category : string; api_message : string }.

(** [ApiError::new] *)
Definition api_error_new (status : Z) (category message : string) : ApiError :=
  mkApiError status category message.

Definition bad_request (message : string) : ApiError := api_error_new 400 "bad_request" message.
Definition not_found (message : string) : ApiError := api_error_new 404 "not_found" message.

(** [impl From<QueueError> for ApiError] *)
Definition api_error_of (e : QueueError) : ApiError :=
  let '(status, category) :=
    match category e with
    | BadRequest => (400, "bad_request"%string)
    | NotFound => (404, "not_found"%string)
    | Conflict => (409, "conflict"%string)
    | Internal => (500, "internal"%string)
    end in
  api_error_new status category (queue_error_to_string e).

(** An answer: its status code and the value of its JSON body. *)
Definition Response (A : Type) : Type := Z * A.

(** [ErrorBody], and [into_response] of a handler's result. *)
Record ErrorBody := mkErrorBody { body_error : string; body_category : string }.

Definition into_response {A} (r : result ApiError (Response A)) : Response (A + ErrorBody) :=
  match r with
  | Ok (code, body) => (code, inl body)
  | Err e => (api_status e, inr (mkErrorBody (api_message e) (api_category e)))
  end.

Abbreviation Handler A := (prog SvcE (result ApiError (Response A))).

(** [service.method(...).await?] *)
Definition await {A} (p : prog SvcE (Result A)) : prog SvcE (result ApiError A) :=
  map_err_p api_error_of p.

(** [Ok(Json(service.method(...).await?))] *)
Definition json {A} (p : prog SvcE (Result A)) : Handler A :=
  a ←? await p; Ret (Ok (200, a)).

(** ** Handlers *)

(** The headers of a request whose values are text. *)
Definition header_map : Type := string → option string.

(** The submission with the header's key, when the body has none. *)
Definition with_header_key (headers : header_map) (new : NewJob) : NewJob :=
  match new_idempotency_key new with
  | Some _ => new
  | None =>
      match headers "idempotency-key"%string with
      | Some key =>
          if negb (str_is_empty key) then new <| new_idempotency_key := Some key |> else new
      | None => new
      end
  end.

Definition submit_job (headers : header_map) (new : NewJob) : Handler Job :=
  submission ←? await (submit (with_header_key headers new));
  let code := if sub_created submission then 201 else 200 in
  Ret (Ok (code, sub_job submission)).

Definition get_job_route (id : Uuid) : Handler Job := json (get_job id).

Record JobListResponse := mkJobListResponse { jobs : list Job; count : Z }.

Definition list_jobs_route (filter : JobFilter) : Handler JobListResponse :=
  jobs ←? await (list_jobs filter);
  Ret (Ok (200, mkJobListResponse jobs (Z.of_nat (length jobs)))).

Definition cancel_job_route (id : Uuid) : Handler Job := json (cancel_job id).
Definition retry_job_route (id : Uuid) : Handler Job := json (retry_job id).
Definition job_attempts_route (id : Uuid) : Handler (list JobAttempt) := json (list_attempts id).
Definition list_queues_route : Handler (list Queue) := json list_queues.

Record CreateQueue := mkCreateQueue { cq_name : string }.

Definition create_queue (body : CreateQueue) : Handler Queue :=
  if str_is_empty (str_trim (cq_name body))
  then Ret (Err (bad_request "queue name must not be empty"))
  else queue ←? await (ensure_queue (cq_name body)); Ret (Ok (201, queue)).

Definition pause_queue (name : string) : Handler Queue := json (set_queue_paused name true).
Definition resume_queue (name : string) : Handler Queue := json (set_queue_paused name false).
Definition queue_stats_route (name : string) : Handler QueueStats := json (queue_stats name).

Record DlqQuery := mkDlqQuery { dq_queue : option string; dq_limit : option Z }.

Definition list_dlq (q : DlqQuery) : Handler (list DeadLetterJob) :=
  json (list_dead_letter (dq_queue q) (default 50 (dq_limit q))).

Definition default_purge_age : Z := 7 * 24 * 3600.

Record PurgeRequest := mkPurgeRequest { pr_older_than_secs : Z }.
Record PurgeResponse := mkPurgeResponse { deleted : Z }.

(** The body's field, or its serde default. *)
Definition purge_request (older_than_secs : option Z) : PurgeRequest :=
  mkPurgeRequest (default default_purge_age older_than_secs).

Definition purge_route (body : PurgeRequest) : Handler PurgeResponse :=
  deleted ←? await (purge_finished (pr_older_than_secs body));
  Ret (Ok (200, mkPurgeResponse deleted)).

Definition healthz : string := "ok".

Definition readyz : prog SvcE (Response string) :=
  r ← call (GetQueue "__readyz__");
  match r with
  | Ok _ => Ret (200, "ready"%string)
  | Err _ => Ret (503, "not ready"%string)
  end.

(** ** Configuration *)

Record ApiConfig := mkApiConfig {
  database_url : string;
  bind_addr : string;
  db_max_connections : Z;
  max_body_bytes : Z;
  json_logs : bool;
}.

(** [ApiConfig::from_env]; [SocketAddr]'s parser is the standard library's,
    given as [parse_addr]. *)
Definition api_from_env (parse_addr : string → result string string) (env : environment)
  : result string ApiConfig :=
  match env "DATABASE_URL"%string with
  | None => Err "DATABASE_URL environment variable is required"%string
  | Some database_url =>
      match parse_addr (default "0.0.0.0:8080"%string (env "API_BIND_ADDR"%string)) with
      | Err e => Err ("invalid API_BIND_ADDR: " ++ e)%string
      | Ok addr =>
          Ok (mkApiConfig database_url addr
                (default 10 (env "DB_MAX_CONNECTIONS"%string ≫= parse_unsigned u32_max))
                (default (1024 * 1024) (env "API_MAX_BODY_BYTES"%string ≫= parse_unsigned u64_max))
                (match env "LOG_JSON"%string with
                 | Some v => String.eqb v "true"
                 | None => false
                 end))
      end
  end.

(** ** Properties *)

(** The status code of an error is a function of its kind, and of nothing
    else: 400 for a validation or serialization error, 404 for a missing job
    or queue, 409 for a duplicate key, an illegal transition or an operation
    the status does not permit, 500 for a storage error; and the body carries
    the error's text and the category of its code. *)
Theorem error_status_code e :
  let a := api_error_of e in
  (api_status a, api_category a) =
    (match e with
     | Validation _ | Serialization _ => (400, "bad_request")
     | JobNotFound _ | QueueNotFound _ => (404, "not_found")
     | DuplicateIdempotencyKey _ _ | IllegalTransition _ _ | InvalidOperation _ _ =>
         (409, "conflict")
     | Storage _ => (500, "internal")
     end)%string ∧
  (∀ A, @into_response A (Err a) =
     (api_status a, inr (mkErrorBody (queue_error_to_string e) (api_category a)))) ∧
  400 ≤ api_status a < 600.
Proof. by destruct e. Qed.

Section backend.
Context {S : Type} (backend : ∀ A, StoreE A → S → A * S).

Lemma run_await {A} (p : prog SvcE (Result A)) w :
  run (svc_answer backend) (await p) w =
    let '(r, w') := run (svc_answer backend) p w in (map_err api_error_of <$> r, w').
Proof.
  unfold await, map_err_p. change (prog_bind ?f p) with (p ≫= f). rewrite run_bind.
  by destruct (run (svc_answer backend) p w) as [[r|] w'].
Qed.

(** [POST /jobs], for any store.  The key of the [Idempotency-Key] header
    counts only when the body has none and the header is not empty; the
    answer is 201 with the job when it was created, 200 with the existing job
    on an idempotent hit, and the error's code otherwise. *)
Theorem submit_job_route headers new w :
  let new' := with_header_key headers new in
  (∀ k, new_idempotency_key new = Some k → new' = new) ∧
  (new_idempotency_key new = None → new_idempotency_key new' =
     match headers "idempotency-key"%string with
     | Some EmptyString | None => None
     | Some k => Some k
     end) ∧
  let '(r, w') := run (svc_answer backend) (submit new') w in
  run (svc_answer backend) (submit_job headers new) w =
    (match r with
     | Some (Ok sub) => Some (Ok (if sub_created sub then 201 else 200, sub_job sub))
     | Some (Err e) => Some (Err (api_error_of e))
     | None => None
     end, w').
Proof.
  intros new'. split_and!.
  - intros k Hk. unfold new', with_header_key. by rewrite Hk.
  - intros Hk. unfold new', with_header_key. rewrite Hk.
    destruct (headers _) as [[|c k]|]; cbn; by rewrite ?Hk.
  - unfold submit_job. fold new'. rewrite run_bind_ok, run_await.
    by destruct (run (svc_answer backend) (submit new') w) as [[[sub|e]|] w'].
Qed.

(** [POST /queues] creates the queue and answers 201, but refuses a name
    that is blank (empty, or only white space) with 400 before it touches the
    store. *)
Theorem create_queue_route name w :
  run (svc_answer backend) (create_queue (mkCreateQueue name)) w =
    if str_is_empty (str_trim name)
    then (Some (Err (mkApiError 400 "bad_request" "queue name must not be empty")), w)
    else let '(r, s) := backend _ (EnsureQueue name) (w_store w) in
         (Some (match r with Ok q => Ok (201, q) | Err e => Err (api_error_of e) end),
          called (EnsureQueue name) s w).
Proof.
  unfold create_queue. cbn [cq_name]. destruct (str_is_empty (str_trim name)); [done|].
  rewrite run_bind_ok, run_await. unfold ensure_queue, call. rewrite run_trigger. cbn [svc_answer].
  destruct (backend _ (EnsureQueue name) (w_store w)) as [[q|e] s]; done.
Qed.

(** Readiness is the database's: [/readyz] answers 200 exactly when the
    store answers one lookup, found or not, and 503 otherwise. *)
Theorem readyz_spec w :
  let '(r, s) := backend _ (GetQueue "__readyz__") (w_store w) in
  run (svc_answer backend) readyz w =
    (Some (match r with Ok _ => (200, "ready"%string) | Err _ => (503, "not ready"%string) end),
     called (GetQueue "__readyz__") s w).
Proof.
  unfold readyz. rewrite run_bind_call.
  by destruct (backend _ (GetQueue "__readyz__") (w_store w)) as [[q|e] s].
Qed.

End backend.

End api.
