(* ===== verification/Clients.v ===== *)
(** * The API and the worker on any lawful store

    What a client of the whole service may rely on, proved from the laws of
    [StoreLaws] alone, for the handlers of [Api] and the worker's report: the
    calls of other clients come between, and nobody purges.  And what the
    clients owe the store in return: every request they make is well
    formed. *)

From S2P Require Import Prelude Prog Externals RustStr Status Error Model Float64 Store Telemetry.
From S2P Require Import Invariant Concurrency StoreLaws QueueService Maintenance Handlers.
From S2P Require Import WorkerConfig Worker Api.
From stdpp Require Import options.

Section clients.
Context `{X : Externals}.

Section lawful.
Context {S : Type} (backend : ∀ A, StoreE A → S → A * S) `{L : !LawfulStore backend}.

(** Others made these calls. *)
Definition meanwhile (calls : list any_call) (w : World (S := S)) : World (S := S) :=
  w <| w_store := after backend calls (w_store w) |>.

Lemma run_get_job_route id w :
  run (svc_answer backend) (get_job_route id) w =
    let '(r, s) := backend _ (GetJob id) (w_store w) in
    (Some (match r with
           | Ok (Some j) => Ok (200, j)
           | Ok None => Err (api_error_of (JobNotFound id))
           | Err e => Err (api_error_of e)
           end), called (GetJob id) s w).
Proof.
  unfold get_job_route, json. rewrite run_bind_ok, run_await. unfold get_job. rewrite run_call.
  by destruct (backend _ (GetJob id) (w_store w)) as [[[j|]|e] s].
Qed.

(** Looking up a stored job: [Q] is what its looker-up may find. *)
Lemma get_stored id w (Q : Job → Prop) :
  sound (w_store w) →
  (∃ j, stored (backend _ (GetJob id) (w_store w)).2 id = Some j ∧ Q j) →
  match (run (svc_answer backend) (get_job_route id) w).1 with
  | Some (Ok (code, j)) => code = 200 ∧ Q j
  | Some (Err e) => api_status e = 500
  | None => False
  end.
Proof.
  intros Hs (j & Hj & HQ). rewrite run_get_job_route.
  destruct (backend _ (GetJob id) (w_store w)) as [[o|e] s'] eqn:Hb; cbn in Hj |- *.
  - rewrite (law_get _ _ _ _ Hs Hb) in Hj. by simplify_eq.
  - by destruct (law_get_err _ _ _ _ Hs Hb) as [m ->].
Qed.

(** A job that was stored when other clients went on, looked up later. *)
Lemma get_later id j calls w :
  sound (w_store w) → stored (w_store w) id = Some j → Forall harmless calls →
  match (run (svc_answer backend) (get_job_route id) (meanwhile calls w)).1 with
  | Some (Ok (code, j')) => code = 200 ∧ job_frame j' = job_frame j ∧
      (finished (job_status j) → j' = j)
  | Some (Err e) => api_status e = 500
  | None => False
  end.
Proof.
  intros Hs Hj Hc. pose proof (after_sound backend calls _ Hc Hs) as Hs'.
  apply (get_stored id (meanwhile calls w)
    (λ j', job_frame j' = job_frame j ∧ (finished (job_status j) → j' = j))); [done|].
  cbn [meanwhile w_store set].
  destruct (after_kept backend calls _ id j Hc Hs Hj) as (j1 & Hj1 & Hf1).
  destruct (law_kept _ (GetJob id) _ id j1 I (λ H, H) Hs' Hj1) as (j2 & Hj2 & Hf2).
  exists j2. split; [done|]. split; [congruence|]. intros Hfin.
  pose proof (after_finished backend calls _ id j Hc Hs Hj Hfin) as Ha.
  pose proof (law_finished _ (GetJob id) _ id j I (λ H, H) Hs' Ha Hfin). congruence.
Qed.

Lemma run_submit_job_Ok headers new w code job w' :
  run (svc_answer backend) (submit_job headers new) w = (Some (Ok (code, job)), w') →
  ∃ n sub, normalized (with_header_key headers new) (w_clock w (w_ticks w)) = Some (Ok n) ∧
    backend _ (Submit n) (w_store w) = (Ok sub, w_store w') ∧
    job = sub_job sub ∧ code = if sub_created sub then 201 else 200.
Proof.
  unfold submit_job. rewrite run_bind_ok, run_await. unfold QueueService.submit.
  rewrite run_bind, run_trigger. cbn [svc_answer].
  destruct (normalized _ _) as [[n|e]|] eqn:Hn; [|by intros; simplify_eq..].
  rewrite run_call. cbn [w_store set].
  destruct (backend _ (Submit n) (w_store w)) as [[sub|e] s] eqn:Hb; [|by intros; simplify_eq/=].
  intros Hrun. exists n, sub. destruct (sub_created sub) eqn:Hcr; cbn in Hrun;
    rewrite ?Hcr in Hrun; by simplify_eq/=.
Qed.

(** The header's key keeps the ranges. *)
Lemma with_header_key_in_range headers new :
  new_in_range new → new_in_range (with_header_key headers new).
Proof.
  unfold with_header_key. destruct (new_idempotency_key new), (headers "idempotency-key"%string); try done.
  by case_match.
Qed.

(** What an accepted submission says of the store and of the request. *)
Lemma run_submit_stored headers new w code job w' :
  sound (w_store w) → new_in_range new →
  run (svc_answer backend) (submit_job headers new) w = (Some (Ok (code, job)), w') →
  sound (w_store w') ∧ stored (w_store w') (job_id job) = Some job ∧
  job_queue job = new_queue new ∧
  job_idempotency_key job = new_idempotency_key (with_header_key headers new) ∧
  (∀ id j, stored (w_store w) id = Some j →
     ∃ j', stored (w_store w') id = Some j' ∧ job_frame j' = job_frame j) ∧
  ((code = 201 ∧ stored (w_store w) (job_id job) = None ∧
    job_job_type job = new_job_type new ∧ job_payload job = new_payload new ∧
    job_attempts job = 0) ∨ code = 200).
Proof.
  intros Hs Hnew (n & sub & Hn & Hb & -> & Hcode)%run_submit_job_Ok.
  apply (with_header_key_in_range headers) in Hnew.
  pose proof (normalized_submittable _ _ _ Hnew Hn) as Hsub.
  pose proof (law_sound _ (Submit n) _ Hsub Hs) as Hs'. rewrite Hb in Hs'. cbn in Hs'.
  destruct (law_submit _ _ _ _ Hsub Hs Hb) as (Hst & Hq & Hk & Hcr).
  assert (nj_queue n = new_queue new ∧ nj_job_type n = new_job_type new ∧
    nj_payload n = new_payload new ∧
    nj_idempotency_key n = new_idempotency_key (with_header_key headers new))
    as (Hq' & Hty & Hpl & Hk').
  { revert Hn. rewrite normalized_unfold. destruct (first_violation _); [done|].
    destruct (resolve_run_at _ _); [|done]. intros [= <-]. cbn. unfold with_header_key.
    by repeat case_match. }
  split_and!; [done|done|congruence|congruence| |].
  - intros id j Hj. destruct (law_kept _ (Submit n) _ id j Hsub (λ H, H) Hs Hj) as (j' & Hj' & Hf).
    rewrite Hb in Hj'. eauto.
  - destruct (sub_created sub); [|by right]. left.
    destruct Hcr as [(?&?&?&?&?&?&?&_) ?]. split_and!; congruence.
Qed.

(** Read your writes.  On any lawful store: once [POST /jobs] was answered
    with a job, then however many calls of other clients come after it, short
    of a purge, [GET /jobs/{id}] with the answered id finds that job, with
    every column a job keeps unchanged (queue, type, payload, key, budget,
    creation time and so on), or the lookup failed with a storage error: it
    never answers 404.  The answered job is in the queue that was asked for,
    and when it was created (201) it is the request's: its type and its
    payload, with no attempt made. *)
Lemma post_then_get headers new w code job w' calls :
  sound (w_store w) → new_in_range new →
  run (svc_answer backend) (submit_job headers new) w = (Some (Ok (code, job)), w') →
  Forall harmless calls →
  job_queue job = new_queue new ∧
  (code = 201 → job_job_type job = new_job_type new ∧ job_payload job = new_payload new ∧
     job_attempts job = 0) ∧
  match (run (svc_answer backend) (get_job_route (job_id job)) (meanwhile calls w')).1 with
  | Some (Ok (code', job')) => code' = 200 ∧ job_frame job' = job_frame job
  | Some (Err e) => api_status e = 500
  | None => False
  end.
Proof.
  intros Hs Hnew Hrun Hc.
  destruct (run_submit_stored _ _ _ _ _ _ Hs Hnew Hrun) as (Hs' & Hst & Hq & _ & _ & Hcr).
  split_and!; [done|intros ->; destruct Hcr as [(_&_&?)|]; done|].
  pose proof (get_later _ _ _ _ Hs' Hst Hc) as Hget.
  destruct (run _ _ _).1 as [[[c j']|e]|]; [|done..]. by destruct Hget as (-> & ? & _).
Qed.

(** Two submissions under one key of a queue. *)
Lemma post_twice headers1 headers2 new1 new2 key w1 code1 job1 w1' calls code2 job2 w2' :
  sound (w_store w1) → new_in_range new1 → new_in_range new2 →
  new_queue new2 = new_queue new1 →
  new_idempotency_key (with_header_key headers1 new1) = Some key →
  new_idempotency_key (with_header_key headers2 new2) = Some key →
  run (svc_answer backend) (submit_job headers1 new1) w1 = (Some (Ok (code1, job1)), w1') →
  Forall harmless calls →
  run (svc_answer backend) (submit_job headers2 new2) (meanwhile calls w1') =
    (Some (Ok (code2, job2)), w2') →
  code2 = 200 ∧ job_id job2 = job_id job1 ∧ job_frame job2 = job_frame job1.
Proof.
  intros Hs Hnew1 Hnew2 Hqueue Hkey1 Hkey2 Hrun1 Hc Hrun2.
  destruct (run_submit_stored _ _ _ _ _ _ Hs Hnew1 Hrun1) as (Hs1 & Hst1 & Hq1 & Hk1 & _ & _).
  destruct (after_kept backend calls _ _ _ Hc Hs1 Hst1) as (j1 & Hj1 & Hf1).
  pose proof (after_sound backend calls _ Hc Hs1) as Hs2.
  destruct (run_submit_stored headers2 new2 (meanwhile calls w1') _ _ _ Hs2 Hnew2 Hrun2)
    as (Hs2' & Hst2 & Hq2 & Hk2 & Hkept & Hcr).
  destruct (Hkept _ _ Hj1) as (j1' & Hj1' & Hf1').
  assert (job_frame j1' = job_frame job1) as Hf by congruence. clear Hf1 Hf1'.
  assert (job_queue j1' = job_queue job1 ∧
    job_idempotency_key j1' = job_idempotency_key job1) as [Hq Hk]
    by (unfold job_frame in Hf; by simplify_eq).
  assert (job_id job2 = job_id job1) as Hid.
  { apply (law_keyed (w_store w2') _ _ job2 j1' key); [done..| | |]; congruence. }
  rewrite Hid in *. split_and!; [|done|congruence].
  destruct Hcr as [(_ & Hnone & _)|]; [|done]. cbn in Hnone. congruence.
Qed.


(** A cancellation, once accepted, is for good: nothing but a purge changes
    the job any more, whatever the worker that runs it still reports. *)
Theorem cancel_visible id w code job w' calls :
  sound (w_store w) →
  run (svc_answer backend) (cancel_job_route id) w = (Some (Ok (code, job)), w') →
  Forall harmless calls →
  job_status job = Status.Cancelled ∧
  match (run (svc_answer backend) (get_job_route id) (meanwhile calls w')).1 with
  | Some (Ok (code', job')) => code' = 200 ∧ job' = job
  | Some (Err e) => api_status e = 500
  | None => False
  end.
Proof.
  intros Hs Hrun Hc. unfold cancel_job_route, json in Hrun.
  rewrite run_bind_ok, run_await in Hrun. unfold QueueService.cancel_job, call in Hrun.
  rewrite run_trigger in Hrun. cbn [svc_answer] in Hrun.
  pose proof (law_sound _ (CancelJob id) _ I Hs) as Hs'.
  destruct (backend _ (CancelJob id) (w_store w)) as [[j|e] s1] eqn:Hb; cbn in Hrun; simplify_eq.
  destruct (law_cancel _ _ _ _ Hs Hb) as (Hst & Hcan). cbn in Hs'. split; [done|].
  match goal with |- context [meanwhile _ ?w1] => pose proof (get_later id _ calls w1 Hs' Hst Hc) as Hget end.
  destruct (run _ _ _).1 as [[[c j']|e]|]; [|done..].
  destruct Hget as (-> & _ & Heq). split; [done|]. apply Heq. by right.
Qed.

End lawful.

(** ** The requests of the clients *)

(** A call the store accepts, an operation the collector has. *)
Definition svc_req_ok {A} (e : SvcE A) : Prop :=
  page_ok e ∧
  match e with
  | CallStore c => call_ok c
  | Metric op => metric_op_ok op = true
  | UtcNow => True
  end.

Definition dur_ok (d : Duration) : Prop :=
  0 ≤ dur_secs d ≤ u64_max ∧ 0 ≤ dur_nanos d < 1000000000.

Definition worker_req_ok {A} (e : WorkerE A) : Prop :=
  match e with
  | Service e => svc_req_ok e
  | Timed dur _ => dur_ok dur
  | StartElapsed => True
  end.

Abbreviation svc_typed p := (all_reqs (λ A (e : SvcE A), svc_req_ok e) p).
Abbreviation worker_typed p := (all_reqs (λ A (e : WorkerE A), worker_req_ok e) p).

Lemma await_typed {A} (p : prog SvcE (Result A)) : svc_typed p → svc_typed (await p).
Proof. apply all_reqs_map_err. Qed.

Lemma json_typed {A} (p : prog SvcE (Result A)) : svc_typed p → svc_typed (json p).
Proof. intros Hp. apply all_reqs_bind_ok; [by apply await_typed|done]. Qed.

Lemma record_typed op : metric_op_ok op = true → svc_typed (record op).
Proof. done. Qed.

Lemma submit_typed new : new_in_range new → svc_typed (QueueService.submit new).
Proof.
  intros Hnew. split; [done|]. intros now. cbn. destruct (normalized new now) as [[n|e]|] eqn:Hn; [|done..].
  split; [split; [done|by eapply normalized_submittable]|].
  intros [sub|e]; [|done]. by destruct (sub_created sub).
Qed.

Lemma record_failure_typed job wid err t : svc_typed (record_failure job wid err t).
Proof. do 2 (split; [done|]; intros ?). cbn. case_match; [|done]. by case_match. Qed.

Lemma report_outcome_typed job wid outcome d : svc_typed (report_outcome job wid outcome d).
Proof.
  split; [done|]. intros []. destruct outcome.
  - split; [done|]. by intros [|].
  - apply record_failure_typed.
  - split; [done|]. intros []. apply record_failure_typed.
Qed.

Lemma refresh_depths_typed queues : svc_typed (refresh_depths queues).
Proof.
  induction queues as [|q rest IH]; [done|].
  apply all_reqs_bind; [|done]. split; [done|]. by intros [|].
Qed.

Lemma sweep_typed cfg : svc_typed (sweep cfg).
Proof.
  do 2 (apply all_reqs_bind; [done|]; intros ?).
  apply all_reqs_bind; [done|]. intros active.
  apply all_reqs_bind; [by destruct active|]. intros _.
  apply all_reqs_bind; [done|]. intros [queues|e]; [apply refresh_depths_typed|done].
Qed.

Lemma maintenance_typed cfg branches : svc_typed (maintenance_run cfg branches).
Proof.
  induction branches as [|[|] rest IH]; [done..|].
  apply all_reqs_bind; [apply sweep_typed|done].
Qed.

Lemma heartbeat_typed worker branches : svc_typed (heartbeat_loop worker branches).
Proof.
  induction branches as [|[|] rest IH]; [done..|].
  apply all_reqs_bind; [|done]. split; [done|]. by intros [[|]|].
Qed.

Lemma svc_worker_typed {A} (p : prog SvcE A) : svc_typed p → worker_typed (svc p).
Proof. apply all_reqs_interp. intros Y e He. by apply all_reqs_trigger. Qed.

Lemma execute_job_typed registry wid job : worker_typed (execute_job registry wid job).
Proof.
  apply all_reqs_bind; [by apply svc_worker_typed|]. intros [[]|e]; [|done].
  apply all_reqs_bind.
  - unfold run_handler. destruct (registry_get _ _); [|done]. split.
    + unfold worker_req_ok, dur_ok, as_u64, u64_max. cbn [from_secs dur_secs dur_nanos].
      pose proof (Z.mod_pos_bound (Z.max (job_timeout_secs job) 1) (2 ^ 64)). lia.
    + by intros [[|]| |].
  - intros outcome. apply all_reqs_bind; [done|]. intros elapsed. apply all_reqs_bind; [|done].
    apply svc_worker_typed, report_outcome_typed.
Qed.

Lemma worker_rounds_typed registry wid queues lease_secs n :
  worker_typed (worker_rounds registry wid queues lease_secs n).
Proof.
  induction n as [|n IH]; [done|]. apply all_reqs_bind; [|done].
  apply all_reqs_bind; [by apply svc_worker_typed|].
  intros [[job|]|]; [apply execute_job_typed|done..].
Qed.

(** C31: every request of the program is well typed for its callee.  Whatever
    the store, the clock and the handlers answer, each call that an API
    handler, the maintenance loop, the heartbeat or the worker makes is one
    the store's contract admits: a submission is in normal form with its
    numbers in range, a page has 1 to 200 jobs or 1 to 500 dead letters at a
    non-negative offset; each metric operation is one its registered collector
    has, with its number of labels (so the label lookups of the [prometheus]
    crate do not panic); each timeout is a well-formed duration. *)
Theorem requests_well_typed headers new filter dlq purge body id name cfg branches worker
    registry queues lease_secs n :
  new_in_range new →
  (svc_typed (submit_job headers new) ∧ svc_typed (get_job_route id) ∧
   svc_typed (list_jobs_route filter) ∧ svc_typed (cancel_job_route id) ∧
   svc_typed (retry_job_route id) ∧ svc_typed (job_attempts_route id) ∧
   svc_typed list_queues_route ∧ svc_typed (create_queue body) ∧
   svc_typed (pause_queue name) ∧ svc_typed (resume_queue name) ∧
   svc_typed (queue_stats_route name) ∧ svc_typed (list_dlq dlq) ∧
   svc_typed (purge_route purge) ∧ svc_typed readyz) ∧
  svc_typed (maintenance_run cfg branches) ∧ svc_typed (heartbeat_loop worker branches) ∧
  worker_typed (worker_rounds registry (worker_id worker) queues lease_secs n).
Proof.
  intros Hnew.
  split; [|by auto using maintenance_typed, heartbeat_typed, worker_rounds_typed].
  split_and!; try (by apply json_typed).
  - apply all_reqs_bind_ok; [|done].
    by apply await_typed, submit_typed, with_header_key_in_range.
  - apply json_typed. split; [done|]. by intros [o|e].
  - apply all_reqs_bind_ok; [|done]. apply await_typed.
    cbn. unfold svc_req_ok, page_ok, clamp. split_and!; try done; lia.
  - apply json_typed. split; [done|]. by intros [[j|]|].
  - unfold create_queue. case_match; [done|]. apply all_reqs_bind_ok; [by apply await_typed|done].
  - apply json_typed. cbn. unfold svc_req_ok, page_ok, clamp. split_and!; try done; lia.
  - apply all_reqs_bind_ok; [|done]. apply await_typed. split; [done|]. intros now. cbn.
    by case_match.
  - split; [done|]. by intros [|].
Qed.

End clients.
