(* ===== verification/Router.v ===== *)
(** * [djq-api]: the router

    [build_router] of [crates/api/src/lib.rs]: the table of routes, the
    arguments each handler of [routes.rs] extracts, and the layers around
    them.  Routing, decoding arguments, the size limit and the texts a
    header accepts are [axum]'s, [serde]'s, [tower_http]'s and [http]'s: the
    class [Axum] lists what is called, [AxumLaws] what is documented of it. *)

From S2P Require Import Prelude Prog Externals RustStr Status Error Model Store Telemetry.
From S2P Require Import QueueService Api.
From Stdlib Require Import Ascii.
From stdpp Require Import options.

(** ** Requests and answers *)

Inductive method := GET | HEAD | POST | OtherMethod (name : string).

#[export] Instance method_eq_dec : EqDecision method.
Proof. solve_decision. Defined.

Section router.
Context `{X : Externals}.

(** The value of a body, before it is serialized. *)
Inductive Answer :=
| AJob (j : Job)
| AJobs (r : JobListResponse)
| AAttempts (l : list JobAttempt)
| AEvents (id : Uuid)                 (* the stream of [Sse], for this job *)
| AQueue (q : Queue)
| AQueues (l : list Queue)
| AStats (s : QueueStats)
| ADeadLetters (l : list DeadLetterJob)
| ADeleted (r : PurgeResponse)
| AText (s : string)
| AError (e : ErrorBody)
| ARejected.                          (* the text of the framework *)

(** The headers are those the program sets itself. *)
Record HttpResponse := mkHttpResponse {
  rs_code : Z;
  rs_headers : gmap string string;
  rs_answer : Answer;
}.

(** ** What a router does

    A router is a table of patterns, each with the handlers of its methods.
    The table is the program's; what a table means is documented by [axum]. *)

Inductive endpoint :=
| EpSubmitJob | EpListJobs | EpGetJob | EpCancelJob | EpRetryJob | EpJobAttempts | EpJobEvents
| EpListQueues | EpCreateQueue | EpPauseQueue | EpResumeQueue | EpQueueStats
| EpListDlq | EpPurge | EpHealthz | EpReadyz | EpMetrics.

(** [.route(path, post(f).get(g))] *)
Definition Route : Type := string * list (method * endpoint).

Inductive routed :=
| NoRoute                                    (* 404 *)
| NoMethod                                   (* 405 *)
| To (ep : endpoint) (captures : list string).

(** A capture is one segment that is not empty; other segments match
    themselves. *)
Definition is_capture (seg : string) : bool :=
  match seg with String "{"%char _ => true | _ => false end.

Fixpoint match_segments (pattern path : list string) : option (list string) :=
  match pattern, path with
  | [], [] => Some []
  | p :: pattern', s :: path' =>
      if is_capture p then
        if str_is_empty s then None else (s ::.) <$> match_segments pattern' path'
      else if String.eqb p s then match_segments pattern' path' else None
  | _, _ => None
  end.

(** The handler of a method; [get] serves HEAD too. *)
Definition method_endpoint (m : method) (handlers : list (method * endpoint)) : option endpoint :=
  let find m := snd <$> head (filter (λ h, h.1 = m) handlers) in
  match find m with
  | Some ep => Some ep
  | None => match m with HEAD => find GET | _ => None end
  end.

Fixpoint dispatch (routes : list Route) (m : method) (path : string) : routed :=
  match routes with
  | [] => NoRoute
  | (pattern, handlers) :: rest =>
      match match_segments (str_split "/" pattern) (str_split "/" path) with
      | None => dispatch rest m path
      | Some captures =>
          match method_endpoint m handlers with
          | Some ep => To ep captures
          | None => NoMethod
          end
      end
  end.

Definition with_prefix (prefix : string) (routes : list Route) : list Route :=
  (λ r, ((prefix ++ r.1)%string, r.2)) <$> routes.

(** Two patterns that some path could match both. *)
Fixpoint clash (p q : list string) : bool :=
  match p, q with
  | [], [] => true
  | a :: p', b :: q' => (is_capture a || is_capture b || String.eqb a b) && clash p' q'
  | _, _ => false
  end.

Fixpoint clash_free (l : list (list string)) : bool :=
  match l with
  | [] => true
  | p :: rest => forallb (λ q, negb (clash p q)) rest && clash_free rest
  end.

Definition patterns (routes : list Route) : list (list string) :=
  (λ r, str_split "/" r.1) <$> routes.

(** ** What is taken from the frameworks *)

Class Axum := {
  HttpBody : Type;
  (** [Router]: where a request goes, and [Router::nest] *)
  router : list Route → method → string → routed;
  nest : string → list Route → list Route;
  (** the extractors, of the limited body; [Err] is the code of the rejection *)
  path_uuid : string → result Z Uuid;
  path_string : string → result Z string;
  query_filter : string → result Z JobFilter;
  query_dlq : string → result Z DlqQuery;
  json_new_job : header_map → HttpBody → result Z NewJob;
  json_create_queue : header_map → HttpBody → result Z CreateQueue;
  (** the field [older_than_secs], when the body has it *)
  json_purge : header_map → HttpBody → result Z (option Z);
  (** [HeaderValue::from_str] accepts the text *)
  header_value_ok : string → bool;
  (** the code with which [RequestBodyLimitLayer] answers by itself *)
  body_limit : Z → header_map → option Z;
}.

Context `{Ax : !Axum}.

Class AxumLaws : Prop := {
  (** documented of [Router::route]; a table that clashes does not build *)
  router_dispatch routes m path :
    clash_free (patterns routes) = true → router routes m path = dispatch routes m path;
  nest_prefix prefix routes : nest prefix routes = with_prefix prefix routes;
  (** [HeaderValue::to_str] yields visible ASCII, which [from_str] accepts *)
  header_text_ok (h : header_map) name v : h name = Some v → header_value_ok v = true;
  uuid_header_ok id : header_value_ok (uuid_to_string id) = true;
  (** [Uuid]'s parser reads what its [Display] writes, which is one segment *)
  path_uuid_display id : path_uuid (uuid_to_string id) = Ok id;
  uuid_segment id : str_split "/" (uuid_to_string id) = [uuid_to_string id];
  uuid_nonempty id : uuid_to_string id ≠ ""%string;
}.

Record HttpRequest := mkHttpRequest {
  rq_method : method;
  rq_path : string;
  rq_query : string;
  rq_headers : header_map;
  rq_body : HttpBody;
}.

(** ** The table *)

Definition api_routes : list Route :=
  [ ("/jobs", [(POST, EpSubmitJob); (GET, EpListJobs)]);
    ("/jobs/{id}", [(GET, EpGetJob)]);
    ("/jobs/{id}/cancel", [(POST, EpCancelJob)]);
    ("/jobs/{id}/retry", [(POST, EpRetryJob)]);
    ("/jobs/{id}/attempts", [(GET, EpJobAttempts)]);
    ("/jobs/{id}/events", [(GET, EpJobEvents)]);
    ("/queues", [(GET, EpListQueues); (POST, EpCreateQueue)]);
    ("/queues/{name}/pause", [(POST, EpPauseQueue)]);
    ("/queues/{name}/resume", [(POST, EpResumeQueue)]);
    ("/queues/{name}/stats", [(GET, EpQueueStats)]);
    ("/dlq", [(GET, EpListDlq)]);
    ("/maintenance/purge", [(POST, EpPurge)]) ]%string.

Definition app_routes : list Route :=
  [ ("/healthz", [(GET, EpHealthz)]);
    ("/readyz", [(GET, EpReadyz)]);
    ("/metrics", [(GET, EpMetrics)]) ]%string ++ nest "/api/v1" api_routes.

(** ** Handlers *)

Inductive HttpE : Type → Type :=
| HttpService {A} (e : SvcE A) : HttpE A
| NewUuid : HttpE Uuid                       (* Uuid::new_v4() *)
| Encode : HttpE (result string string).     (* encoder.encode(&registry.gather(), &mut buf) *)

Definition http_svc {A} (p : prog SvcE A) : prog HttpE A :=
  interp (λ A (e : SvcE A), trigger (HttpService e)) p.

Definition respond {A} (f : A → Answer) (r : result ApiError (Response A)) : HttpResponse :=
  match into_response r with
  | (code, inl a) => mkHttpResponse code ∅ (f a)
  | (code, inr e) => mkHttpResponse code ∅ (AError e)
  end.

Definition serve_handler {A} (f : A → Answer) (h : prog SvcE (result ApiError (Response A)))
  : prog HttpE HttpResponse :=
  r ← http_svc h; Ret (respond f r).

(** An extractor that rejects answers for the handler. *)
Definition extracting {A} (x : result Z A) (k : A → prog HttpE HttpResponse)
  : prog HttpE HttpResponse :=
  match x with Ok a => k a | Err code => Ret (mkHttpResponse code ∅ ARejected) end.

(** The capture of a pattern that has one. *)
Definition captured (captures : list string) : string := default ""%string (head captures).

(** [metrics] *)
Definition metrics_route : prog HttpE HttpResponse :=
  encoded ← trigger Encode;
  Ret (mkHttpResponse 200 {["content-type" := "text/plain; version=0.0.4"]}%string
         (AText (render encoded))).

Definition handle (ep : endpoint) (captures : list string) (req : HttpRequest)
  : prog HttpE HttpResponse :=
  let id k := extracting (path_uuid (captured captures)) k in
  let name k := extracting (path_string (captured captures)) k in
  match ep with
  | EpSubmitJob => extracting (json_new_job (rq_headers req) (rq_body req)) (λ new,
      serve_handler AJob (submit_job (rq_headers req) new))
  | EpListJobs => extracting (query_filter (rq_query req)) (λ filter,
      serve_handler AJobs (list_jobs_route filter))
  | EpGetJob => id (λ id, serve_handler AJob (get_job_route id))
  | EpCancelJob => id (λ id, serve_handler AJob (cancel_job_route id))
  | EpRetryJob => id (λ id, serve_handler AJob (retry_job_route id))
  | EpJobAttempts => id (λ id, serve_handler AAttempts (job_attempts_route id))
  | EpJobEvents => id (λ id, Ret (mkHttpResponse 200 ∅ (AEvents id)))
  | EpListQueues => serve_handler AQueues list_queues_route
  | EpCreateQueue => extracting (json_create_queue (rq_headers req) (rq_body req)) (λ body,
      serve_handler AQueue (create_queue body))
  | EpPauseQueue => name (λ name, serve_handler AQueue (pause_queue name))
  | EpResumeQueue => name (λ name, serve_handler AQueue (resume_queue name))
  | EpQueueStats => name (λ name, serve_handler AStats (queue_stats_route name))
  | EpListDlq => extracting (query_dlq (rq_query req)) (λ q,
      serve_handler ADeadLetters (list_dlq q))
  | EpPurge => extracting (json_purge (rq_headers req) (rq_body req)) (λ age,
      serve_handler ADeleted (purge_route (purge_request age)))
  | EpHealthz => Ret (mkHttpResponse 200 ∅ (AText healthz))
  | EpReadyz => r ← http_svc readyz; Ret (mkHttpResponse r.1 ∅ (AText r.2))
  | EpMetrics => metrics_route
  end.

Definition route (req : HttpRequest) : prog HttpE HttpResponse :=
  match router app_routes (rq_method req) (rq_path req) with
  | NoRoute => Ret (mkHttpResponse 404 ∅ ARejected)
  | NoMethod => Ret (mkHttpResponse 405 ∅ ARejected)
  | To ep captures => handle ep captures req
  end.

(** ** The layers *)

(** The middleware [correlation_id]; the span is for the logs. *)
Definition correlation_id (req : HttpRequest) (next : HttpRequest → prog HttpE HttpResponse)
  : prog HttpE HttpResponse :=
  cid ← match rq_headers req "x-correlation-id"%string with
        | Some s => Ret s
        | None => id ← trigger NewUuid; Ret (uuid_to_string id)
        end;
  res ← next req;
  Ret (if header_value_ok cid
       then mkHttpResponse (rs_code res) (<["x-correlation-id"%string := cid]> (rs_headers res))
              (rs_answer res)
       else res).

(** [build_router]: the layer added last is the outermost. *)
Definition build_router (max_body_bytes : Z) (req : HttpRequest) : prog HttpE HttpResponse :=
  match body_limit max_body_bytes (rq_headers req) with
  | Some code => Ret (mkHttpResponse code ∅ ARejected)
  | None => correlation_id req route
  end.

(** ** The table is exact *)

Lemma match_segments_cons p pattern path cs :
  match_segments (p :: pattern) path = Some cs →
  ∃ s path' cs', path = s :: path' ∧ (is_capture p = true ∨ p = s) ∧
    match_segments pattern path' = Some cs'.
Proof.
  destruct path as [|s path]; [done|]. cbn. intros Hm. exists s, path.
  destruct (is_capture p) eqn:Hp.
  - destruct (str_is_empty s); [done|]. apply fmap_Some in Hm as (cs' & Hm & _). eauto 6.
  - destruct (String.eqb_spec p s); [|done]. eauto 6.
Qed.

Lemma match_segments_clash p q path c1 c2 :
  match_segments p path = Some c1 → match_segments q path = Some c2 → clash p q = true.
Proof.
  revert q path c1 c2. induction p as [|a p IH]; intros [|b q] path c1 c2 H1 H2.
  - done.
  - apply match_segments_cons in H2 as (s & path' & cs' & -> & _). done.
  - apply match_segments_cons in H1 as (s & path' & cs' & -> & _). done.
  - apply match_segments_cons in H1 as (s & path' & c1' & -> & Ha & H1).
    apply match_segments_cons in H2 as (s' & path'' & c2' & [= <- <-] & Hb & H2).
    cbn. apply andb_true_iff. split; [|by eapply IH].
    destruct Ha as [->|Ha]; [done|]. destruct Hb as [->|Hb]; [by rewrite orb_true_r|].
    subst. by rewrite String.eqb_refl, orb_true_r.
Qed.

(** The path of a pattern whose captures are [cs]. *)
Fixpoint fill (pattern cs : list string) : list string :=
  match pattern with
  | [] => []
  | p :: pattern' =>
      if is_capture p then
        match cs with [] => [] | c :: cs' => c :: fill pattern' cs' end
      else p :: fill pattern' cs
  end.

Lemma match_segments_Some pattern path cs :
  match_segments pattern path = Some cs →
  path = fill pattern cs ∧ Forall (λ c, c ≠ ""%string ∧ c ∈ path) cs ∧
  length cs = length (filter (λ p, is_capture p = true) pattern).
Proof.
  revert path cs. induction pattern as [|p pattern IH]; intros [|s path] cs;
    cbn [match_segments fill]; try done.
  - intros [= <-]. by split_and!.
  - rewrite filter_cons. destruct (is_capture p) eqn:Hp; cbn [decide].
    + destruct (str_is_empty s) eqn:Hs; [done|]. intros (cs' & Hm & ->)%fmap_Some.
      destruct (IH _ _ Hm) as (-> & Hall & Hlen). split; [done|]. split.
      * constructor; [split; [by intros ->|set_solver]|].
        eapply Forall_impl; [done|]. intros c []. set_solver.
      * cbn. by rewrite Hlen.
    + destruct (String.eqb_spec p s) as [->|]; [|done]. intros Hm.
      destruct (IH _ _ Hm) as (-> & Hall & Hlen). split; [done|]. split; [|done].
      eapply Forall_impl; [done|]. intros c []. set_solver.
Qed.

Lemma dispatch_To routes m path ep cs :
  dispatch routes m path = To ep cs →
  ∃ pattern handlers, (pattern, handlers) ∈ routes ∧
    match_segments (str_split "/" pattern) (str_split "/" path) = Some cs ∧
    method_endpoint m handlers = Some ep.
Proof.
  induction routes as [|[p hs] routes IH]; [done|]. cbn [dispatch].
  destruct (match_segments (str_split "/" p) (str_split "/" path)) as [cs'|] eqn:Hm.
  - destruct (method_endpoint m hs) as [ep'|] eqn:He; [|done]. intros [= <- <-].
    exists p, hs. split_and!; [set_solver|done..].
  - intros (p' & hs' & Hin & Hrest)%IH. exists p', hs'. split; [set_solver|done].
Qed.

Lemma dispatch_in routes m path pattern handlers cs :
  clash_free (patterns routes) = true → (pattern, handlers) ∈ routes →
  match_segments (str_split "/" pattern) (str_split "/" path) = Some cs →
  dispatch routes m path =
    match method_endpoint m handlers with Some ep => To ep cs | None => NoMethod end.
Proof.
  induction routes as [|[p hs] routes IH]; [by intros _ ?%not_elem_of_nil|].
  unfold patterns. cbn [fmap list_fmap clash_free]. intros [Hp Hcf]%andb_true_iff Hin Hm.
  cbn [dispatch].
  apply elem_of_cons in Hin as [[= <- <-]|Hin]; [by rewrite Hm|].
  destruct (match_segments (str_split "/" p) (str_split "/" path)) as [cs'|] eqn:Hm'; [|by apply IH].
  pose proof (match_segments_clash _ _ _ _ _ Hm' Hm) as Hc.
  rewrite forallb_forall in Hp. specialize (Hp (str_split "/" pattern)). cbn in Hp, Hc.
  rewrite Hc in Hp. discriminate Hp.
  apply list_elem_of_In, list_elem_of_fmap. by exists (pattern, handlers).
Qed.

(** The request line of each endpoint; [c] is the captured segment. *)
Definition endpoint_method (ep : endpoint) : method :=
  match ep with
  | EpSubmitJob | EpCancelJob | EpRetryJob | EpCreateQueue | EpPauseQueue | EpResumeQueue
  | EpPurge => POST
  | _ => GET
  end.

Definition endpoint_path (ep : endpoint) (c : string) : string :=
  match ep with
  | EpSubmitJob | EpListJobs => "/api/v1/jobs"
  | EpGetJob => "/api/v1/jobs/" ++ c
  | EpCancelJob => "/api/v1/jobs/" ++ (c ++ "/cancel")
  | EpRetryJob => "/api/v1/jobs/" ++ (c ++ "/retry")
  | EpJobAttempts => "/api/v1/jobs/" ++ (c ++ "/attempts")
  | EpJobEvents => "/api/v1/jobs/" ++ (c ++ "/events")
  | EpListQueues | EpCreateQueue => "/api/v1/queues"
  | EpPauseQueue => "/api/v1/queues/" ++ (c ++ "/pause")
  | EpResumeQueue => "/api/v1/queues/" ++ (c ++ "/resume")
  | EpQueueStats => "/api/v1/queues/" ++ (c ++ "/stats")
  | EpListDlq => "/api/v1/dlq"
  | EpPurge => "/api/v1/maintenance/purge"
  | EpHealthz => "/healthz"
  | EpReadyz => "/readyz"
  | EpMetrics => "/metrics"
  end%string.

Definition endpoint_captures (ep : endpoint) (c : string) : list string :=
  match ep with
  | EpGetJob | EpCancelJob | EpRetryJob | EpJobAttempts | EpJobEvents
  | EpPauseQueue | EpResumeQueue | EpQueueStats => [c]
  | _ => []
  end.

(** One segment of a path: not empty, and without a slash. *)
Definition is_segment (c : string) : Prop := c ≠ ""%string ∧ str_split "/" c = [c].

Definition endpoint_pattern (ep : endpoint) : string := endpoint_path ep
  match ep with EpPauseQueue | EpResumeQueue | EpQueueStats => "{name}" | _ => "{id}" end.

Lemma split_jobs r : str_split "/" ("/api/v1/jobs/" ++ r) =
  ""%string :: "api"%string :: "v1"%string :: "jobs"%string :: str_split "/" r.
Proof.
  change ("/api/v1/jobs/" ++ r)%string with
    ("" ++ String "/" ("api" ++ String "/" ("v1" ++ String "/" ("jobs" ++ String "/" r))))%string.
  by rewrite !str_split_app by done.
Qed.

Lemma split_queues r : str_split "/" ("/api/v1/queues/" ++ r) =
  ""%string :: "api"%string :: "v1"%string :: "queues"%string :: str_split "/" r.
Proof.
  change ("/api/v1/queues/" ++ r)%string with
    ("" ++ String "/" ("api" ++ String "/" ("v1" ++ String "/" ("queues" ++ String "/" r))))%string.
  by rewrite !str_split_app by done.
Qed.

Lemma split_endpoint ep c :
  is_segment c → match_segments (str_split "/" (endpoint_pattern ep))
    (str_split "/" (endpoint_path ep c)) = Some (endpoint_captures ep c).
Proof.
  intros [Hne Hc]. assert (str_is_empty c = false) as He by (by destruct c).
  assert (∀ r, str_split "/" (c ++ String "/" r) = c :: str_split "/" r) as Hr
    by (intros; by apply str_split_app).
  destruct ep; unfold endpoint_pattern, endpoint_path; try done;
    rewrite ?split_jobs, ?split_queues, ?Hr, ?Hc,
      ?(str_split_app "/" "{id}" _ eq_refl), ?(str_split_app "/" "{name}" _ eq_refl);
    cbn; by rewrite He.
Qed.

Definition endpoint_handlers (ep : endpoint) : list (method * endpoint) :=
  match ep with
  | EpSubmitJob | EpListJobs => [(POST, EpSubmitJob); (GET, EpListJobs)]
  | EpListQueues | EpCreateQueue => [(GET, EpListQueues); (POST, EpCreateQueue)]
  | _ => [(endpoint_method ep, ep)]
  end.

(** A matched pattern gives its path back. *)
Lemma match_path pattern path cs :
  match_segments (str_split "/" pattern) (str_split "/" path) = Some cs →
  path = str_join "/" (fill (str_split "/" pattern) cs) ∧ Forall is_segment cs ∧
  length cs = length (filter (λ p, is_capture p = true) (str_split "/" pattern)).
Proof.
  intros (Hp & Hcs & Hlen)%match_segments_Some. split; [by rewrite <-Hp, str_join_split|].
  split; [|done]. eapply Forall_impl; [done|]. intros c [Hne Hin]. split; [done|].
  pose proof (str_split_pieces "/" path) as Hall. rewrite Forall_forall in Hall. by apply Hall.
Qed.

(** The table once it is nested. *)
Definition nested_routes : list Route :=
  [ ("/healthz", [(GET, EpHealthz)]);
    ("/readyz", [(GET, EpReadyz)]);
    ("/metrics", [(GET, EpMetrics)]) ]%string ++ with_prefix "/api/v1" api_routes.

Lemma nested_clash_free : clash_free (patterns nested_routes) = true.
Proof. by vm_compute. Qed.

Lemma endpoint_in_table ep : (endpoint_pattern ep, endpoint_handlers ep) ∈ nested_routes.
Proof. destruct ep; apply list_elem_of_In; repeat first [by left|right]. Qed.

Lemma dispatch_endpoint m ep c :
  is_segment c → m = endpoint_method ep ∨ (m = HEAD ∧ endpoint_method ep = GET) →
  dispatch nested_routes m (endpoint_path ep c) = To ep (endpoint_captures ep c).
Proof.
  intros Hc Hm.
  rewrite (dispatch_in nested_routes m _ (endpoint_pattern ep) (endpoint_handlers ep)
             (endpoint_captures ep c));
    [|apply nested_clash_free|apply endpoint_in_table|by apply split_endpoint].
  by destruct Hm as [->|[-> Hget]]; destruct ep.
Qed.

Lemma dispatched_endpoint m path ep cs :
  dispatch nested_routes m path = To ep cs →
  ∃ c, is_segment c ∧ path = endpoint_path ep c ∧ cs = endpoint_captures ep c ∧
    (m = endpoint_method ep ∨ (m = HEAD ∧ endpoint_method ep = GET)).
Proof.
  intros (pattern & hs & Hin & Hm & He)%dispatch_To. apply match_path in Hm as (-> & Hcs & Hlen).
  unfold nested_routes, with_prefix, api_routes in Hin. cbn [fmap list_fmap app fst snd] in Hin.
  repeat (apply elem_of_cons in Hin as [[= -> ->]|Hin]);
    [..|by apply not_elem_of_nil in Hin].
  all: destruct m; vm_compute in He; simplify_eq.
  all: vm_compute in Hlen; destruct cs as [|c [|]]; simplify_eq.
  all: try (apply Forall_cons in Hcs as [Hcs _]; exists c; split; [done|];
    split_and!; [done|done|by auto]).
  all: exists "x"%string; split; [done|]; split_and!; [done|done|by auto].
Qed.

Section laws.
Context `{Laws : !AxumLaws}.

#[local] Set Default Proof Using "Type*".

Lemma app_routes_nested : app_routes = nested_routes.
Proof. unfold app_routes. by rewrite nest_prefix. Qed.

Lemma app_router m path : router app_routes m path = dispatch nested_routes m path.
Proof. rewrite app_routes_nested. apply router_dispatch, nested_clash_free. Qed.

(** C37: routing is exact.  No path matches two patterns of the table, so it
    builds and its order does not matter; and a request reaches an endpoint
    precisely when its method and path are the endpoint's (HEAD counts as
    GET), with the captured segment handed over. *)
Theorem routing_exact m path ep cs :
  clash_free (patterns app_routes) = true ∧
  (router app_routes m path = To ep cs ↔
   ∃ c, is_segment c ∧ path = endpoint_path ep c ∧ cs = endpoint_captures ep c ∧
     (m = endpoint_method ep ∨ (m = HEAD ∧ endpoint_method ep = GET))).
Proof.
  split; [rewrite app_routes_nested; apply nested_clash_free|]. rewrite app_router.
  split; [apply dispatched_endpoint|]. intros (c & Hc & -> & -> & Hm). by apply dispatch_endpoint.
Qed.

End laws.
End router.
