(* ===== verification/Http.v ===== *)
(** * The HTTP service

    Runs of [Router.build_router] against a backend of the store: what the
    correlation middleware adds to every answer, and what a client of the
    whole HTTP service may rely on. *)

From S2P Require Import Prelude Prog Externals RustStr Status Error Model Store Telemetry.
From S2P Require Import Invariant Concurrency StoreLaws QueueService Api Clients Router.
From Stdlib Require Import Ascii.
From stdpp Require Import options.

Section http.
Context `{X : Externals} `{Ax : !Axum}.
Context {S : Type} (backend : ∀ A, StoreE A → S → A * S).
(** The ids [Uuid::new_v4] draws, and the encoder's output. *)
Context (new_v4 : nat → Uuid) (encoded : list metric_op → result string string).

Definition http_answer (A : Type) (e : HttpE A) (s : World (S := S) * nat)
  : A * (World (S := S) * nat) :=
  match e in HttpE A return A * (World * nat) with
  | HttpService e => let '(a, w) := svc_answer backend _ e s.1 in (a, (w, s.2))
  | NewUuid => (new_v4 s.2, (s.1, Nat.succ s.2))
  | Encode => (encoded (w_metrics s.1), s)
  end.

Abbreviation served p s := (run http_answer p s).

Lemma run_http_svc {A} (p : prog SvcE A) w n :
  served (http_svc p) (w, n) = let '(r, w') := run (svc_answer backend) p w in (r, (w', n)).
Proof.
  revert w. induction p as [a|Y e k IH|]; intros w; [done| |done].
  unfold http_svc. cbn [interp run]. cbn. destruct (svc_answer backend Y e w) as [y w']. apply IH.
Qed.

(** The id a request runs under, and the ids drawn for it. *)
Definition cid_of (req : HttpRequest) (n : nat) : string :=
  match rq_headers req "x-correlation-id"%string with
  | Some s => s
  | None => uuid_to_string (new_v4 n)
  end.

Definition drawn (req : HttpRequest) (n : nat) : nat :=
  match rq_headers req "x-correlation-id"%string with Some _ => n | None => Nat.succ n end.

Definition with_cid (cid : string) (res : HttpResponse) : HttpResponse :=
  mkHttpResponse (rs_code res) (<["x-correlation-id"%string := cid]> (rs_headers res))
    (rs_answer res).

Section laws.
Context `{Laws : !AxumLaws}.

Lemma run_build_router max req w n :
  body_limit max (rq_headers req) = None →
  served (build_router max req) (w, n) =
    let '(r, s) := served (route req) (w, drawn req n) in (with_cid (cid_of req n) <$> r, s).
Proof using Laws.
  intros Hl. unfold build_router, correlation_id. rewrite Hl. rewrite run_bind.
  assert (header_value_ok (cid_of req n) = true) as Hok.
  { unfold cid_of. destruct (rq_headers req "x-correlation-id"%string) eqn:Hh;
      [by eapply header_text_ok|apply uuid_header_ok]. }
  unfold cid_of, drawn in *. destruct (rq_headers req "x-correlation-id"%string) as [s|]; cbn [run];
    [|rewrite run_bind, run_trigger; cbn [http_answer fst snd run]];
    rewrite run_bind; (destruct (served (route req) _) as [[res|] s']; [|done]); cbn [run];
    by rewrite Hok.
Qed.

(** C38: every answer can be traced.  A request that the body-limit layer lets
    through is answered with the code and the body of its route, and the
    answer carries the correlation id the client sent, or a fresh one when it
    sent none (or one that is not text).  A request the limit layer refuses
    never reaches the middleware: its answer carries no id, and nothing of the
    program runs. *)
Theorem correlation_id_echoed max req w n :
  match body_limit max (rq_headers req) with
  | Some code =>
      served (build_router max req) (w, n) = (Some (mkHttpResponse code ∅ ARejected), (w, n))
  | None =>
      let '(r, s) := served (route req) (w, drawn req n) in
      match r with
      | None => served (build_router max req) (w, n) = (None, s)
      | Some routed => ∃ res,
          served (build_router max req) (w, n) = (Some res, s) ∧
          rs_code res = rs_code routed ∧ rs_answer res = rs_answer routed ∧
          rs_headers res !! "x-correlation-id"%string = Some (cid_of req n) ∧
          ∀ h, h ≠ "x-correlation-id"%string → rs_headers res !! h = rs_headers routed !! h
      end
  end.
Proof using Laws.
  destruct (body_limit max (rq_headers req)) as [code|] eqn:Hl.
  { unfold build_router. by rewrite Hl. }
  pose proof (run_build_router max req w n Hl) as Hrun.
  destruct (served (route req) (w, drawn req n)) as [[res|] s]; [|done].
  exists (with_cid (cid_of req n) res). split_and!; [done..| |].
  - apply lookup_insert_eq.
  - intros h Hh. by apply lookup_insert_ne.
Qed.

(** ** Through the router *)

Lemma route_to ep c req :
  is_segment c → rq_method req = endpoint_method ep → rq_path req = endpoint_path ep c →
  route req = handle ep (endpoint_captures ep c) req.
Proof using Laws.
  intros Hc Hm Hp. unfold route. rewrite Hm, Hp.
  by rewrite app_router, (dispatch_endpoint (endpoint_method ep) ep c Hc (or_introl eq_refl)).
Qed.

Lemma uuid_is_segment id : is_segment (uuid_to_string id).
Proof using Laws. split; [apply uuid_nonempty|apply uuid_segment]. Qed.

Lemma run_submit_route req new w n :
  rq_method req = POST → rq_path req = "/api/v1/jobs"%string →
  json_new_job (rq_headers req) (rq_body req) = Ok new →
  served (route req) (w, n) =
    let '(r, w') := run (svc_answer backend) (submit_job (rq_headers req) new) w in
    (respond AJob <$> r, (w', n)).
Proof using Laws.
  intros Hm Hp Hnew. rewrite (route_to EpSubmitJob "x") by (done || by split).
  cbn [handle]. rewrite Hnew. cbn [extracting]. unfold serve_handler. rewrite run_bind, run_http_svc.
  by destruct (run (svc_answer backend) _ w) as [[r|] w'].
Qed.

Lemma run_get_route req id w n :
  rq_method req = GET → rq_path req = ("/api/v1/jobs/" ++ uuid_to_string id)%string →
  served (route req) (w, n) =
    let '(r, w') := run (svc_answer backend) (get_job_route id) w in
    (respond AJob <$> r, (w', n)).
Proof using Laws.
  intros Hm Hp. rewrite (route_to EpGetJob (uuid_to_string id)) by (done || apply uuid_is_segment).
  change (handle EpGetJob _ req) with
    (extracting (path_uuid (uuid_to_string id)) (λ id, serve_handler AJob (get_job_route id))).
  rewrite path_uuid_display. cbn [extracting].
  unfold serve_handler. rewrite run_bind, run_http_svc.
  by destruct (run (svc_answer backend) _ w) as [[r|] w'].
Qed.

(** C21: read your writes, over HTTP.  On any lawful store: once
    [POST /api/v1/jobs] was answered with a job (200 or 201), then however
    many calls of other clients come after it, short of a purge,
    [GET /api/v1/jobs/{id}] with the answered id answers 200 with that job,
    every column a job keeps unchanged (queue, type, payload, key, budget,
    creation time and so on), or 500 when the lookup failed: it never answers
    404.  The job is in the queue the body asked for, and when it was created
    (201) it has the body's type and payload, with no attempt made. *)
Theorem http_read_your_writes `{L : !LawfulStore backend} max req get new w n res job w' n' calls :
  sound (w_store w) → new_in_range new →
  rq_method req = POST → rq_path req = "/api/v1/jobs"%string →
  body_limit max (rq_headers req) = None →
  json_new_job (rq_headers req) (rq_body req) = Ok new →
  served (build_router max req) (w, n) = (Some res, (w', n')) → rs_answer res = AJob job →
  Forall harmless calls →
  rq_method get = GET → rq_path get = ("/api/v1/jobs/" ++ uuid_to_string (job_id job))%string →
  body_limit max (rq_headers get) = None →
  job_queue job = new_queue new ∧
  (rs_code res = 201 → job_job_type job = new_job_type new ∧ job_payload job = new_payload new ∧
     job_attempts job = 0) ∧
  ∃ got, (served (build_router max get) (meanwhile backend calls w', n')).1 = Some got ∧
    ((rs_code got = 200 ∧ ∃ job', rs_answer got = AJob job' ∧ job_frame job' = job_frame job) ∨
     (rs_code got = 500 ∧ ∃ e, rs_answer got = AError e)).
Proof using Laws.
  intros Hs Hnew Hm Hp Hl Hj Hrun Hans Hc Hgm Hgp Hgl.
  rewrite run_build_router, (run_submit_route req new) in Hrun by done.
  destruct (run (svc_answer backend) (submit_job (rq_headers req) new) w) as [[[[code job']|e]|] w1]
    eqn:Hsub; cbn in Hrun; simplify_eq; cbn in Hans; simplify_eq.
  destruct (post_then_get backend _ _ _ _ _ _ _ Hs Hnew Hsub Hc) as (Hq & Hcr & Hget).
  split; [done|]. split; [done|].
  rewrite run_build_router, (run_get_route get (job_id job)) by done.
  destruct (run (svc_answer backend) (get_job_route (job_id job)) _) as [[[[code' job']|e]|] w2];
    cbn in Hget |- *; [|..|done]; eexists; (split; [done|]); cbn.
  - left. destruct Hget as [-> Hf]. eauto.
  - right. eauto.
Qed.

(** C22: idempotency over HTTP.  On any lawful store: once
    [POST /api/v1/jobs] was answered with a job under an idempotency key (of
    the body or of the Idempotency-Key header), then however many calls of
    other clients come after it, short of a purge, a second POST to the same
    queue under the same key that is answered with a job is answered 200, with
    that same job: the same id, and every column a job keeps unchanged,
    whatever else the second body says. *)
Theorem http_idempotent `{L : !LawfulStore backend} max req1 req2 new1 new2 key
    w n res1 job1 w1 n1 calls res2 job2 s2 :
  sound (w_store w) → new_in_range new1 → new_in_range new2 →
  rq_method req1 = POST → rq_path req1 = "/api/v1/jobs"%string →
  rq_method req2 = POST → rq_path req2 = "/api/v1/jobs"%string →
  body_limit max (rq_headers req1) = None → body_limit max (rq_headers req2) = None →
  json_new_job (rq_headers req1) (rq_body req1) = Ok new1 →
  json_new_job (rq_headers req2) (rq_body req2) = Ok new2 →
  new_queue new2 = new_queue new1 →
  new_idempotency_key (with_header_key (rq_headers req1) new1) = Some key →
  new_idempotency_key (with_header_key (rq_headers req2) new2) = Some key →
  served (build_router max req1) (w, n) = (Some res1, (w1, n1)) → rs_answer res1 = AJob job1 →
  Forall harmless calls →
  served (build_router max req2) (meanwhile backend calls w1, n1) = (Some res2, s2) →
  rs_answer res2 = AJob job2 →
  rs_code res2 = 200 ∧ job_id job2 = job_id job1 ∧ job_frame job2 = job_frame job1.
Proof using Laws.
  intros Hs Hnew1 Hnew2 Hm1 Hp1 Hm2 Hp2 Hl1 Hl2 Hj1 Hj2 Hq Hk1 Hk2 Hrun1 Ha1 Hc Hrun2 Ha2.
  rewrite run_build_router, (run_submit_route req1 new1) in Hrun1 by done.
  rewrite run_build_router, (run_submit_route req2 new2) in Hrun2 by done.
  destruct (run (svc_answer backend) (submit_job (rq_headers req1) new1) w)
    as [[[[c1 j1]|e]|] w1'] eqn:Hsub1; cbn in Hrun1; simplify_eq; cbn in Ha1; simplify_eq.
  destruct (run (svc_answer backend) (submit_job (rq_headers req2) new2) _)
    as [[[[c2 j2]|e]|] w2'] eqn:Hsub2; cbn in Hrun2; simplify_eq; cbn in Ha2; simplify_eq.
  exact (post_twice backend _ _ _ _ key _ _ _ _ _ _ _ _ Hs Hnew1 Hnew2 Hq Hk1 Hk2 Hsub1 Hc Hsub2).
Qed.

End laws.
End http.
