(* ===== verification/Binaries.v ===== *)
(** * The two programs

    [main] of [crates/api/src/main.rs] and [crates/worker/src/main.rs], with
    the startup of [PgStore]: the calls a process makes, in order, to the
    database, the network, the signals and its own tasks.  What the tasks then
    do is the subject of the other files. *)

From S2P Require Import Prelude Prog Externals RustStr Status Error Model Float64 Sql Statements.
From S2P Require Import Telemetry QueueService Maintenance WorkerConfig Api.
From stdpp Require Import options.

Section binaries.
Context `{X : Externals}.

(** [anyhow::Error]: the texts of its chain, the outermost first. *)
Definition AnyError : Type := list string.

Inductive signal_kind := SIGTERM | SIGINT.

(** The tasks a process spawns. *)
Inductive task :=
| MaintenanceTask (cfg : MaintenanceConfig)
| MetricsServer (addr : string)
| SignalWatch.

Inductive MainE : Type → Type :=
| InitTracing (service : string) (json : bool) : MainE unit
| PoolConnect (max_connections acquire_timeout_secs : Z) (url : string)
  : MainE (result sqlx_error unit)
| RunMigrations : MainE (result string unit)
| SelectOne : MainE (result sqlx_error unit)
| DrawUuid : MainE Uuid
| Spawn (t : task) : MainE unit
| Join (t : task) : MainE unit
| Bind (addr : string) : MainE (result string unit)
(* serving until the shutdown; the API's server waits for a signal itself *)
| ServeApi (max_body_bytes : Z) : MainE (result string unit)
| ServeMetrics : MainE (result string unit)
| RunWorker (config : WorkerConfig) : MainE (Result unit)
| InstallSignal (s : signal_kind) : MainE (result string unit)
| AwaitSignal : MainE unit
| CancelShutdown : MainE unit.

Abbreviation Main A := (prog MainE (result AnyError A)).

(** [.context(c)?] *)
Definition context {Er A} (c : string) (show : Er → string) (p : prog MainE (result Er A))
  : Main A := map_err_p (λ e, [c; show e]) p.

(** ** [PgStore]'s startup *)

Definition connect (database_url : string) (max_connections : Z) : prog MainE (Result unit) :=
  map_err_p storage_err (trigger (PoolConnect (Z.max max_connections 1) 10 database_url)).

Definition migrate : prog MainE (Result unit) :=
  map_err_p (λ e, Storage ("migration failed: " ++ e)%string) (trigger RunMigrations).

Definition ping : prog MainE (Result unit) := map_err_p storage_err (trigger SelectOne).

(** ** Signals *)

(** [expect] panics when a handler cannot be installed. *)
Definition install (s : signal_kind) : prog MainE unit :=
  r ← trigger (InstallSignal s);
  match r with Ok _ => Ret tt | Err _ => Panic end.

Definition wait_for_signal : prog MainE unit :=
  _ ← install SIGTERM;
  _ ← install SIGINT;
  trigger AwaitSignal.

(** The graceful-shutdown future of the API. *)
Definition graceful_shutdown : prog MainE unit :=
  _ ← wait_for_signal;
  trigger CancelShutdown.

(** The worker has its own copy, and a task for it. *)
Definition worker_wait_for_signal : prog MainE unit :=
  _ ← install SIGTERM;
  _ ← install SIGINT;
  trigger AwaitSignal.

Definition signal_watch : prog MainE unit :=
  _ ← worker_wait_for_signal;
  trigger CancelShutdown.

(** ** The API *)

Definition api_main (parse_addr : string → result string string) (env : environment) : Main unit :=
  match api_from_env parse_addr env with
  | Err e => Ret (Err [e])
  | Ok config =>
      _ ← trigger (InitTracing "djq-api" (json_logs config));
      context "failed to connect to Postgres" queue_error_to_string
        (connect (database_url config) (db_max_connections config)) ;?
      context "migrations failed" queue_error_to_string migrate ;?
      _ ← trigger (Spawn (MaintenanceTask maintenance_default));
      context ("failed to bind " ++ bind_addr config) id (trigger (Bind (bind_addr config))) ;?
      context "server error" id (trigger (ServeApi (max_body_bytes config))) ;?
      _ ← trigger (Join (MaintenanceTask maintenance_default));
      Ret (Ok tt)
  end.

(** ** The worker *)

(** [render_metrics], on the encoder's output. *)
Definition render_metrics (encoded : result string string) : Z * string := (200, render encoded).

(** The routes of [serve_metrics]: all for GET, none reads the store. *)
Definition metrics_routes : list (string * (result string string → Z * string)) :=
  [ ("/healthz", λ _, (200, "ok")); ("/readyz", λ _, (200, "ok"));
    ("/metrics", render_metrics) ]%string.

Definition serve_metrics (addr : string) : prog MainE unit :=
  bound ← trigger (Bind addr);
  match bound with
  | Err _ => Ret tt
  | Ok _ => _ ← trigger ServeMetrics; Ret tt
  end.

(** [LOG_JSON] and [DB_MAX_CONNECTIONS]. *)
Definition worker_json_logs (env : environment) : bool :=
  match env "LOG_JSON"%string with Some v => String.eqb v "true" | None => false end.

Definition worker_max_conn (env : environment) : Z :=
  default 10 (env "DB_MAX_CONNECTIONS"%string ≫= parse_unsigned u32_max).

Definition worker_main (parse_addr : string → result string string) (env : environment)
  : Main unit :=
  _ ← trigger (InitTracing "djq-worker" (worker_json_logs env));
  match env "DATABASE_URL"%string with
  | None => Ret (Err ["DATABASE_URL environment variable is required"%string;
                      "environment variable not found"%string])
  | Some database_url =>
      context "failed to connect to Postgres" queue_error_to_string
        (connect database_url (worker_max_conn env)) ;?
      context "migrations failed" queue_error_to_string migrate ;?
      new_v4 ← trigger DrawUuid;
      let config := worker_from_env env new_v4 in
      match parse_addr (default "0.0.0.0:9091"%string (env "WORKER_METRICS_ADDR"%string)) with
      | Err e => Ret (Err ["invalid WORKER_METRICS_ADDR"%string; e])
      | Ok metrics_addr =>
          _ ← trigger (Spawn (MetricsServer metrics_addr));
          _ ← trigger (Spawn SignalWatch);
          map_err_p (λ e, [queue_error_to_string e]) (trigger (RunWorker config)) ;?
          _ ← trigger (Join (MetricsServer metrics_addr));
          Ret (Ok tt)
      end
  end.

(** ** The order of a process

    The calls a run makes, in order; the [i]-th call is answered by
    [answers i]. *)

Inductive main_call : Type :=
| MainCall {A : Type} (e : MainE A).

Section order.
Context (answers : ∀ A, nat → MainE A → A).

Definition main_answer (A : Type) (e : MainE A) (log : list main_call) : A * list main_call :=
  (answers A (length log) e, log ++ [MainCall e]).

(** Whether the [i]-th call succeeded. *)
Definition succeeded (i : nat) (c : main_call) : bool :=
  match c with
  | MainCall e =>
      match e in MainE A return A → bool with
      | PoolConnect _ _ _ | SelectOne => λ r, match r with Ok _ => true | Err _ => false end
      | RunMigrations | Bind _ | ServeApi _ | ServeMetrics | InstallSignal _ =>
          λ r, match r with Ok _ => true | Err _ => false end
      | RunWorker _ => λ r, match r with Ok _ => true | Err _ => false end
      | _ => λ _, true
      end (answers _ i e)
  end.

(** The calls of a list up to the first that fails. *)
Fixpoint until_failure (i : nat) (calls : list main_call) : list main_call :=
  match calls with
  | [] => []
  | c :: rest => c :: (if succeeded i c then until_failure (Nat.succ i) rest else [])
  end.

Definition all_succeed (calls : list main_call) : bool :=
  forallb (λ ic, succeeded ic.1 ic.2) (zip (seq 0 (length calls)) calls).

(** The calls of an API process that meets no error. *)
Definition api_calls (config : ApiConfig) : list main_call :=
  [ MainCall (InitTracing "djq-api" (json_logs config));
    MainCall (PoolConnect (Z.max (db_max_connections config) 1) 10 (database_url config));
    MainCall RunMigrations;
    MainCall (Spawn (MaintenanceTask maintenance_default));
    MainCall (Bind (bind_addr config));
    MainCall (ServeApi (max_body_bytes config));
    MainCall (Join (MaintenanceTask maintenance_default)) ].

(** Those of a worker process. *)
Definition worker_calls (env : environment) (database_url metrics_addr : string) (new_v4 : Uuid)
  : list main_call :=
  [ MainCall (InitTracing "djq-worker" (worker_json_logs env));
    MainCall (PoolConnect (Z.max (worker_max_conn env) 1) 10 database_url);
    MainCall RunMigrations;
    MainCall DrawUuid;
    MainCall (Spawn (MetricsServer metrics_addr));
    MainCall (Spawn SignalWatch);
    MainCall (RunWorker (worker_from_env env new_v4));
    MainCall (Join (MetricsServer metrics_addr)) ].

Definition is_ok {Er A} (r : result Er A) : bool := match r with Ok _ => true | Err _ => false end.

(** C39: the API comes up in order.  With a configuration that parses, an API
    process sets up its logs, connects, migrates, starts the maintenance loop,
    binds its address and serves, in this order, and stops at the first step
    that fails: so it accepts no request and sweeps nothing before the schema
    is migrated.  [main] returns without an error exactly when every step
    succeeded, and then the maintenance loop has been joined.  With a
    configuration that does not parse, nothing is called. *)
Theorem api_startup parse_addr env :
  match api_from_env parse_addr env with
  | Err e => run main_answer (api_main parse_addr env) [] = (Some (Err [e]), [])
  | Ok config =>
      let '(r, calls) := run main_answer (api_main parse_addr env) [] in
      calls = until_failure 0 (api_calls config) ∧
      is_ok <$> r = Some (all_succeed (api_calls config))
  end.
Proof.
  unfold api_main. destruct (api_from_env parse_addr env) as [config|e]; [|done].
  unfold all_succeed, api_calls. cbn.
  destruct (answers _ 1 _) as [[]|]; cbn; [|done].
  destruct (answers _ 2 _) as [[]|]; cbn; [|done].
  destruct (answers _ 4 _) as [[]|]; cbn; [|done].
  by destruct (answers _ 5 _) as [[]|].
Qed.

(** The worker comes up in order.  A worker process sets up its logs,
    connects, migrates, starts its metrics server and its signal watch and
    runs the worker, in this order, and stops at the first step that fails: it
    registers and leases nothing before the schema is migrated.  [main]
    returns without an error exactly when every step succeeded.  Without a
    database URL nothing but the logs is set up; a metrics address that does
    not parse is noticed only after the migrations have run, and nothing is
    started then. *)
Theorem worker_startup parse_addr env :
  let '(r, calls) := run main_answer (worker_main parse_addr env) [] in
  match env "DATABASE_URL"%string with
  | None =>
      calls = [MainCall (InitTracing "djq-worker" (worker_json_logs env))] ∧
      is_ok <$> r = Some false
  | Some url =>
      let new_v4 := answers _ 3 DrawUuid in
      match parse_addr (default "0.0.0.0:9091"%string (env "WORKER_METRICS_ADDR"%string)) with
      | Ok addr =>
          calls = until_failure 0 (worker_calls env url addr new_v4) ∧
          is_ok <$> r = Some (all_succeed (worker_calls env url addr new_v4))
      | Err _ =>
          calls = until_failure 0 (take 4 (worker_calls env url "" new_v4)) ∧
          is_ok <$> r = Some false
      end
  end.
Proof.
  unfold worker_main. rewrite run_bind, run_trigger. cbn [main_answer].
  destruct (env "DATABASE_URL"%string) as [url|]; [|done].
  destruct (parse_addr _) as [addr|e]; unfold all_succeed, worker_calls; cbn;
    (destruct (answers _ 1 _) as [[]|]; cbn; [|done]);
    (destruct (answers _ 2 _) as [[]|]; cbn; [|done]); [|done].
  by destruct (answers _ 6 _) as [[]|].
Qed.

(** Both processes react to the same signals: the signal future waits only with both handlers in place; when one cannot
    be installed the task panics, and the shutdown is never requested. *)
Theorem signal_watch_installs :
  graceful_shutdown = signal_watch ∧
  let '(r, calls) := run main_answer signal_watch [] in
  calls = until_failure 0 [MainCall (InstallSignal SIGTERM); MainCall (InstallSignal SIGINT);
                           MainCall AwaitSignal; MainCall CancelShutdown] ∧
  (r = None ↔ MainCall CancelShutdown ∉ calls).
Proof.
  split; [reflexivity|].
  unfold signal_watch, worker_wait_for_signal, install. cbn.
  destruct (answers _ 0 _) as [[]|]; cbn; [|split; [done|set_solver]].
  destruct (answers _ 1 _) as [[]|]; cbn; [|split; [done|set_solver]].
  split; [done|]. split; [done|]. set_solver.
Qed.

End order.
End binaries.
