(* ===== verification/Sse.v ===== *)
(** * [djq-api::sse]: the stream of a job's status

    The polling stream of [crates/api/src/sse.rs]: one step of the unfold, and
    the events a client receives. *)

From S2P Require Import Prelude Prog Externals Status Error Model Float64 Store Telemetry.
From S2P Require Import QueueService.
From stdpp Require Import options.

Section sse.
Context `{X : Externals}.

Definition POLL : Duration := from_millis 500.
Definition MAX_POLLS : Z := 1200.

Record JobEvent := mkJobEvent {
  ev_id : Uuid;
  ev_status : string;
  ev_attempts : Z;
  ev_last_error : option string;
}.

Inductive sse_event :=
| EvStatus (payload : JobEvent)
| EvTimeout     (* data: stream closed *)
| EvError.      (* data: job not found *)

Record StreamState := mkStreamState {
  st_id : Uuid;
  st_last : option JobStatus;
  st_first : bool;
  st_done : bool;
  st_polls : Z;
}.

Definition stream_start (id : Uuid) : StreamState := mkStreamState id None true false 0.

Inductive SseE : Type → Type :=
| SseService {A} (e : SvcE A) : SseE A
| SsePause (d : Duration) : SseE unit.      (* tokio::time::sleep *)

Definition sse_svc {A} (p : prog SvcE A) : prog SseE A :=
  interp (λ A (e : SvcE A), trigger (SseService e)) p.

(** The loop of the unfold's closure.  Running out of fuel is a panic: the
    fuel of [next_event] is shown to suffice. *)
Fixpoint poll_loop (fuel : nat) (st : StreamState)
  : prog SseE (option (sse_event * StreamState)) :=
  match fuel with
  | O => Panic
  | S fuel' =>
      if MAX_POLLS <=? st_polls st then
        Ret (Some (EvTimeout, mkStreamState (st_id st) (st_last st) (st_first st) true (st_polls st)))
      else
        let polls := st_polls st + 1 in
        r ← sse_svc (get_job (st_id st));
        match r with
        | Ok job =>
            let changed := st_first st || negb (bool_decide (st_last st = Some (job_status job))) in
            if changed then
              let payload := mkJobEvent (job_id job) (status_to_string (job_status job)) (job_attempts job)
                               (job_last_error job) in
              Ret (Some (EvStatus payload,
                mkStreamState (st_id st) (Some (job_status job)) false
                  (if is_terminal (job_status job) then true else st_done st) polls))
            else
              _ ← trigger (SsePause POLL);
              poll_loop fuel' (mkStreamState (st_id st) (st_last st) (st_first st) (st_done st) polls)
        | Err _ =>
            Ret (Some (EvError, mkStreamState (st_id st) (st_last st) (st_first st) true polls))
        end
  end.

(** The closure of the unfold: [None] ends the stream. *)
Definition next_event (st : StreamState) : prog SseE (option (sse_event * StreamState)) :=
  if st_done st then Ret None
  else poll_loop (Z.to_nat (MAX_POLLS - st_polls st) + 1) st.

(** The first [n] events of the stream. *)
Fixpoint sse_events (n : nat) (st : StreamState) : prog SseE (list sse_event) :=
  match n with
  | O => Ret []
  | S n' =>
      r ← next_event st;
      match r with
      | None => Ret []
      | Some (ev, st') => rest ← sse_events n' st'; Ret (ev :: rest)
      end
  end.

(** ** Against a backend *)

Section backend.
Context {S : Type} (backend : ∀ A, StoreE A → S → A * S).

Definition sse_answer (A : Type) (e : SseE A) (w : World (S := S)) : A * World (S := S) :=
  match e in SseE A return A * World with
  | SseService e => svc_answer backend _ e w
  | SsePause _ => (tt, w)
  end.

Lemma run_sse_svc {A} (p : prog SvcE A) w :
  run sse_answer (sse_svc p) w = run (svc_answer backend) p w.
Proof.
  revert w. induction p as [a|Y e k IH|]; intros w; [done| |done].
  unfold sse_svc. cbn [interp run]. cbn. destruct (svc_answer backend Y e w) as [y w']. apply IH.
Qed.

Lemma run_get_job id w :
  ∃ r s, run (svc_answer backend) (get_job id) w = (Some r, called (GetJob id) s w).
Proof.
  unfold get_job. rewrite run_bind_ok. unfold call. rewrite run_trigger. cbn [svc_answer].
  destruct (backend _ (GetJob id) (w_store w)) as [[o|e] s]; by eexists _, _.
Qed.

(** What one event says of the stream's state before and after it. *)
Definition event_step (st : StreamState) (ev : sse_event) (st' : StreamState) : Prop :=
  match ev with
  | EvStatus p =>
      ∃ s, ev_status p = as_str s ∧ (st_first st = true ∨ st_last st ≠ Some s) ∧
        st_last st' = Some s ∧ st_first st' = false ∧
        st_done st' = is_terminal s ∧ st_polls st < st_polls st'
  | EvTimeout => st_done st' = true ∧ st_polls st' = MAX_POLLS
  | EvError => st_done st' = true ∧ st_polls st < st_polls st'
  end ∧ st_id st' = st_id st.

(** [n] polls of the job. *)
Definition polls_of (id : Uuid) (n : Z) : list store_call :=
  replicate (Z.to_nat n) (StoreCall (GetJob id)).

Lemma polls_of_add id a b : 0 ≤ a → 0 ≤ b → polls_of id a ++ polls_of id b = polls_of id (a + b).
Proof. intros. unfold polls_of. by rewrite <- replicate_add, Z2Nat.inj_add. Qed.

Lemma run_poll_loop fuel st w :
  st_done st = false → 0 ≤ st_polls st ≤ MAX_POLLS →
  Z.of_nat fuel = MAX_POLLS - st_polls st + 1 →
  ∃ ev st' w', run sse_answer (poll_loop fuel st) w = (Some (Some (ev, st')), w') ∧
    event_step st ev st' ∧ st_polls st ≤ st_polls st' ≤ MAX_POLLS ∧
    w_calls w' = w_calls w ++ polls_of (st_id st) (st_polls st' - st_polls st).
Proof.
  revert st w. induction fuel as [|fuel IH]; intros st w Hdone Hp Hfuel; [lia|].
  cbn [poll_loop]. destruct (Z.leb_spec MAX_POLLS (st_polls st)).
  { do 3 eexists. split; [reflexivity|]. cbn [st_polls]. split_and!; [|lia|lia|].
    - split; [|done]. cbn. split; [done|lia].
    - by rewrite Z.sub_diag, app_nil_r. }
  rewrite run_bind, run_sse_svc. destruct (run_get_job (st_id st) w) as (r & s & ->).
  assert (w_calls (called (GetJob (st_id st)) s w) = w_calls w ++ polls_of (st_id st) 1) as Hcalls
    by done.
  destruct r as [job|e].
  - destruct (st_first st || negb (bool_decide (st_last st = Some (job_status job)))) eqn:Hch.
    + do 3 eexists. split; [reflexivity|]. cbn [st_polls].
      replace (st_polls st + 1 - st_polls st) with 1 by lia. split_and!; [|lia|lia|done].
      split; [|done]. exists (job_status job). cbn. apply orb_true_iff in Hch.
      rewrite negb_true_iff, bool_decide_eq_false in Hch. rewrite Hdone.
      split_and!; try done; [by destruct (is_terminal _)|cbn; lia].
    + rewrite run_bind, run_trigger. cbn [sse_answer].
      set (st1 := mkStreamState (st_id st) (st_last st) (st_first st) (st_done st) (st_polls st + 1)).
      destruct (IH st1 (called (GetJob (st_id st)) s w)) as (ev & st' & w' & -> & [Hev Hid] & Hp' & Hc);
        [done|cbn; lia|cbn; lia|].
      cbn in Hp', Hid. rewrite Hcalls, <- app_assoc, polls_of_add in Hc by (cbn; lia).
      exists ev, st', w'. split; [done|]. split_and!; [|lia|lia|].
      * split; [|done]. destruct ev; cbn in *; [|done|naive_solver lia].
        destruct Hev as (s' & ? & ? & ? & ? & ? & ?). exists s'. split_and!; try done. lia.
      * rewrite Hc. cbn. do 2 f_equal. lia.
  - do 3 eexists. split; [reflexivity|]. cbn [st_polls].
    replace (st_polls st + 1 - st_polls st) with 1 by lia. split_and!; [|lia|lia|done].
    split; [|done]. cbn. split; [done|lia].
Qed.

(** The statuses of a list of events, those of the stream's life so far first. *)
Fixpoint statuses_change (last : option string) (evs : list sse_event) : Prop :=
  match evs with
  | [] => True
  | EvStatus p :: rest => last ≠ Some (ev_status p) ∧ statuses_change (Some (ev_status p)) rest
  | _ :: rest => rest = []
  end.

(** The events that close the stream: a terminal status, the timeout and the
    error. *)
Definition closing (ev : sse_event) : Prop :=
  match ev with
  | EvStatus p => ∃ s, ev_status p = as_str s ∧ is_terminal s = true
  | EvTimeout | EvError => True
  end.

(** A stream is read to its end, or has [n] events that leave it open: all its
    events but the last leave it open, and the last closes it or is the [n]-th. *)
Fixpoint well_ended (n : nat) (evs : list sse_event) : Prop :=
  match n, evs with
  | O, _ => evs = []
  | Datatypes.S _, [] => False
  | Datatypes.S n', ev :: rest => (closing ev ∧ rest = []) ∨ (¬ closing ev ∧ well_ended n' rest)
  end.

Lemma well_ended_closed n evs :
  well_ended n evs → (length evs < n)%nat → ∃ evs0 ev, evs = evs0 ++ [ev] ∧ closing ev.
Proof.
  revert evs. induction n as [|n IH]; intros [|ev evs] Hw Hn; cbn in Hw, Hn; try done; [lia|].
  destruct Hw as [[Hc ->]|[_ Hw]]; [by exists [], ev|].
  destruct (IH evs Hw) as (evs0 & ev' & -> & Hc); [lia|]. by exists (ev :: evs0), ev'.
Qed.

Lemma run_sse_done n st w :
  st_done st = true → run sse_answer (sse_events n st) w = (Some [], w).
Proof. intros Hd. destruct n; [done|]. cbn [sse_events]. unfold next_event. by rewrite Hd. Qed.

Lemma event_step_closing st ev st' :
  st_done st = false → event_step st ev st' → st_done st' = true ↔ closing ev.
Proof.
  intros Hd [Hev _]. destruct ev as [p| |]; cbn; [|naive_solver..].
  destruct Hev as (s & Hs & _ & _ & _ & -> & _). split; [eauto|].
  intros (s' & Hs' & Ht). by rewrite (as_str_inj s s') by congruence.
Qed.

(** Status events change the stream's last status; nothing else goes on. *)
Lemma event_step_change st ev st' evs :
  event_step st ev st' → st_first st = bool_decide (st_last st = None) →
  (closing ev → evs = []) →
  statuses_change (as_str <$> st_last st') evs →
  statuses_change (as_str <$> st_last st) (ev :: evs).
Proof.
  intros [Hev _] Hfirst Hclose Hch. destruct ev as [p| |]; [|by apply Hclose..].
  destruct Hev as (s & Hs & Hne & Hl & _). rewrite Hl in Hch. cbn in *. rewrite Hs. split; [|done].
  destruct (st_last st) as [s0|] eqn:Hlast; [|done]. cbn. intros [= Heq%as_str_inj]. subst s0.
  rewrite Hfirst in Hne. by destruct Hne.
Qed.

Lemma run_sse_events n st w :
  st_done st = false → 0 ≤ st_polls st ≤ MAX_POLLS →
  st_first st = bool_decide (st_last st = None) →
  ∃ evs w' k, run sse_answer (sse_events n st) w = (Some evs, w') ∧
    statuses_change (as_str <$> st_last st) evs ∧ well_ended n evs ∧
    0 ≤ k ≤ MAX_POLLS - st_polls st ∧ w_calls w' = w_calls w ++ polls_of (st_id st) k ∧
    Z.of_nat (length evs) ≤ k + 1 ∧
    (EvTimeout ∈ evs → k = MAX_POLLS - st_polls st).
Proof.
  revert st w. induction n as [|n IH]; intros st w Hdone Hp Hfirst.
  { exists [], w, 0. cbn. rewrite app_nil_r. split_and!; try done; try lia. set_solver. }
  cbn [sse_events]. rewrite run_bind. unfold next_event. rewrite Hdone.
  destruct (run_poll_loop (Z.to_nat (MAX_POLLS - st_polls st) + 1) st w)
    as (ev & st' & w' & -> & Hev & Hp' & Hc); [done..|lia|].
  rewrite run_bind. pose proof (event_step_closing _ _ _ Hdone Hev) as Hclose.
  pose proof Hev as [Hev' Hid]. destruct (st_done st') eqn:Hd'.
  - assert (closing ev) as Hcl by by apply Hclose.
    exists [ev], w', (st_polls st' - st_polls st). rewrite run_sse_done by done.
    split_and!; try done; try lia; [by eapply event_step_change|by left|cbn; lia|].
    rewrite list_elem_of_singleton. intros <-. destruct Hev' as [_ Hm]. lia.
  - assert (¬ closing ev) as Hcl by (rewrite <- Hclose; congruence).
    destruct ev as [p| |]; [|by destruct Hcl..]. destruct Hev' as (s & Hs & Hne & Hl & Hf & _ & Hlt).
    destruct (IH st' w') as (evs & w'' & k & -> & Hch & Hend & Hk & Hcalls & Hle & Hto);
      [done|lia|by rewrite Hf, Hl|].
    exists (EvStatus p :: evs), w'', (st_polls st' - st_polls st + k).
    split_and!; try done; try lia; [by eapply event_step_change|by right| |cbn; lia|].
    + rewrite Hcalls, Hc, Hid, <- app_assoc, polls_of_add by lia. done.
    + rewrite elem_of_cons. intros [|Hin%Hto]; [done|lia].
Qed.

(** C36: the event stream.  For any store and any number of events asked for,
    the stream never panics; a status event always differs from the previous
    one; the stream goes on until the number of events asked for, or until it
    is closed, which a terminal status, the timeout and an error do and
    nothing else does; it does nothing to the store but poll the job, at most
    1200 times, and the timeout comes only after all 1200 polls.  So a client
    that asks for 1202 events reads the stream to a closing event. *)
Theorem sse_stream_spec id n w :
  ∃ evs w' k, run sse_answer (sse_events n (stream_start id)) w = (Some evs, w') ∧
    statuses_change None evs ∧ well_ended n evs ∧
    0 ≤ k ≤ 1200 ∧ w_calls w' = w_calls w ++ polls_of id k ∧
    Z.of_nat (length evs) ≤ k + 1 ∧ (EvTimeout ∈ evs → k = 1200) ∧
    (1202 ≤ Z.of_nat n → ∃ evs0 ev, evs = evs0 ++ [ev] ∧ closing ev).
Proof.
  destruct (run_sse_events n (stream_start id) w) as
    (evs & w' & k & Hrun & Hch & Hend & Hk & Hc & Hle & Hto);
    [done|unfold MAX_POLLS; cbn; lia|done|].
  unfold MAX_POLLS in *. cbn [st_polls stream_start] in *.
  exists evs, w', k. split_and!; try done; try lia.
  intros Hn. apply (well_ended_closed n); [done|lia].
Qed.

End backend.

End sse.
