(* ===== verification/Streams.v ===== *)
(** * The event stream of a job, through the router

    [GET /api/v1/jobs/{id}/events] answers with a stream that is polled
    afterwards, while other clients use the store.  What a client that opens
    the stream of a finished job receives, from the laws of [StoreLaws]. *)

From S2P Require Import Prelude Prog Externals RustStr Status Error Model Float64 Store Telemetry.
From S2P Require Import Invariant Concurrency StoreLaws QueueService Handlers Worker Api Clients.
From S2P Require Import Router Http Sse.
From stdpp Require Import options.

Section streams.
Context `{X : Externals} `{Ax : !Axum} `{Laws : !AxumLaws}.
Context {S : Type} (backend : ∀ A, StoreE A → S → A * S) `{L : !LawfulStore backend}.
Context (new_v4 : nat → Uuid) (encoded : list metric_op → result string string).

(** What the stream says of a job. *)
Definition job_event (j : Job) : JobEvent :=
  mkJobEvent (job_id j) (as_str (job_status j)) (job_attempts j) (job_last_error j).

Lemma finished_terminal s : finished s → is_terminal s = true.
Proof. by intros [-> | ->]. Qed.

(** The first poll decides. *)
Lemma run_first_poll id j w :
  sound (w_store w) → stored (w_store w) id = Some j → finished (job_status j) →
  ∃ ev st w', run (sse_answer backend) (next_event (stream_start id)) w = (Some (Some (ev, st)), w') ∧
    st_done st = true ∧ (ev = EvStatus (job_event j) ∨ ev = EvError).
Proof.
  intros Hs Hj Hf. unfold next_event. cbn [st_done stream_start].
  replace (Z.to_nat (MAX_POLLS - st_polls (stream_start id)) + 1)%nat with (Datatypes.S 1200) by done.
  generalize 1200%nat. intros fuel. cbn [poll_loop]. change (MAX_POLLS <=? st_polls (stream_start id)) with false. cbv iota.
  rewrite run_bind, run_sse_svc. cbn [st_id stream_start].
  unfold get_job. rewrite run_bind_ok. unfold call. rewrite run_trigger. cbn [svc_answer].
  pose proof (law_finished _ (GetJob id) _ id j I (λ H, H) Hs Hj Hf) as Hj'.
  destruct (backend _ (GetJob id) (w_store w)) as [[o|e] s'] eqn:Hb; cbn [fst snd] in *.
  - rewrite (law_get _ _ _ _ Hs Hb) in Hj'. subst o. cbn [run ok_or].
    do 3 eexists. split; [reflexivity|]. split; [|by left].
    cbn. by rewrite finished_terminal.
  - do 3 eexists. split; [reflexivity|]. split; [done|by right].
Qed.

(** The stream of a finished job: its final status, once, or the lookup's
    failure. *)
Lemma run_finished_stream id j n w :
  sound (w_store w) → stored (w_store w) id = Some j → finished (job_status j) →
  ∃ ev, (run (sse_answer backend) (sse_events (Datatypes.S n) (stream_start id)) w).1 = Some [ev] ∧
    (ev = EvStatus (job_event j) ∨ ev = EvError).
Proof.
  intros Hs Hj Hf. destruct (run_first_poll id j w Hs Hj Hf) as (ev & st & w' & Hrun & Hd & Hev).
  exists ev. split; [|done]. cbn [sse_events]. rewrite run_bind, Hrun, run_bind.
  by rewrite run_sse_done.
Qed.

Lemma run_events_route req id w n :
  rq_method req = GET → rq_path req = ("/api/v1/jobs/" ++ uuid_to_string id ++ "/events")%string →
  run (http_answer backend new_v4 encoded) (route req) (w, n) =
    (Some (mkHttpResponse 200 ∅ (AEvents id)), (w, n)).
Proof using Laws.
  intros Hm Hp. rewrite (route_to EpJobEvents (uuid_to_string id)) by (done || apply uuid_is_segment).
  change (handle EpJobEvents _ req) with
    (extracting (path_uuid (uuid_to_string id))
       (λ id, Ret (mkHttpResponse 200 ∅ (AEvents id)) : prog HttpE HttpResponse)).
  by rewrite path_uuid_display.
Qed.

(** C24: results are streamed.  On any lawful store: when the worker's report
    of a success was accepted, then whatever other clients do after it, short
    of a purge, [GET /api/v1/jobs/{id}/events] answers 200 with the stream of
    that job, at no cost to the store; and whenever that stream is read (other
    calls may come between again), it sends exactly one event and closes: the
    status [completed] of that job, or an error event when the lookup failed. *)
Theorem result_streamed job worker_id res dur w updated w' before max req n between k :
  sound (w_store w) →
  run (svc_answer backend) (report_outcome job worker_id (Success res) dur) w =
    (Some (Ok updated), w') →
  Forall harmless before →
  rq_method req = GET →
  rq_path req = ("/api/v1/jobs/" ++ uuid_to_string (job_id job) ++ "/events")%string →
  body_limit max (rq_headers req) = None →
  Forall harmless between →
  ∃ got, run (http_answer backend new_v4 encoded) (build_router max req)
           (meanwhile backend before w', n) =
           (Some got, (meanwhile backend before w', drawn req n)) ∧
    rs_code got = 200 ∧ rs_answer got = AEvents (job_id job) ∧
    ∃ ev, (run (sse_answer backend) (sse_events (Datatypes.S k) (stream_start (job_id job)))
             (meanwhile backend between (meanwhile backend before w'))).1 = Some [ev] ∧
      (ev = EvError ∨
       ev = EvStatus (mkJobEvent (job_id updated) "completed" (job_attempts updated)
                        (job_last_error updated))).
Proof using Laws.
  intros Hs Hrun Hb Hm Hp Hl Hc.
  pose proof (run_report_outcome backend job worker_id (Success res) dur w) as Hr.
  cbn [outcome_call] in Hr. cbv zeta in Hr.
  destruct (backend _ (CompleteJob (job_id job) worker_id res) (w_store w)) as [answer s1] eqn:Hcall.
  rewrite Hrun in Hr. simplify_eq.
  destruct (law_complete _ _ _ _ _ _ Hs Hcall) as (Hst & Hcomp & _).
  pose proof (law_sound _ (CompleteJob (job_id job) worker_id res) _ I Hs) as Hs1.
  rewrite Hcall in Hs1. cbn in Hs1.
  match goal with |- context [meanwhile backend before ?w0] => set (w1 := meanwhile backend before w0) end.
  assert (finished (job_status updated)) as Hf by by left.
  assert (sound (w_store w1)) as Hs2 by (by apply after_sound).
  assert (stored (w_store w1) (job_id job) = Some updated) as Hst2 by (by apply after_finished).
  eexists. split.
  { rewrite run_build_router, (run_events_route req (job_id job)) by done. reflexivity. }
  split; [done|]. split; [done|].
  destruct (run_finished_stream (job_id job) updated k (meanwhile backend between w1))
    as (ev & Hev & Hwhich); [by apply after_sound|by apply after_finished|done|].
  exists ev. split; [done|]. unfold job_event in Hwhich. rewrite Hcomp in Hwhich.
  destruct Hwhich; [by right|by left].
Qed.

End streams.
