(* ===== verification/IntegrationTests.v ===== *)
(** * The integration tests of the source

    The tests of [crates/integration-tests] as programs over the service, the
    store and the test harness, and runs of them on [PgStore] from an empty
    database: with one clock and one schedule of the spawned tasks, each test
    passes.  (What the tests check of one run, the theorems of the other files
    say of every run.) *)

From S2P Require Import Prelude Prog Externals RustStr Status Error Model Float64 Backoff.
From S2P Require Import Sql Statements Store PgStore Telemetry.
From S2P Require Import QueueService Maintenance Handlers WorkerConfig Worker EndToEnd UnitTests.
From S2P Require Import Binaries.
From stdpp Require Import options.

Section tests.
Context `{X : Externals}.
(** Of [serde_json] and [uuid]: strings and [true] as values, the test for
    [true], and the simple form of an id. *)
Context (json_string : string → Json) (json_true : Json) (is_json_true : Json → bool).
Context (uuid_simple : Uuid → string).

(** ** The harness *)

Inductive TestE : Type → Type :=
| HasDatabase : TestE bool                        (* ctx().await.is_some() *)
| TestService {A} (e : SvcE A) : TestE A          (* tc.service, tc.store *)
| TestUuid : TestE Uuid                           (* Uuid::new_v4() *)
| TestNow : TestE Timestamp                       (* Utc::now() *)
| TestSleep (d : Duration) : TestE unit
| SpawnRuntime (config : WorkerConfig) : TestE unit
| Shutdown : TestE (result unit unit)             (* cancel; timeout(.., handle).await *)
| JoinAll (tasks : list (prog SvcE (list Uuid))) : TestE (list (list Uuid)).

Definition on_service {A} (p : prog SvcE A) : prog TestE A :=
  interp (λ A (e : SvcE A), trigger (TestService e)) p.

(** [assert!(b)] *)
Definition assert (b : bool) : prog TestE unit := if b then Ret tt else Panic.

(** [.await.unwrap()] *)
Definition unwrap {Er A} (p : prog SvcE (result Er A)) : prog TestE A :=
  r ← on_service p; match r with Ok a => Ret a | Err _ => Panic end.

(** [.await.unwrap_err()] *)
Definition unwrap_err {Er A} (p : prog SvcE (result Er A)) : prog TestE Er :=
  r ← on_service p; match r with Ok _ => Panic | Err e => Ret e end.

(** [.unwrap()] of an option. *)
Definition unwrap_some {A} (o : option A) : prog TestE A :=
  match o with Some a => Ret a | None => Panic end.

(** [let Some(tc) = ctx().await else { return };] *)
Definition with_ctx (p : prog TestE unit) : prog TestE unit :=
  b ← trigger HasDatabase; match b with true => p | false => Ret tt end.

(** [ctx] itself: no database URL skips the test, a database that does not
    answer or migrate fails it. *)
Definition ctx (env : environment) : prog MainE bool :=
  match match env "TEST_DATABASE_URL"%string with
        | Some url => Some url
        | None => env "DATABASE_URL"%string
        end with
  | None => Ret false
  | Some url =>
      store ← connect url 16;
      match store with
      | Err _ => Panic
      | Ok _ => migrated ← migrate; match migrated with Err _ => Panic | Ok _ => Ret true end
      end
  end.

(** A test is skipped without a URL, and only then. *)
Lemma ctx_outcome answers env :
  let calls url := [MainCall (PoolConnect 16 10 url); MainCall RunMigrations] in
  run (main_answer answers) (ctx env) [] =
    match match env "TEST_DATABASE_URL"%string with
          | Some url => Some url
          | None => env "DATABASE_URL"%string
          end with
    | None => (Some false, [])
    | Some url => (if all_succeed answers (calls url) then Some true else None,
                   until_failure answers 0 (calls url))
    end.
Proof.
  intros calls. unfold ctx. destruct (match env "TEST_DATABASE_URL"%string with Some _ => _ | _ => _ end)
    as [url|]; [|done]. unfold all_succeed, calls. cbn.
  destruct (answers _ 0%nat _) as [[]|]; cbn; [|done]. by destruct (answers _ 1%nat _) as [[]|].
Qed.

Definition unique_queue : prog TestE string :=
  id ← trigger TestUuid; Ret ("test_" ++ uuid_simple id)%string.

Definition new_job (queue job_type : string) (payload : Json) : NewJob := {|
  new_queue := queue; new_job_type := job_type; new_payload := payload; new_priority := 0;
  new_idempotency_key := None; new_max_attempts := None; new_delay_secs := None;
  new_run_at := None; new_timeout_secs := None; new_backoff_base_secs := None;
  new_backoff_max_secs := None; new_dead_letter := None; new_metadata := json_object [];
  new_correlation_id := None |}.

Definition empty : Json := json_object [].
Definition filter_queue (q : string) : JobFilter := mkJobFilter (Some q) None None None None.

(** [tc.store.lease_next(worker, slice::from_ref(&q), secs)] *)
Definition lease (worker : Uuid) (q : string) (secs : Z) : prog SvcE (Result (option Job)) :=
  call (LeaseNext worker [q] secs).

Definition field_is (j : Json) (k s : string) : bool :=
  assert_eq (json_get j k ≫= json_as_str) (Some s).

Definition is_none {A} (o : option A) : bool := match o with None => true | Some _ => false end.
Definition is_some {A} (o : option A) : bool := negb (is_none o).

(** ** lifecycle.rs *)

Definition submit_get_and_list : prog TestE unit := with_ctx (
  q ← unique_queue;
  sub ← unwrap (submit (new_job q "echo" (json_object [("hello", json_string "world")]%string)));
  _ ← assert (sub_created sub);
  _ ← assert (assert_eq (job_status (sub_job sub)) Queued);
  fetched ← unwrap (get_job (job_id (sub_job sub)));
  _ ← assert (assert_eq (job_id fetched) (job_id (sub_job sub)));
  _ ← assert (field_is (job_payload fetched) "hello" "world");
  jobs ← unwrap (list_jobs (filter_queue q));
  assert (assert_eq (length jobs) 1%nat)).

Definition idempotency_key_returns_same_job : prog TestE unit := with_ctx (
  q ← unique_queue;
  let job := (new_job q "echo" (json_object [("n", json_of_int 1)]%string))
    <| new_idempotency_key := Some "order-42"%string |> in
  first ← unwrap (submit job);
  _ ← assert (sub_created first);
  second ← unwrap (submit job);
  _ ← assert (negb (sub_created second));
  _ ← assert (assert_eq (job_id (sub_job first)) (job_id (sub_job second)));
  jobs ← unwrap (list_jobs (filter_queue q));
  assert (assert_eq (length jobs) 1%nat)).

(** The value of the last [matches!] is not asserted. *)
Definition cancel_queued_job_then_reject_recancel : prog TestE unit := with_ctx (
  q ← unique_queue;
  sub ← unwrap (submit (new_job q "echo" empty));
  cancelled ← unwrap (cancel_job (job_id (sub_job sub)));
  _ ← assert (assert_eq (job_status cancelled) Status.Cancelled);
  _ ← unwrap_err (cancel_job (job_id (sub_job sub)));
  Ret tt).

Definition delayed_job_is_scheduled_and_not_leaseable : prog TestE unit := with_ctx (
  q ← unique_queue;
  sub ← unwrap (submit ((new_job q "echo" empty) <| new_delay_secs := Some 3600 |>));
  _ ← assert (assert_eq (job_status (sub_job sub)) Scheduled);
  worker ← trigger TestUuid;
  leased ← unwrap (lease worker q 30);
  assert (is_none leased)).

Definition higher_priority_is_leased_first : prog TestE unit := with_ctx (
  q ← unique_queue;
  let low := (new_job q "echo" (json_object [("p", json_string "low")]%string))
    <| new_priority := 0 |> in
  let high := (new_job q "echo" (json_object [("p", json_string "high")]%string))
    <| new_priority := 100 |> in
  low_sub ← unwrap (submit low);
  _ ← unwrap (submit high);
  worker ← trigger TestUuid;
  found ← unwrap (lease worker q 30);
  leased ← unwrap_some found;
  _ ← assert (field_is (job_payload leased) "p" "high");
  assert (negb (assert_eq (job_id leased) (job_id (sub_job low_sub))))).

Definition paused_queue_yields_no_work : prog TestE unit := with_ctx (
  q ← unique_queue;
  _ ← unwrap (submit (new_job q "echo" empty));
  _ ← unwrap (set_queue_paused q true);
  worker ← trigger TestUuid;
  none ← unwrap (lease worker q 30);
  _ ← assert (is_none none);
  _ ← unwrap (set_queue_paused q false);
  some ← unwrap (lease worker q 30);
  assert (is_some some)).

(** ** reliability.rs *)

Definition one_attempt (attempts : list JobAttempt) (status : string) : prog TestE unit :=
  _ ← assert (assert_eq (length attempts) 1%nat);
  first ← unwrap_some (head attempts);
  assert (String.eqb (att_status first) status).

Definition lease_then_complete_transitions : prog TestE unit := with_ctx (
  q ← unique_queue;
  sub ← unwrap (submit (new_job q "echo" empty));
  worker ← trigger TestUuid;
  found ← unwrap (lease worker q 30);
  leased ← unwrap_some found;
  _ ← assert (assert_eq (job_status leased) Processing);
  _ ← assert (assert_eq (job_attempts leased) 1);
  _ ← assert (assert_eq (job_locked_by leased) (Some worker));
  done ← unwrap (call (CompleteJob (job_id leased) worker
                         (Some (json_object [("ok"%string, json_true)]))));
  _ ← assert (assert_eq (job_status done) Completed);
  res ← unwrap_some (job_result done);
  _ ← assert (match json_get res "ok" with Some j => is_json_true j | None => false end);
  again ← unwrap (lease worker q 30);
  _ ← assert (is_none again);
  attempts ← unwrap (list_attempts (job_id (sub_job sub)));
  one_attempt attempts "succeeded").

Definition failure_schedules_retry_with_backoff : prog TestE unit := with_ctx (
  q ← unique_queue;
  sub ← unwrap (submit ((new_job q "fail" empty) <| new_max_attempts := Some 3 |>
                          <| new_backoff_base_secs := Some 60 |>));
  worker ← trigger TestUuid;
  found ← unwrap (lease worker q 30);
  leased ← unwrap_some found;
  failed ← unwrap (call (FailJob (job_id leased) worker "boom" false));
  _ ← assert (assert_eq (job_status failed) Retrying);
  _ ← assert (job_run_at (sub_job sub) <? job_run_at failed);
  again ← unwrap (lease worker q 30);
  _ ← assert (is_none again);
  attempts ← unwrap (list_attempts (job_id (sub_job sub)));
  one_attempt attempts "failed").

Definition exhausted_attempts_dead_letter : prog TestE unit := with_ctx (
  q ← unique_queue;
  sub ← unwrap (submit ((new_job q "fail" empty) <| new_max_attempts := Some 1 |>));
  worker ← trigger TestUuid;
  found ← unwrap (lease worker q 30);
  leased ← unwrap_some found;
  dead ← unwrap (call (FailJob (job_id leased) worker "fatal" false));
  _ ← assert (assert_eq (job_status dead) DeadLettered);
  dlq ← unwrap (list_dead_letter (Some q) 50);
  _ ← assert (assert_eq (length dlq) 1%nat);
  entry ← unwrap_some (head dlq);
  _ ← assert (assert_eq (dl_id entry) (job_id (sub_job sub)));
  retried ← unwrap (retry_job (job_id (sub_job sub)));
  _ ← assert (assert_eq (job_status retried) Queued);
  _ ← assert (assert_eq (job_attempts retried) 0);
  rest ← unwrap (list_dead_letter (Some q) 50);
  assert (is_none (head rest))).

Definition exhausted_without_dlq_becomes_failed : prog TestE unit := with_ctx (
  q ← unique_queue;
  sub ← unwrap (submit ((new_job q "fail" empty) <| new_max_attempts := Some 1 |>
                          <| new_dead_letter := Some false |>));
  worker ← trigger TestUuid;
  found ← unwrap (lease worker q 30);
  leased ← unwrap_some found;
  failed ← unwrap (call (FailJob (job_id leased) worker "fatal" false));
  _ ← assert (assert_eq (job_status failed) Failed);
  dlq ← unwrap (list_dead_letter (Some q) 50);
  _ ← assert (is_none (head dlq));
  retried ← unwrap (retry_job (job_id (sub_job sub)));
  assert (assert_eq (job_status retried) Queued)).

Definition expired_lease_is_recovered : prog TestE unit := with_ctx (
  q ← unique_queue;
  sub ← unwrap (submit ((new_job q "echo" empty) <| new_max_attempts := Some 5 |>));
  worker ← trigger TestUuid;
  found ← unwrap (lease worker q 0);
  leased ← unwrap_some found;
  _ ← assert (assert_eq (job_status leased) Processing);
  _ ← trigger (TestSleep (from_millis 150));
  recovered ← unwrap (call (RecoverExpiredLeases 100));
  _ ← assert (bool_decide (job_id (sub_job sub) ∈ recovered));
  after ← unwrap (get_job (job_id (sub_job sub)));
  _ ← assert (assert_eq (job_status after) Retrying);
  assert (is_none (job_locked_by after))).

(** ** concurrency.rs *)

(** [for i in 0..n { submit(...) }] *)
Fixpoint submit_many (q : string) (i n : nat) : prog TestE unit :=
  match n with
  | O => Ret tt
  | S n' =>
      _ ← unwrap (submit (new_job q "echo" (json_object [("i"%string, json_of_int (Z.of_nat i))])));
      submit_many q (S i) n'
  end.

(** [while let Some(job) = lease_next(...) { count; complete_job(...) }]: the
    ids it leased.  Running out of fuel is a panic. *)
Fixpoint lease_loop (fuel : nat) (worker : Uuid) (q : string) : prog SvcE (list Uuid) :=
  match fuel with
  | O => Panic
  | S fuel' =>
      found ← lease worker q 30;
      match found with
      | Err _ => Panic
      | Ok None => Ret []
      | Ok (Some job) =>
          r ← call (CompleteJob (job_id job) worker None);
          match r with
          | Err _ => Panic
          | Ok _ => rest ← lease_loop fuel' worker q; Ret (job_id job :: rest)
          end
      end
  end.

Fixpoint draw_uuids (n : nat) : prog TestE (list Uuid) :=
  match n with
  | O => Ret []
  | S n' => u ← trigger TestUuid; us ← draw_uuids n'; Ret (u :: us)
  end.

(** The counts of the shared map. *)
Definition lease_counts (ids : list Uuid) : gmap Uuid nat :=
  foldl (λ m id, partial_alter (λ c, Some (match c with Some n => S n | None => 1%nat end)) id m) ∅ ids.

Definition JOBS : nat := 60.
Definition WORKERS : nat := 8.

Definition concurrent_workers_do_not_double_process : prog TestE unit := with_ctx (
  q ← unique_queue;
  _ ← submit_many q 0 JOBS;
  workers ← draw_uuids WORKERS;
  leased ← trigger (JoinAll ((λ w, lease_loop (S JOBS) w q) <$> workers));
  let counts := lease_counts (concat leased) in
  _ ← assert (assert_eq (size counts) JOBS);
  _ ← assert (forallb (λ ic, assert_eq ic.2 1%nat) (map_to_list counts));
  stats ← unwrap (queue_stats q);
  assert (assert_eq (qs_completed stats) (Z.of_nat JOBS))).

(** ** workers.rs *)

Definition register_heartbeat_and_missing_worker : prog TestE unit := with_ctx (
  q ← unique_queue;
  id ← trigger TestUuid;
  now ← trigger TestNow;
  let worker := {| worker_id := id; worker_hostname := "test-host"; worker_queues := [q];
                   worker_concurrency := 4; worker_registered_at := now;
                   worker_last_heartbeat := now |} in
  _ ← unwrap (call (RegisterWorker worker));
  known ← unwrap (call (Heartbeat id));
  _ ← assert known;
  other ← trigger TestUuid;
  unknown ← unwrap (call (Heartbeat other));
  _ ← assert (negb unknown);
  active ← unwrap (call (ListActiveWorkers 60));
  _ ← assert (existsb (λ w, assert_eq (worker_id w) id) active);
  pruned ← unwrap (call (PruneDeadWorkers 3600));
  _ ← assert (assert_eq pruned 0);
  _ ← unwrap (call (DeregisterWorker id));
  gone ← unwrap (call (Heartbeat id));
  assert (negb gone)).

(** The configuration of a test's runtime. *)
Definition test_config (id : Uuid) (hostname q : string) (concurrency : Z) : WorkerConfig := {|
  wc_id := id; wc_hostname := hostname; wc_queues := [q]; wc_concurrency := concurrency;
  wc_lease_secs := 30; wc_poll_interval := from_millis 50; wc_heartbeat_interval := from_secs 5;
  wc_shutdown_grace := from_secs 10 |}.

(** [for _ in 0..n { if the queue has N completed { break } sleep }]: the last
    count. *)
Fixpoint await_completed (q : string) (N : Z) (completed : Z) (n : nat) : prog TestE Z :=
  match n with
  | O => Ret completed
  | S n' =>
      stats ← unwrap (queue_stats q);
      let completed := qs_completed stats in
      if N <=? completed then Ret completed
      else _ ← trigger (TestSleep (from_millis 50)); await_completed q N completed n'
  end.

Definition runtime_processes_jobs_and_shuts_down : prog TestE unit := with_ctx (
  q ← unique_queue;
  _ ← submit_many q 0 20;
  id ← trigger TestUuid;
  _ ← trigger (SpawnRuntime (test_config id "itest" q 4));
  completed ← await_completed q 20 0 200;
  _ ← assert (assert_eq completed 20);
  r ← trigger Shutdown;
  _ ← assert (match r with Ok _ => true | Err _ => false end);
  active ← unwrap (call (ListActiveWorkers 60));
  assert (forallb (λ w, negb (String.eqb (worker_hostname w) "itest")) active)).

(** [for _ in 0..n { if the job is completed { break } sleep }] *)
Fixpoint await_job (id : Uuid) (n : nat) : prog TestE (option Job) :=
  match n with
  | O => Ret None
  | S n' =>
      job ← unwrap (get_job id);
      if assert_eq (job_status job) Completed then Ret (Some job)
      else _ ← trigger (TestSleep (from_millis 100)); await_job id n'
  end.

Definition flaky_job_eventually_succeeds_via_retries : prog TestE unit := with_ctx (
  q ← unique_queue;
  sub ← unwrap (submit ((new_job q "flaky" (json_object [("fail_until"%string, json_of_int 3)]))
                          <| new_max_attempts := Some 5 |> <| new_backoff_base_secs := Some 1 |>
                          <| new_backoff_max_secs := Some 2 |>));
  id ← trigger TestUuid;
  _ ← trigger (SpawnRuntime (test_config id "itest-flaky" q 2));
  final_status ← await_job (job_id (sub_job sub)) 120;
  _ ← trigger Shutdown;
  job ← unwrap_some final_status;
  _ ← assert (assert_eq (job_status job) Completed);
  assert (3 <=? job_attempts job)).

(** ** Running a test

    The clock moves by a tenth of a second at each call of the store.  The
    leasing tasks take turns, one request each; while the test sleeps each
    runtime it spawned takes one turn and sends one heartbeat. *)

Record TestState := mkTestState {
  ts_world : World (S := nat * Db);
  ts_uuids : N;
  ts_runtimes : list WorkerConfig;
}.

Definition test_env (k i : nat) : Env := {|
  env_now := Z.of_nat k * 100000; env_locked := ∅; env_pos := λ _, 0; env_collate := λ _, 0;
  env_uuid := N.of_nat (1000 + k); env_fault := NoFault |}.

Definition test_backend : ∀ A, StoreE A → nat * Db → A * (nat * Db) := pg_backend test_env.

Definition timed_now (d : Duration) (p : prog HandlerE HandlerResult) : timed_result :=
  match handler_value p with Some r => Finished r | None => HandlerPanicked end.

Definition runtime_turn (config : WorkerConfig) (w : World (S := nat * Db)) : World (S := nat * Db) :=
  let w := (run (worker_answer test_backend timed_now (S754_zero false))
              (worker_round (with_examples registry_new) (wc_id config) (wc_queues config)
                 (wc_lease_secs config)) w).2 in
  (run (svc_answer test_backend) (heartbeat_tick (worker_of_config config 0)) w).2.

Definition svc_alone {A} (p : prog SvcE A) (w : World (S := nat * Db)) : World (S := nat * Db) :=
  (run (svc_answer test_backend) p w).2.

(** Turn by turn, one request of each task; a task that panics answers
    nothing. *)
Fixpoint take_turns (fuel : nat) (tasks : list (prog SvcE (list Uuid)))
    (w : World (S := nat * Db)) : list (list Uuid) * World (S := nat * Db) :=
  match fuel, tasks with
  | S fuel', Ret ids :: rest =>
      let '(done, w') := take_turns fuel' rest w in (ids :: done, w')
  | S fuel', Vis e k :: rest =>
      let '(a, w') := svc_answer test_backend _ e w in take_turns fuel' (rest ++ [k a]) w'
  | S fuel', Panic :: rest => take_turns fuel' rest w
  | _, _ => ([], w)
  end.

Definition test_answer (A : Type) (e : TestE A) (s : TestState) : A * TestState :=
  match e in TestE A return A * TestState with
  | HasDatabase => (true, s)
  | TestService e =>
      let '(a, w) := svc_answer test_backend _ e (ts_world s) in
      (a, mkTestState w (ts_uuids s) (ts_runtimes s))
  | TestUuid => (ts_uuids s, mkTestState (ts_world s) (ts_uuids s + 1) (ts_runtimes s))
  | TestNow => (0, s)
  | TestSleep d =>
      let '(k, db) := w_store (ts_world s) in
      let w := (ts_world s) <| w_store := (k + 2, db)%nat |> in
      (tt, mkTestState (foldl (λ w c, runtime_turn c w) w (ts_runtimes s)) (ts_uuids s)
             (ts_runtimes s))
  | SpawnRuntime config =>
      (tt, mkTestState (svc_alone (call (RegisterWorker (worker_of_config config 0))) (ts_world s))
             (ts_uuids s) (config :: ts_runtimes s))
  | Shutdown =>
      (Ok tt, mkTestState
         (foldl (λ w c, svc_alone (call (DeregisterWorker (wc_id c))) w) (ts_world s)
            (ts_runtimes s)) (ts_uuids s) [])
  | JoinAll tasks =>
      let '(done, w) := take_turns 2000 tasks (ts_world s) in
      (done, mkTestState w (ts_uuids s) (ts_runtimes s))
  end.

Definition test_start : TestState :=
  mkTestState (mkWorld (0%nat, empty_db) (λ _, 0) 0 [] []) 1 [].

(** The test returns, having asserted all it asserts. *)
Definition passes (test : prog TestE unit) : bool :=
  match (run test_answer test test_start).1 with Some _ => true | None => false end.

End tests.

(** ** They pass *)

#[local] Existing Instance demo_externals.

Definition demo_true : demo_json := DInt 1.
Definition is_demo_true (j : demo_json) : bool := match j with DInt 1 => true | _ => false end.

Example lifecycle_tests_pass :
  forallb passes
    [submit_get_and_list DStr demo_uuid_text; idempotency_key_returns_same_job demo_uuid_text;
     cancel_queued_job_then_reject_recancel demo_uuid_text;
     delayed_job_is_scheduled_and_not_leaseable demo_uuid_text;
     higher_priority_is_leased_first DStr demo_uuid_text;
     paused_queue_yields_no_work demo_uuid_text] = true.
Proof. by vm_compute. Qed.

Example reliability_tests_pass :
  forallb passes
    [lease_then_complete_transitions demo_true is_demo_true demo_uuid_text;
     failure_schedules_retry_with_backoff demo_uuid_text;
     exhausted_attempts_dead_letter demo_uuid_text;
     exhausted_without_dlq_becomes_failed demo_uuid_text;
     expired_lease_is_recovered demo_uuid_text] = true.
Proof. by vm_compute. Qed.

Example concurrency_test_passes :
  passes (concurrent_workers_do_not_double_process demo_uuid_text) = true.
Proof. by vm_compute. Qed.

Example workers_tests_pass :
  forallb passes
    [register_heartbeat_and_missing_worker demo_uuid_text;
     runtime_processes_jobs_and_shuts_down demo_uuid_text;
     flaky_job_eventually_succeeds_via_retries demo_uuid_text] = true.
Proof. by vm_compute. Qed.
