(* ===== verification/Witnesses.v ===== *)
(** * The theorems at concrete inputs

    Each theorem with hypotheses, applied to a small concrete database: one
    queue [q] and one job, in a given status, whose lease (if it has one) is
    worker 7's and expired long ago. *)

From S2P Require Import Prelude Prog Externals Status Error Model Row Float64 Backoff.
From S2P Require Import Sql Statements Store PgStore Lifecycle Invariant Integrity StoreProps.
From S2P Require Import Faults Submission Reaper Concurrency Leases Liveness Schema Races Transitions Telemetry QueueService Maintenance.
From S2P Require Import StoreLaws PgLaws Handlers WorkerConfig Worker EndToEnd Runtime Api Clients.
From S2P Require Import RustStr Router Http Sse Streams.
From Stdlib Require Import Ascii DecimalString DecimalN.
From stdpp Require Import options.

#[local] Existing Instance demo_externals.

Definition wdb (s : JobStatus) (a : Z) : Db := row_db (sample_row s a true).

Lemma wdb_ok s a : row_ok s (sample_row s a true) → db_ok (wdb s a).
Proof. by apply row_db_ok. Qed.

Lemma queued_ok : db_ok (wdb Queued 0).
Proof. by apply wdb_ok, sample_row_ok. Qed.
Lemma processing_ok : db_ok (wdb Processing 1).
Proof. by apply wdb_ok, sample_row_ok. Qed.
Lemma completed_ok : db_ok (wdb Completed 1).
Proof. by apply wdb_ok, sample_row_ok. Qed.

Definition wes : nat → Env := λ _, at_second 10.
Lemma wes_quiet : quiet wes.
Proof. done. Qed.

(** A submission under the key [k]. *)
Definition keyed_request : NewJob := demo_request <| new_idempotency_key := Some "k"%string |>.
Definition keyed_job : NormalizedJob := normal_form keyed_request 0 0.

Lemma keyed_job_ok : submittable keyed_job.
Proof. split; [by apply normal_form_normal|]. done. Qed.

Lemma wdb_row s a : db_jobs (wdb s a) !! 0%N = Some (sample_row s a true).
Proof. apply lookup_singleton_eq. Qed.

Lemma wdb_row_inv s a id r :
  db_jobs (wdb s a) !! id = Some r → r = sample_row s a true.
Proof. cbn. by intros [_ <-]%lookup_singleton_Some. Qed.

(** ** Integrity and concurrency *)

Lemma interleavings_keep_db_ok_witness :
  db_ok (replay [Event (QCancel 0%N) (at_second 3)] (wdb Queued 0)).
Proof.
  apply (interleavings_keep_db_ok (wdb Queued 0) [Thread (trigger (QCancel 0%N))]
    [Event (QCancel 0%N) (at_second 3)] _
    [Thread (Ret (exec (QCancel 0%N) (at_second 3) (wdb Queued 0)).1)]).
  - apply queued_ok.
  - by repeat constructor.
  - eapply Concurrency.run_event; [|apply run_done].
    apply (sys_request (wdb Queued 0) [] [] _ _ (QCancel 0%N) Ret (at_second 3)).
Defined.

Lemma exec_refines_lifecycle_witness :
  jobs_step (QCancel 0%N) (3 * second) (db_jobs (wdb Queued 0))
    (db_jobs (exec (QCancel 0%N) (at_second 3) (wdb Queued 0)).2).
Proof.
  apply (exec_refines_lifecycle (QCancel 0%N) (at_second 3) (wdb Queued 0)).
  apply queued_ok.
Defined.

Lemma attempt_history_witness :
  attempts_step (3 * second) (wdb Queued 0)
    (exec (TLease 8%N ["q"%string] 30) (at_second 3) (wdb Queued 0)).2.
Proof.
  apply (attempt_history (TLease 8%N ["q"%string] 30) (at_second 3) (wdb Queued 0)).
  apply queued_ok.
Defined.

Lemma lease_fencing_witness :
  ∃ r', db_jobs (exec (TComplete 0%N 8%N None) (at_second 3) (wdb Processing 1)).2 !! 0%N = Some r' ∧
    holds_lease 7%N r' = true.
Proof.
  destruct (lease_fencing (TComplete 0%N 8%N None) (at_second 3) (wdb Processing 1) 0%N 7%N
    (sample_row Processing 1 true)) as (r' & Hr' & [[Hh _]|(_ & _ & [_ Hw])]).
  - apply processing_ok.
  - apply wdb_row.
  - reflexivity.
  - exists r'. split; [exact Hr'|exact Hh].
  - discriminate Hw.
Defined.


Lemma attempt_budget_witness :
  leases_granted 0%N [Event (TLease 8%N ["q"%string] 30) (at_second 3)] (wdb Queued 0) ≤ 2.
Proof.
  destruct (attempt_budget [Event (TLease 8%N ["q"%string] 30) (at_second 3)] (wdb Queued 0) 0%N
    (sample_row Queued 0 true)) as (r' & _ & _ & _ & [_ Hle]).
  - apply queued_ok.
  - by repeat constructor.
  - apply wdb_row.
  - constructor; [by intros []|constructor].
  - exact Hle.
Defined.

Lemma finished_jobs_frozen_witness :
  db_jobs (replay [Event (TFail 0%N 7%N "late" false) (at_second 3)] (wdb Completed 1)) !! 0%N =
    Some (sample_row Completed 1 true).
Proof.
  apply (finished_jobs_frozen [Event (TFail 0%N 7%N "late" false) (at_second 3)]).
  - apply completed_ok.
  - by repeat constructor.
  - apply wdb_row.
  - by left.
  - constructor; [by intros []|constructor].
Defined.

Lemma submit_idempotent_witness :
  ∃ sub job,
    (run_db wes (PgStore.submit keyed_job) empty_db).1 = Some (Ok sub) ∧ sub_created sub = true ∧
    (run_db wes (PgStore.submit keyed_job) (run_db wes (PgStore.submit keyed_job) empty_db).2).1 =
      Some (Ok (mkSubmission job false)) ∧ job_id job = job_id (sub_job sub).
Proof.
  destruct (run_submit wes empty_db keyed_job wes_quiet empty_db_ok keyed_job_ok) as [_ Hnew].
  pose proof (Hnew ltac:(intros key id r _ Hr; discriminate Hr) eq_refl) as Hrun.
  destruct (submit_idempotent wes empty_db keyed_job _ [] wes keyed_job "k"%string
    empty_db_ok wes_quiet keyed_job_ok eq_refl (λ _, eq_refl) (f_equal fst Hrun)
    (Forall_nil_2 _) (Forall_nil_2 _) wes_quiet keyed_job_ok eq_refl eq_refl)
    as (job & Hjob & Hid & _).
  eexists _, job. split; [exact (f_equal fst Hrun)|]. split; [reflexivity|].
  split; [exact Hjob|exact Hid].
Defined.

Lemma pg_store_never_panics_witness :
  (run_db wes (pg_store (FailJob 0%N 7%N "boom" false)) (wdb Processing 1)).1 ≠ None.
Proof. apply (pg_store_never_panics (FailJob 0%N 7%N "boom" false) wes). apply processing_ok. Defined.

Lemma schema_always_holds_witness :
  satisfies (image (replay [Event (QCancel 0%N) (at_second 3)] (wdb Queued 0))).
Proof.
  apply (schema_always_holds (wdb Queued 0) [Thread (trigger (QCancel 0%N))]
    [Event (QCancel 0%N) (at_second 3)] _
    [Thread (Ret (exec (QCancel 0%N) (at_second 3) (wdb Queued 0)).1)]).
  - apply queued_ok.
  - by repeat constructor.
  - eapply Concurrency.run_event; [|apply run_done].
    apply (sys_request (wdb Queued 0) [] [] _ _ (QCancel 0%N) Ret (at_second 3)).
Defined.

(** A submission to the queue there is, and one to another. *)
Definition local_job : NormalizedJob := normal_form (keyed_request <| new_queue := "q"%string |>) 0 0.

Lemma inserts_follow_schema_witness :
  satisfies (add_row "jobs" (insert_row jobs_table (submit_columns local_job) (at_second 3)
    (wdb Queued 0)) (image (wdb Queued 0))) ∧
  ¬ satisfies (add_row "jobs" (insert_row jobs_table (submit_columns keyed_job) (at_second 3)
    (wdb Queued 0)) (image (wdb Queued 0))).
Proof.
  destruct (inserts_follow_schema (at_second 3) (wdb Queued 0) queued_ok) as [Hjobs _]. split.
  - apply (proj1 (Hjobs local_job)). by eexists.
  - intros Hs. apply (proj2 (Hjobs keyed_job)) in Hs as [out Hout]. discriminate Hout.
Defined.

Lemma statement_errors_witness :
  ∃ c, c ∈ ["2201W"%string] ∧
    (exec (QListJobs None None None (-1) 0) (at_second 3) (wdb Queued 0)).1 = Err (pg_error c).
Proof.
  pose proof (statement_errors (QListJobs None None None (-1) 0) (at_second 3) (wdb Queued 0)
    queued_ok I eq_refl) as H.
  destruct H as (c & Hc & Heq). exists c. split; [exact Hc|]. exact (f_equal Err Heq).
Defined.

(** ** The store's methods *)

Lemma lease_next_progress_witness :
  ∃ j db', run_db wes (PgStore.lease_next 8%N ["q"%string] 30) (wdb Queued 0) =
    (Some (Ok (Some j)), db').
Proof.
  apply (lease_next_progress 8%N ["q"%string] 30 wes (wdb Queued 0) queued_ok wes_quiet).
  - by eexists.
  - exists 0%N, (sample_row Queued 0 true). split_and!; [apply wdb_row|done|set_solver].
Defined.

Lemma lease_next_grants_witness :
  ∃ j db', run_db wes (PgStore.lease_next 8%N ["q"%string] 30) (wdb Queued 0) =
    (Some (Ok (Some j)), db') ∧ job_locked_by j = Some 8%N.
Proof.
  destruct (tx_lease_candidate 8%N ["q"%string] 30 (at_second 10) (wdb Queued 0)
    (sample_row Queued 0 true) queued_ok eq_refl (ex_intro _ _ eq_refl)) as (j & db' & Ht).
  exists j, db'.
  assert (run_db wes (PgStore.lease_next 8%N ["q"%string] 30) (wdb Queued 0) =
    (Some (Ok (Some j)), db')) as Hrun.
  { rewrite run_lease_next by done. change (wes 0%nat) with (at_second 10).
    unfold run_tx. by rewrite Ht. }
  split; [exact Hrun|].
  destruct (lease_next_grants 8%N ["q"%string] 30 wes (wdb Queued 0) j db' queued_ok Hrun)
    as (r & _ & _ & _ & _ & _ & _ & _ & _ & _ & _ & _ & -> & _).
  reflexivity.
Defined.

Lemma retry_delays_agree_witness :
  fail_delay_secs (job_of_row (sample_row Processing 2 true) Processing) = Some 4.
Proof. apply (retry_delays_agree Processing). by apply sample_row_ok. Defined.

Lemma complete_job_spec_witness :
  run_db wes (PgStore.complete_job 0%N 8%N None) (wdb Processing 1) =
    (Some (Err (InvalidOperation "complete" Processing)), wdb Processing 1).
Proof.
  apply (complete_job_spec wes (wdb Processing 1) 0%N 8%N None wes_quiet) with
    (r := sample_row Processing 1 true); [apply wdb_row|reflexivity|reflexivity].
Defined.

Lemma fail_job_spec_witness :
  (run_db wes (PgStore.fail_job 0%N 7%N "boom" false) (wdb Processing 1)).1 =
    Some (Ok (job_of_row (set_retrying (Some "boom"%string) (12 * second) (10 * second)
                            (sample_row Processing 1 true)) Retrying)).
Proof.
  destruct (fail_job_spec wes (wdb Processing 1) 0%N 7%N "boom" false wes_quiet processing_ok)
    as [Hok _].
  rewrite (Hok (sample_row Processing 1 true)); [reflexivity|apply wdb_row|reflexivity|by eexists].
Defined.

Lemma renew_lease_spec_witness :
  (run_db wes (PgStore.renew_lease 0%N 8%N 30) (wdb Processing 1)).1 =
    Some (Err (InvalidOperation "renew_lease" Processing)).
Proof.
  destruct (renew_lease_spec wes (wdb Processing 1) 0%N 8%N 30 wes_quiet) as [_ Hno].
  rewrite Hno; [reflexivity|]. intros r Hr. by rewrite (wdb_row_inv _ _ _ _ Hr).
Defined.

Lemma cancel_job_spec_witness :
  run_db wes (PgStore.cancel_job 0%N) (wdb Completed 1) =
    (Some (Err (InvalidOperation "cancel" Completed)), wdb Completed 1).
Proof.
  apply (cancel_job_spec wes (wdb Completed 1) 0%N wes_quiet) with
    (r := sample_row Completed 1 true) (s := Completed); [apply wdb_row|reflexivity].
Defined.

Lemma retry_job_spec_witness :
  run_db wes (PgStore.retry_job 0%N) (wdb Completed 1) =
    (Some (Err (InvalidOperation "retry" Completed)), wdb Completed 1).
Proof.
  apply (retry_job_spec wes (wdb Completed 1) 0%N wes_quiet) with
    (r := sample_row Completed 1 true) (s := Completed); [apply wdb_row|reflexivity].
Defined.

Lemma purge_finished_spec_witness :
  db_jobs (run_db wes (PgStore.purge_finished second) (wdb Completed 1)).2 !! 0%N = None.
Proof.
  pose proof (purge_finished_spec wes (wdb Completed 1) second wes_quiet completed_ok) as H.
  destruct (run_db wes (PgStore.purge_finished second) (wdb Completed 1)) as [r db'].
  destruct H as (_ & Hgone & _). apply Hgone.
  exists (sample_row Completed 1 true), Completed.
  split_and!; [apply wdb_row|reflexivity|by left|done].
Defined.

Lemma submit_spec_witness :
  (run_db wes (PgStore.submit keyed_job) empty_db).1 =
    Some (Ok (mkSubmission (job_of_row (new_row keyed_job 99%N (10 * second)) Queued) true)).
Proof.
  destruct (submit_spec wes empty_db keyed_job wes_quiet empty_db_ok keyed_job_ok) as [_ Hnew].
  rewrite Hnew; [reflexivity| |reflexivity]. intros key id r _ Hr. discriminate Hr.
Defined.

(** The table that holds the key. *)
Definition taken_db : Db := replay [Event (QInsertQueue "emails") (at_second 1);
                                    Event (QInsertJob keyed_job) (at_second 2)] empty_db.

Lemma taken_db_ok : db_ok taken_db.
Proof. apply replay_ok; [|apply empty_db_ok]. by repeat constructor; try apply keyed_job_ok. Qed.

Lemma submit_race_resolved_witness :
  run (answer wes) (insert_submission keyed_job) (3%nat, taken_db) =
    (Some (Ok (mkSubmission (job_of_row (new_row keyed_job 99%N (2 * second)) Queued) false)),
     (5%nat, taken_db)).
Proof.
  apply (submit_race_resolved wes 3 taken_db keyed_job "k"%string 99%N
           (new_row keyed_job 99%N (2 * second)) Queued wes_quiet taken_db_ok keyed_job_ok);
    reflexivity.
Defined.

Lemma queue_stats_counts_witness :
  ∃ st, run_db wes (PgStore.queue_stats "q") (wdb Queued 0) = (Some (Ok st), wdb Queued 0) ∧
    qs_queued st = 1.
Proof.
  destruct (queue_stats_counts wes (wdb Queued 0) "q" wes_quiet queued_ok) as [_ Hst].
  destruct (Hst (mkQueueRow "q" false None 0)) as (st & Hrun & _ & Hcount & _).
  - apply lookup_singleton_eq.
  - exists st. split; [exact Hrun|]. exact (Hcount Queued).
Defined.

Lemma list_jobs_pages_witness :
  ∃ jobs, run_db wes (PgStore.list_jobs None None None 10 0) (wdb Queued 0) =
    (Some (Ok jobs), wdb Queued 0).
Proof.
  destruct (list_jobs_pages wes (wdb Queued 0) None None None wes_quiet queued_ok)
    as (sorted & _ & _ & Hpage).
  destruct (Hpage 10 0) as (jobs & Hrun & _); [lia|lia|]. exists jobs. exact Hrun.
Defined.

Lemma worker_registry_spec_witness :
  run_db wes (PgStore.heartbeat 7%N) (wdb Queued 0) = (Some (Ok false), wdb Queued 0).
Proof.
  destruct (worker_registry_spec wes (wdb Queued 0) 60 wes_quiet queued_ok) as [Hhb _].
  apply (Hhb 7%N).
Defined.


Lemma reaper_spares_live_leases_witness :
  db_jobs (run_db (λ _, at_second 0) (recover_expired_leases 10) (wdb Processing 1)).2 !! 0%N =
    Some (sample_row Processing 1 true).
Proof.
  apply (reaper_spares_live_leases (λ _, at_second 0) (wdb Processing 1) 10).
  - apply processing_ok.
  - apply wdb_row.
  - intros i. right. exists 1. by split.
Defined.

(** ** The worker *)

(** A store that refuses everything. *)
Definition refusing (A : Type) (e : StoreE A) (s : unit) : A * unit :=
  match e in StoreE A return A * unit with
  | RenewLease _ _ _ => (Err (Storage "down"), s)
  | EnsureQueue _ | SetQueuePaused _ _ => (Err (Storage "down"), s)
  | GetQueue _ => (Err (Storage "down"), s)
  | ListQueues => (Err (Storage "down"), s)
  | StoreQueueStats _ => (Err (Storage "down"), s)
  | Submit _ => (Err (Storage "down"), s)
  | GetJob _ | LeaseNext _ _ _ => (Err (Storage "down"), s)
  | ListJobs _ _ _ _ _ => (Err (Storage "down"), s)
  | ListAttempts _ => (Err (Storage "down"), s)
  | ListDeadLetter _ _ => (Err (Storage "down"), s)
  | CancelJob _ | RetryJob _ | CompleteJob _ _ _ | FailJob _ _ _ _ => (Err (Storage "down"), s)
  | PurgeFinished _ | PruneDeadWorkers _ => (Err (Storage "down"), s)
  | RecoverExpiredLeases _ => (Err (Storage "down"), s)
  | RegisterWorker _ | DeregisterWorker _ => (Err (Storage "down"), s)
  | Heartbeat _ => (Err (Storage "down"), s)
  | ListActiveWorkers _ => (Err (Storage "down"), s)
  end.

Definition idle_world : World (S := unit) := mkWorld tt (λ _, 0) 0 [] [].

Lemma execute_job_spec_witness :
  (run (worker_answer refusing (λ _ _, TimeElapsed) (S754_zero false))
     (execute_job (with_examples registry_new) 7%N
        (job_of_row (sample_row Processing 1 true) Processing)) idle_world).1 = Some tt.
Proof.
  pose proof (execute_job_spec refusing (λ _ _, TimeElapsed) (S754_zero false)
    (with_examples registry_new) 7%N (job_of_row (sample_row Processing 1 true) Processing)
    idle_world) as H.
  cbv zeta in H. rewrite H; [reflexivity|]. cbn. unfold i32_max. lia.
Defined.

Definition worker_cfg : WorkerConfig := worker_config_default 7%N.

Lemma concurrency_bounded_witness :
  Z.of_nat (length (rs_tasks (mkRunState Acquiring 8 [] []))) ≤ 8.
Proof.
  apply (concurrency_bounded worker_cfg [Registered (Ok tt)] (mkRunState Acquiring 8 [] []));
    [cbn; lia|reflexivity].
Defined.

(** A job is in flight when the shutdown comes, and outlives the grace. *)
Lemma shutdown_drains_witness :
  let job := job_of_row (sample_row Processing 1 true) Processing in
  let before := [Registered (Ok tt); Acquired; Leased (Ok (Some job))] in
  let after := [GraceElapsed; Deregistered (Ok tt)] in
  ∃ s s0 s', run_events worker_cfg run_start before = Some s ∧
    run_next worker_cfg s ShutDown = Some s0 ∧ run_events worker_cfg s0 after = Some s' ∧
    in_flight s' = [job] ∧
    ∃ rest s'', run_events worker_cfg s' rest = Some s'' ∧ rs_phase s'' = Stopped ∧
      in_flight s'' = [].
Proof.
  intros job before after.
  destruct (shutdown_drains worker_cfg before (mkRunState Acquiring 7 [job] []))
    as (_ & _ & Hdown); [by vm_compute|reflexivity|].
  destruct (Hdown (mkRunState Draining 7 [job] []) eq_refl) as (_ & Hafter).
  destruct (Hafter after (mkRunState Stopped 7 [] [job]) eq_refl) as (_ & _ & _ & _ & _ & _ & Hend).
  exists (mkRunState Acquiring 7 [job] []), (mkRunState Draining 7 [job] []),
    (mkRunState Stopped 7 [] [job]). by split_and!.
Defined.

(** ** From the worker to the tables *)

(** A flaky job, which fails its first attempt, and its worker. *)
Definition flaky_row : JobRow := (sample_row Queued 0 true) <| jr_job_type := "flaky"%string |>.
Definition flaky_db : Db := row_db flaky_row.
Definition flaky_registry : HandlerRegistry := register registry_new "flaky" flaky_handler.
Definition in_time (d : Duration) (p : prog HandlerE HandlerResult) : timed_result :=
  match handler_value p with Some r => Finished r | None => HandlerPanicked end.

(** A clock that moves by 100 seconds at each call, for some hours. *)
Definition slow_clock (k _ : nat) : Env := at_second (Z.min (100 * Z.of_nat k) 10000).

Lemma slow_clock_steady : steady slow_clock.
Proof.
  intros k i. split; [done|]. cbn. unfold second, pg_ts_min, pg_ts_end. lia.
Qed.

Lemma flaky_db_ok : db_ok flaky_db.
Proof.
  apply (row_db_ok Queued); [done..|].
  destruct (sample_row_ok Queued 0 true) as []; [done..|]. by split.
Qed.

Lemma flaky_in_time job : job_outcome in_time flaky_registry job ≠ None.
Proof.
  unfold job_outcome, flaky_registry, in_time.
  destruct (decide (job_job_type job = "flaky"%string)) as [->|Hne].
  - rewrite registry_get_eq. unfold flaky_handler, handler_value.
    by destruct (job_attempts job <? _).
  - by rewrite registry_get_ne.
Qed.


Definition flaky_world : World (S := nat * Db) := mkWorld (0%nat, flaky_db) (λ _, 0) 0 [] [].

Lemma worker_round_spec_witness :
  ∃ wd' db' r', run (worker_answer (pg_backend slow_clock) in_time (S754_zero false))
      (worker_round flaky_registry 7%N ["q"%string] 30) flaky_world = (Some tt, wd') ∧
    w_store wd' = (3%nat, db') ∧ db_jobs db' !! 0%N = Some r' ∧
    jr_attempts r' = 1 ∧ jr_locked_by r' = None.
Proof.
  destruct (worker_round_spec slow_clock slow_clock_steady in_time (S754_zero false) flaky_registry
    7%N ["q"%string] 30 ltac:(lia) flaky_world 0 flaky_db eq_refl flaky_db_ok)
    as (wd' & db' & id & r & r' & outcome & Hrun & Hst & _ & Hr & _ & _ & Hjobs & _ & Ha & Hl & _).
  - exists 0%N, flaky_row. split_and!; [done|by vm_compute|set_solver].
  - apply flaky_in_time.
  - exists wd', db', r'. cbn in Hr. apply lookup_singleton_Some in Hr as [<- <-].
    split_and!; [exact Hrun|exact Hst|by rewrite Hjobs, lookup_insert_eq|exact Ha|exact Hl].
Defined.


(** ** Clients of a lawful store: every statement of [PgStore] comes after a
    heartbeat of another worker. *)
Definition busy : Surroundings := mkSurroundings (λ k _, at_second (100 * Z.of_nat k))
  (λ _ _, [Event (QHeartbeat 8%N) (at_second 1)]).

Lemma busy_no_purge : no_purge busy.
Proof. intros k i. repeat constructor. by intros []. Qed.

Lemma pg_store_lawful_witness :
  no_purge busy ∧ ∃ L : LawfulStore (noisy_backend busy), sound (LawfulStore := L) (0%nat, wdb Queued 0).
Proof.
  split; [exact busy_no_purge|].
  destruct (pg_store_lawful busy busy_no_purge) as (L & Hs & _). exists L.
  apply Hs. exact queued_ok.
Defined.

(** Another worker leases the job and completes it. *)
Definition others_calls : list any_call :=
  [AnyCall (LeaseNext 8%N ["emails"%string] 30); AnyCall (CompleteJob 99%N 8%N None);
   AnyCall (CancelJob 99%N)].

Lemma others_harmless : Forall harmless others_calls.
Proof. repeat constructor; by intros []. Qed.

Definition busy_lawful : LawfulStore (noisy_backend busy) := pg_lawful busy busy_no_purge.

Definition busy_world (s : JobStatus) (a : Z) : World (S := nat * Db) :=
  mkWorld (0%nat, wdb s a) (λ _, 0) 0 [] [].

Definition posted := run (svc_answer (noisy_backend busy)) (submit_job (λ _, None) demo_request)
  (busy_world Queued 0).

(** The answer of a run computes; the tables it leaves need not. *)
Lemma answered {A S} (r : option A * S) a : r.1 = Some a → r = (Some a, r.2).
Proof. destruct r. cbn. by intros ->. Qed.

Lemma posted_ok : ∃ job, job_id job = 99%N ∧ posted = (Some (Ok (201, job)), posted.2).
Proof.
  assert (match posted.1 with Some (Ok (c, j)) => (c =? 201) && (job_id j =? 99)%N | _ => false end
    = true) as Hp by (by vm_compute).
  destruct posted.1 as [[[c j]|e]|] eqn:Hrun; [|done..].
  apply andb_true_iff in Hp as [->%Z.eqb_eq Hid%N.eqb_eq].
  exists j. split; [exact Hid|]. by apply answered.
Qed.

Lemma demo_in_range : new_in_range demo_request.
Proof. unfold new_in_range, is_i32. split_and!; [by vm_compute..| |]; cbn; intros z [= <-]; by vm_compute. Qed.

Definition reported_ok := run (svc_answer (noisy_backend busy))
  (report_outcome (job_of_row (sample_row Processing 1 true) Processing) 7%N
     (Success (Some DNull)) (S754_zero false)) (busy_world Processing 1).

Lemma reported_ok_run : ∃ job, reported_ok = (Some (Ok job), reported_ok.2).
Proof.
  assert (match reported_ok.1 with Some (Ok _) => true | _ => false end = true) as Hp by (by vm_compute).
  destruct reported_ok.1 as [[j|e]|] eqn:Hrun; [|done..]. exists j. by apply answered.
Qed.


Definition cancelled := run (svc_answer (noisy_backend busy)) (cancel_job_route 0%N)
  (busy_world Queued 0).

Lemma cancelled_ok : ∃ job, cancelled = (Some (Ok (200, job)), cancelled.2).
Proof.
  assert (match cancelled.1 with Some (Ok (c, _)) => c =? 200 | _ => false end = true) as Hp
    by (by vm_compute).
  destruct cancelled.1 as [[[c j]|e]|] eqn:Hrun; [|done..]. apply Z.eqb_eq in Hp as ->.
  exists j. by apply answered.
Qed.

Lemma cancel_visible_witness :
  ∃ job, cancelled.1 = Some (Ok (200, job)) ∧ job_status job = Status.Cancelled.
Proof.
  destruct cancelled_ok as (job & Hrun). exists job.
  destruct (cancel_visible (noisy_backend busy) (L := busy_lawful) 0%N (busy_world Queued 0) 200 job cancelled.2
    others_calls queued_ok Hrun others_harmless) as (Hc & _).
  split; [by rewrite Hrun|exact Hc].
Defined.

Lemma requests_well_typed_witness :
  new_in_range demo_request ∧
  all_reqs (λ A (e : SvcE A), svc_req_ok e) (submit_job (λ _, None) demo_request).
Proof.
  split; [exact demo_in_range|].
  destruct (requests_well_typed (λ _, None) demo_request (mkJobFilter None None None None None)
    (mkDlqQuery None None) (purge_request None) (mkCreateQueue "q") 0%N "q"%string maintenance_default [] (worker_of_row (mkWorkerRow 7%N "h" [] 1 0 0))
    ∅ [] 30 0%nat demo_in_range)
    as [[Hsubmit _] _]. exact Hsubmit.
Defined.

(** Two workers ask for the job; one gets it. *)
Lemma no_double_lease_witness :
  let l := [Event (TLease 8%N ["q"%string] 30) (at_second 3);
            Event (TLease 9%N ["q"%string] 30) (at_second 3);
            Event (TComplete 0%N 8%N None) (at_second 4)] in
  handouts 0%N l (wdb Queued 0) = 1.
Proof.
  intros l. assert (hands_out 0%N (Event (TLease 8%N ["q"%string] 30) (at_second 3)) (wdb Queued 0)
    = true) as Hfirst by (vm_compute; reflexivity).
  enough (0 ≤ handouts 0%N l (wdb Queued 0) ≤ 1) as Hle.
  { revert Hle. subst l. cbn [handouts]. rewrite Hfirst. repeat case_match; lia. }
  apply (no_double_lease l (wdb Queued 0) 0%N (sample_row Queued 0 true) Queued queued_ok).
  - repeat constructor.
  - apply wdb_row.
  - reflexivity.
  - repeat constructor; by intros [].
Defined.

(** ** Over HTTP: bodies are already parsed, ids are decimal. *)
Definition demo_path_uuid (s : string) : result Z Uuid :=
  match s with
  | String _ d => match NilEmpty.uint_of_string d with Some u => Ok (N.of_uint u) | None => Err 400 end
  | EmptyString => Err 400
  end.

#[local] Instance demo_axum : Axum := {|
  HttpBody := NewJob;
  router := dispatch;
  nest := with_prefix;
  path_uuid := demo_path_uuid;
  path_string := λ s, Ok s;
  query_filter := λ _, Ok (mkJobFilter None None None None None);
  query_dlq := λ _, Ok (mkDlqQuery None None);
  json_new_job := λ _ new, Ok new;
  json_create_queue := λ _ _, Ok (mkCreateQueue "q");
  json_purge := λ _ _, Ok None;
  header_value_ok := λ _, true;
  body_limit := λ _ _, None |}.

Lemma digits_split u :
  str_split "/" (String "u"%char (NilEmpty.string_of_uint u)) = [String "u"%char (NilEmpty.string_of_uint u)].
Proof.
  assert (∃ p, str_split "/" (NilEmpty.string_of_uint u) = [p] ∧ p = NilEmpty.string_of_uint u)
    as (p & Hp & Heq).
  { induction u as [|u IH|u IH|u IH|u IH|u IH|u IH|u IH|u IH|u IH|u IH]; [by eexists|..];
      destruct IH as (p & Hp & ->); eexists; cbn; by rewrite Hp. }
  cbn. by rewrite Hp, Heq.
Qed.

#[local] Instance demo_axum_laws : AxumLaws.
Proof.
  split; try done.
  - intros id. cbn. rewrite NilEmpty.usu. by rewrite DecimalN.Unsigned.of_to.
  - intros id. apply digits_split.
Qed.

Definition post_request : HttpRequest :=
  mkHttpRequest POST "/api/v1/jobs" "" (λ _, None) demo_request.
Definition get_request : HttpRequest :=
  mkHttpRequest GET ("/api/v1/jobs/" ++ uuid_to_string 99%N) "" (λ _, None) demo_request.

Definition http_posted := run (http_answer (noisy_backend busy) N.of_nat (λ _, Ok ""%string))
  (build_router 1048576 post_request) (busy_world Queued 0, 0%nat).

Lemma http_posted_ok :
  ∃ res job, http_posted = (Some res, (http_posted.2.1, http_posted.2.2)) ∧
    rs_code res = 201 ∧ rs_answer res = AJob job ∧ job_id job = 99%N.
Proof.
  assert (match http_posted.1 with
          | Some res => (rs_code res =? 201) &&
              match rs_answer res with AJob j => (job_id j =? 99)%N | _ => false end
          | None => false end = true) as Hp by (by vm_compute).
  destruct http_posted.1 as [res|] eqn:Hrun; [|done].
  apply andb_true_iff in Hp as [Hcode%Z.eqb_eq Hid].
  destruct (rs_answer res) as [j| | | | | | | | | | |] eqn:Ha; try done. apply N.eqb_eq in Hid.
  exists res, j. split_and!; try done. apply answered in Hrun. rewrite Hrun at 1.
  by destruct http_posted.2.
Qed.

Lemma http_read_your_writes_witness :
  ∃ res job, http_posted.1 = Some res ∧ rs_code res = 201 ∧ rs_answer res = AJob job ∧
    job_payload job = DNull ∧
    ∃ got, (run (http_answer (noisy_backend busy) N.of_nat (λ _, Ok ""%string))
              (build_router 1048576 get_request)
              (meanwhile (noisy_backend busy) others_calls http_posted.2.1, http_posted.2.2)).1 =
           Some got ∧
      ((rs_code got = 200 ∧ ∃ job', rs_answer got = AJob job' ∧ job_frame job' = job_frame job) ∨
       (rs_code got = 500 ∧ ∃ e, rs_answer got = AError e)).
Proof.
  destruct http_posted_ok as (res & job & Hrun & Hcode & Ha & Hid).
  assert (rq_path get_request = ("/api/v1/jobs/" ++ uuid_to_string (job_id job))%string) as Hpath
    by (rewrite Hid; reflexivity).
  destruct (http_read_your_writes (noisy_backend busy) N.of_nat (λ _, Ok ""%string)
    (L := busy_lawful) 1048576 post_request get_request demo_request (busy_world Queued 0) 0 res job
    http_posted.2.1 http_posted.2.2 others_calls queued_ok demo_in_range eq_refl eq_refl eq_refl
    eq_refl Hrun Ha others_harmless eq_refl Hpath eq_refl) as (_ & Hcr & Hgot).
  destruct (Hcr Hcode) as (_ & Hpl & _).
  exists res, job. split; [by rewrite Hrun|]. split; [exact Hcode|]. split; [exact Ha|].
  split; [exact Hpl|exact Hgot].
Defined.

(** The key in the body, and the same key in a header. *)
Definition urgent_request : NewJob := demo_request <| new_priority := 3 |>.

Lemma urgent_in_range : new_in_range urgent_request.
Proof. unfold new_in_range, is_i32. split_and!; [by vm_compute..| |]; cbn; intros z [= <-]; by vm_compute. Qed.

Definition key_request : HttpRequest :=
  mkHttpRequest POST "/api/v1/jobs" "" (λ _, None) keyed_request.
Definition header_request : HttpRequest :=
  mkHttpRequest POST "/api/v1/jobs" "" (λ h, if String.eqb h "idempotency-key" then Some "k"%string else None)
    urgent_request.

Definition http_first := run (http_answer (noisy_backend busy) N.of_nat (λ _, Ok ""%string))
  (build_router 1048576 key_request) (busy_world Queued 0, 0%nat).
Definition http_second := run (http_answer (noisy_backend busy) N.of_nat (λ _, Ok ""%string))
  (build_router 1048576 header_request)
  (meanwhile (noisy_backend busy) others_calls http_first.2.1, http_first.2.2).

(** The run was answered with a job. *)
Definition answered_job {S} (r : option HttpResponse * S) : bool :=
  match r.1 with
  | Some res => match rs_answer res with AJob _ => true | _ => false end
  | None => false
  end.

Lemma answered_job_run {S} (r : option HttpResponse * S) :
  answered_job r = true → ∃ res job, r = (Some res, r.2) ∧ rs_answer res = AJob job.
Proof.
  destruct r as [[res|] s]; [|done]. unfold answered_job. cbn.
  destruct (rs_answer res) eqn:Ha; try done. intros _. by eexists _, _.
Qed.

Lemma http_idempotent_witness :
  ∃ res1 job1 res2 job2, http_first.1 = Some res1 ∧ rs_answer res1 = AJob job1 ∧
    http_second.1 = Some res2 ∧ rs_answer res2 = AJob job2 ∧
    rs_code res2 = 200 ∧ job_id job2 = job_id job1.
Proof.
  destruct (answered_job_run http_first ltac:(by vm_compute)) as (res1 & job1 & H1 & Ha1).
  destruct (answered_job_run http_second ltac:(by vm_compute)) as (res2 & job2 & H2 & Ha2).
  rewrite (surjective_pairing http_first.2) in H1.
  destruct (http_idempotent (noisy_backend busy) N.of_nat (λ _, Ok ""%string)
    (L := busy_lawful) 1048576 key_request header_request keyed_request
    urgent_request "k" (busy_world Queued 0) 0 res1 job1
    http_first.2.1 http_first.2.2 others_calls res2 job2 http_second.2 queued_ok demo_in_range
    urgent_in_range eq_refl eq_refl eq_refl eq_refl eq_refl eq_refl eq_refl eq_refl eq_refl eq_refl
    eq_refl H1 Ha1 others_harmless H2 Ha2)
    as (Hcode & Hid & _).
  exists res1, job1, res2, job2. split; [by rewrite H1|]. split; [exact Ha1|].
  split; [by rewrite H2|]. split; [exact Ha2|]. split; [exact Hcode|exact Hid].
Defined.

Definition events_request : HttpRequest :=
  mkHttpRequest GET ("/api/v1/jobs/" ++ uuid_to_string 0%N ++ "/events") "" (λ _, None) demo_request.

Lemma result_streamed_witness :
  ∃ job ev, reported_ok.1 = Some (Ok job) ∧
    (run (sse_answer (noisy_backend busy)) (sse_events 3 (stream_start 0%N))
       (meanwhile (noisy_backend busy) others_calls
          (meanwhile (noisy_backend busy) others_calls reported_ok.2))).1 = Some [ev] ∧
    (ev = EvError ∨
     ev = EvStatus (mkJobEvent (job_id job) "completed" (job_attempts job) (job_last_error job))).
Proof.
  destruct reported_ok_run as (job & Hrun).
  destruct (result_streamed (noisy_backend busy) (L := busy_lawful) N.of_nat (λ _, Ok ""%string)
    (job_of_row (sample_row Processing 1 true) Processing) 7%N (Some DNull) (S754_zero false)
    (busy_world Processing 1) job reported_ok.2 others_calls 1048576 events_request 0 others_calls 2
    processing_ok Hrun others_harmless eq_refl eq_refl eq_refl others_harmless)
    as (got & _ & _ & _ & ev & Hev & Hwhich).
  exists job, ev. split; [by rewrite Hrun|]. split; [exact Hev|exact Hwhich].
Defined.

Lemma routing_exact_witness :
  router app_routes HEAD (endpoint_path EpQueueStats "emails") = To EpQueueStats ["emails"%string].
Proof.
  destruct (routing_exact HEAD (endpoint_path EpQueueStats "emails") EpQueueStats ["emails"%string])
    as (_ & _ & Hback).
  apply Hback. exists "emails"%string. split; [by split|]. split; [reflexivity|].
  split; [reflexivity|]. right. by split.
Defined.

Definition healthz_request : HttpRequest :=
  mkHttpRequest GET "/healthz" "" (λ _, None) demo_request.

Definition healthz_run := run (http_answer (noisy_backend busy) N.of_nat (λ _, Ok ""%string))
  (route healthz_request) (busy_world Queued 0, drawn healthz_request 5).

Lemma healthz_routed : ∃ routed, healthz_run = (Some routed, healthz_run.2).
Proof.
  assert (match healthz_run.1 with Some _ => true | None => false end = true) as Hp by (by vm_compute).
  destruct healthz_run.1 as [routed|] eqn:Hr; [|done]. exists routed. by apply answered.
Qed.

Lemma correlation_id_echoed_witness :
  ∃ res, run (http_answer (noisy_backend busy) N.of_nat (λ _, Ok ""%string))
      (build_router 1048576 healthz_request) (busy_world Queued 0, 5%nat) =
      (Some res, healthz_run.2) ∧
    rs_headers res !! "x-correlation-id"%string = Some "u5"%string.
Proof.
  pose proof (correlation_id_echoed (noisy_backend busy) N.of_nat (λ _, Ok ""%string) 1048576
    healthz_request (busy_world Queued 0) 5) as H.
  assert (body_limit 1048576 (rq_headers healthz_request) = None) as Hl by reflexivity.
  rewrite Hl in H. destruct healthz_routed as (routed & Hr). unfold healthz_run at 1 in Hr.
  rewrite Hr in H. destruct H as (res & Hrun & _ & _ & Hh & _). exists res.
  split; [exact Hrun|exact Hh].
Defined.

(** ** Liveness: worker 8 leases the job, completes it, and nothing happens. *)

Definition drain0 : system := (wdb Queued 0, []).
Definition drain1 : system := (drain0.1, [Thread (pg_store (LeaseNext 8%N ["q"%string] 30))]).
Definition drain2 : system := step_thread drain1 (0%nat, at_second 10).
Definition drain3 : system := (drain2.1, Thread (pg_store (CompleteJob 0%N 8%N None)) :: drain2.2).
Definition drain4 : system := step_thread drain3 (0%nat, at_second 11).

Definition drain_sys (n : nat) : system :=
  match n with
  | 0%nat => drain0 | 1%nat => drain1 | 2%nat => drain2 | 3%nat => drain3 | _ => drain4
  end.

Definition drain_events (n : nat) : option event :=
  match n with
  | 1%nat => thread_event drain1 (0%nat, at_second 10)
  | 3%nat => thread_event drain3 (0%nat, at_second 11)
  | _ => None
  end.

Lemma drain_executes : execution drain_sys drain_events.
Proof.
  intros [|[|[|[|n]]]]; cbn [drain_sys drain_events].
  - right. apply (sys_call _ _ _ (LeaseNext 8%N ["q"%string] 30)). exact I.
  - apply (step_thread_step drain1).
  - right. unfold drain3. rewrite (surjective_pairing drain2) at 1.
    apply (sys_call _ _ _ (CompleteJob 0%N 8%N None)). exact I.
  - apply (step_thread_step drain3).
  - by left.
Qed.

(** The statuses in a table of one job. *)
Lemma one_status (m : gmap Uuid JobRow) st id r :
  map_to_list (jr_status <$> m) = [(0%N, st)] → m !! id = Some r → id = 0%N ∧ jr_status r = st.
Proof.
  intros Hl Hr. assert ((id, jr_status r) ∈ map_to_list (jr_status <$> m)) as Hin
    by (apply elem_of_map_to_list; by rewrite lookup_fmap, Hr).
  rewrite Hl in Hin. apply list_elem_of_singleton in Hin. by simplify_eq.
Qed.

Lemma queued_row id r :
  db_jobs (wdb Queued 0) !! id = Some r → id = 0%N ∧ r = sample_row Queued 0 true.
Proof. cbn. by intros [<- <-]%lookup_singleton_Some. Qed.

Lemma leased_status id r :
  db_jobs drain2.1 !! id = Some r → id = 0%N ∧ jr_status r = as_str Processing.
Proof. apply one_status. by vm_compute. Qed.

Lemma completed_status id r :
  db_jobs drain4.1 !! id = Some r → id = 0%N ∧ jr_status r = as_str Completed.
Proof. apply one_status. by vm_compute. Qed.

Lemma drain_draining : draining drain_sys drain_events.
Proof.
  split; [apply drain_executes|apply queued_ok|constructor|].
  intros [|[|[|[|n]]]] ev; cbn [drain_events]; try done.
  - change (Some (Event (TLease 8%N ["q"%string] 30) (at_second 10)) = Some ev → ¬ new_work ev).
    by intros [= <-] [].
  - change (Some (Event (TComplete 0%N 8%N None) (at_second 11)) = Some ev → ¬ new_work ev).
    by intros [= <-] [].
Qed.

Lemma drain_fair : fair drain_sys drain_events.
Proof.
  split.
  - intros n id r s Hr Hs Hl. destruct n as [|[|[|[|n]]]]; cbn [drain_sys] in Hr.
    1-2: apply queued_row in Hr as [-> ->]; exists 1%nat; split; [lia|]; right;
      exists (sample_row Queued 0 true), (Event (TLease 8%N ["q"%string] 30) (at_second 10));
      split; [apply wdb_row|]; split; [reflexivity|]; cbn [polls];
      (split; [reflexivity|]); (split; [by split|]); (split; [lia|]);
      split; [reflexivity|]; apply not_elem_of_empty.
    1-2: apply leased_status in Hr as [_ Hr]; rewrite Hs in Hr; by destruct s.
    apply completed_status in Hr as [_ Hr]. rewrite Hs in Hr. by destruct s.
  - intros n id r Hr Hs. destruct n as [|[|[|[|n]]]]; cbn [drain_sys] in Hr.
    1-2: by apply queued_row in Hr as [-> ->].
    1-2: exists 4%nat; split; [lia|]; left; intros r' [_ Hr']%completed_status [Hst _];
      by rewrite Hr', Hs in Hst.
    apply completed_status in Hr as [_ Hr]. by rewrite Hr in Hs.
Qed.

Lemma queue_drains_witness :
  ∃ n, ∀ m id r, (n ≤ m)%nat → db_jobs (drain_sys m).1 !! id = Some r → row_finished r.
Proof. apply (queue_drains drain_sys drain_events drain_draining drain_fair). Defined.
